(** * Plan B Cassandra: the cluster provisioning orchestrator

    A shallow embedding of [planb/create_cluster.py] and the properties of
    its address allocator, seed selector, launch sequencer and rollback
    handler.

    Conventions of the embedding.
    - Python [dict]s (and [collections.defaultdict]) are insertion-ordered
      association lists with unique keys ([Dict]); the source iterates them
      with [.items()] and relies on that order.
    - The cloud provider, the docker registry and the local [keytool] are
      external: a [Cloud] record gives, for every request, the answer as a
      function of the requests issued so far, so that an answer may change
      over time and any request may fail.
    - A computation [M A] reads the history of requests, updates the two
      dictionaries [create_cluster] shares with its helpers ([node_ips] and
      [security_groups]) and emits the requests it issues, in order.
    - [netaddr.IPNetwork(cidr).iter_hosts()] is a parameter [iter_hosts].
    - Console output ([info], [Action], the success and failure messages)
      and the contents of the Taupage user data are not modelled; they
      issue no request and touch no dictionary. *)

From Stdlib Require Import List String Ascii ZArith Lia Bool Arith PeanoNat.
From Stdlib Require Import DecimalString.
Import ListNotations.
Local Open Scope string_scope.
Local Open Scope list_scope.

Set Implicit Arguments.

(** ** Python dictionaries *)

Module Dict.
Section WithValue.
Variable V : Type.

Definition t := list (string * V).

Definition empty : t := [].

Fixpoint get (k : string) (d : t) : option V :=
  match d with
  | [] => None
  | (k', v) :: d' => if String.eqb k k' then Some v else get k d'
  end.

(** [d[k] = v]: an existing key keeps its position, a new key goes last. *)
Fixpoint set (k : string) (v : V) (d : t) : t :=
  match d with
  | [] => [(k, v)]
  | (k', v') :: d' =>
      if String.eqb k k' then (k', v) :: d' else (k', v') :: set k v d'
  end.

Definition keys (d : t) : list string := map fst d.
Definition values (d : t) : list V := map snd d.
Definition items (d : t) : list (string * V) := d.
End WithValue.

Section DefaultList.
Variable X : Type.

(** [d[k]] on a [defaultdict(list)], read only. *)
Definition get_list (k : string) (d : t (list X)) : list X :=
  match get k d with Some l => l | None => [] end.

(** [d[k].append(x)] on a [defaultdict(list)]. *)
Definition append (k : string) (x : X) (d : t (list X)) : t (list X) :=
  set k (get_list k d ++ [x]) d.
End DefaultList.
End Dict.

(** ** Data *)

Definition Region := string.
Definition IpAddress := string.

Record Tag := mkTag { Key : string; Value : string }.

(** An entry of [describe_subnets()['Subnets']]; boto3 leaves ['Tags'] out
    of an untagged subnet. *)
Record Subnet := mkSubnet {
  SubnetId : string;
  CidrBlock : string;
  AvailabilityZone : string;
  Tags : option (list Tag)
}.

(** An entry of [node_ips[region]]. *)
Record NodeAddress := mkNodeAddress {
  PrivateIp : IpAddress;
  _defaultIp : IpAddress;
  PublicIp : option IpAddress;
  AllocationId : option string
}.

Record SecurityGroup := mkSecurityGroup { GroupId : string }.

Record Image := mkImage { image_name : string; image_id : string }.

Record HostedZone := mkHostedZone { zone_name : string; zone_id : string }.

Inductive IpPermission :=
| TcpFromCidr (port : Z) (cidr_ip : string)
| AllFromGroup (group_id : string)
| TcpFromGroup (port : Z) (group_id : string).

Record Options := mkOptions {
  cluster_name : string;
  regions : list Region;
  cluster_size : Z;
  use_dmz : bool;
  hosted_zone : option string;
  sns_topic : option string;
  sns_email : option string;
  docker_image : option string;
  artifact_name : option string;
  volume_type : string;
  volume_size : Z;
  volume_iops : Z;
  instance_type : string;
  no_termination_protection : bool;
  environment : list string
}.

(** Truth value of an optional string option: [None] and [''] are false. *)
Definition truthy (o : option string) : bool :=
  match o with
  | Some s => negb (String.eqb s "")
  | None => false
  end.

(** ** Exceptions *)

(** What an external service can answer instead of a result. *)
Inductive ExternalError :=
| ServiceError (code : string)       (* botocore.exceptions.ClientError *)
| TransportError (what : string).    (* anything else the call throws *)

Inductive Exn :=
| IpAddressPoolDepletedException (cidr_block : string)
| ClientError (code : string)
| ExternalFailure (what : string)
| Exception_ (msg : string)
| UsageError (msg : string)
| ZeroDivisionError
| IndexError
| KeyError (key : string)
| TypeError
| ValueError.

Definition external_exn (e : ExternalError) : Exn :=
  match e with
  | ServiceError c => ClientError c
  | TransportError w => ExternalFailure w
  end.

(** ** Requests *)

Inductive NodeType := SEED | NORMAL.

Inductive Event :=
| GetArtifactTags (artifact : string)
| GenerateCertificate (name : string)
| DescribeImages (region : Region)
| DescribeSubnets (region : Region)
| DescribeInstancesByPrivateIp (region : Region) (ip : IpAddress)
| AllocateAddress (region : Region)
| SetupSnsTopics (rs : list Region) (topic email : option string)
| ListHostedZonesByName (dns_name : string)
| ChangeResourceRecordSets (zone name : string) (records : list string)
| DescribeVpcs (region : Region)
| CreateSecurityGroup (region : Region) (group_name vpc_id : string)
| CreateTags (region : Region) (resource : string) (tags : list Tag)
| DescribeSecurityGroups (region : Region) (group_name : string)
| AuthorizeSecurityGroupIngress
    (region : Region) (group_id : string) (perms : list IpPermission)
| EnsureInstanceProfile (name : string)
| CreateVolume (region : Region) (zone vtype : string) (size : Z)
    (iops : option Z)
| RunInstances (region : Region) (node_type : NodeType)
    (private_ip : IpAddress) (subnet_id group_id image : string)
| DescribeInstanceState (region : Region) (instance_id : string)
| AssociateAddress (region : Region) (instance_id allocation_id : string)
| CreateAutoRecoveryAlarm (region : Region) (name instance_id : string)
    (topic : option string)
| DeleteSecurityGroup (region : Region) (group_id : string)
| ReleaseAddress (region : Region) (allocation_id : string)
| Sleep (seconds : Z).

Definition History := list Event.

(** The external world: each answer may depend on everything requested
    before.  [RunInstances] carries the [is_seed] argument of
    [launch_instance] so that the two launch phases can be told apart in a
    trace; the provider does not see it. *)
Record Cloud := mkCloud {
  get_artifact_tags : History -> string -> ExternalError + list string;
  keytool : History -> string -> ExternalError + option (string * string);
  describe_images : History -> Region -> ExternalError + list Image;
  describe_subnets : History -> Region -> ExternalError + list Subnet;
  describe_instances_by_private_ip :
    History -> Region -> IpAddress -> ExternalError + list string;
  allocate_address : History -> Region -> ExternalError + string * string;
  setup_sns_topics_for_alarm :
    History -> list Region -> option string -> option string ->
    ExternalError + Dict.t string;
  list_hosted_zones_by_name :
    History -> string -> ExternalError + list HostedZone;
  change_resource_record_sets :
    History -> string -> string -> list string -> ExternalError + unit;
  describe_vpcs : History -> Region -> ExternalError + list string;
  create_security_group :
    History -> Region -> string -> string -> ExternalError + SecurityGroup;
  create_tags :
    History -> Region -> string -> list Tag -> ExternalError + unit;
  describe_security_groups :
    History -> Region -> string -> ExternalError + list SecurityGroup;
  authorize_security_group_ingress :
    History -> Region -> string -> list IpPermission -> ExternalError + unit;
  ensure_instance_profile : History -> string -> ExternalError + string;
  create_volume :
    History -> Region -> string -> string -> Z -> option Z ->
    ExternalError + string;
  run_instances :
    History -> Region -> IpAddress -> string -> string -> string ->
    ExternalError + list string;
  describe_instance_state :
    History -> Region -> string -> ExternalError + string;
  associate_address :
    History -> Region -> string -> string -> ExternalError + unit;
  create_auto_recovery_alarm :
    History -> Region -> string -> string -> option string ->
    ExternalError + unit;
  delete_security_group :
    History -> Region -> string -> ExternalError + unit;
  release_address : History -> Region -> string -> ExternalError + unit
}.

(** ** The store shared by [create_cluster] and its helpers *)

Record Store := mkStore {
  node_ips : Dict.t (list NodeAddress);
  security_groups : Dict.t SecurityGroup
}.

Definition empty_store : Store := mkStore (Dict.empty _) (Dict.empty _).

(** ** Computations *)

Inductive Outcome (A : Type) : Type :=
| Return (a : A)
| Raise (e : Exn)
| Hang.
Arguments Return {A} a.
Arguments Raise {A} e.
Arguments Hang {A}.

Definition M (A : Type) : Type :=
  Store -> History -> Outcome A * Store * list Event.

Definition ret {A} (a : A) : M A := fun s _ => (Return a, s, []).

Definition bind {A B} (m : M A) (f : A -> M B) : M B :=
  fun s h =>
    match m s h with
    | (Return a, s1, e1) =>
        match f a s1 (h ++ e1) with
        | (r, s2, e2) => (r, s2, e1 ++ e2)
        end
    | (Raise e, s1, e1) => (Raise e, s1, e1)
    | (Hang, s1, e1) => (Hang, s1, e1)
    end.

Definition raise {A} (e : Exn) : M A := fun s _ => (Raise e, s, []).

Definition hang {A} : M A := fun s _ => (Hang, s, []).

(** Issue one request: it is recorded whether or not it succeeds. *)
Definition request {R} (ev : Event) (answer : History -> ExternalError + R)
  : M R :=
  fun s h =>
    match answer h with
    | inr r => (Return r, s, [ev])
    | inl e => (Raise (external_exn e), s, [ev])
    end.

(** [time.sleep(n)]. *)
Definition sleep (n : Z) : M unit := fun s _ => (Return tt, s, [Sleep n]).

Definition get_store : M Store := fun s _ => (Return s, s, []).

Definition modify (f : Store -> Store) : M unit :=
  fun s _ => (Return tt, f s, []).

(** [try: m except: h] with a handler that sees the exception. *)
Definition try_except {A} (m : M A) (handler : Exn -> M A) : M A :=
  fun s h =>
    match m s h with
    | (Raise e, s1, e1) =>
        match handler e s1 (h ++ e1) with
        | (r, s2, e2) => (r, s2, e1 ++ e2)
        end
    | other => other
    end.

Declare Scope py_scope.
Delimit Scope py_scope with py.
Notation "x <- m ;; k" := (bind m (fun x => k))
  (at level 61, m at next level, right associativity) : py_scope.
Notation "' pat <- m ;; k" := (bind m (fun x => match x with pat => k end))
  (at level 61, pat pattern, m at next level, right associativity) : py_scope.
Notation "m ;; k" := (bind m (fun _ => k))
  (at level 61, right associativity) : py_scope.
Local Open Scope py_scope.

(** [for x in xs: body(x)]. *)
Fixpoint for_each {X} (xs : list X) (body : X -> M unit) : M unit :=
  match xs with
  | [] => ret tt
  | x :: xs' => body x ;; for_each xs' body
  end.

(** [for i, x in enumerate(xs): body(i, x)], counting from [i0]. *)
Fixpoint for_enumerate {X} (i0 : nat) (xs : list X) (body : nat -> X -> M unit)
  : M unit :=
  match xs with
  | [] => ret tt
  | x :: xs' => body i0 x ;; for_enumerate (S i0) xs' body
  end.

(** [xs[i]] on a list. *)
Definition index {X} (xs : list X) (i : nat) : M X :=
  match nth_error xs i with
  | Some x => ret x
  | None => raise IndexError
  end.

(** [d[k]] on a plain dict. *)
Definition lookup {V} (d : Dict.t V) (k : string) : M V :=
  match Dict.get k d with
  | Some v => ret v
  | None => raise (KeyError k)
  end.

(** [a % b] on non-negative integers. *)
Definition py_mod (a b : nat) : M nat :=
  match b with
  | O => raise ZeroDivisionError
  | _ => ret (a mod b)
  end.

(** ** Strings and sorting *)

(** [sep.join(parts)]. *)
Fixpoint join (sep : string) (parts : list string) : string :=
  match parts with
  | [] => ""
  | [p] => p
  | p :: rest => p ++ sep ++ join sep rest
  end.

(** ['-'.join(ip.split('.'))]: every dot becomes a dash. *)
Fixpoint dots_to_dashes (s : string) : string :=
  match s with
  | EmptyString => EmptyString
  | String c s' =>
      String (if Ascii.eqb c "."%char then "-"%char else c) (dots_to_dashes s')
  end.

Fixpoint has_colon (s : string) : bool :=
  match s with
  | EmptyString => false
  | String c s' => Ascii.eqb c ":"%char || has_colon s'
  end.

(** [s.split(':')[-1]]: what follows the last colon, all of [s] without one. *)
Fixpoint after_last_colon (s : string) : string :=
  match s with
  | EmptyString => EmptyString
  | String c s' =>
      if Ascii.eqb c ":"%char || has_colon s' then after_last_colon s'
      else s
  end.

(** [sorted(xs, key=key)] for string keys: a stable insertion sort. *)
Section Sorted.
Variable X : Type.
Variable key : X -> string.

Fixpoint insert_by_key (x : X) (sorted : list X) : list X :=
  match sorted with
  | [] => [x]
  | y :: ys =>
      if String.leb (key x) (key y) then x :: y :: ys
      else y :: insert_by_key x ys
  end.

Fixpoint sorted_by_key (xs : list X) : list X :=
  match xs with
  | [] => []
  | x :: xs' => insert_by_key x (sorted_by_key xs')
  end.
End Sorted.

(** ** The program *)

Section Program.
Variable cloud : Cloud.

(** [netaddr.IPNetwork(cidr).iter_hosts()], already turned into strings:
    the finite sequence of host addresses of a CIDR block. *)
Variable iter_hosts : string -> list IpAddress.

(** How many times the wait for an instance to leave 'pending' is
    observed before the run counts as hanging; the source waits without
    bound. *)
Variable poll_budget : nat.

(** *** Address Allocator *)

(** [try_next_address]: an iterator is the list of what it has left. *)
Definition try_next_address (ips : list IpAddress) (subnet : Subnet)
  : M (IpAddress * list IpAddress) :=
  match ips with
  | ip :: rest => ret (ip, rest)
  | [] => raise (IpAddressPoolDepletedException (CidrBlock subnet))
  end.

(** [for _ in range(n): try_next_address(ips, subnet)]. *)
Fixpoint skip_addresses (n : nat) (ips : list IpAddress) (subnet : Subnet)
  : M (list IpAddress) :=
  match n with
  | O => ret ips
  | S n' =>
      '(_, rest) <- try_next_address ips subnet ;;
      skip_addresses n' rest subnet
  end.

Definition reserved_count : nat := 10.

(** The first loop of [generate_private_ip_addresses]: the iterators of
    [network_ips] from position [idx] on, each advanced past the
    addresses AWS keeps for itself. *)
Fixpoint skip_reserved (subnets : list Subnet) (idx : nat)
    (network_ips : list (list IpAddress)) : M (list (list IpAddress)) :=
  match network_ips with
  | [] => ret []
  | ips :: others =>
      subnet <- index subnets idx ;;
      ips' <- skip_addresses reserved_count ips subnet ;;
      others' <- skip_reserved subnets (S idx) others ;;
      ret (ips' :: others')
  end.

(** Replace the iterator at [idx] by its advanced state. *)
Fixpoint advance (network_ips : list (list IpAddress)) (idx : nat)
    (rest : list IpAddress) : list (list IpAddress) :=
  match network_ips, idx with
  | [], _ => []
  | _ :: others, O => rest :: others
  | ips :: others, S idx' => ips :: advance others idx' rest
  end.

Definition remaining (network_ips : list (list IpAddress)) : nat :=
  fold_right (fun ips n => List.length ips + n)%nat 0%nat network_ips.

(** The [while i < cluster_size] loop.  [yield_] is the body of the
    [for] loop that consumes the generator; every iteration draws one
    address, so [fuel] bounds the iterations by what the iterators hold. *)
Fixpoint while_quota (region : Region) (subnets : list Subnet)
    (cluster_size : Z) (yield_ : IpAddress -> M unit)
    (fuel : nat) (i : nat) (network_ips : list (list IpAddress)) : M unit :=
  match fuel with
  | O => hang
  | S fuel' =>
      if (Z.of_nat i <? cluster_size)%Z then
        idx <- py_mod i (List.length subnets) ;;
        ips <- index network_ips idx ;;
        subnet <- index subnets idx ;;
        '(ip, rest) <- try_next_address ips subnet ;;
        let network_ips' := advance network_ips idx rest in
        reservations <-
          request (DescribeInstancesByPrivateIp region ip)
            (fun h => describe_instances_by_private_ip cloud h region ip) ;;
        match reservations with
        | [] =>
            yield_ ip ;;
            while_quota region subnets cluster_size yield_ fuel' (S i)
              network_ips'
        | _ :: _ =>
            while_quota region subnets cluster_size yield_ fuel' i
              network_ips'
        end
      else ret tt
  end.

(** [for ip in generate_private_ip_addresses(ec2, subnets, cluster_size):
    yield_(ip)], where [ec2] is the client of [region]. *)
Definition generate_private_ip_addresses (region : Region)
    (subnets : list Subnet) (cluster_size : Z)
    (yield_ : IpAddress -> M unit) : M unit :=
  let network_ips := map (fun s => iter_hosts (CidrBlock s)) subnets in
  network_ips' <- skip_reserved subnets 0 network_ips ;;
  while_quota region subnets cluster_size yield_
    (S (remaining network_ips')) 0 network_ips'.

(** The body of the loop over the generated addresses. *)
Definition allocate_one (region : Region) (take_elastic_ips : bool)
    (ip : IpAddress) : M unit :=
  address <-
    (if take_elastic_ips then
       '(public_ip, allocation_id) <-
         request (AllocateAddress region)
           (fun h => allocate_address cloud h region) ;;
       ret (mkNodeAddress ip public_ip (Some public_ip) (Some allocation_id))
     else ret (mkNodeAddress ip ip None None)) ;;
  modify (fun s =>
    mkStore (Dict.append region address (node_ips s)) (security_groups s)).

(** One turn of the loop over the regions. *)
Definition allocate_in_region (region : Region) (subnets : list Subnet)
    (cluster_size : Z) (take_elastic_ips : bool) : M unit :=
  generate_private_ip_addresses region subnets cluster_size
    (allocate_one region take_elastic_ips).

Definition allocate_ip_addresses (region_subnets : Dict.t (list Subnet))
    (cluster_size : Z) (take_elastic_ips : bool) : M unit :=
  for_each (Dict.items region_subnets) (fun '(region, subnets) =>
    allocate_in_region region subnets cluster_size take_elastic_ips).

(** *** Seed Selector *)

(** [ips[0:stop]]. *)
Definition slice_to {X} (stop : Z) (ips : list X) : list X :=
  if (0 <=? stop)%Z then firstn (Z.to_nat stop) ips
  else firstn (List.length ips - Z.to_nat (- stop)) ips.

Definition pick_seed_node_ips (node_ips : Dict.t (list NodeAddress))
    (seed_count : Z) : Dict.t (list NodeAddress) :=
  fold_left
    (fun seed_nodes '(region, ips) =>
       Dict.set region (slice_to seed_count ips) seed_nodes)
    (Dict.items node_ips) (Dict.empty _).

(** *** Lookups that precede allocation *)

(** [for x in xs: acc = body(acc, x)], for a loop that builds a local. *)
Fixpoint fold_each {X Acc} (xs : list X) (acc : Acc)
    (body : Acc -> X -> M Acc) : M Acc :=
  match xs with
  | [] => ret acc
  | x :: xs' => acc' <- body acc x ;; fold_each xs' acc' body
  end.

(** [xs[-1]]. *)
Definition index_last {X} (xs : list X) : M X :=
  match rev xs with
  | x :: _ => ret x
  | [] => raise IndexError
  end.

Definition find_taupage_amis (regions : list Region) : M (Dict.t Image) :=
  fold_each regions (Dict.empty _) (fun result region =>
    images <- request (DescribeImages region)
                (fun h => describe_images cloud h region) ;;
    match images with
    | [] => raise (Exception_ "No Taupage AMI found")
    | _ :: _ =>
        most_recent_image <- index_last (sorted_by_key image_name images) ;;
        ret (Dict.set region most_recent_image result)
    end).

(** The tags of one subnet: the subnet is appended once for every 'Name'
    tag that starts with the prefix. *)
Definition matching_tags (prefix_filter : string) (tags : list Tag) : nat :=
  List.length
    (filter (fun tag =>
               String.eqb (Key tag) "Name"
               && String.prefix prefix_filter (Value tag)) tags).

Definition get_subnets (prefix_filter : string) (regions : list Region)
  : M (Dict.t (list Subnet)) :=
  fold_each regions (Dict.empty _) (fun subnets region =>
    resp <- request (DescribeSubnets region)
              (fun h => describe_subnets cloud h region) ;;
    let sorted_subnets := sorted_by_key AvailabilityZone resp in
    fold_each sorted_subnets subnets (fun subnets subnet =>
      match Tags subnet with
      | None => raise (KeyError "Tags")
      | Some tags =>
          ret (fold_right (fun _ d => Dict.append region subnet d) subnets
                 (repeat tt (matching_tags prefix_filter tags)))
      end)).

(** *** Resource Provisioners *)

Definition hostname_from_private_ip (region : Region) (ip : IpAddress)
  : string :=
  ("ip-" ++ dots_to_dashes ip ++ "." ++ region ++ ".compute.internal.")%string.

Definition make_dns_records (region : Region) (ips : list NodeAddress)
  : list string :=
  map (fun host => ("1 1 9042 " ++ host)%string)
    (map (fun ip => hostname_from_private_ip region (PrivateIp ip)) ips).

Definition setup_dns_records (cluster_name hosted_zone : string) : M unit :=
  zones <- request (ListHostedZonesByName hosted_zone)
             (fun h => list_hosted_zones_by_name cloud h hosted_zone) ;;
  let zone :=
    fold_left
      (fun zone z =>
         if String.eqb (zone_name z) hosted_zone then Some z else zone)
      zones None in
  match zone with
  | None =>
      raise (Exception_ ("Failed to find Hosted Zone " ++ hosted_zone)%string)
  | Some zone =>
      s <- get_store ;;
      for_each (Dict.items (node_ips s)) (fun '(region, ips) =>
        let name :=
          ("_" ++ cluster_name ++ "-" ++ region ++ "._tcp."
           ++ hosted_zone)%string in
        let records := make_dns_records region ips in
        request (ChangeResourceRecordSets (zone_id zone) name records)
          (fun h =>
             change_resource_record_sets cloud h (zone_id zone) name
               records))
  end.

(** [ip['PublicIp']] and [ip['AllocationId']]. *)
Definition public_ip_of (ip : NodeAddress) : M IpAddress :=
  match PublicIp ip with
  | Some p => ret p
  | None => raise (KeyError "PublicIp")
  end.

Definition allocation_id_of (ip : NodeAddress) : M string :=
  match AllocationId ip with
  | Some a => ret a
  | None => raise (KeyError "AllocationId")
  end.

Definition odd_group_name : string := "Odd (SSH Bastion Host)".

(** The [try ... except ClientError] block around the bastion lookup. *)
Definition add_odd_ingress_rule (region : Region)
    (ip_permissions : list IpPermission) : M (list IpPermission) :=
  try_except
    (resp <- request (DescribeSecurityGroups region odd_group_name)
               (fun h => describe_security_groups cloud h region
                           odd_group_name) ;;
     odd_sg <- index resp 0 ;;
     ret (ip_permissions ++ [TcpFromGroup 22 (GroupId odd_sg)]))
    (fun e =>
       match e with
       | ClientError _ => ret ip_permissions
       | _ => raise e
       end).

Definition setup_security_groups (use_dmz : bool) (cluster_name : string)
  : M unit :=
  s0 <- get_store ;;
  for_each (Dict.items (node_ips s0)) (fun '(region, _) =>
    vpcs <- request (DescribeVpcs region)
              (fun h => describe_vpcs cloud h region) ;;
    vpc <- index vpcs 0 ;;
    let sg_name := cluster_name in
    sg <- request (CreateSecurityGroup region sg_name vpc)
            (fun h => create_security_group cloud h region sg_name vpc) ;;
    modify (fun s =>
      mkStore (node_ips s) (Dict.set region sg (security_groups s))) ;;
    request (CreateTags region (GroupId sg) [mkTag "Name" sg_name])
      (fun h => create_tags cloud h region (GroupId sg)
                  [mkTag "Name" sg_name]) ;;
    ip_permissions <-
      (if use_dmz then
         s <- get_store ;;
         fold_each (List.concat (Dict.values (node_ips s))) []
           (fun perms ip =>
              public_ip <- public_ip_of ip ;;
              ret (perms ++ [TcpFromCidr 7001 (public_ip ++ "/32")%string]))
       else ret []) ;;
    let ip_permissions := ip_permissions ++ [AllFromGroup (GroupId sg)] in
    ip_permissions <- add_odd_ingress_rule region ip_permissions ;;
    request (AuthorizeSecurityGroupIngress region (GroupId sg) ip_permissions)
      (fun h => authorize_security_group_ingress cloud h region (GroupId sg)
                  ip_permissions)).

(** *** Launch Sequencer *)

(** What [launch_*_nodes] read from the options besides the store. *)
Record LaunchOptions := mkLaunchOptions {
  lo_options : Options;
  seed_count : Z;
  seed_nodes : Dict.t (list NodeAddress);
  taupage_amis : Dict.t Image;
  subnets_by_region : Dict.t (list Subnet);
  alarm_topics : Dict.t string;
  instance_profile : string
  }.

Definition create_tagged_volume (region : Region) (options : Options)
    (zone name : string) : M unit :=
  let iops :=
    if String.eqb (volume_type options) "io1"
    then Some (volume_iops options) else None in
  vol <- request
           (CreateVolume region zone (volume_type options)
              (volume_size options) iops)
           (fun h => create_volume cloud h region zone (volume_type options)
                       (volume_size options) iops) ;;
  let tags := [mkTag "Name" name; mkTag "Taupage:erase-on-boot" "True"] in
  request (CreateTags region vol tags)
    (fun h => create_tags cloud h region vol tags).

(** The [while True] wait for the instance to leave 'pending'. *)
Fixpoint wait_while_pending (budget : nat) (region : Region)
    (instance_id : string) : M unit :=
  match budget with
  | O => hang
  | S budget' =>
      state <- request (DescribeInstanceState region instance_id)
                 (fun h => describe_instance_state cloud h region
                             instance_id) ;;
      if String.eqb state "pending" then
        sleep 5 ;; wait_while_pending budget' region instance_id
      else ret tt
  end.

Definition node_type_of (is_seed : bool) : NodeType :=
  if is_seed then SEED else NORMAL.

Definition launch_instance (region : Region) (ip : NodeAddress)
    (ami : Image) (subnet : Subnet) (security_group_id : string)
    (is_seed : bool) (options : LaunchOptions) : M unit :=
  let opts := lo_options options in
  let volume_name := (cluster_name opts ++ "-" ++ PrivateIp ip)%string in
  create_tagged_volume region opts (AvailabilityZone subnet) volume_name ;;
  instances <-
    request
      (RunInstances region (node_type_of is_seed) (PrivateIp ip)
         (SubnetId subnet) security_group_id (image_id ami))
      (fun h => run_instances cloud h region (PrivateIp ip)
                  (SubnetId subnet) security_group_id (image_id ami)) ;;
  instance_id <- index instances 0 ;;
  request (CreateTags region instance_id [mkTag "Name" (cluster_name opts)])
    (fun h => create_tags cloud h region instance_id
                [mkTag "Name" (cluster_name opts)]) ;;
  wait_while_pending poll_budget region instance_id ;;
  (if use_dmz opts then
     allocation_id <- allocation_id_of ip ;;
     request (AssociateAddress region instance_id allocation_id)
       (fun h => associate_address cloud h region instance_id allocation_id)
   else ret tt) ;;
  alarm_sns_topic_arn <-
    (match alarm_topics options with
     | [] => ret None
     | _ :: _ =>
         arn <- lookup (alarm_topics options) region ;; ret (Some arn)
     end) ;;
  request
    (CreateAutoRecoveryAlarm region (cluster_name opts) instance_id
       alarm_sns_topic_arn)
    (fun h => create_auto_recovery_alarm cloud h region (cluster_name opts)
                instance_id alarm_sns_topic_arn).

(** [subnets[i % len(subnets)]]. *)
Definition subnet_for (subnets : list Subnet) (i : nat) : M Subnet :=
  idx <- py_mod i (List.length subnets) ;;
  index subnets idx.

(** [for i, x in enumerate(xs): acc = body(acc, i, x)]. *)
Fixpoint fold_enumerate {X Acc} (i0 : nat) (xs : list X) (acc : Acc)
    (body : Acc -> nat -> X -> M Acc) : M Acc :=
  match xs with
  | [] => ret acc
  | x :: xs' =>
      acc' <- body acc i0 x ;; fold_enumerate (S i0) xs' acc' body
  end.

Definition pacing_delay : Z := 60.

Definition launch_seed_nodes (options : LaunchOptions) : M unit :=
  let total_seed_count :=
    (seed_count options
     * Z.of_nat (List.length (regions (lo_options options))))%Z in
  fold_each (Dict.items (seed_nodes options)) 0%nat
    (fun seeds_launched '(region, ips) =>
       s <- get_store ;;
       sg <- lookup (security_groups s) region ;;
       let security_group_id := GroupId sg in
       let subnets := Dict.get_list region (subnets_by_region options) in
       fold_enumerate 0 ips seeds_launched (fun seeds_launched i ip =>
         ami <- lookup (taupage_amis options) region ;;
         subnet <- subnet_for subnets i ;;
         launch_instance region ip ami subnet security_group_id true
           options ;;
         let seeds_launched := S seeds_launched in
         (if (Z.of_nat seeds_launched <? total_seed_count)%Z
          then sleep pacing_delay else ret tt) ;;
         ret seeds_launched)) ;;
  ret tt.

Definition launch_normal_nodes (options : LaunchOptions) : M unit :=
  s0 <- get_store ;;
  for_each (Dict.items (node_ips s0)) (fun '(region, ips) =>
    let subnets := Dict.get_list region (subnets_by_region options) in
    s <- get_store ;;
    sg <- lookup (security_groups s) region ;;
    let security_group_id := GroupId sg in
    for_enumerate 0 ips (fun i ip =>
      if (seed_count options <=? Z.of_nat i)%Z then
        sleep pacing_delay ;;
        ami <- lookup (taupage_amis options) region ;;
        subnet <- subnet_for subnets i ;;
        launch_instance region ip ami subnet security_group_id false options
      else ret tt)).

(** *** The orchestrator *)

Definition default_artifact_name : string := "planb-cassandra-3.0".

Definition conflict_options_msg : string :=
  "Conflicting options: --artifact-name and"
  ++ String "010"%char
       "--docker-image cannot be specified at the same time".

(** Returns the docker image and its version, the two entries the source
    adds to the options. *)
Definition validate_artifact_version (options : Options)
  : M (string * string) :=
  if truthy (docker_image options) then
    if truthy (artifact_name options) then
      raise (UsageError conflict_options_msg)
    else
      match docker_image options with
      | Some image => ret (image, after_last_colon image)
      | None => raise TypeError
      end
  else
    let artifact :=
      match artifact_name options with
      | Some a => if String.eqb a "" then default_artifact_name else a
      | None => default_artifact_name
      end in
    tags <- request (GetArtifactTags artifact)
              (fun h => get_artifact_tags cloud h artifact) ;;
    image_version <- index_last tags ;;
    ret (("registry.opensource.zalan.do/stups/" ++ artifact ++ ":"
          ++ image_version)%string, image_version).

Fixpoint has_equals (s : string) : bool :=
  match s with
  | EmptyString => false
  | String c s' => Ascii.eqb c "="%char || has_equals s'
  end.

(** [dict(map(lambda x: x.split("=", 1), environment))] raises on an entry
    without "="; the dictionary it builds goes into the user data only. *)
Definition read_environment (options : Options) : M unit :=
  if forallb has_equals (environment options) then ret tt
  else raise ValueError.

(** [None] when [keytool] is not installed. *)
Definition generate_certificate (name : string)
  : M (option (string * string)) :=
  request (GenerateCertificate name) (fun h => keytool cloud h name).

(** The [try] block of [create_cluster]. *)
Definition create_cluster_body (options : Options) : M unit :=
  taupage_amis <- find_taupage_amis (regions options) ;;
  subnets <- get_subnets (if use_dmz options then "dmz-" else "internal-")
               (regions options) ;;
  allocate_ip_addresses subnets (cluster_size options) (use_dmz options) ;;
  alarm_topics <-
    (if truthy (sns_topic options) || truthy (sns_email options) then
       request
         (SetupSnsTopics (regions options) (sns_topic options)
            (sns_email options))
         (fun h => setup_sns_topics_for_alarm cloud h (regions options)
                     (sns_topic options) (sns_email options))
     else ret (Dict.empty _)) ;;
  (match hosted_zone options with
   | Some zone =>
       if String.eqb zone "" then ret tt
       else setup_dns_records (cluster_name options) zone
   | None => ret tt
   end) ;;
  setup_security_groups (use_dmz options) (cluster_name options) ;;
  let seed_count := Z.min (cluster_size options) 3 in
  s <- get_store ;;
  let seed_nodes := pick_seed_node_ips (node_ips s) seed_count in
  instance_profile <-
    request (EnsureInstanceProfile (cluster_name options))
      (fun h => ensure_instance_profile cloud h (cluster_name options)) ;;
  let options :=
    mkLaunchOptions options seed_count seed_nodes taupage_amis subnets
      alarm_topics instance_profile in
  launch_seed_nodes options ;;
  launch_normal_nodes options.

(** The [except] block of [create_cluster], up to its final [raise]. *)
Definition create_cluster_cleanup (options : Options) : M unit :=
  s <- get_store ;;
  for_each (Dict.items (security_groups s)) (fun '(region, sg) =>
    request (DeleteSecurityGroup region (GroupId sg))
      (fun h => delete_security_group cloud h region (GroupId sg))) ;;
  if use_dmz options then
    for_each (Dict.items (node_ips s)) (fun '(region, ips) =>
      for_each ips (fun ip =>
        _ <- public_ip_of ip ;;
        allocation_id <- allocation_id_of ip ;;
        request (ReleaseAddress region allocation_id)
          (fun h => release_address cloud h region allocation_id)))
  else ret tt.

(** The [try ... except: ...; raise] statement of [create_cluster]. *)
Definition create_cluster_guarded (options : Options) : M unit :=
  try_except (create_cluster_body options)
    (fun e => create_cluster_cleanup options ;; raise e).

Definition create_cluster (options : Options) : M unit :=
  _ <- validate_artifact_version options ;;
  read_environment options ;;
  certificate <- generate_certificate (cluster_name options) ;;
  match certificate with
  | None => raise TypeError
  | Some _ =>
      modify (fun _ => empty_store) ;;
      create_cluster_guarded options
  end.

End Program.

(** A run of the orchestrator from an empty history. *)
Definition run (cloud : Cloud) (iter_hosts : string -> list IpAddress)
    (poll_budget : nat) (options : Options)
  : Outcome unit * Store * list Event :=
  create_cluster cloud iter_hosts poll_budget options empty_store [].

(** ** Vocabulary of the properties *)

(** The private addresses recorded for a region, in order. *)
Definition yielded (region : Region) (s : Store) : list IpAddress :=
  map PrivateIp (Dict.get_list region (node_ips s)).

(** The in-use query of [region] answers [answers ip] for [ip] whenever it
    is asked: the reservations do not change while addresses are chosen. *)
Definition answers_in_region (cloud : Cloud) (region : Region)
    (answers : IpAddress -> list string) : Prop :=
  forall h ip, describe_instances_by_private_ip cloud h region ip
               = inr (answers ip).

(** Every request for a routable address in [region] is granted. *)
Definition allocations_granted (cloud : Cloud) (region : Region) : Prop :=
  forall h, exists a, allocate_address cloud h region = inr a.

Section AllocatorVocabulary.
Variable iter_hosts : string -> list IpAddress.
Variable answers : IpAddress -> list string.
Variable subnets : list Subnet.

Definition in_use (ip : IpAddress) : bool :=
  match answers ip with
  | [] => false
  | _ :: _ => true
  end.

(** The host sequence of the [j]-th subnet. *)
Definition hosts_of (j : nat) : list IpAddress :=
  match nth_error subnets j with
  | Some subnet => iter_hosts (CidrBlock subnet)
  | None => []
  end.

(** The same without its reserved head. *)
Definition usable_of (j : nat) : list IpAddress :=
  skipn reserved_count (hosts_of j).

(** What is left of it once the addresses in use are struck out. *)
Definition free_of (j : nat) : list IpAddress :=
  filter (fun ip => negb (in_use ip)) (usable_of j).

(** Round robin: the [i]-th address of a region is the next free
    address of subnet [i mod S], which has served [i / S] before. *)
Definition expected_address (i : nat) : option IpAddress :=
  nth_error (free_of (i mod List.length subnets)) (i / List.length subnets).

(** A subnet too small for the reserved head to be skipped, and the first
    such subnet of the region. *)
Definition is_short (subnet : Subnet) : bool :=
  Nat.ltb (List.length (iter_hosts (CidrBlock subnet))) reserved_count.

Definition short_subnet : option Subnet := find is_short subnets.

(** The first index below the quota for which round robin finds its
    subnet without a free address left. *)
Definition starved_index (quota : Z) : option nat :=
  find (fun i => match expected_address i with
                 | None => true
                 | Some _ => false
                 end) (seq 0 (Z.to_nat quota)).

(** The CIDR block of the subnet that runs out before the quota is
    filled, if one does: while the reserved head is skipped, or later
    when an address is drawn for some index below the quota. *)
Definition depleted_cidr (quota : Z) : option string :=
  match short_subnet with
  | Some subnet => Some (CidrBlock subnet)
  | None =>
      match starved_index quota with
      | Some i =>
          option_map CidrBlock
            (nth_error subnets (i mod List.length subnets))
      | None => None
      end
  end.

(** How many of the indices below [i] fall on subnet [j]. *)
Definition taken (i j : nat) : nat :=
  List.length
    (filter (fun k => Nat.eqb (k mod List.length subnets) j) (seq 0 i)).

(** The iterators [nips] agree with round robin once [i] addresses have
    been accepted: struck of its addresses in use, the iterator of subnet
    [j] is the free sequence of [j] without the [taken i j] served. *)
Definition in_step (i : nat) (nips : list (list IpAddress)) : Prop :=
  List.length nips = List.length subnets
  /\ forall j, (j < List.length subnets)%nat ->
       filter (fun ip => negb (in_use ip)) (nth j nips [])
       = skipn (taken i j) (free_of j).

(** Every iterator is its subnet's sequence behind the reserved head, with
    some more addresses drawn. *)
Definition behind_head (nips : list (list IpAddress)) : Prop :=
  List.length nips = List.length subnets
  /\ forall j, (j < List.length subnets)%nat ->
       exists n, nth j nips [] = skipn n (usable_of j).

(** What the quota loop does from index [i] on: the addresses [ys] it
    records for [region] follow round robin, and its outcome tells how far
    it came. *)
Definition loop_post (cloud : Cloud) (region : Region) (quota : Z)
    (take_elastic_ips : bool) (i : nat) (s : Store) (r : Outcome unit)
    (s' : Store) : Prop :=
  exists ys,
    s' = mkStore
           (fold_left (fun d a => Dict.append region a d) ys (node_ips s))
           (security_groups s)
    /\ (forall k, (k < List.length ys)%nat ->
          option_map PrivateIp (nth_error ys k) = expected_address (i + k))
    /\ match r with
       | Return _ => List.length ys = (Z.to_nat quota - i)%nat
       | Raise (IpAddressPoolDepletedException c) =>
           (Z.of_nat (i + List.length ys) < quota)%Z
           /\ expected_address (i + List.length ys) = None
           /\ exists subnet,
                nth_error subnets
                  ((i + List.length ys) mod List.length subnets) = Some subnet
                /\ c = CidrBlock subnet
       | Raise ZeroDivisionError =>
           subnets = [] /\ ys = [] /\ (Z.of_nat i < quota)%Z
       | Raise (ClientError _) | Raise (ExternalFailure _) =>
           take_elastic_ips = true
           /\ (exists h x, allocate_address cloud h region = inl x)
           /\ (Z.of_nat (i + List.length ys) < quota)%Z
           /\ expected_address (i + List.length ys) <> None
       | _ => False
       end.
End AllocatorVocabulary.

(** *** The in-use queries of a trace *)

(** One in-use query: the region asked, the candidate address, and
    whether the provider reported no reservation for it. *)
Record Query := mkQuery {
  q_region : Region;
  q_ip : IpAddress;
  q_free : bool
}.

(** The in-use query of [region] for [ip], asked after [h], is answered
    with no reservation; a query that fails reports nothing. *)
Definition reported_free (cloud : Cloud) (h : History) (region : Region)
    (ip : IpAddress) : bool :=
  match describe_instances_by_private_ip cloud h region ip with
  | inr [] => true
  | _ => false
  end.

(** The in-use queries among the requests [ev] issued after the history
    [h], in order, each with the answer the provider gave at that point. *)
Fixpoint queries (cloud : Cloud) (h : History) (ev : list Event)
  : list Query :=
  match ev with
  | [] => []
  | e :: ev' =>
      let later := queries cloud (h ++ [e]) ev' in
      match e with
      | DescribeInstancesByPrivateIp region ip =>
          mkQuery region ip (reported_free cloud h region ip) :: later
      | _ => later
      end
  end.

(** The candidates that were reported free, in order. *)
Definition accepted (qs : list Query) : list IpAddress :=
  map q_ip (filter q_free qs).

Section TraceVocabulary.
Variable cloud : Cloud.
Variable iter_hosts : string -> list IpAddress.
Variable region : Region.
Variable subnets : list Subnet.
Variable quota : Z.

(** What the quota loop, started at index [i] with the iterators [nips]
    and [fuel] iterations to go, has asked and recorded. *)
Definition trace_post (fuel i : nat) (nips : list (list IpAddress))
    (s : Store) (h : History) (r : Outcome unit) (s' : Store)
    (ev : list Event) : Prop :=
  let qs := queries cloud h ev in
  let width := List.length subnets in
  exists ys,
    s' = mkStore
           (fold_left (fun d a => Dict.append region a d) ys (node_ips s))
           (security_groups s)
    /\ (exists tail,
           accepted qs = map PrivateIp ys ++ tail
           /\ (r = Return tt -> tail = []))
    /\ (r = Return tt -> List.length ys = (Z.to_nat quota - i)%nat)
    /\ ((remaining nips < fuel)%nat -> r <> Hang)
    /\ (forall m a,
          nth_error (accepted qs) m = Some a ->
          In a (usable_of iter_hosts subnets ((i + m) mod width)))
    /\ (forall q qs',
          qs = q :: qs' ->
          exists l, nth_error nips (i mod width) = Some (q_ip q :: l))
    /\ (forall k q q',
          nth_error qs k = Some q -> nth_error qs (S k) = Some q' ->
          q_free q = false ->
          let j := ((i + List.length (accepted (firstn k qs))) mod width)%nat
          in
          exists p,
            nth_error (usable_of iter_hosts subnets j) p = Some (q_ip q)
            /\ nth_error (usable_of iter_hosts subnets j) (S p)
               = Some (q_ip q'))
    /\ Forall (fun q => q_region q = region
                        /\ In (q_ip q) (List.concat nips)) qs
    /\ (NoDup (List.concat nips) -> NoDup (map q_ip qs)).
End TraceVocabulary.

(** *** Kinds of requests and of exceptions *)

Inductive EventKind :=
| KGetArtifactTags | KGenerateCertificate | KDescribeImages | KDescribeSubnets
| KDescribeInstancesByPrivateIp | KAllocateAddress | KSetupSnsTopics
| KListHostedZonesByName | KChangeResourceRecordSets | KDescribeVpcs
| KCreateSecurityGroup | KCreateTags | KDescribeSecurityGroups
| KAuthorizeSecurityGroupIngress | KEnsureInstanceProfile | KCreateVolume
| KLaunchSeed | KLaunchNormal | KDescribeInstanceState | KAssociateAddress
| KCreateAutoRecoveryAlarm | KDeleteSecurityGroup | KReleaseAddress | KSleep.

Definition kind (e : Event) : EventKind :=
  match e with
  | GetArtifactTags _ => KGetArtifactTags
  | GenerateCertificate _ => KGenerateCertificate
  | DescribeImages _ => KDescribeImages
  | DescribeSubnets _ => KDescribeSubnets
  | DescribeInstancesByPrivateIp _ _ => KDescribeInstancesByPrivateIp
  | AllocateAddress _ => KAllocateAddress
  | SetupSnsTopics _ _ _ => KSetupSnsTopics
  | ListHostedZonesByName _ => KListHostedZonesByName
  | ChangeResourceRecordSets _ _ _ => KChangeResourceRecordSets
  | DescribeVpcs _ => KDescribeVpcs
  | CreateSecurityGroup _ _ _ => KCreateSecurityGroup
  | CreateTags _ _ _ => KCreateTags
  | DescribeSecurityGroups _ _ => KDescribeSecurityGroups
  | AuthorizeSecurityGroupIngress _ _ _ => KAuthorizeSecurityGroupIngress
  | EnsureInstanceProfile _ => KEnsureInstanceProfile
  | CreateVolume _ _ _ _ _ => KCreateVolume
  | RunInstances _ SEED _ _ _ _ => KLaunchSeed
  | RunInstances _ NORMAL _ _ _ _ => KLaunchNormal
  | DescribeInstanceState _ _ => KDescribeInstanceState
  | AssociateAddress _ _ _ => KAssociateAddress
  | CreateAutoRecoveryAlarm _ _ _ _ => KCreateAutoRecoveryAlarm
  | DeleteSecurityGroup _ _ => KDeleteSecurityGroup
  | ReleaseAddress _ _ => KReleaseAddress
  | Sleep _ => KSleep
  end.

Inductive ExnKind :=
| XPoolDepleted | XExternal | XNoImage | XNoZone | XOtherException
| XUsage | XZeroDivision | XIndex | XKey | XType | XValue.

Definition no_image_message : string := "No Taupage AMI found".
Definition no_zone_message : string := "Failed to find Hosted Zone ".

Definition exn_kind (e : Exn) : ExnKind :=
  match e with
  | IpAddressPoolDepletedException _ => XPoolDepleted
  | ClientError _ | ExternalFailure _ => XExternal
  | Exception_ msg =>
      if String.eqb msg no_image_message then XNoImage
      else if String.prefix no_zone_message msg then XNoZone
      else XOtherException
  | UsageError _ => XUsage
  | ZeroDivisionError => XZeroDivision
  | IndexError => XIndex
  | KeyError _ => XKey
  | TypeError => XType
  | ValueError => XValue
  end.

(** A computation keeps to a footprint: it issues requests of the kinds
    [ks] only, raises exceptions of the kinds [xs] only, and changes the
    store within [R]. *)
Definition obeys {A} (ks : list EventKind) (R : Store -> Store -> Prop)
    (xs : list ExnKind) (m : M A) : Prop :=
  forall s h r s' ev,
    m s h = (r, s', ev) ->
    Forall (fun e => In (kind e) ks) ev
    /\ R s s'
    /\ forall e, r = Raise e -> In (exn_kind e) xs.

(** Store relations that admit what the helpers write. *)
Definition shaped (take_elastic_ips : bool) (a : NodeAddress) : Prop :=
  if take_elastic_ips
  then PublicIp a <> None /\ AllocationId a <> None
  else PublicIp a = None /\ AllocationId a = None.

Definition admits_addresses (take_elastic_ips : bool)
    (R : Store -> Store -> Prop) : Prop :=
  forall s region a,
    shaped take_elastic_ips a ->
    R s (mkStore (Dict.append region a (node_ips s)) (security_groups s)).

Definition admits_groups (R : Store -> Store -> Prop) : Prop :=
  forall s region sg,
    R s (mkStore (node_ips s) (Dict.set region sg (security_groups s))).

Definition preorder (R : Store -> Store -> Prop) : Prop :=
  (forall s, R s s) /\ (forall s1 s2 s3, R s1 s2 -> R s2 s3 -> R s1 s3).

(** The footprints of the helpers. *)
Definition allocation_kinds : list EventKind :=
  [KDescribeInstancesByPrivateIp; KAllocateAddress].

Definition allocation_exns : list ExnKind :=
  [XPoolDepleted; XExternal; XZeroDivision; XIndex].

Definition dns_kinds : list EventKind :=
  [KListHostedZonesByName; KChangeResourceRecordSets].

Definition group_kinds : list EventKind :=
  [KDescribeVpcs; KCreateSecurityGroup; KCreateTags; KDescribeSecurityGroups;
   KAuthorizeSecurityGroupIngress].

Definition launch_kinds (is_seed : bool) : list EventKind :=
  [KCreateVolume; KCreateTags; if is_seed then KLaunchSeed else KLaunchNormal;
   KDescribeInstanceState; KSleep; KAssociateAddress;
   KCreateAutoRecoveryAlarm].

Definition launch_exns : list ExnKind :=
  [XExternal; XIndex; XKey; XZeroDivision].

Definition cleanup_kinds : list EventKind :=
  [KDeleteSecurityGroup; KReleaseAddress].

Definition preamble_kinds : list EventKind :=
  [KGetArtifactTags; KGenerateCertificate].

(** *** Launches and phases *)

(** A launch request of the given type for the node [ip] of [region] is
    among [ev]. *)
Definition launched (node_type : NodeType) (region : Region)
    (ip : NodeAddress) (ev : list Event) : Prop :=
  exists subnet_id group_id image,
    In (RunInstances region node_type (PrivateIp ip) subnet_id group_id image)
      ev.

(** Every seed node of every region has its launch request among [ev]. *)
Definition all_seeds_launched (seed_nodes : Dict.t (list NodeAddress))
    (ev : list Event) : Prop :=
  forall region ips ip,
    In (region, ips) (Dict.items seed_nodes) -> In ip ips ->
    launched SEED region ip ev.

(** A computation in two stages, run from the store [s]: either it stops
    in the first stage, with requests of the kinds [ksA] only and the
    store changed within [RA]; or it goes on to the second, its requests
    split in two runs of the kinds [ksA] and [ksB], with [Q] established
    when the first stage ends and exceptions of the kinds [xsB] only. *)
Definition staged {A} (ksA ksB : list EventKind)
    (RA : Store -> Store -> Prop) (xsB : list ExnKind)
    (Q : Store -> list Event -> Prop) (m : M A) (s : Store) : Prop :=
  forall h r s' ev,
    m s h = (r, s', ev) ->
    (Forall (fun e => In (kind e) ksA) ev /\ RA s s')
    \/ (exists evA evB,
           ev = evA ++ evB
           /\ Forall (fun e => In (kind e) ksA) evA
           /\ Forall (fun e => In (kind e) ksB) evB
           /\ Q s' evA
           /\ forall e, r = Raise e -> In (exn_kind e) xsB).

(** The requests that may precede the first launch of a normal node, and
    those that may follow it. *)
Definition before_normal_kinds : list EventKind :=
  [KGetArtifactTags; KGenerateCertificate; KDescribeImages; KDescribeSubnets;
   KDescribeInstancesByPrivateIp; KAllocateAddress; KSetupSnsTopics;
   KListHostedZonesByName; KChangeResourceRecordSets; KDescribeVpcs;
   KCreateSecurityGroup; KCreateTags; KDescribeSecurityGroups;
   KAuthorizeSecurityGroupIngress; KEnsureInstanceProfile; KCreateVolume;
   KLaunchSeed; KDescribeInstanceState; KAssociateAddress;
   KCreateAutoRecoveryAlarm; KDeleteSecurityGroup; KReleaseAddress; KSleep].

Definition after_seed_kinds : list EventKind :=
  [KCreateVolume; KCreateTags; KLaunchNormal; KDescribeInstanceState; KSleep;
   KAssociateAddress; KCreateAutoRecoveryAlarm; KDeleteSecurityGroup;
   KReleaseAddress].

Definition any_exn : list ExnKind :=
  [XPoolDepleted; XExternal; XNoImage; XNoZone; XOtherException; XUsage;
   XZeroDivision; XIndex; XKey; XType; XValue].

Definition anyhow (s s' : Store) : Prop := True.

(** Every seed node the run will pick has its launch request among
    [evA]. *)
Definition seeds_done (options : Options) (s' : Store) (evA : list Event)
  : Prop :=
  all_seeds_launched
    (pick_seed_node_ips (node_ips s') (Z.min (cluster_size options) 3)) evA.

(** *** Failures and compensation *)

(** The requests that are mere lookups of the preamble and of the image
    search. *)
Definition image_lookup_kinds : list EventKind :=
  [KGetArtifactTags; KGenerateCertificate; KDescribeImages].

(** The requests a run can have issued when the DNS zone turns out to be
    missing, with the releases of the compensation that follows. *)
Definition before_groups_kinds : list EventKind :=
  [KGetArtifactTags; KGenerateCertificate; KDescribeImages; KDescribeSubnets;
   KDescribeInstancesByPrivateIp; KAllocateAddress; KSetupSnsTopics;
   KListHostedZonesByName; KChangeResourceRecordSets; KReleaseAddress].

Definition all_kinds : list EventKind :=
  [KGetArtifactTags; KGenerateCertificate; KDescribeImages; KDescribeSubnets;
   KDescribeInstancesByPrivateIp; KAllocateAddress; KSetupSnsTopics;
   KListHostedZonesByName; KChangeResourceRecordSets; KDescribeVpcs;
   KCreateSecurityGroup; KCreateTags; KDescribeSecurityGroups;
   KAuthorizeSecurityGroupIngress; KEnsureInstanceProfile; KCreateVolume;
   KLaunchSeed; KLaunchNormal; KDescribeInstanceState; KAssociateAddress;
   KCreateAutoRecoveryAlarm; KDeleteSecurityGroup; KReleaseAddress; KSleep].

(** The requests of the try block after the image search, those before
    the DNS setup and those after it. *)
Definition past_images_kinds : list EventKind :=
  [KDescribeSubnets; KDescribeInstancesByPrivateIp; KAllocateAddress;
   KSetupSnsTopics; KListHostedZonesByName; KChangeResourceRecordSets;
   KDescribeVpcs; KCreateSecurityGroup; KCreateTags; KDescribeSecurityGroups;
   KAuthorizeSecurityGroupIngress; KEnsureInstanceProfile; KCreateVolume;
   KLaunchSeed; KLaunchNormal; KDescribeInstanceState; KAssociateAddress;
   KCreateAutoRecoveryAlarm; KSleep].

Definition before_dns_kinds : list EventKind :=
  [KDescribeImages; KDescribeSubnets; KDescribeInstancesByPrivateIp;
   KAllocateAddress; KSetupSnsTopics].

Definition past_dns_kinds : list EventKind :=
  [KDescribeVpcs; KCreateSecurityGroup; KCreateTags; KDescribeSecurityGroups;
   KAuthorizeSecurityGroupIngress; KEnsureInstanceProfile; KCreateVolume;
   KLaunchSeed; KLaunchNormal; KDescribeInstanceState; KAssociateAddress;
   KCreateAutoRecoveryAlarm; KSleep].

Definition same_groups (s s' : Store) : Prop :=
  security_groups s' = security_groups s.

(** One delete per recorded access-control group, in the order of the
    dictionary. *)
Definition deletions (s : Store) : list Event :=
  map (fun '(region, sg) => DeleteSecurityGroup region (GroupId sg))
    (Dict.items (security_groups s)).

(** One release per recorded allocation of a routable address, region by
    region in the order of the dictionary, node by node. *)
Definition releases (s : Store) : list Event :=
  flat_map
    (fun '(region, ips) =>
       flat_map
         (fun ip =>
            match AllocationId ip with
            | Some allocation_id => [ReleaseAddress region allocation_id]
            | None => []
            end) ips)
    (Dict.items (node_ips s)).

Definition compensations (options : Options) (s : Store) : list Event :=
  deletions s ++ (if use_dmz options then releases s else []).

(** Every recorded address has the shape its mode gives it. *)
Definition all_shaped (take_elastic_ips : bool) (s : Store) : Prop :=
  forall region ips ip,
    In (region, ips) (Dict.items (node_ips s)) -> In ip ips ->
    shaped take_elastic_ips ip.

Definition keeps_shape (take_elastic_ips : bool) (s s' : Store) : Prop :=
  all_shaped take_elastic_ips s -> all_shaped take_elastic_ips s'.

(** *** Pacing *)

Inductive Pace := SeedLaunch | NormalLaunch | Delay.

(** What a request means for the pacing of the launches: a launch, the
    60 seconds delay, or nothing. *)
Definition pace_of (e : Event) : list Pace :=
  match e with
  | RunInstances _ SEED _ _ _ _ => [SeedLaunch]
  | RunInstances _ NORMAL _ _ _ _ => [NormalLaunch]
  | Sleep seconds => if Z.eqb seconds pacing_delay then [Delay] else []
  | _ => []
  end.

Definition pacing (ev : list Event) : list Pace := flat_map pace_of ev.

(** No string occurs twice, as a test. *)
Fixpoint distinct (l : list string) : bool :=
  match l with
  | [] => true
  | x :: l' => negb (existsb (String.eqb x) l') && distinct l'
  end.

(** ** A small cloud to run the program on *)

Module Scenario.

Definition digits (n : nat) : string :=
  NilEmpty.string_of_uint (Nat.to_uint n).

(** The hosts [network1], [network2], ... of a block with [n] hosts. *)
Definition hosts_from (network : string) (n : nat) : list IpAddress :=
  map (fun i => (network ++ digits i)%string) (seq 1 n).

(** Four /28 blocks with their 14 hosts each and a /29 block with 6
    hosts. *)
Definition iter_hosts (cidr : string) : list IpAddress :=
  if String.eqb cidr "10.0.1.0/28" then hosts_from "10.0.1." 14
  else if String.eqb cidr "10.0.2.0/28" then hosts_from "10.0.2." 14
  else if String.eqb cidr "10.0.3.0/28" then hosts_from "10.0.3." 14
  else if String.eqb cidr "10.0.4.0/29" then hosts_from "10.0.4." 6
  else if String.eqb cidr "10.0.5.0/28" then hosts_from "10.0.5." 14
  else [].

Definition internal_a : Subnet :=
  mkSubnet "subnet-1a" "10.0.1.0/28" "a" (Some [mkTag "Name" "internal-a"]).
Definition internal_b : Subnet :=
  mkSubnet "subnet-1b" "10.0.2.0/28" "b" (Some [mkTag "Name" "internal-b"]).
Definition dmz_a : Subnet :=
  mkSubnet "subnet-2a" "10.0.3.0/28" "a" (Some [mkTag "Name" "dmz-a"]).
Definition tiny : Subnet :=
  mkSubnet "subnet-3a" "10.0.4.0/29" "a" (Some [mkTag "Name" "internal-a"]).
Definition crowded : Subnet :=
  mkSubnet "subnet-4a" "10.0.5.0/28" "a" (Some [mkTag "Name" "internal-a"]).

(** Every region has the same three subnets, as accounts set up alike do;
    "ap-south-1" has none. *)
Definition subnets_in (region : Region) : list Subnet :=
  if String.eqb region "ap-south-1" then []
  else [internal_b; dmz_a; internal_a].

(** Instances of "eu-west-1" hold one address of 10.0.1.0/28 and, of
    10.0.5.0/28, all the addresses behind the reserved head but
    10.0.5.11. *)
Definition taken_addresses : list (IpAddress * string) :=
  [("10.0.1.11", "r-0a1b2c"); ("10.0.5.12", "r-0d3e4f");
   ("10.0.5.13", "r-0d3e50"); ("10.0.5.14", "r-0d3e51")].

Definition reservations (region : Region) (ip : IpAddress) : list string :=
  if String.eqb region "eu-west-1"
  then match Dict.get ip taken_addresses with
       | Some reservation => [reservation]
       | None => []
       end
  else [].

Definition is_allocation (e : Event) : bool :=
  match e with AllocateAddress _ => true | _ => false end.

Definition is_launch (e : Event) : bool :=
  match e with RunInstances _ _ _ _ _ _ => true | _ => false end.

Definition is_state_query (e : Event) : bool :=
  match e with DescribeInstanceState _ _ => true | _ => false end.

Definition count (p : Event -> bool) (h : History) : nat :=
  List.length (filter p h).

(** What can go wrong in a run. *)
Record Faults := mkFaults {
  images : list Image;
  launches_granted : option nat;  (* later launch requests are refused *)
  deletes_refused : bool;
  zones : list HostedZone
}.

Definition the_zone : HostedZone := mkHostedZone "db.example.org." "Z1".

Definition the_images : list Image :=
  [mkImage "Taupage-AMI-20160201" "ami-2";
   mkImage "Taupage-AMI-20160101" "ami-1"].

Definition calm : Faults := mkFaults the_images None false [the_zone].

Definition cloud (faults : Faults) : Cloud := {|
  get_artifact_tags := fun _ _ => inr ["1.0"; "1.1"];
  keytool := fun _ _ => inr (Some ("keystore", "truststore"));
  describe_images := fun _ region => inr (images faults);
  describe_subnets := fun _ region => inr (subnets_in region);
  describe_instances_by_private_ip := fun _ region ip =>
    inr (reservations region ip);
  allocate_address := fun h _ =>
    let n := digits (S (count is_allocation h)) in
    inr (("52.0.0." ++ n)%string, ("eipalloc-" ++ n)%string);
  setup_sns_topics_for_alarm := fun _ rs _ _ =>
    inr (map (fun r => (r, ("arn:sns:" ++ r)%string)) rs);
  list_hosted_zones_by_name := fun _ _ => inr (zones faults);
  change_resource_record_sets := fun _ _ _ _ => inr tt;
  describe_vpcs := fun _ region => inr [("vpc-" ++ region)%string];
  create_security_group := fun _ region _ _ =>
    inr (mkSecurityGroup ("sg-" ++ region)%string);
  create_tags := fun _ _ _ _ => inr tt;
  describe_security_groups := fun _ _ _ =>
    inl (ServiceError "InvalidGroup.NotFound");
  authorize_security_group_ingress := fun _ _ _ _ => inr tt;
  ensure_instance_profile := fun _ name =>
    inr ("arn:iam:profile/" ++ name)%string;
  create_volume := fun _ _ _ _ _ _ => inr "vol-1";
  run_instances := fun h _ _ _ _ _ =>
    match launches_granted faults with
    | Some n =>
        if Nat.ltb (count is_launch h) n
        then inr [("i-" ++ digits (S (count is_launch h)))%string]
        else inl (ServiceError "InsufficientInstanceCapacity")
    | None => inr [("i-" ++ digits (S (count is_launch h)))%string]
    end;
  describe_instance_state := fun h _ _ =>
    match rev h with
    | Sleep _ :: _ => inr "running"
    | _ => inr "pending"
    end;
  associate_address := fun _ _ _ _ => inr tt;
  create_auto_recovery_alarm := fun _ _ _ _ _ => inr tt;
  delete_security_group := fun _ _ _ =>
    if deletes_refused faults then inl (ServiceError "DependencyViolation")
    else inr tt;
  release_address := fun _ _ _ => inr tt
|}.

Definition options (rs : list Region) (size : Z) (dmz : bool)
    (zone : option string) : Options :=
  mkOptions "planb" rs size dmz zone None None None None "gp2" 16 100
    "t2.medium" false ["MAX_HEAP_SIZE=4G"].

(** The runs the properties are tried on. *)

(** Two regions with subnets, four nodes each, private addresses. *)
Definition two_regions_options : Options :=
  options ["eu-west-1"; "eu-central-1"] 4 false None.

Definition two_regions : Outcome unit * Store * list Event :=
  run (cloud calm) iter_hosts 3 two_regions_options.

(** The topology that run ends with. *)
Definition topology : Dict.t (list NodeAddress) :=
  Eval vm_compute in node_ips (snd (fst two_regions)).

(** The second region has no subnet of the wanted kind. *)
Definition lost_region_options : Options :=
  options ["eu-west-1"; "ap-south-1"] 3 false None.

Definition lost_region : Outcome unit * Store * list Event :=
  run (cloud calm) iter_hosts 3 lost_region_options.

(** Public-facing mode; the second launch is refused and so is every
    delete of an access-control group. *)
Definition stuck_options : Options :=
  options ["eu-west-1"; "eu-central-1"] 2 true None.

Definition stuck_faults : Faults := mkFaults the_images (Some 1) true [].

Definition stuck_history : History :=
  [GetArtifactTags "planb-cassandra-3.0"; GenerateCertificate "planb"].

Definition stuck_body : Outcome unit * Store * list Event :=
  create_cluster_body (cloud stuck_faults) iter_hosts 3 stuck_options
    empty_store stuck_history.

Definition stuck_rollback : Outcome unit * Store * list Event :=
  create_cluster_guarded (cloud stuck_faults) iter_hosts 3 stuck_options
    empty_store stuck_history.

Definition stuck_run : Outcome unit * Store * list Event :=
  run (cloud stuck_faults) iter_hosts 3 stuck_options.

(** A provider that grants no instance profile, and that refuses to
    delete an access-control group once an instance was launched. *)
Definition picky : Cloud := {|
  get_artifact_tags := get_artifact_tags (cloud calm);
  keytool := keytool (cloud calm);
  describe_images := describe_images (cloud calm);
  describe_subnets := describe_subnets (cloud calm);
  describe_instances_by_private_ip :=
    describe_instances_by_private_ip (cloud calm);
  allocate_address := allocate_address (cloud calm);
  setup_sns_topics_for_alarm := setup_sns_topics_for_alarm (cloud calm);
  list_hosted_zones_by_name := list_hosted_zones_by_name (cloud calm);
  change_resource_record_sets := change_resource_record_sets (cloud calm);
  describe_vpcs := describe_vpcs (cloud calm);
  create_security_group := create_security_group (cloud calm);
  create_tags := create_tags (cloud calm);
  describe_security_groups := describe_security_groups (cloud calm);
  authorize_security_group_ingress :=
    authorize_security_group_ingress (cloud calm);
  ensure_instance_profile := fun _ _ => inl (ServiceError "AccessDenied");
  create_volume := create_volume (cloud calm);
  run_instances := run_instances (cloud calm);
  describe_instance_state := describe_instance_state (cloud calm);
  associate_address := associate_address (cloud calm);
  create_auto_recovery_alarm := create_auto_recovery_alarm (cloud calm);
  delete_security_group := fun h _ _ =>
    if existsb is_launch h then inl (ServiceError "DependencyViolation")
    else inr tt;
  release_address := release_address (cloud calm)
|}.

(** Public-facing mode without an instance profile: the run fails with
    two groups and four addresses recorded, before any launch. *)
Definition picky_body : Outcome unit * Store * list Event :=
  create_cluster_body picky iter_hosts 3 stuck_options empty_store
    stuck_history.

Definition picky_rollback : Outcome unit * Store * list Event :=
  create_cluster_guarded picky iter_hosts 3 stuck_options empty_store
    stuck_history.

(** Public-facing mode with a DNS zone that does not exist. *)
Definition zone_options : Options :=
  options ["eu-west-1"] 2 true (Some "db.example.org.").

Definition zoneless : Faults := mkFaults the_images None false [].

Definition no_zone : Outcome unit * Store * list Event :=
  run (cloud zoneless) iter_hosts 3 zone_options.

(** The same run on a provider that refuses to release an address. *)
Definition grudging : Cloud := {|
  get_artifact_tags := get_artifact_tags (cloud zoneless);
  keytool := keytool (cloud zoneless);
  describe_images := describe_images (cloud zoneless);
  describe_subnets := describe_subnets (cloud zoneless);
  describe_instances_by_private_ip :=
    describe_instances_by_private_ip (cloud zoneless);
  allocate_address := allocate_address (cloud zoneless);
  setup_sns_topics_for_alarm := setup_sns_topics_for_alarm (cloud zoneless);
  list_hosted_zones_by_name := list_hosted_zones_by_name (cloud zoneless);
  change_resource_record_sets :=
    change_resource_record_sets (cloud zoneless);
  describe_vpcs := describe_vpcs (cloud zoneless);
  create_security_group := create_security_group (cloud zoneless);
  create_tags := create_tags (cloud zoneless);
  describe_security_groups := describe_security_groups (cloud zoneless);
  authorize_security_group_ingress :=
    authorize_security_group_ingress (cloud zoneless);
  ensure_instance_profile := ensure_instance_profile (cloud zoneless);
  create_volume := create_volume (cloud zoneless);
  run_instances := run_instances (cloud zoneless);
  describe_instance_state := describe_instance_state (cloud zoneless);
  associate_address := associate_address (cloud zoneless);
  create_auto_recovery_alarm := create_auto_recovery_alarm (cloud zoneless);
  delete_security_group := delete_security_group (cloud zoneless);
  release_address := fun _ _ _ => inl (ServiceError "AuthFailure")
|}.

Definition no_zone_kept : Outcome unit * Store * list Event :=
  run grudging iter_hosts 3 zone_options.

(** Public-facing mode in a region without a machine image. *)
Definition imageless : Faults := mkFaults [] None false [the_zone].

Definition no_image : Outcome unit * Store * list Event :=
  run (cloud imageless) iter_hosts 3 zone_options.

(** Allocation alone: one region, two subnets, three addresses. *)
Definition west_subnets : list Subnet := [internal_a; internal_b].

Definition west_allocation : Outcome unit * Store * list Event :=
  allocate_in_region (cloud calm) iter_hosts "eu-west-1" west_subnets 3 false
    empty_store [].

(** One subnet with a single address not in use behind the reserved head,
    quota 2. *)
Definition crowded_allocation : Outcome unit * Store * list Event :=
  allocate_in_region (cloud calm) iter_hosts "eu-west-1" [crowded] 2 false
    empty_store [].

(** Two regions whose subnets have the same CIDR blocks. *)
Definition twin_subnets : Dict.t (list Subnet) :=
  [("eu-west-1", west_subnets); ("eu-central-1", west_subnets)].

Definition twin_allocation : Outcome unit * Store * list Event :=
  allocate_ip_addresses (cloud calm) iter_hosts twin_subnets 2 false
    empty_store [].

End Scenario.

(** ** Vocabulary of the further properties *)
(** *** Strings of the options *)

Fixpoint has_dash (s : string) : bool :=
  match s with
  | EmptyString => false
  | String c s' => Ascii.eqb c "-"%char || has_dash s'
  end.

(** [x.split("=", 1)]: what precedes the first "=" and what follows it;
    [None] without one, where the split has a single part. *)
Fixpoint split_once (s : string) : option (string * string) :=
  match s with
  | EmptyString => None
  | String c s' =>
      if Ascii.eqb c "="%char then Some (EmptyString, s')
      else
        match split_once s' with
        | Some (k, v) => Some (String c k, v)
        | None => None
        end
  end.

(** [dict(map(lambda x: x.split("=", 1), entries))], the dictionary that
    [read_environment] puts into the options; [None] where [dict] raises
    ValueError. *)
Definition environment_dict (entries : list string)
  : option (Dict.t string) :=
  fold_left
    (fun acc x =>
       match acc, split_once x with
       | Some d, Some (k, v) => Some (Dict.set k v d)
       | _, _ => None
       end)
    entries (Some (Dict.empty _)).

(** An entry of the [--environment] option. *)
Definition environment_entry (kv : string * string) : string :=
  (fst kv ++ "=" ++ snd kv)%string.
(** *** Lookups *)

(** [sorted(images, key=lambda i: i.name)[-1]], where there is one. *)
Definition latest_image (images : list Image) : option Image :=
  hd_error (rev (sorted_by_key image_name images)).

(** Order by a string key, and lists in which every element is below
    all later ones. *)
Definition key_le {X} (key : X -> string) (a b : X) : Prop :=
  String.leb (key a) (key b) = true.

Fixpoint ascending {X} (le : X -> X -> Prop) (l : list X) : Prop :=
  match l with
  | [] => True
  | x :: l' => Forall (le x) l' /\ ascending le l'
  end.

Definition untagged (subnet : Subnet) : bool :=
  match Tags subnet with
  | None => true
  | Some _ => false
  end.

(** What [get_subnets] keeps of the subnets a region answers, in its
    order: by availability zone, a subnet once for every 'Name' tag that
    starts with the prefix. *)
Definition selected (prefix_filter : string) (subnets : list Subnet)
  : list Subnet :=
  flat_map
    (fun subnet =>
       match Tags subnet with
       | Some tags => repeat subnet (matching_tags prefix_filter tags)
       | None => []
       end)
    (sorted_by_key AvailabilityZone subnets).

(** How often [get_subnets] keeps a subnet. *)
Definition copies_kept (prefix_filter : string) (subnet : Subnet) : nat :=
  match Tags subnet with
  | Some tags => matching_tags prefix_filter tags
  | None => 0
  end.

(** The dictionary [get_subnets] has built from [d] once the regions
    [regions] have answered [answer]. *)
Definition gathered (prefix_filter : string) (answer : Region -> list Subnet)
    (regions : list Region) (d : Dict.t (list Subnet))
  : Dict.t (list Subnet) :=
  fold_left
    (fun d region =>
       fold_left (fun d x => Dict.append region x d)
         (selected prefix_filter (answer region)) d)
    regions d.

Definition all_tagged (answer : Region -> list Subnet) (region : Region)
  : Prop :=
  forall subnet, In subnet (answer region) -> Tags subnet <> None.

(** A dictionary of lists as [defaultdict(list)] keeps it while it is
    only appended to: no key twice, no key with an empty list. *)
Definition filled (d : Dict.t (list Subnet)) : Prop :=
  NoDup (Dict.keys d)
  /\ forall k, In k (Dict.keys d) <-> Dict.get_list k d <> [].

(** *** DNS records *)

(** The last zone of an answer that has exactly the name asked for. *)
Definition last_zone_named (name : string) (zones : list HostedZone)
  : option HostedZone :=
  find (fun z => String.eqb (zone_name z) name) (rev zones).

(** One upsert of SRV records per region of the topology, in its order. *)
Definition dns_changes (cluster_name hosted_zone : string)
    (zone : HostedZone) (topology : Dict.t (list NodeAddress))
  : list Event :=
  map
    (fun '(region, ips) =>
       ChangeResourceRecordSets (zone_id zone)
         ("_" ++ cluster_name ++ "-" ++ region ++ "._tcp." ++ hosted_zone)
         (make_dns_records region ips))
    (Dict.items topology).
(** *** What the allocator records *)

(** The entry [allocate_ip_addresses] records for a node: in
    public-facing mode the routable address is the default address and
    comes with its allocation, otherwise the private address is the
    default address and there is no routable one. *)
Definition well_addressed (take_elastic_ips : bool) (a : NodeAddress)
  : Prop :=
  if take_elastic_ips
  then PublicIp a = Some (_defaultIp a) /\ AllocationId a <> None
  else _defaultIp a = PrivateIp a /\ PublicIp a = None
       /\ AllocationId a = None.

(** Every recorded address satisfies [P]. *)
Definition all_recorded (P : NodeAddress -> Prop) (s : Store) : Prop :=
  forall region a, In a (Dict.get_list region (node_ips s)) -> P a.

Definition keeps (I : Store -> Prop) (s s' : Store) : Prop := I s -> I s'.

(** The recorded addresses only grow. *)
Definition grows (s s' : Store) : Prop :=
  forall region a,
    In a (Dict.get_list region (node_ips s)) ->
    In a (Dict.get_list region (node_ips s')).

(** Every request of [ev], issued after the history [h], is answered for
    in the store [s']: [G] relates the history before a request, the
    request and the store. *)
Definition answered_for (G : History -> Event -> Store -> Prop)
    (h : History) (ev : list Event) (s' : Store) : Prop :=
  forall before e after,
    ev = before ++ e :: after -> G (h ++ before) e s'.

Definition accounts {A} (G : History -> Event -> Store -> Prop)
    (R : Store -> Store -> Prop) (m : M A) : Prop :=
  forall s h r s' ev,
    m s h = (r, s', ev) -> R s s' /\ answered_for G h ev s'.

(** A routable address that the provider granted is recorded, with its
    allocation, for a node of the region it was asked for. *)
Definition grant_recorded (cloud : Cloud) (h : History) (e : Event)
    (s' : Store) : Prop :=
  match e with
  | AllocateAddress region =>
      forall public_ip allocation_id,
        allocate_address cloud h region = inr (public_ip, allocation_id) ->
        exists a,
          In a (Dict.get_list region (node_ips s'))
          /\ PublicIp a = Some public_ip
          /\ AllocationId a = Some allocation_id
  | _ => True
  end.

(** Every kind of request but the request for a routable address. *)
Definition quiet_kinds : list EventKind :=
  [KGetArtifactTags; KGenerateCertificate; KDescribeImages; KDescribeSubnets;
   KDescribeInstancesByPrivateIp; KSetupSnsTopics;
   KListHostedZonesByName; KChangeResourceRecordSets; KDescribeVpcs;
   KCreateSecurityGroup; KCreateTags; KDescribeSecurityGroups;
   KAuthorizeSecurityGroupIngress; KEnsureInstanceProfile; KCreateVolume;
   KLaunchSeed; KLaunchNormal; KDescribeInstanceState; KAssociateAddress;
   KCreateAutoRecoveryAlarm; KDeleteSecurityGroup; KReleaseAddress; KSleep].
(** *** Access-control groups *)

(** The rules of the group [group_id] are those of the mode: traffic from
    the group itself always; in public-facing mode the port 7001 from the
    routable address of every node of every region; otherwise no rule
    for an address.  Nothing else is let in but port 22 from one other
    group. *)
Definition rules_ok (topology : Dict.t (list NodeAddress)) (use_dmz : bool)
    (group_id : string) (perms : list IpPermission) : Prop :=
  In (AllFromGroup group_id) perms
  /\ (use_dmz = true ->
      forall region a public_ip,
        In a (Dict.get_list region topology) ->
        PublicIp a = Some public_ip ->
        In (TcpFromCidr 7001 (public_ip ++ "/32")) perms)
  /\ (use_dmz = false ->
      forall port cidr_ip, ~ In (TcpFromCidr port cidr_ip) perms)
  /\ (forall rule, In rule perms ->
        rule = AllFromGroup group_id
        \/ (exists g, rule = TcpFromGroup 22 g)
        \/ (use_dmz = true
            /\ exists a public_ip,
                 In a (List.concat (Dict.values topology))
                 /\ PublicIp a = Some public_ip
                 /\ rule = TcpFromCidr 7001 (public_ip ++ "/32"))).

(** What is asked of a request of [setup_security_groups] once the group
    of its region is created: it creates no further group, and the
    rules it authorizes are those of the mode. *)
Definition after_creation (topology : Dict.t (list NodeAddress))
    (use_dmz : bool) (e : Event) : Prop :=
  kind e <> KCreateSecurityGroup
  /\ match e with
     | AuthorizeSecurityGroupIngress _ group_id perms =>
         rules_ok topology use_dmz group_id perms
     | _ => True
     end.

(** What is asked of any request of [setup_security_groups]: a group
    that the provider created is recorded for its region, and the rules
    that are authorized are those of the mode. *)
Definition group_recorded (cloud : Cloud) (use_dmz : bool) (h : History)
    (e : Event) (s' : Store) : Prop :=
  match e with
  | CreateSecurityGroup region group_name vpc_id =>
      forall sg,
        create_security_group cloud h region group_name vpc_id = inr sg ->
        Dict.get region (security_groups s') = Some sg
  | AuthorizeSecurityGroupIngress _ group_id perms =>
      rules_ok (node_ips s') use_dmz group_id perms
  | _ => True
  end.

(** The topology stays and no recorded group is replaced. *)
Definition groups_stay (s s' : Store) : Prop :=
  node_ips s' = node_ips s
  /\ forall region sg,
       Dict.get region (security_groups s) = Some sg ->
       Dict.get region (security_groups s') = Some sg.
(** *** Launches *)

(** [k] polls of an instance that is still pending, each followed by the
    5 seconds of sleep. *)
Definition pending_polls (region : Region) (instance_id : string) (k : nat)
  : list Event :=
  List.concat
    (repeat [DescribeInstanceState region instance_id; Sleep 5] k).

Definition launch_pace (is_seed : bool) : Pace :=
  if is_seed then SeedLaunch else NormalLaunch.

(** The pacing of [m] seed launches after [c] earlier ones, [total] being
    the number of seeds the sequencer counts on: a delay follows the
    [j]-th seed of the run when [j < total]. *)
Definition seed_pacing (total : Z) (c m : nat) : list Pace :=
  flat_map
    (fun j =>
       SeedLaunch :: (if (Z.of_nat j <? total)%Z then [Delay] else []))
    (seq (S c) m).

(** The pacing of [n] launches of normal nodes. *)
Definition normal_pacing (n : nat) : list Pace :=
  List.concat (repeat [Delay; NormalLaunch] n).

(** The seeds of a selection and the normal nodes of a topology. *)
Definition seed_total (seed_nodes : Dict.t (list NodeAddress)) : nat :=
  List.length (List.concat (Dict.values seed_nodes)).

Definition normal_count (seed_count : Z) (ips : list NodeAddress) : nat :=
  List.length ips - Z.to_nat seed_count.

Definition normal_total (seed_count : Z)
    (topology : Dict.t (list NodeAddress)) : nat :=
  list_sum (map (normal_count seed_count) (Dict.values topology)).

(** A computation that leaves the store alone and neither launches nor
    delays. *)
Definition unpaced {A} (m : M A) : Prop :=
  forall s h r s' ev, m s h = (r, s', ev) -> s' = s /\ pacing ev = [].

(** The requests of a launch apart from the launch itself and the waits. *)
Definition escort_kinds : list EventKind :=
  [KCreateVolume; KCreateTags; KAssociateAddress; KCreateAutoRecoveryAlarm].

(** A computation that leaves the store alone and whose pacing is that of
    launches of normal nodes, every launch right after its delay: at most
    [n] launches, possibly a last delay whose launch did not come, and
    exactly [n] launches when it returns. *)
Definition normal_paced {A} (n : nat) (m : M A) : Prop :=
  forall s h r s' ev,
    m s h = (r, s', ev) ->
    s' = s
    /\ exists k tail,
         pacing ev = normal_pacing k ++ tail
         /\ k <= n
         /\ (tail = [] \/ tail = [Delay])
         /\ (forall a, r = Return a -> k = n /\ tail = []).

(** The launch request [launch_*_nodes] issue for the node at index [i]
    of [region]: in the subnet [i mod S] of the region's [S] subnets,
    with the region's image and access-control group. *)
Definition placed (options : LaunchOptions) (s : Store)
    (node_type : NodeType) (region : Region) (i : nat) (ip : NodeAddress)
    (e : Event) : Prop :=
  exists ami subnet sg,
    Dict.get region (taupage_amis options) = Some ami
    /\ nth_error (Dict.get_list region (subnets_by_region options))
         (i mod List.length
                  (Dict.get_list region (subnets_by_region options)))
       = Some subnet
    /\ Dict.get region (security_groups s) = Some sg
    /\ e = RunInstances region node_type (PrivateIp ip) (SubnetId subnet)
             (GroupId sg) (image_id ami).

Definition is_launch_request (e : Event) : bool :=
  match e with
  | RunInstances _ _ _ _ _ _ => true
  | _ => false
  end.

(** A computation that leaves a store satisfying [pre] alone and whose
    launch requests all satisfy [Q]. *)
Definition emits {A} (Q : Store -> Event -> Prop) (pre : Store -> Prop)
    (m : M A) : Prop :=
  forall s h r s' ev,
    pre s -> m s h = (r, s', ev) ->
    s' = s /\ forall e, In e ev -> is_launch_request e = true -> Q s e.

(** The provider has offered [subnet] for [region]: it is in the answer to
    one of the subnet queries among [ev], issued after the history [h]. *)
Definition offered (cloud : Cloud) (h : History) (ev : list Event)
    (region : Region) (subnet : Subnet) : Prop :=
  exists before after answer,
    ev = before ++ DescribeSubnets region :: after
    /\ describe_subnets cloud (h ++ before) region = inr answer
    /\ In subnet answer.

Definition no_launch (ev : list Event) : Prop :=
  forall e, In e ev -> is_launch_request e = false.

(** The recorded addresses of every region sit in the subnets
    [region_subnets] has for it, in round robin. *)
Definition round_robin (iter_hosts : string -> list IpAddress)
    (region_subnets : Dict.t (list Subnet)) (s : Store) : Prop :=
  forall region i a,
    nth_error (Dict.get_list region (node_ips s)) i = Some a ->
    exists subnet,
      nth_error (Dict.get_list region region_subnets)
        (i mod List.length (Dict.get_list region region_subnets))
      = Some subnet
      /\ In (PrivateIp a) (iter_hosts (CidrBlock subnet)).

(** The launch request [e] puts its instance into a subnet that holds the
    instance's address: one of the subnets [d] has for the region, or one
    the provider has offered for it. *)
Definition sited_in (iter_hosts : string -> list IpAddress)
    (d : Dict.t (list Subnet)) (e : Event) : Prop :=
  exists region node_type ip subnet group_id image,
    e = RunInstances region node_type ip (SubnetId subnet) group_id image
    /\ In subnet (Dict.get_list region d)
    /\ In ip (iter_hosts (CidrBlock subnet)).

Definition sited (cloud : Cloud) (iter_hosts : string -> list IpAddress)
    (h : History) (ev : list Event) (e : Event) : Prop :=
  exists region node_type ip subnet group_id image,
    e = RunInstances region node_type ip (SubnetId subnet) group_id image
    /\ offered cloud h ev region subnet
    /\ In ip (iter_hosts (CidrBlock subnet)).

Definition launches (Q : Event -> Prop) (ev : list Event) : Prop :=
  forall e, In e ev -> is_launch_request e = true -> Q e.

(** *** The rollback, request by request *)

(** The provider's answer to a compensating request. *)
Definition compensation_answer (cloud : Cloud) (h : History) (c : Event)
  : ExternalError + unit :=
  match c with
  | DeleteSecurityGroup region group_id =>
      delete_security_group cloud h region group_id
  | ReleaseAddress region allocation_id =>
      release_address cloud h region allocation_id
  | _ => inr tt
  end.

Definition issue (cloud : Cloud) (c : Event) : M unit :=
  request c (fun h => compensation_answer cloud h c).

(** The [j]-th of the compensations [cs], issued after the ones before it,
    is accepted, or refused with [x]. *)
Definition accepted_at (cloud : Cloud) (h : History) (cs : list Event)
    (j : nat) : Prop :=
  exists c,
    nth_error cs j = Some c
    /\ compensation_answer cloud (h ++ firstn j cs) c = inr tt.

Definition refused_at (cloud : Cloud) (h : History) (cs : list Event)
    (j : nat) (x : ExternalError) : Prop :=
  exists c,
    nth_error cs j = Some c
    /\ compensation_answer cloud (h ++ firstn j cs) c = inl x.

(** *** What a run never asks for *)

(** Everything the try block may ask for: all but the compensations. *)
Definition forward_kinds : list EventKind :=
  [KDescribeImages; KDescribeSubnets; KDescribeInstancesByPrivateIp;
   KAllocateAddress; KSetupSnsTopics; KListHostedZonesByName;
   KChangeResourceRecordSets; KDescribeVpcs; KCreateSecurityGroup;
   KCreateTags; KDescribeSecurityGroups; KAuthorizeSecurityGroupIngress;
   KEnsureInstanceProfile; KCreateVolume; KLaunchSeed; KLaunchNormal;
   KDescribeInstanceState; KAssociateAddress; KCreateAutoRecoveryAlarm;
   KSleep].

(** The requests that obtain, attach or give back a routable address. *)
Definition routable_kinds : list EventKind :=
  [KAllocateAddress; KAssociateAddress; KReleaseAddress].

(** Everything else. *)
Definition internal_kinds : list EventKind :=
  [KGetArtifactTags; KGenerateCertificate; KDescribeImages; KDescribeSubnets;
   KDescribeInstancesByPrivateIp; KSetupSnsTopics; KListHostedZonesByName;
   KChangeResourceRecordSets; KDescribeVpcs; KCreateSecurityGroup;
   KCreateTags; KDescribeSecurityGroups; KAuthorizeSecurityGroupIngress;
   KEnsureInstanceProfile; KCreateVolume; KLaunchSeed; KLaunchNormal;
   KDescribeInstanceState; KCreateAutoRecoveryAlarm; KDeleteSecurityGroup;
   KSleep].

(** No node has a routable address or an allocation recorded. *)
Definition all_internal (s : Store) : Prop :=
  forall region a,
    In a (Dict.get_list region (node_ips s)) ->
    PublicIp a = None /\ AllocationId a = None.

(** A computation that never waits for ever. *)
Definition halts {A} (m : M A) : Prop :=
  forall s h s' ev, m s h <> (Hang, s', ev).

(** *** Attaching the routable address *)

Definition is_associate (e : Event) : bool :=
  match e with
  | AssociateAddress _ _ _ => true
  | _ => false
  end.

(** The last request of [before] is a poll of [instance_id] that the
    provider answered with a state other than 'pending'. *)
Definition found_running (cloud : Cloud) (h : History) (before : list Event)
    (region : Region) (instance_id : string) : Prop :=
  exists earlier state,
    before = earlier ++ [DescribeInstanceState region instance_id]
    /\ describe_instance_state cloud (h ++ earlier) region instance_id
       = inr state
    /\ state <> "pending".

(** [instance_id] is the first instance the provider returned for the
    launch request [launch], one of the requests [before]. *)
Definition launched_as (cloud : Cloud) (h : History) (before : list Event)
    (launch : Event) (instance_id : string) : Prop :=
  exists pre post others,
    before = pre ++ launch :: post
    /\ match launch with
       | RunInstances region _ private_ip subnet_id group_id image =>
           run_instances cloud (h ++ pre) region private_ip subnet_id
             group_id image
           = inr (instance_id :: others)
       | _ => False
       end.

(** *** The nodes a run launches *)

(** The launches among [ev], in order: region, role and private address. *)
Definition launched_nodes (ev : list Event)
  : list (Region * NodeType * IpAddress) :=
  flat_map
    (fun e =>
       match e with
       | RunInstances region node_type private_ip _ _ _ =>
           [(region, node_type, private_ip)]
       | _ => []
       end)
    ev.

(** The nodes of a topology in its order, region by region, each region
    reduced to a [part] of its nodes, in the role [node_type]. *)
Definition nodes_of (node_type : NodeType)
    (part : list NodeAddress -> list NodeAddress)
    (topology : Dict.t (list NodeAddress))
  : list (Region * NodeType * IpAddress) :=
  flat_map
    (fun '(region, ips) =>
       map (fun a => (region, node_type, PrivateIp a)) (part ips))
    (Dict.items topology).

(** A computation that, when it returns, has left the store alone and
    launched the nodes [L], in this order. *)
Definition yields {A} (L : list (Region * NodeType * IpAddress))
    (m : M A) : Prop :=
  forall s h a s' ev,
    m s h = (Return a, s', ev) -> s' = s /\ launched_nodes ev = L.

(** [K i x] for every [x] at index [i] of the list, counted from [i0]. *)
Fixpoint enumerated {X Y} (K : nat -> X -> list Y) (i0 : nat) (l : list X)
  : list Y :=
  match l with
  | [] => []
  | x :: l' => K i0 x ++ enumerated K (S i0) l'
  end.

(** ** Further runs on the small cloud *)

Module Cases.
Import Scenario.

(** A docker image given on the command line, and an environment with a
    value that holds "=". *)
Definition docker_options : Options :=
  mkOptions "planb" ["eu-west-1"] 3 false None None None
    (Some "registry.example.org/planb/cassandra:3.7") None "gp2" 16 100
    "t2.medium" false ["MAX_HEAP_SIZE=4G"; "JVM_OPTS=-Xss256k -Dfoo=bar"].

Definition docker_environment : Dict.t string :=
  [("MAX_HEAP_SIZE", "4G"); ("JVM_OPTS", "-Xss256k -Dfoo=bar")].

(** "eu-central-1" has no machine image, and one of its subnets has no
    tags. *)
Definition bare : Subnet := mkSubnet "subnet-5b" "10.0.6.0/28" "b" None.

Definition images_in (region : Region) : list Image :=
  if String.eqb region "eu-central-1" then [] else the_images.

Definition patchy_subnets (region : Region) : list Subnet :=
  if String.eqb region "eu-central-1" then [internal_a; bare]
  else subnets_in region.

Definition patchy : Cloud := {|
  get_artifact_tags := get_artifact_tags (cloud calm);
  keytool := keytool (cloud calm);
  describe_images := fun _ region => inr (images_in region);
  describe_subnets := fun _ region => inr (patchy_subnets region);
  describe_instances_by_private_ip :=
    describe_instances_by_private_ip (cloud calm);
  allocate_address := allocate_address (cloud calm);
  setup_sns_topics_for_alarm := setup_sns_topics_for_alarm (cloud calm);
  list_hosted_zones_by_name := list_hosted_zones_by_name (cloud calm);
  change_resource_record_sets := change_resource_record_sets (cloud calm);
  describe_vpcs := describe_vpcs (cloud calm);
  create_security_group := create_security_group (cloud calm);
  create_tags := create_tags (cloud calm);
  describe_security_groups := describe_security_groups (cloud calm);
  authorize_security_group_ingress :=
    authorize_security_group_ingress (cloud calm);
  ensure_instance_profile := ensure_instance_profile (cloud calm);
  create_volume := create_volume (cloud calm);
  run_instances := run_instances (cloud calm);
  describe_instance_state := describe_instance_state (cloud calm);
  associate_address := associate_address (cloud calm);
  create_auto_recovery_alarm := create_auto_recovery_alarm (cloud calm);
  delete_security_group := delete_security_group (cloud calm);
  release_address := release_address (cloud calm)
|}.

Definition three_regions : list Region :=
  ["eu-west-1"; "ap-south-1"; "eu-central-1"].

(** Public-facing allocation in two regions, and the groups set up for
    the topology it leaves. *)
Definition routable_allocation : Outcome unit * Store * list Event :=
  allocate_ip_addresses (cloud calm) iter_hosts twin_subnets 2 true
    empty_store [].

Definition group_setup : Outcome unit * Store * list Event :=
  setup_security_groups (cloud calm) true "planb"
    (snd (fst routable_allocation)) (snd routable_allocation).

Definition central_rules : list IpPermission :=
  [TcpFromCidr 7001 "52.0.0.1/32"; TcpFromCidr 7001 "52.0.0.2/32";
   TcpFromCidr 7001 "52.0.0.3/32"; TcpFromCidr 7001 "52.0.0.4/32";
   AllFromGroup "sg-eu-central-1"].

(** The DNS records of that topology. *)
Definition dns_setup : Outcome unit * Store * list Event :=
  setup_dns_records (cloud calm) "planb" "db.example.org."
    (snd (fst routable_allocation)) [].

(** The wait for an instance that is running at the second poll. *)
Definition polls : Outcome unit * Store * list Event :=
  wait_while_pending (cloud calm) 3 "eu-west-1" "i-1" empty_store [].

(** The launch phases of the run with two regions, on their own. *)
Definition launch_options : LaunchOptions :=
  mkLaunchOptions two_regions_options 3 (pick_seed_node_ips topology 3)
    [("eu-west-1", mkImage "Taupage-AMI-20160201" "ami-2");
     ("eu-central-1", mkImage "Taupage-AMI-20160201" "ami-2")]
    [("eu-west-1", [internal_a; internal_b]);
     ("eu-central-1", [internal_a; internal_b])]
    (Dict.empty _) "arn:iam:profile/planb".

Definition launch_store : Store := snd (fst two_regions).

Definition seed_launches : Outcome unit * Store * list Event :=
  launch_seed_nodes (cloud calm) 3 launch_options launch_store [].

Definition normal_launches : Outcome unit * Store * list Event :=
  launch_normal_nodes (cloud calm) 3 launch_options launch_store [].

(** The try statement of the run with two regions. *)
Definition internal_guarded : Outcome unit * Store * list Event :=
  create_cluster_guarded (cloud calm) iter_hosts 3 two_regions_options
    empty_store stuck_history.

(** An [--environment] entry without "=". *)
Definition careless_options : Options :=
  mkOptions "planb" ["eu-west-1"] 3 false None None None None None "gp2" 16
    100 "t2.medium" false ["MAX_HEAP_SIZE=4G"; "VERBOSE"].

Definition careless_run : Outcome unit * Store * list Event :=
  run (cloud calm) iter_hosts 3 careless_options.

(** Both [--docker-image] and [--artifact-name]. *)
Definition conflicting_options : Options :=
  mkOptions "planb" ["eu-west-1"] 3 false None None None
    (Some "registry.example.org/planb/cassandra:3.7") (Some "planb-cassandra")
    "gp2" 16 100 "t2.medium" false [].

Definition conflicting_run : Outcome unit * Store * list Event :=
  run (cloud calm) iter_hosts 3 conflicting_options.

(** The launch of one node in public-facing mode. *)
Definition routable_node : NodeAddress :=
  mkNodeAddress "10.0.3.11" "52.0.0.1" (Some "52.0.0.1")
    (Some "eipalloc-1").

Definition routable_launch_options : LaunchOptions :=
  mkLaunchOptions stuck_options 2 (Dict.empty _) (Dict.empty _)
    (Dict.empty _) (Dict.empty _) "arn:iam:profile/planb".

Definition routable_launch : Outcome unit * Store * list Event :=
  launch_instance (cloud calm) 3 "eu-west-1" routable_node
    (mkImage "Taupage-AMI-20160201" "ami-2") dmz_a "sg-eu-west-1" true
    routable_launch_options empty_store [].

End Cases.

(** * Properties *)

(** ** Dictionaries *)

Module DictFacts.
Section WithValue.
Variable V : Type.
Implicit Types (d : Dict.t V) (k : string) (v : V).

Lemma get_set_same k v d : Dict.get k (Dict.set k v d) = Some v.
Proof.
  induction d as [|[k' v'] d IH]; simpl.
  - now rewrite String.eqb_refl.
  - destruct (String.eqb k k') eqn:E; simpl; rewrite E; auto.
Qed.

Lemma get_set_other k k' v d :
  k <> k' -> Dict.get k' (Dict.set k v d) = Dict.get k' d.
Proof.
  intros Hne. induction d as [|[k0 v0] d IH]; simpl.
  - destruct (String.eqb k' k) eqn:E; auto.
    apply String.eqb_eq in E. congruence.
  - destruct (String.eqb k k0) eqn:E; simpl.
    + apply String.eqb_eq in E. subst k0.
      destruct (String.eqb k' k) eqn:E'; auto.
      apply String.eqb_eq in E'. congruence.
    + now rewrite IH.
Qed.

Lemma get_some_in_keys k v d : Dict.get k d = Some v -> In k (Dict.keys d).
Proof.
  induction d as [|[k' v'] d IH]; simpl; [discriminate|].
  destruct (String.eqb k k') eqn:E.
  - apply String.eqb_eq in E. auto.
  - auto.
Qed.

Lemma get_none_not_in_keys k d :
  Dict.get k d = None <-> ~ In k (Dict.keys d).
Proof.
  induction d as [|[k' v'] d IH]; simpl.
  - tauto.
  - destruct (String.eqb k k') eqn:E.
    + apply String.eqb_eq in E. subst k'.
      split; [discriminate | intros H; exfalso; apply H; now left].
    + apply String.eqb_neq in E. rewrite IH. split; intros H; [|tauto].
      intros [H'|H']; [congruence | tauto].
Qed.

Lemma keys_set_present k v d :
  In k (Dict.keys d) -> Dict.keys (Dict.set k v d) = Dict.keys d.
Proof.
  induction d as [|[k' v'] d IH]; simpl; [tauto|].
  intros Hin. destruct (String.eqb k k') eqn:E; simpl; auto.
  apply String.eqb_neq in E. f_equal. apply IH.
  destruct Hin; [congruence | assumption].
Qed.

Lemma keys_set_absent k v d :
  ~ In k (Dict.keys d) -> Dict.keys (Dict.set k v d) = Dict.keys d ++ [k].
Proof.
  induction d as [|[k' v'] d IH]; simpl; auto.
  intros Hin. destruct (String.eqb k k') eqn:E; simpl.
  - apply String.eqb_eq in E. subst k'. exfalso. apply Hin. now left.
  - f_equal. apply IH. tauto.
Qed.

Lemma in_items_get k v d :
  NoDup (Dict.keys d) -> In (k, v) (Dict.items d) -> Dict.get k d = Some v.
Proof.
  induction d as [|[k' v'] d IH]; simpl; [tauto|].
  intros Hnd [Heq|Hin].
  - inversion Heq; subst. now rewrite String.eqb_refl.
  - inversion Hnd; subst. destruct (String.eqb k k') eqn:E.
    + apply String.eqb_eq in E. subst k'.
      exfalso. apply H1. change (In (fst (k, v)) (map fst d)).
      now apply in_map.
    + auto.
Qed.
End WithValue.

Section DefaultList.
Variable X : Type.
Implicit Types (d : Dict.t (list X)) (k : string) (x : X).

Lemma get_list_append_same k x d :
  Dict.get_list k (Dict.append k x d) = Dict.get_list k d ++ [x].
Proof.
  unfold Dict.append. unfold Dict.get_list at 1.
  now rewrite get_set_same.
Qed.

Lemma get_list_append_other k k' x d :
  k <> k' -> Dict.get_list k' (Dict.append k x d) = Dict.get_list k' d.
Proof.
  intros Hne. unfold Dict.append, Dict.get_list at 1.
  rewrite get_set_other by assumption. reflexivity.
Qed.
End DefaultList.
End DictFacts.

(** ** Running computations step by step *)

Section Steps.
Context {A B : Type}.
Implicit Types (m : M A) (f : A -> M B) (s : Store) (h : History).

Lemma bind_ret (a : A) f s h : bind (ret a) f s h = f a s h.
Proof.
  unfold bind, ret. rewrite app_nil_r.
  destruct (f a s h) as [[r s'] ev]. reflexivity.
Qed.

Lemma bind_raise e f s h : bind (raise e) f s h = (Raise e, s, []).
Proof. reflexivity. Qed.

Lemma bind_hang f s h : bind hang f s h = (Hang, s, []).
Proof. reflexivity. Qed.

(** What a sequence did, from what it returned. *)
Lemma bind_inv m f s h r s' ev :
  bind m f s h = (r, s', ev) ->
  (exists a s1 e1 e2,
      m s h = (Return a, s1, e1) /\ f a s1 (h ++ e1) = (r, s', e2)
      /\ ev = e1 ++ e2)
  \/ (exists e, m s h = (Raise e, s', ev) /\ r = Raise e)
  \/ (m s h = (Hang, s', ev) /\ r = Hang).
Proof.
  unfold bind. destruct (m s h) as [[[a|e|] s1] e1].
  - destruct (f a s1 (h ++ e1)) as [[r2 s2] e2] eqn:E. intros H.
    inversion H; subst. left. now exists a, s1, e1, e2.
  - intros H. inversion H; subst. right. left. now exists e.
  - intros H. inversion H; subst. right. right. auto.
Qed.
End Steps.

Lemma bind_request {R B} ev (answer : History -> ExternalError + R)
    (f : R -> M B) s h :
  bind (request ev answer) f s h
  = match answer h with
    | inr r => match f r s (h ++ [ev]) with
               | (r', s', e') => (r', s', ev :: e')
               end
    | inl e => (Raise (external_exn e), s, [ev])
    end.
Proof. unfold bind, request. destruct (answer h); reflexivity. Qed.

Lemma bind_modify {B} g (f : unit -> M B) s h :
  bind (modify g) f s h = f tt (g s) h.
Proof.
  unfold bind, modify. rewrite app_nil_r.
  destruct (f tt (g s) h) as [[r s'] ev]. reflexivity.
Qed.

Lemma bind_get_store {B} (f : Store -> M B) s h :
  bind get_store f s h = f s s h.
Proof.
  unfold bind, get_store. rewrite app_nil_r.
  destruct (f s s h) as [[r s'] ev]. reflexivity.
Qed.

Lemma bind_sleep {B} n (f : unit -> M B) s h :
  bind (sleep n) f s h
  = match f tt s (h ++ [Sleep n]) with
    | (r', s', e') => (r', s', Sleep n :: e')
    end.
Proof. reflexivity. Qed.

(** ** Iterators *)

Lemma advance_length nips idx rest :
  List.length (advance nips idx rest) = List.length nips.
Proof.
  revert idx. induction nips as [|ips nips IH]; intros [|idx]; simpl; auto.
Qed.

Lemma advance_nth_same nips idx rest :
  (idx < List.length nips)%nat -> nth idx (advance nips idx rest) [] = rest.
Proof.
  revert idx. induction nips as [|ips nips IH]; intros [|idx]; simpl;
    intros H; try lia; auto. apply IH. lia.
Qed.

Lemma advance_nth_other nips idx rest j :
  j <> idx -> nth j (advance nips idx rest) [] = nth j nips [].
Proof.
  revert idx j. induction nips as [|ips nips IH]; intros [|idx] [|j]; simpl;
    intros H; try congruence; auto.
Qed.

Lemma advance_remaining nips idx ip rest :
  nth_error nips idx = Some (ip :: rest) ->
  remaining nips = S (remaining (advance nips idx rest)).
Proof.
  revert idx. induction nips as [|ips nips IH]; intros [|idx]; simpl;
    try discriminate.
  - intros H. inversion H; subst. reflexivity.
  - intros H. unfold remaining in *. simpl. rewrite (IH _ H). lia.
Qed.

Section Taken.
Variable subnets : list Subnet.

Local Abbreviation width := (List.length subnets).

Lemma taken_succ i j :
  taken subnets (S i) j
  = (taken subnets i j + (if Nat.eqb (i mod width) j then 1 else 0))%nat.
Proof.
  unfold taken. rewrite seq_S, filter_app, length_app. simpl.
  destruct (Nat.eqb (i mod width) j); reflexivity.
Qed.

Lemma div_by_parts a b q r :
  (r < b)%nat -> a = (b * q + r)%nat -> (a / b = q)%nat.
Proof. intros Hr Ha. symmetry. now apply Nat.div_unique with r. Qed.

Lemma taken_closed i j :
  (j < width)%nat ->
  taken subnets i j = ((i + width - 1 - j) / width)%nat.
Proof.
  intros Hj. induction i as [|i IH].
  - unfold taken. simpl. symmetry. apply Nat.div_small. lia.
  - rewrite taken_succ, IH.
    pose proof (Nat.div_mod_eq i width) as Hi.
    pose proof (Nat.mod_upper_bound i width ltac:(lia)) as Hr.
    set (q := (i / width)%nat) in *. set (r := (i mod width)%nat) in *.
    destruct (Nat.eqb r j) eqn:E.
    + apply Nat.eqb_eq in E.
      rewrite (@div_by_parts (i + width - 1 - j) width q (width - 1))
        by lia.
      rewrite (@div_by_parts (S i + width - 1 - j) width (q + 1) 0) by lia.
      reflexivity.
    + apply Nat.eqb_neq in E.
      destruct (Nat.lt_ge_cases j r) as [Hlt|Hge].
      * rewrite (@div_by_parts (i + width - 1 - j) width (q + 1)
                   (r - j - 1)) by lia.
        rewrite (@div_by_parts (S i + width - 1 - j) width (q + 1) (r - j))
          by lia.
        lia.
      * rewrite (@div_by_parts (i + width - 1 - j) width q
                   (width + r - j - 1)) by lia.
        rewrite (@div_by_parts (S i + width - 1 - j) width q
                   (width + r - j)) by lia.
        lia.
Qed.

Lemma taken_div i :
  (0 < width)%nat -> taken subnets i (i mod width) = (i / width)%nat.
Proof.
  intros HS.
  pose proof (Nat.mod_upper_bound i width ltac:(lia)) as Hr.
  rewrite taken_closed by assumption.
  pose proof (Nat.div_mod_eq i width) as Hi.
  apply div_by_parts with (r := (width - 1)%nat); lia.
Qed.
End Taken.

(** ** The address allocator under a steady in-use query *)

Section Allocator.
Variable cloud : Cloud.
Variable iter_hosts : string -> list IpAddress.
Variable region : Region.
Variable subnets : list Subnet.
Variable Q : Z.
Variable tk : bool.
Variable answers : IpAddress -> list string.
Hypothesis steady : answers_in_region cloud region answers.

(** What one accepted address does to the store. *)
Lemma allocate_one_spec ip s h r s' ev :
  allocate_one cloud region tk ip s h = (r, s', ev) ->
  match r with
  | Return _ =>
      exists a, PrivateIp a = ip
                /\ s' = mkStore (Dict.append region a (node_ips s))
                          (security_groups s)
  | Raise e =>
      s' = s /\ tk = true
      /\ exists x, allocate_address cloud h region = inl x /\ e = external_exn x
  | Hang => False
  end.
Proof.
  unfold allocate_one. destruct tk.
  - unfold bind at 1. rewrite bind_request.
    destruct (allocate_address cloud h region) as [x|[p a]].
    + intros H. inversion H; subst. eauto 6.
    + unfold ret at 1. simpl. intros H. inversion H; subst.
      eexists. split; [|reflexivity]. reflexivity.
  - rewrite bind_ret. intros H. inversion H; subst.
    eexists. split; [|reflexivity]. reflexivity.
Qed.

Lemma while_quota_spec fuel :
  forall i nips s h r s' ev,
    in_step iter_hosts answers subnets i nips ->
    (remaining nips < fuel)%nat ->
    while_quota cloud region subnets Q (allocate_one cloud region tk)
      fuel i nips s h = (r, s', ev) ->
    loop_post iter_hosts answers subnets cloud region Q tk i s r s'.
Proof.
  induction fuel as [|fuel IH]; intros i nips s h r s' ev [Hlen Hinv] Hfuel;
    [lia|].
  simpl. destruct (Z.of_nat i <? Q)%Z eqn:HQ.
  2:{ intros H. inversion H; subst. exists []. simpl.
      apply Z.ltb_ge in HQ. destruct s'.
      split; [reflexivity|]. split; [intros k Hk; lia | lia]. }
  apply Z.ltb_lt in HQ.
  unfold py_mod. destruct (List.length subnets) as [|n] eqn:HS.
  { rewrite bind_raise. intros H. inversion H; subst. exists []. simpl.
    destruct s'. split; [reflexivity|]. split; [intros k Hk; lia|].
    split; [now apply length_zero_iff_nil | auto]. }
  rewrite bind_ret. rewrite <- HS in *.
  assert (Hpos : (0 < List.length subnets)%nat) by lia.
  pose proof (Nat.mod_upper_bound i (List.length subnets) ltac:(lia)) as Hidx.
  unfold index.
  destruct (nth_error nips (i mod List.length subnets)%nat) as [ips|] eqn:Hips.
  2:{ apply nth_error_None in Hips. lia. }
  rewrite bind_ret.
  destruct (nth_error subnets (i mod List.length subnets)%nat) as [sn|] eqn:Hsn.
  2:{ apply nth_error_None in Hsn. lia. }
  rewrite bind_ret.
  pose proof (Hinv (i mod List.length subnets)%nat Hidx) as Hrr.
  rewrite (nth_error_nth _ _ _ Hips) in Hrr.
  rewrite taken_div in Hrr by assumption.
  destruct ips as [|ip rest]; unfold try_next_address.
  { rewrite bind_raise. intros H. inversion H; subst. exists []. simpl.
    rewrite Nat.add_0_r. destruct s'.
    split; [reflexivity|]. split; [intros k Hk; lia|].
    split; [lia|]. split.
    - unfold expected_address.
      apply nth_error_None.
      simpl in Hrr. symmetry in Hrr.
      apply (f_equal (@List.length _)) in Hrr.
      rewrite length_skipn in Hrr. simpl in Hrr. lia.
    - exists sn. auto. }
  rewrite bind_ret. rewrite bind_request. rewrite steady.
  assert (Hrem : remaining nips
                 = S (remaining
                        (advance nips (i mod List.length subnets)%nat rest)))
    by (eapply advance_remaining; eauto).
  simpl in Hrr. unfold in_use in Hrr at 1.
  destruct (answers ip) as [|resv resvs] eqn:Hans; simpl in Hrr.
  - (* the address is free: it is yielded *)
    assert (Hexp : expected_address iter_hosts answers subnets i = Some ip).
    { unfold expected_address.
      rewrite <- (Nat.add_0_r (i / List.length subnets)).
      rewrite <- nth_error_skipn, <- Hrr. reflexivity. }
    destruct (bind (allocate_one cloud region tk ip)
      (fun _ => while_quota cloud region subnets Q
                  (allocate_one cloud region tk) fuel (S i)
                  (advance nips (i mod List.length subnets)%nat rest)) s
      (h ++ [DescribeInstancesByPrivateIp region ip]))
      as [[r1 s1] e1] eqn:Hrun.
    intros H. inversion H; subst r1 s1 ev. clear H.
    apply bind_inv in Hrun.
    destruct Hrun as [(a & s1 & ea & eb & Hone & Hloop & _)
                     |[(e & Hone & ->)|[Hone _]]].
    + apply allocate_one_spec in Hone. destruct Hone as (na & Hip & ->).
      apply IH in Hloop.
      * destruct Hloop as (ys & -> & Hys & Hout). simpl.
        exists (na :: ys). simpl. split; [reflexivity|]. split.
        -- intros [|k] Hk; simpl.
           ++ rewrite Nat.add_0_r, Hip. now rewrite Hexp.
           ++ rewrite <- Nat.add_succ_comm. apply Hys. lia.
        -- replace (i + S (List.length ys))%nat
             with (S i + List.length ys)%nat by lia.
           destruct r as [[]|e|]; [lia| |exact Hout].
           destruct e; try exact Hout.
           destruct Hout as [Hs _]. rewrite Hs in Hpos. simpl in Hpos. lia.
      * split; [now rewrite advance_length|].
        intros j Hj.
        destruct (Nat.eq_dec j (i mod List.length subnets)%nat)
          as [Hj'|Hne]; [subst j|].
        -- rewrite advance_nth_same by lia.
           rewrite taken_succ. rewrite Nat.eqb_refl.
           rewrite taken_div by assumption.
           rewrite Nat.add_1_r.
           change (S (i / List.length subnets))
             with (1 + i / List.length subnets)%nat.
           rewrite <- skipn_skipn. rewrite <- Hrr. reflexivity.
        -- rewrite advance_nth_other by assumption.
           rewrite taken_succ.
           destruct (Nat.eqb (i mod List.length subnets) j) eqn:E;
             [apply Nat.eqb_eq in E; congruence|].
           rewrite Nat.add_0_r. now apply Hinv.
      * lia.
    + apply allocate_one_spec in Hone.
      destruct Hone as (-> & Htk & x & Hx & ->).
      exists []. simpl. rewrite Nat.add_0_r. destruct s.
      split; [reflexivity|]. split; [intros k Hk; lia|].
      destruct x; simpl; repeat split; eauto; congruence.
    + apply allocate_one_spec in Hone. contradiction.
  - (* the address is in use: next one of the same subnet *)
    destruct (while_quota cloud region subnets Q
      (allocate_one cloud region tk) fuel i
      (advance nips (i mod List.length subnets)%nat rest) s
      (h ++ [DescribeInstancesByPrivateIp region ip]))
      as [[r1 s1] e1] eqn:Hrun.
    intros H. inversion H; subst r1 s1 ev. clear H.
    apply IH in Hrun; auto.
    + split; [now rewrite advance_length|].
      intros j Hj.
      destruct (Nat.eq_dec j (i mod List.length subnets)%nat)
        as [Hj'|Hne]; [subst j|].
      * rewrite advance_nth_same by lia.
        rewrite taken_div by assumption. exact Hrr.
      * rewrite advance_nth_other by assumption. now apply Hinv.
    + lia.
Qed.

Lemma skip_addresses_spec n ips subnet s h :
  skip_addresses n ips subnet s h
  = if (n <=? List.length ips)%nat then (Return (skipn n ips), s, [])
    else (Raise (IpAddressPoolDepletedException (CidrBlock subnet)), s, []).
Proof.
  revert ips. induction n as [|n IH]; intros ips; simpl; [reflexivity|].
  destruct ips as [|ip rest]; simpl.
  - reflexivity.
  - rewrite bind_ret. apply IH.
Qed.

Lemma skip_reserved_spec s h :
  forall tail idx,
    skipn idx subnets = tail ->
    skip_reserved subnets idx
      (map (fun subnet => iter_hosts (CidrBlock subnet)) tail) s h
    = match find (is_short iter_hosts) tail with
      | Some subnet =>
          (Raise (IpAddressPoolDepletedException (CidrBlock subnet)), s, [])
      | None =>
          (Return
             (map (fun subnet =>
                     skipn reserved_count (iter_hosts (CidrBlock subnet)))
                tail), s, [])
      end.
Proof.
  induction tail as [|subnet tail IH]; intros idx Hskip;
    cbn [skip_reserved map find]; [reflexivity|].
  assert (Hidx : nth_error subnets idx = Some subnet).
  { rewrite <- (Nat.add_0_r idx), <- nth_error_skipn, Hskip. reflexivity. }
  unfold index. rewrite Hidx, bind_ret.
  unfold bind at 1. rewrite skip_addresses_spec. unfold is_short at 1.
  destruct (Nat.ltb (List.length (iter_hosts (CidrBlock subnet)))
              reserved_count) eqn:E.
  - apply Nat.ltb_lt in E.
    destruct (Nat.leb reserved_count
                (List.length (iter_hosts (CidrBlock subnet)))) eqn:E';
      [apply Nat.leb_le in E'; lia | reflexivity].
  - apply Nat.ltb_ge in E.
    destruct (Nat.leb reserved_count
                (List.length (iter_hosts (CidrBlock subnet)))) eqn:E';
      [|apply Nat.leb_gt in E'; lia].
    rewrite app_nil_r.
    assert (Htail : skipn (S idx) subnets = tail).
    { change (S idx) with (1 + idx)%nat.
      rewrite <- skipn_skipn, Hskip. reflexivity. }
    unfold bind. rewrite (IH _ Htail).
    destruct (find (is_short iter_hosts) tail); reflexivity.
Qed.

Lemma usable_of_nth j :
  nth j
    (map (fun subnet => skipn reserved_count (iter_hosts (CidrBlock subnet)))
       subnets) []
  = usable_of iter_hosts subnets j.
Proof.
  unfold usable_of, hosts_of.
  destruct (nth_error subnets j) as [subnet|] eqn:E.
  - erewrite nth_error_nth; [reflexivity|].
    rewrite nth_error_map, E. reflexivity.
  - rewrite nth_overflow; [now rewrite skipn_nil|].
    rewrite length_map. now apply nth_error_None.
Qed.

(** One region: either a subnet is too small for the reserved head, or
    the loop runs from the first index. *)
Lemma allocate_in_region_spec s h r s' ev :
  allocate_in_region cloud iter_hosts region subnets Q tk s h = (r, s', ev) ->
  match short_subnet iter_hosts subnets with
  | Some subnet =>
      r = Raise (IpAddressPoolDepletedException (CidrBlock subnet))
      /\ s' = s /\ ev = []
  | None => loop_post iter_hosts answers subnets cloud region Q tk 0 s r s'
  end.
Proof.
  unfold allocate_in_region, generate_private_ip_addresses.
  unfold bind at 1.
  rewrite (@skip_reserved_spec s h subnets 0 eq_refl).
  change (find (is_short iter_hosts) subnets)
    with (short_subnet iter_hosts subnets).
  destruct (short_subnet iter_hosts subnets) as [subnet|].
  - intros H. inversion H; subst. auto.
  - rewrite app_nil_r.
    destruct (while_quota _ _ _ _ _ _ _ _ _ _) as [[r1 s1] e1] eqn:Hrun.
    intros H. inversion H; subst r1 s1 ev. clear H.
    eapply while_quota_spec; [| |exact Hrun]; [|lia].
    split; [now rewrite length_map|].
    intros j Hj. rewrite usable_of_nth. reflexivity.
Qed.
End Allocator.

(** ** What a run of appends leaves in the dictionary *)

Section Appends.
Variable X : Type.
Implicit Types (d : Dict.t (list X)) (ys : list X).

Lemma get_list_appends_same k ys d :
  Dict.get_list k (fold_left (fun d a => Dict.append k a d) ys d)
  = Dict.get_list k d ++ ys.
Proof.
  revert d. induction ys as [|y ys IH]; intros d; simpl.
  - now rewrite app_nil_r.
  - rewrite IH, DictFacts.get_list_append_same, <- app_assoc. reflexivity.
Qed.

Lemma get_list_appends_other k k' ys d :
  k <> k' ->
  Dict.get_list k' (fold_left (fun d a => Dict.append k a d) ys d)
  = Dict.get_list k' d.
Proof.
  intros Hne. revert d. induction ys as [|y ys IH]; intros d; simpl; auto.
  rewrite IH. now apply DictFacts.get_list_append_other.
Qed.
End Appends.

Lemma yielded_appends region ys s :
  yielded region
    (mkStore (fold_left (fun d a => Dict.append region a d) ys (node_ips s))
       (security_groups s))
  = yielded region s ++ map PrivateIp ys.
Proof.
  unfold yielded. simpl. now rewrite get_list_appends_same, map_app.
Qed.

Lemma in_skipn {X} (n : nat) (l : list X) (x : X) :
  In x (skipn n l) -> In x l.
Proof.
  intros H. rewrite <- (firstn_skipn n l). apply in_or_app. now right.
Qed.

Lemma bind_py_mod_zero {B} i n (f : nat -> M B) s h :
  n = 0%nat -> bind (py_mod i n) f s h = (Raise ZeroDivisionError, s, []).
Proof. intros ->. reflexivity. Qed.

Lemma bind_py_mod_pos {B} i n (f : nat -> M B) s h :
  n <> 0%nat -> bind (py_mod i n) f s h = f (i mod n)%nat s h.
Proof.
  intros Hn. destruct n as [|n]; [congruence|].
  unfold py_mod. apply bind_ret.
Qed.

(** ** Where the addresses come from, whatever the provider answers *)

Section Positions.
Variable cloud : Cloud.
Variable iter_hosts : string -> list IpAddress.
Variable region : Region.
Variable subnets : list Subnet.
Variable Q : Z.
Variable tk : bool.

Lemma while_quota_positions fuel :
  forall i nips s h r s' ev,
    behind_head iter_hosts subnets nips ->
    while_quota cloud region subnets Q (allocate_one cloud region tk)
      fuel i nips s h = (r, s', ev) ->
    exists ys,
      s' = mkStore
             (fold_left (fun d a => Dict.append region a d) ys (node_ips s))
             (security_groups s)
      /\ forall k a, nth_error ys k = Some a ->
           In (PrivateIp a)
             (usable_of iter_hosts subnets ((i + k) mod List.length subnets)).
Proof.
  assert (Hnone : forall i (s : Store),
    exists ys : list NodeAddress,
      s = mkStore
            (fold_left (fun d a => Dict.append region a d) ys (node_ips s))
            (security_groups s)
      /\ forall k a, nth_error ys k = Some a ->
           In (PrivateIp a)
             (usable_of iter_hosts subnets ((i + k) mod List.length subnets))).
  { intros i s. exists []. destruct s. split; [reflexivity|].
    intros [|k] a Hk; discriminate. }
  induction fuel as [|fuel IH]; intros i nips s h r s' ev [Hlen Hinv]; simpl.
  { intros H. inversion H; subst. apply Hnone. }
  destruct (Z.of_nat i <? Q)%Z.
  2:{ intros H. inversion H; subst. apply Hnone. }
  destruct (Nat.eq_dec (List.length subnets) 0) as [HS|HS].
  { rewrite bind_py_mod_zero by assumption. intros H. inversion H; subst.
    apply Hnone. }
  rewrite bind_py_mod_pos by assumption.
  pose proof (Nat.mod_upper_bound i (List.length subnets) ltac:(lia)) as Hidx.
  unfold index.
  destruct (nth_error nips (i mod List.length subnets)) as [ips|] eqn:Hips.
  2:{ rewrite bind_raise. intros H. inversion H; subst. apply Hnone. }
  rewrite bind_ret.
  destruct (nth_error subnets (i mod List.length subnets)) as [sn|] eqn:Hsn.
  2:{ rewrite bind_raise. intros H. inversion H; subst. apply Hnone. }
  rewrite bind_ret.
  destruct (Hinv _ Hidx) as [n0 Hn0].
  rewrite (nth_error_nth _ _ _ Hips) in Hn0.
  destruct ips as [|ip rest]; unfold try_next_address.
  { rewrite bind_raise. intros H. inversion H; subst. apply Hnone. }
  rewrite bind_ret, bind_request.
  assert (Hnext : behind_head iter_hosts subnets
            (advance nips (i mod List.length subnets) rest)).
  { split; [now rewrite advance_length|].
    intros j Hj.
    destruct (Nat.eq_dec j (i mod List.length subnets)) as [Hj'|Hne].
    - subst j. rewrite advance_nth_same by lia. exists (1 + n0)%nat.
      rewrite <- skipn_skipn, <- Hn0. reflexivity.
    - rewrite advance_nth_other by assumption. now apply Hinv. }
  destruct (describe_instances_by_private_ip cloud h region ip)
    as [x|[|resv resvs]].
  - intros H. inversion H; subst. apply Hnone.
  - destruct (bind _ _ _ _) as [[r1 s1] e1] eqn:Hrun.
    intros H. inversion H; subst r1 s1 ev. clear H.
    apply bind_inv in Hrun.
    destruct Hrun as [(a & s1 & ea & eb & Hone & Hloop & _)
                     |[(e & Hone & ->)|[Hone _]]].
    + apply allocate_one_spec in Hone. destruct Hone as (na & Hip & ->).
      apply IH in Hloop; [|assumption].
      destruct Hloop as (ys & -> & Hys). exists (na :: ys).
      split; [reflexivity|]. intros [|k] a0 Hk; simpl in Hk.
      * inversion Hk; subst a0. rewrite Nat.add_0_r, Hip.
        apply (in_skipn n0). rewrite <- Hn0. now left.
      * rewrite <- Nat.add_succ_comm. now apply Hys.
    + apply allocate_one_spec in Hone. destruct Hone as (-> & _).
      apply Hnone.
    + apply allocate_one_spec in Hone. contradiction.
  - destruct (while_quota _ _ _ _ _ _ _ _ _ _) as [[r1 s1] e1] eqn:Hrun.
    intros H. inversion H; subst r1 s1 ev. clear H.
    now apply IH in Hrun.
Qed.

Lemma allocate_in_region_positions s h r s' ev :
  allocate_in_region cloud iter_hosts region subnets Q tk s h = (r, s', ev) ->
  exists ys,
    s' = mkStore
           (fold_left (fun d a => Dict.append region a d) ys (node_ips s))
           (security_groups s)
    /\ forall k a, nth_error ys k = Some a ->
         In (PrivateIp a)
           (usable_of iter_hosts subnets (k mod List.length subnets)).
Proof.
  unfold allocate_in_region, generate_private_ip_addresses.
  unfold bind at 1.
  rewrite (@skip_reserved_spec iter_hosts subnets s h subnets 0 eq_refl).
  destruct (find (is_short iter_hosts) subnets) as [subnet|].
  - intros H. inversion H; subst. exists []. destruct s'.
    split; [reflexivity|]. intros [|k] a Hk; discriminate.
  - rewrite app_nil_r.
    destruct (while_quota _ _ _ _ _ _ _ _ _ _) as [[r1 s1] e1] eqn:Hrun.
    intros H. inversion H; subst r1 s1 ev. clear H.
    apply while_quota_positions in Hrun; [exact Hrun|].
    split; [now rewrite length_map|].
    intros j Hj. exists 0%nat. rewrite usable_of_nth. reflexivity.
Qed.
End Positions.

(** ** The in-use queries of a trace *)

Lemma queries_app cloud e1 : forall h e2,
  queries cloud h (e1 ++ e2)
  = queries cloud h e1 ++ queries cloud (h ++ e1) e2.
Proof.
  induction e1 as [|e e1 IH]; intros h e2; simpl.
  - now rewrite app_nil_r.
  - rewrite IH, <- app_assoc. simpl. now destruct e.
Qed.

Lemma advance_concat nips : forall idx ip rest,
  nth_error nips idx = Some (ip :: rest) ->
  exists pre post,
    List.concat nips = pre ++ ip :: rest ++ post
    /\ List.concat (advance nips idx rest) = pre ++ rest ++ post.
Proof.
  induction nips as [|ips nips IH]; intros [|idx] ip rest H; simpl in *;
    try discriminate.
  - inversion H; subst. exists [], (List.concat nips). auto.
  - destruct (IH _ _ _ H) as (pre & post & -> & ->).
    exists (ips ++ pre), post. now rewrite <- !app_assoc.
Qed.

Lemma allocate_one_asks_nothing (cloud : Cloud) (region : Region)
    (tk : bool) ip s h r s' ev h' :
  allocate_one cloud region tk ip s h = (r, s', ev) ->
  queries cloud h' ev = [].
Proof.
  unfold allocate_one, bind, request, ret, modify.
  destruct tk;
    [destruct (allocate_address cloud h region) as [x|[public_ip allocation]]
    |]; intros H; inversion H; reflexivity.
Qed.

(** The quota loop, whatever the provider answers. *)
Section Trace.
Variable cloud : Cloud.
Variable iter_hosts : string -> list IpAddress.
Variable region : Region.
Variable subnets : list Subnet.
Variable Q : Z.
Variable tk : bool.

Lemma advance_nth_error_same nips : forall idx rest,
  (idx < List.length nips)%nat ->
  nth_error (advance nips idx rest) idx = Some rest.
Proof.
  induction nips as [|ips nips IH]; intros [|idx] rest; simpl; intros H;
    try lia; auto. apply IH. lia.
Qed.

Lemma trace_post_nothing fuel i nips (s : Store) h r :
  (r = Return tt -> (Z.to_nat Q - i = 0)%nat) ->
  ((remaining nips < fuel)%nat -> r <> Hang) ->
  trace_post cloud iter_hosts region subnets Q fuel i nips s h r s [].
Proof.
  intros Hreturn Hhang. exists []. simpl.
  split; [now destruct s|]. split; [exists []; auto|].
  split; [intros Hr; symmetry; auto|]. split; [exact Hhang|].
  split; [intros [|m] a Hm; discriminate|].
  split; [intros q qs' Hq; discriminate|].
  split; [intros [|k] q q' Hk; discriminate|].
  split; constructor.
Qed.

Lemma while_quota_trace fuel :
  forall i nips s h r s' ev,
    behind_head iter_hosts subnets nips ->
    while_quota cloud region subnets Q (allocate_one cloud region tk)
      fuel i nips s h = (r, s', ev) ->
    trace_post cloud iter_hosts region subnets Q fuel i nips s h r s' ev.
Proof.
  induction fuel as [|fuel IH]; intros i nips s h r s' ev [Hlen Hinv]; simpl.
  { intros H. inversion H; subst.
    apply trace_post_nothing; [discriminate|lia]. }
  destruct (Z.of_nat i <? Q)%Z eqn:HiQ.
  2:{ intros H. inversion H; subst. apply Z.ltb_ge in HiQ.
      apply trace_post_nothing; [lia|discriminate]. }
  apply Z.ltb_lt in HiQ.
  destruct (Nat.eq_dec (List.length subnets) 0) as [HS|HS].
  { rewrite bind_py_mod_zero by assumption. intros H. inversion H; subst.
    apply trace_post_nothing; discriminate. }
  rewrite bind_py_mod_pos by assumption.
  pose proof (Nat.mod_upper_bound i (List.length subnets) ltac:(lia)) as Hidx.
  unfold index.
  destruct (nth_error nips (i mod List.length subnets)) as [ips|] eqn:Hips.
  2:{ rewrite bind_raise. intros H. inversion H; subst.
      apply trace_post_nothing; discriminate. }
  rewrite bind_ret.
  destruct (nth_error subnets (i mod List.length subnets)) as [sn|] eqn:Hsn.
  2:{ rewrite bind_raise. intros H. inversion H; subst.
      apply trace_post_nothing; discriminate. }
  rewrite bind_ret.
  destruct (Hinv _ Hidx) as [n0 Hn0].
  rewrite (nth_error_nth _ _ _ Hips) in Hn0.
  destruct ips as [|ip rest]; unfold try_next_address.
  { rewrite bind_raise. intros H. inversion H; subst.
    apply trace_post_nothing; discriminate. }
  rewrite bind_ret, bind_request.
  assert (Hnext : behind_head iter_hosts subnets
            (advance nips (i mod List.length subnets) rest)).
  { split; [now rewrite advance_length|].
    intros j Hj.
    destruct (Nat.eq_dec j (i mod List.length subnets)) as [Hj'|Hne].
    - subst j. rewrite advance_nth_same by lia. exists (1 + n0)%nat.
      rewrite <- skipn_skipn, <- Hn0. reflexivity.
    - rewrite advance_nth_other by assumption. now apply Hinv. }
  pose proof (advance_remaining _ _ Hips) as Hrem.
  destruct (advance_concat _ _ Hips) as (pre & post & Hcat & Hcat').
  assert (Hip : nth_error
                  (usable_of iter_hosts subnets (i mod List.length subnets))
                  n0 = Some ip).
  { rewrite <- (Nat.add_0_r n0), <- nth_error_skipn, <- Hn0. reflexivity. }
  assert (Hrest : forall k,
            nth_error rest k
            = nth_error
                (usable_of iter_hosts subnets (i mod List.length subnets))
                (S n0 + k)).
  { intros k. rewrite Nat.add_succ_comm, <- nth_error_skipn, <- Hn0.
    reflexivity. }
  assert (Hnow : In ip (List.concat nips)).
  { rewrite Hcat. apply in_or_app. right. now left. }
  assert (Hlater : forall x,
            In x (List.concat
                    (advance nips (i mod List.length subnets) rest)) ->
            In x (List.concat nips)).
  { intros x. rewrite Hcat, Hcat', !in_app_iff. simpl.
    rewrite in_app_iff. tauto. }
  assert (Honce : NoDup (List.concat nips) ->
            NoDup (List.concat
                     (advance nips (i mod List.length subnets) rest))
            /\ ~ In ip (List.concat
                          (advance nips (i mod List.length subnets) rest))).
  { rewrite Hcat, Hcat'. intros Hnd. split.
    - eapply NoDup_remove_1. exact Hnd.
    - eapply NoDup_remove_2. exact Hnd. }
  destruct (describe_instances_by_private_ip cloud h region ip)
    as [x|[|resv resvs]] eqn:Hans.
  - intros H. inversion H; subst. exists []. simpl.
    unfold reported_free. rewrite Hans. unfold accepted. simpl.
    split; [now destruct s'|]. split; [exists []; split; [auto|auto]|].
    split; [discriminate|]. split; [discriminate|].
    split; [intros [|m] a Hm; discriminate|].
    split; [intros q qs' Hq; inversion Hq; subst; simpl; eauto|].
    split; [intros [|[|k]] q q' Hk Hk'; discriminate|].
    split; [repeat constructor; assumption|].
    intros _. repeat constructor. intros [].
  - destruct (bind _ _ _ _) as [[r1 s1] e1] eqn:Hrun.
    intros H. inversion H; subst r1 s1 ev. clear H.
    apply bind_inv in Hrun.
    destruct Hrun as [([] & s1 & ea & eb & Hone & Hloop & ->)
                     |[(e & Hone & ->)|[Hone _]]].
    + pose proof (@allocate_one_asks_nothing cloud region tk _ _ _ _ _ _
                    (h ++ [DescribeInstancesByPrivateIp region ip]) Hone)
        as Hquiet.
      apply allocate_one_spec in Hone. destruct Hone as (na & Hna & ->).
      apply IH in Hloop; [|assumption].
      unfold trace_post in Hloop. cbv zeta in Hloop.
      destruct Hloop as (ys & -> & (tail & Hacc & Htail) & Hlen' & Hhang
                         & Hin & Hhead & Hcons & Hall & Hnd).
      exists (na :: ys). cbv zeta. simpl queries. unfold reported_free.
      rewrite Hans, queries_app, Hquiet. simpl app.
      set (qs' := queries cloud _ eb) in *.
      split; [reflexivity|]. split.
      { exists tail. split; [|exact Htail]. unfold accepted in *. simpl.
        now rewrite Hna, Hacc. }
      split; [intros Hr; simpl; rewrite (Hlen' Hr); lia|].
      split; [intros Hfuel; apply Hhang; lia|].
      split.
      { intros [|m] a Hm.
        - unfold accepted in Hm. simpl in Hm. inversion Hm; subst a.
          rewrite Nat.add_0_r. eapply nth_error_In. exact Hip.
        - rewrite <- Nat.add_succ_comm. apply Hin. exact Hm. }
      split; [intros q qs0 Hq; inversion Hq; subst; simpl; eauto|].
      split.
      { intros [|k] q q' Hk Hk' Hfree.
        - inversion Hk; subst q. discriminate.
        - simpl in Hk, Hk'.
          destruct (Hcons k q q' Hk Hk' Hfree) as (p & Hp & Hp').
          exists p. simpl firstn. unfold accepted in *. simpl.
          rewrite <- Nat.add_succ_comm. auto. }
      split.
      { constructor; [split; [reflexivity|exact Hnow]|].
        eapply Forall_impl; [|exact Hall]. intros q [Hq Hq'].
        split; [exact Hq|]. now apply Hlater. }
      intros Hnd0. destruct (Honce Hnd0) as [Hnd1 Hnot]. simpl.
      constructor; [|now apply Hnd].
      intros Hip'. apply in_map_iff in Hip'.
      destruct Hip' as (q & Hq & Hq').
      rewrite Forall_forall in Hall. destruct (Hall q Hq') as [_ Hq''].
      apply Hnot. now rewrite <- Hq.
    + pose proof (@allocate_one_asks_nothing cloud region tk _ _ _ _ _ _
                    (h ++ [DescribeInstancesByPrivateIp region ip]) Hone)
        as Hquiet.
      apply allocate_one_spec in Hone. destruct Hone as (-> & _).
      exists []. cbv zeta. simpl queries. unfold reported_free.
      rewrite Hans, Hquiet. unfold accepted. simpl.
      split; [now destruct s|]. split; [exists [ip]; split; [auto|]|].
      { discriminate. }
      split; [discriminate|]. split; [discriminate|].
      split.
      { intros [|[|m]] a Hm; try discriminate. inversion Hm; subst a.
        rewrite Nat.add_0_r. eapply nth_error_In. exact Hip. }
      split; [intros q qs' Hq; inversion Hq; subst; simpl; eauto|].
      split; [intros [|[|k]] q q' Hk Hk'; discriminate|].
      split; [repeat constructor; assumption|].
      intros _. repeat constructor. intros [].
    + apply allocate_one_spec in Hone. contradiction.
  - destruct (while_quota _ _ _ _ _ _ _ _ _ _) as [[r1 s1] e1] eqn:Hrun.
    intros H. inversion H; subst r1 s1 ev. clear H.
    apply IH in Hrun; [|assumption].
    unfold trace_post in Hrun. cbv zeta in Hrun.
    destruct Hrun as (ys & -> & (tail & Hacc & Htail) & Hlen' & Hhang
                      & Hin & Hhead & Hcons & Hall & Hnd).
    exists ys. cbv zeta. simpl queries. unfold reported_free.
    rewrite Hans.
    set (qs' := queries cloud _ e1) in *.
    split; [reflexivity|]. split.
    { exists tail. split; [|exact Htail]. exact Hacc. }
    split; [exact Hlen'|].
    split; [intros Hfuel; apply Hhang; lia|].
    split; [exact Hin|].
    split; [intros q qs0 Hq; inversion Hq; subst; simpl; eauto|].
    split.
    { intros [|k] q q' Hk Hk' Hfree.
      - inversion Hk; subst q. simpl in Hk'. cbn [firstn].
        unfold accepted. cbn [filter map List.length].
        rewrite Nat.add_0_r.
        destruct qs' as [|q1 qs1] eqn:Hqs'; [discriminate|].
        inversion Hk'; subst q1.
        destruct (Hhead q' qs1 eq_refl) as (l & Hl).
        rewrite advance_nth_error_same in Hl by lia.
        inversion Hl; subst rest. exists n0. split; [exact Hip|].
        rewrite <- (Nat.add_0_r (S n0)), <- Hrest. reflexivity.
      - simpl in Hk, Hk'.
        destruct (Hcons k q q' Hk Hk' Hfree) as (p & Hp & Hp').
        exists p. simpl firstn. unfold accepted in *. simpl. auto. }
    split.
    { constructor; [split; [reflexivity|exact Hnow]|].
      eapply Forall_impl; [|exact Hall]. intros q [Hq Hq'].
      split; [exact Hq|]. now apply Hlater. }
    intros Hnd0. destruct (Honce Hnd0) as [Hnd1 Hnot]. simpl.
    constructor; [|now apply Hnd].
    intros Hip'. apply in_map_iff in Hip'.
    destruct Hip' as (q & Hq & Hq').
    rewrite Forall_forall in Hall. destruct (Hall q Hq') as [_ Hq''].
    apply Hnot. now rewrite <- Hq.
Qed.
End Trace.

Section RegionTrace.
Variable cloud : Cloud.
Variable iter_hosts : string -> list IpAddress.
Variable region : Region.
Variable subnets : list Subnet.
Variable Q : Z.
Variable tk : bool.

Lemma allocate_in_region_trace s h r s' ev :
  allocate_in_region cloud iter_hosts region subnets Q tk s h = (r, s', ev) ->
  trace_post cloud iter_hosts region subnets Q
    (S (remaining
          (map (fun subnet =>
                  skipn reserved_count (iter_hosts (CidrBlock subnet)))
             subnets)))
    0
    (map (fun subnet => skipn reserved_count (iter_hosts (CidrBlock subnet)))
       subnets)
    s h r s' ev.
Proof.
  unfold allocate_in_region, generate_private_ip_addresses.
  unfold bind at 1.
  rewrite (@skip_reserved_spec iter_hosts subnets s h subnets 0 eq_refl).
  destruct (find (is_short iter_hosts) subnets) as [subnet|].
  - intros H. inversion H; subst. apply trace_post_nothing; discriminate.
  - rewrite app_nil_r.
    destruct (while_quota _ _ _ _ _ _ _ _ _ _) as [[r1 s1] e1] eqn:Hrun.
    intros H. inversion H; subst r1 s1 ev. clear H.
    apply (@while_quota_trace cloud iter_hosts) in Hrun; [exact Hrun|].
    split; [now rewrite length_map|].
    intros j Hj. exists 0%nat. rewrite usable_of_nth. reflexivity.
Qed.
End RegionTrace.

(** C4.  Whatever the provider answers, the allocation of a region never
    waits for ever, and the addresses it records are the candidates
    reported free, in the order of the queries; all of them when it
    returns, and then as many as the quota.  Within a region with [S]
    subnets the [i]-th candidate reported free (counting from 0) lies
    behind the reserved head of subnet [i mod S].  When a candidate is
    reported in use, the candidate queried next is the next address of the
    same subnet's sequence, the subnet being the one that round robin
    selects for the number of candidates accepted so far. *)
Theorem round_robin_over_subnets
    (cloud : Cloud) (iter_hosts : string -> list IpAddress) (region : Region)
    (subnets : list Subnet) (quota : Z) (take_elastic_ips : bool)
    (s : Store) (h : History)
    (r : Outcome unit) (s' : Store) (ev : list Event) :
  allocate_in_region cloud iter_hosts region subnets quota take_elastic_ips
    s h = (r, s', ev) ->
  r <> Hang
  /\ exists ys,
       yielded region s' = yielded region s ++ ys
       /\ (exists tail,
              accepted (queries cloud h ev) = ys ++ tail
              /\ (r = Return tt -> tail = []))
       /\ (r = Return tt -> List.length ys = Z.to_nat quota)
       /\ (forall i a,
             nth_error (accepted (queries cloud h ev)) i = Some a ->
             In a
               (usable_of iter_hosts subnets (i mod List.length subnets)))
       /\ (forall k q q',
             nth_error (queries cloud h ev) k = Some q ->
             nth_error (queries cloud h ev) (S k) = Some q' ->
             q_free q = false ->
             exists p,
               nth_error
                 (usable_of iter_hosts subnets
                    (List.length (accepted (firstn k (queries cloud h ev)))
                     mod List.length subnets)) p
               = Some (q_ip q)
               /\ nth_error
                    (usable_of iter_hosts subnets
                       (List.length
                          (accepted (firstn k (queries cloud h ev)))
                        mod List.length subnets)) (S p)
                  = Some (q_ip q')).
Proof.
  intros Hrun. apply allocate_in_region_trace in Hrun.
  destruct Hrun as (ys & -> & (tail & Hacc & Htail) & Hlen & Hhang & Hin
                    & _ & Hcons & _).
  split; [apply Hhang; lia|].
  exists (map PrivateIp ys). split; [apply yielded_appends|].
  split; [exists tail; auto|].
  split; [intros Hr; rewrite length_map, (Hlen Hr); lia|].
  split; [exact Hin|exact Hcons].
Qed.

(** ** Sequences without repetition *)

Section Distinct.
Variable X : Type.
Implicit Types (l r : list X) (ls : list (list X)).

Lemma nodup_app_disjoint l r x :
  NoDup (l ++ r) -> In x l -> In x r -> False.
Proof.
  induction l as [|a l IH]; simpl; intros Hnd Hl Hr; [contradiction|].
  inversion Hnd as [|? ? Hnotin Hnd']; subst.
  destruct Hl as [->|Hl].
  - apply Hnotin. apply in_or_app. now right.
  - now apply IH.
Qed.

Lemma nodup_concat_part ls j l :
  NoDup (List.concat ls) -> nth_error ls j = Some l -> NoDup l.
Proof.
  revert j. induction ls as [|l0 ls IH]; intros [|j] Hnd Hj; simpl in *;
    try discriminate.
  - inversion Hj; subst. eapply NoDup_app_remove_r; eauto.
  - eapply IH; eauto. eapply NoDup_app_remove_l; eauto.
Qed.

Lemma in_concat_part ls j l x :
  nth_error ls j = Some l -> In x l -> In x (List.concat ls).
Proof.
  intros Hj Hx. apply in_concat. exists l. split; [|assumption].
  eapply nth_error_In; eauto.
Qed.

Lemma nodup_concat_disjoint ls j j' l l' x :
  NoDup (List.concat ls) -> j <> j' ->
  nth_error ls j = Some l -> nth_error ls j' = Some l' ->
  In x l -> In x l' -> False.
Proof.
  revert j j'. induction ls as [|l0 ls IH]; intros [|j] [|j'] Hnd Hne Hj Hj';
    simpl in *; try discriminate; try congruence; intros Hx Hx'.
  - inversion Hj; subst. eapply nodup_app_disjoint; eauto.
    eapply in_concat_part; eauto.
  - inversion Hj'; subst. eapply nodup_app_disjoint; eauto.
    eapply in_concat_part; eauto.
  - eapply (IH j j'); eauto. eapply NoDup_app_remove_l; eauto.
Qed.

Lemma in_skipn_position n l x :
  In x (skipn n l) -> exists p, (n <= p)%nat /\ nth_error l p = Some x.
Proof.
  intros H. apply In_nth_error in H. destruct H as [k Hk].
  rewrite nth_error_skipn in Hk. exists (n + k)%nat. split; [lia|assumption].
Qed.

Lemma in_firstn_position n l x :
  In x (firstn n l) -> exists p, (p < n)%nat /\ nth_error l p = Some x.
Proof.
  intros H. apply In_nth_error in H. destruct H as [k Hk].
  assert (Hlt : (k < n)%nat).
  { destruct (Nat.lt_ge_cases k n) as [|Hge]; [assumption|].
    assert (Hnone : nth_error (firstn n l) k = None).
    { apply nth_error_None. rewrite length_firstn. lia. }
    congruence. }
  exists k. split; [assumption|].
  rewrite nth_error_firstn in Hk.
  destruct (Nat.ltb k n) eqn:E; [assumption|discriminate].
Qed.

Lemma nodup_head_tail_apart n l x :
  NoDup l -> In x (skipn n l) -> In x (firstn n l) -> False.
Proof.
  intros Hnd Hs Hf. rewrite <- (firstn_skipn n l) in Hnd.
  eapply nodup_app_disjoint; eauto.
Qed.
End Distinct.

Lemma hosts_of_nth iter_hosts subnets j :
  j < List.length subnets ->
  nth_error (map (fun subnet => iter_hosts (CidrBlock subnet)) subnets) j
  = Some (hosts_of iter_hosts subnets j).
Proof.
  intros Hj. unfold hosts_of. rewrite nth_error_map.
  destruct (nth_error subnets j) eqn:E; [reflexivity|].
  apply nth_error_None in E. lia.
Qed.

Lemma hosts_of_beyond iter_hosts subnets j :
  List.length subnets <= j -> hosts_of iter_hosts subnets j = [].
Proof.
  intros Hj. unfold hosts_of.
  destruct (nth_error subnets j) eqn:E; [|reflexivity].
  assert (nth_error subnets j = None) by now apply nth_error_None.
  congruence.
Qed.

(** C6.  Whatever the provider answers, every address the allocator
    records comes from position [reserved_count] (10) or later of the host
    sequence of the subnet it was drawn from; and when the host sequences
    of the region's subnets hold no address twice, no recorded address is
    one of the first 10 addresses of any of those subnets. *)
Theorem reserved_head_never_yielded
    (cloud : Cloud) (iter_hosts : string -> list IpAddress) (region : Region)
    (subnets : list Subnet) (quota : Z) (take_elastic_ips : bool)
    (s : Store) (h : History)
    (r : Outcome unit) (s' : Store) (ev : list Event) :
  allocate_in_region cloud iter_hosts region subnets quota take_elastic_ips
    s h = (r, s', ev) ->
  exists ys,
    yielded region s' = yielded region s ++ ys
    /\ forall i y, nth_error ys i = Some y ->
         (exists p,
             (reserved_count <= p)%nat
             /\ nth_error
                  (hosts_of iter_hosts subnets (i mod List.length subnets)) p
                = Some y)
         /\ (NoDup
               (List.concat (map (fun subnet => iter_hosts (CidrBlock subnet))
                          subnets)) ->
             forall j,
               ~ In y (firstn reserved_count (hosts_of iter_hosts subnets j))).
Proof.
  intros Hrun. apply allocate_in_region_positions in Hrun.
  destruct Hrun as (ys & -> & Hys).
  exists (map PrivateIp ys). split; [apply yielded_appends|].
  intros i y Hy. rewrite nth_error_map in Hy.
  destruct (nth_error ys i) as [a|] eqn:Ha; [|discriminate].
  inversion Hy; subst y. clear Hy.
  pose proof (Hys _ _ Ha) as Hin. unfold usable_of in Hin.
  split; [now apply in_skipn_position|].
  intros Hnd j Hhead.
  destruct (Nat.lt_ge_cases j (List.length subnets)) as [Hj|Hj].
  2:{ rewrite hosts_of_beyond in Hhead by assumption.
      now rewrite firstn_nil in Hhead. }
  assert (Hi : i mod List.length subnets < List.length subnets)
    by (apply Nat.mod_upper_bound; lia).
  destruct (Nat.eq_dec j (i mod List.length subnets)) as [->|Hne].
  - eapply nodup_head_tail_apart; [|exact Hin|exact Hhead].
    eapply nodup_concat_part; [exact Hnd|]. now apply hosts_of_nth.
  - eapply nodup_concat_disjoint;
      [exact Hnd|exact Hne|now apply hosts_of_nth|now apply hosts_of_nth| |].
    + rewrite <- (firstn_skipn reserved_count). apply in_or_app. left.
      exact Hhead.
    + eapply in_skipn; exact Hin.
Qed.

(** ** The first index that satisfies a test *)

Lemma find_seq_none (p : nat -> bool) n a :
  (forall k, (a <= k < a + n)%nat -> p k = false) -> find p (seq a n) = None.
Proof.
  revert a. induction n as [|n IH]; intros a Hp; simpl; [reflexivity|].
  rewrite Hp by lia. apply IH. intros k Hk. apply Hp. lia.
Qed.

Lemma find_seq_first (p : nat -> bool) n a m :
  (a <= m < a + n)%nat -> p m = true ->
  (forall k, (a <= k < m)%nat -> p k = false) ->
  find p (seq a n) = Some m.
Proof.
  revert a. induction n as [|n IH]; intros a Hm Hpm Hp; simpl; [lia|].
  destruct (Nat.eq_dec a m) as [->|Hne].
  - now rewrite Hpm.
  - rewrite Hp by lia. apply IH; [lia|assumption|].
    intros k Hk. apply Hp. lia.
Qed.


(** ** A whole allocation run, whatever the provider answers *)

Lemma nodup_skipn {X} n (l : list X) : NoDup l -> NoDup (skipn n l).
Proof.
  intros H. rewrite <- (firstn_skipn n l) in H.
  eapply NoDup_app_remove_l; eauto.
Qed.

Lemma nodup_map_filter {X Y} (f : X -> Y) (p : X -> bool) l :
  NoDup (map f l) -> NoDup (map f (filter p l)).
Proof.
  induction l as [|x l IH]; simpl; intros Hnd; [constructor|].
  inversion Hnd as [|? ? Hnot Hnd']; subst.
  destruct (p x); [|auto]. simpl. constructor; [|auto].
  intros Hin. apply Hnot. apply in_map_iff in Hin.
  destruct Hin as (y & Hy & Hy'). apply filter_In in Hy'.
  apply in_map_iff. exists y. tauto.
Qed.

Lemma nodup_map_same {X Y} (f : X -> Y) l x y :
  NoDup (map f l) -> In x l -> In y l -> f x = f y -> x = y.
Proof.
  induction l as [|z l IH]; simpl; intros Hnd Hx Hy Hf; [contradiction|].
  inversion Hnd as [|? ? Hnot Hnd']; subst.
  destruct Hx as [->|Hx], Hy as [->|Hy]; auto.
  - exfalso. apply Hnot. rewrite Hf. now apply in_map.
  - exfalso. apply Hnot. rewrite <- Hf. now apply in_map.
Qed.

Lemma nodup_concat_skipn {X Y} (f : X -> list Y) n l :
  NoDup (List.concat (map f l)) ->
  NoDup (List.concat (map (fun x => skipn n (f x)) l)).
Proof.
  induction l as [|x l IH]; simpl; intros Hnd; [constructor|].
  apply NoDup_app.
  - apply nodup_skipn. eapply NoDup_app_remove_r. exact Hnd.
  - apply IH. eapply NoDup_app_remove_l. exact Hnd.
  - intros a Ha Ha'. eapply nodup_app_disjoint; [exact Hnd| |].
    + eapply in_skipn. exact Ha.
    + apply in_concat in Ha'. destruct Ha' as (l' & Hl' & Ha').
      apply in_map_iff in Hl'. destruct Hl' as (y & <- & Hy).
      apply in_concat. exists (f y). split; [now apply in_map|].
      eapply in_skipn. exact Ha'.
Qed.

Section WholeTrace.
Variable cloud : Cloud.
Variable iter_hosts : string -> list IpAddress.
Variable Q : Z.
Variable tk : bool.

Lemma allocate_ip_addresses_trace :
  forall items s h s' ev,
    NoDup (map fst items) ->
    allocate_ip_addresses cloud iter_hosts items Q tk s h
    = (Return tt, s', ev) ->
    (forall region, ~ In region (map fst items) ->
       yielded region s' = yielded region s)
    /\ Forall (fun q => In (q_region q) (map fst items)) (queries cloud h ev)
    /\ (forall region subnets, In (region, subnets) items ->
          exists ys,
            yielded region s' = yielded region s ++ ys
            /\ List.length ys = Z.to_nat Q
            /\ (forall ip, In ip ys ->
                  In (mkQuery region ip true) (queries cloud h ev))
            /\ (NoDup
                  (List.concat
                     (map (fun subnet => iter_hosts (CidrBlock subnet))
                        subnets)) ->
                NoDup ys
                /\ forall ip,
                     In (mkQuery region ip false) (queries cloud h ev) ->
                     ~ In ip ys)).
Proof.
  unfold allocate_ip_addresses, Dict.items.
  induction items as [|[r0 sn0] items IH]; intros s h s' ev Hnd; simpl.
  - intros H. inversion H; subst. simpl.
    split; [auto|]. split; [constructor|]. intros ? ? [].
  - intros Hrun. apply bind_inv in Hrun.
    destruct Hrun as [([] & s1 & ea & eb & Hone & Hrest & ->)
                     |[(e & _ & He)|[_ He]]]; try discriminate.
    inversion Hnd as [|? ? Hfresh Hnd']; subst.
    apply allocate_in_region_trace in Hone.
    destruct Hone as (ys0 & -> & (tail & Hacc & Htail) & Hlen0 & _ & _ & _
                      & _ & Hall0 & Hnd0).
    rewrite (Htail eq_refl), app_nil_r in Hacc.
    specialize (Hlen0 eq_refl). rewrite Nat.sub_0_r in Hlen0.
    apply IH in Hrest; [|assumption].
    destruct Hrest as (Hother & Hregions & Hin).
    rewrite queries_app.
    set (qs0 := queries cloud h ea) in *.
    set (qs1 := queries cloud (h ++ ea) eb) in *.
    assert (Hr0 : forall q, In q qs0 -> q_region q = r0).
    { intros q Hq. rewrite Forall_forall in Hall0. now apply Hall0. }
    assert (Hr1 : forall q, In q qs1 -> In (q_region q) (map fst items)).
    { intros q Hq. rewrite Forall_forall in Hregions. now apply Hregions. }
    split; [|split].
    + intros region Hnot. rewrite Hother by tauto.
      unfold yielded. simpl. rewrite get_list_appends_other by tauto.
      reflexivity.
    + apply Forall_app. split.
      * apply Forall_forall. intros q Hq. left. symmetry. now apply Hr0.
      * apply Forall_forall. intros q Hq. right. now apply Hr1.
    + intros region subnets [Heq|Hlater].
      * inversion Heq; subst region subnets.
        exists (map PrivateIp ys0). rewrite Hother by assumption.
        split; [apply yielded_appends|].
        split; [now rewrite length_map|]. split.
        { intros ip Hip. rewrite <- Hacc in Hip. unfold accepted in Hip.
          apply in_map_iff in Hip. destruct Hip as (q & Hq & Hq').
          apply filter_In in Hq'. destruct Hq' as [Hq' Hfree].
          apply in_or_app. left. specialize (Hr0 q Hq').
          destruct q as [qr qi qf]. simpl in *. now subst. }
        intros Hhosts.
        assert (Hqs0 : NoDup (map q_ip qs0)).
        { apply Hnd0. now apply nodup_concat_skipn. }
        split.
        { rewrite <- Hacc. unfold accepted. now apply nodup_map_filter. }
        intros ip Hq Hip. apply in_app_or in Hq. destruct Hq as [Hq|Hq].
        -- rewrite <- Hacc in Hip. unfold accepted in Hip.
           apply in_map_iff in Hip. destruct Hip as (q & Hq' & Hq'').
           apply filter_In in Hq''. destruct Hq'' as [Hq'' Hfree].
           assert (Hsame : q = mkQuery r0 ip false).
           { eapply nodup_map_same; [exact Hqs0| | |]; eauto. }
           subst q. discriminate.
        -- apply Hfresh. exact (Hr1 _ Hq).
      * assert (Hne : region <> r0).
        { intros ->. apply Hfresh.
          change (In (fst (r0, subnets)) (map fst items)).
          now apply in_map. }
        destruct (Hin _ _ Hlater) as (ys & Hget & Hlen & Hfree & Hdistinct).
        exists ys. split.
        { rewrite Hget. unfold yielded. simpl.
          rewrite get_list_appends_other by congruence. reflexivity. }
        split; [exact Hlen|]. split.
        { intros ip Hip. apply in_or_app. right. now apply Hfree. }
        intros Hhosts. destruct (Hdistinct Hhosts) as [Hnd1 Hused].
        split; [exact Hnd1|].
        intros ip Hq. apply in_app_or in Hq. destruct Hq as [Hq|Hq].
        -- exfalso. apply Hne. exact (Hr0 _ Hq).
        -- now apply Hused.
Qed.
End WholeTrace.


(** ** Footprints *)

Section Footprints.
Variable ks : list EventKind.
Variable R : Store -> Store -> Prop.
Variable xs : list ExnKind.
Hypothesis HR : preorder R.

Lemma obeys_ret {A} (a : A) : obeys ks R xs (ret a).
Proof.
  intros s h r s' ev H. inversion H; subst.
  split; [constructor|]. split; [apply HR|]. discriminate.
Qed.

Lemma obeys_raise {A} e : In (exn_kind e) xs -> obeys ks R xs (@raise A e).
Proof.
  intros He s h r s' ev H. inversion H; subst.
  split; [constructor|]. split; [apply HR|]. intros e' He'.
  now inversion He'; subst.
Qed.

Lemma obeys_hang {A} : obeys ks R xs (@hang A).
Proof.
  intros s h r s' ev H. inversion H; subst.
  split; [constructor|]. split; [apply HR|]. discriminate.
Qed.

Lemma obeys_request {A} ev (answer : History -> ExternalError + A) :
  In (kind ev) ks -> In XExternal xs -> obeys ks R xs (request ev answer).
Proof.
  intros Hk Hx s h r s' ev' H. unfold request in H.
  destruct (answer h) as [x|a]; inversion H; subst.
  - split; [now repeat constructor|]. split; [apply HR|].
    intros e He. inversion He; subst. now destruct x.
  - split; [now repeat constructor|]. split; [apply HR|]. discriminate.
Qed.

Lemma obeys_sleep n : In KSleep ks -> obeys ks R xs (sleep n).
Proof.
  intros Hk s h r s' ev H. inversion H; subst.
  split; [now repeat constructor|]. split; [apply HR|]. discriminate.
Qed.

Lemma obeys_get_store : obeys ks R xs get_store.
Proof.
  intros s h r s' ev H. inversion H; subst.
  split; [constructor|]. split; [apply HR|]. discriminate.
Qed.

Lemma obeys_modify f : (forall s, R s (f s)) -> obeys ks R xs (modify f).
Proof.
  intros Hf s h r s' ev H. inversion H; subst.
  split; [constructor|]. split; [apply Hf|]. discriminate.
Qed.

Lemma obeys_bind {A B} (m : M A) (f : A -> M B) :
  obeys ks R xs m -> (forall a, obeys ks R xs (f a)) ->
  obeys ks R xs (bind m f).
Proof.
  intros Hm Hf s h r s' ev H. apply bind_inv in H.
  destruct H as [(a & s1 & e1 & e2 & H1 & H2 & ->)
                |[(e & H1 & ->)|[H1 ->]]].
  - destruct (Hm _ _ _ _ _ H1) as (He1 & Hs1 & _).
    destruct (Hf _ _ _ _ _ _ H2) as (He2 & Hs2 & Hx).
    split; [now apply Forall_app|]. split; [|assumption].
    destruct HR as [_ Htrans]. exact (Htrans _ _ _ Hs1 Hs2).
  - destruct (Hm _ _ _ _ _ H1) as (He1 & Hs1 & Hx).
    repeat split; auto. intros e0 He0. inversion He0; subst. now apply Hx.
  - destruct (Hm _ _ _ _ _ H1) as (He1 & Hs1 & Hx).
    repeat split; auto. discriminate.
Qed.

Lemma obeys_index {A} (l : list A) i :
  In XIndex xs -> obeys ks R xs (index l i).
Proof.
  intros Hx. unfold index. destruct (nth_error l i).
  - apply obeys_ret.
  - now apply obeys_raise.
Qed.

Lemma obeys_index_last {A} (l : list A) :
  In XIndex xs -> obeys ks R xs (index_last l).
Proof.
  intros Hx. unfold index_last. destruct (rev l).
  - now apply obeys_raise.
  - apply obeys_ret.
Qed.

Lemma obeys_lookup {V} (d : Dict.t V) k :
  In XKey xs -> obeys ks R xs (lookup d k).
Proof.
  intros Hx. unfold lookup. destruct (Dict.get k d).
  - apply obeys_ret.
  - now apply obeys_raise.
Qed.

Lemma obeys_py_mod a b : In XZeroDivision xs -> obeys ks R xs (py_mod a b).
Proof.
  intros Hx. unfold py_mod. destruct b.
  - now apply obeys_raise.
  - apply obeys_ret.
Qed.

Lemma obeys_for_each {X} (l : list X) body :
  (forall x, obeys ks R xs (body x)) -> obeys ks R xs (for_each l body).
Proof.
  intros Hb. induction l as [|x l IH]; simpl.
  - apply obeys_ret.
  - apply obeys_bind; auto.
Qed.

Lemma obeys_for_enumerate {X} (l : list X) body :
  (forall i x, obeys ks R xs (body i x)) ->
  forall i0, obeys ks R xs (for_enumerate i0 l body).
Proof.
  intros Hb. induction l as [|x l IH]; intros i0; simpl.
  - apply obeys_ret.
  - apply obeys_bind; auto.
Qed.

Lemma obeys_fold_each {X Acc} (l : list X) body :
  (forall acc x, obeys ks R xs (body acc x)) ->
  forall acc : Acc, obeys ks R xs (fold_each l acc body).
Proof.
  intros Hb. induction l as [|x l IH]; intros acc; simpl.
  - apply obeys_ret.
  - apply obeys_bind; auto.
Qed.

Lemma obeys_fold_enumerate {X Acc} (l : list X) body :
  (forall acc i x, obeys ks R xs (body acc i x)) ->
  forall i0 (acc : Acc), obeys ks R xs (fold_enumerate i0 l acc body).
Proof.
  intros Hb. induction l as [|x l IH]; intros i0 acc; simpl.
  - apply obeys_ret.
  - apply obeys_bind; auto.
Qed.
End Footprints.

Lemma obeys_try_except {A} ks R xs0 xs (m : M A) handler :
  preorder R ->
  obeys ks R xs0 m ->
  (forall e, In (exn_kind e) xs0 -> obeys ks R xs (handler e)) ->
  obeys ks R xs (try_except m handler).
Proof.
  intros HR Hm Hh s h r s' ev H. unfold try_except in H.
  destruct (m s h) as [[[a|e|] s1] e1] eqn:Hrun.
  - inversion H; subst. destruct (Hm _ _ _ _ _ Hrun) as (He & Hs & _).
    repeat split; auto. discriminate.
  - destruct (handler e s1 (h ++ e1)) as [[r2 s2] e2] eqn:Hrun2.
    inversion H; subst.
    destruct (Hm _ _ _ _ _ Hrun) as (He & Hs & Hx).
    destruct (Hh e (Hx _ eq_refl) _ _ _ _ _ Hrun2) as (He2 & Hs2 & Hx2).
    split; [now apply Forall_app|]. split; [|assumption].
    destruct HR as [_ Htrans]. exact (Htrans _ _ _ Hs Hs2).
  - inversion H; subst. destruct (Hm _ _ _ _ _ Hrun) as (He & Hs & _).
    repeat split; auto. discriminate.
Qed.

Lemma obeys_weaken {A} ks ks' (R R' : Store -> Store -> Prop) xs xs'
    (m : M A) :
  incl ks ks' -> (forall s s', R s s' -> R' s s') -> incl xs xs' ->
  obeys ks R xs m -> obeys ks' R' xs' m.
Proof.
  intros Hk HRR Hx Hm s h r s' ev H.
  destruct (Hm _ _ _ _ _ H) as (He & Hs & Hxs).
  split; [|split; auto].
  eapply Forall_impl; [|exact He]. intros e. apply Hk.
Qed.

(** Inclusion of explicit lists of kinds. *)
Ltac kinds := simpl; tauto.
Ltac included :=
  let k := fresh in let H := fresh in
  intros k H; simpl in H |- *; tauto.

Create HintDb footprints.

(** One structural step of a footprint proof. *)
Ltac footstep :=
  lazymatch goal with
  | |- obeys _ _ _ (bind _ _) => apply obeys_bind; [assumption| |intros ?]
  | |- obeys _ _ _ (ret _) => apply obeys_ret; assumption
  | |- obeys _ _ _ (raise _) => apply obeys_raise; [assumption|kinds]
  | |- obeys _ _ _ hang => apply obeys_hang; assumption
  | |- obeys _ _ _ (request _ _) =>
      apply obeys_request; [assumption|kinds|kinds]
  | |- obeys _ _ _ (sleep _) => apply obeys_sleep; [assumption|kinds]
  | |- obeys _ _ _ get_store => apply obeys_get_store; assumption
  | |- obeys _ _ _ (modify _) =>
      apply obeys_modify;
      intros ?; match goal with H : admits_groups _ |- _ => apply H end
  | |- obeys _ _ _ (index _ _) => apply obeys_index; [assumption|kinds]
  | |- obeys _ _ _ (index_last _) =>
      apply obeys_index_last; [assumption|kinds]
  | |- obeys _ _ _ (lookup _ _) => apply obeys_lookup; [assumption|kinds]
  | |- obeys _ _ _ (py_mod _ _) => apply obeys_py_mod; [assumption|kinds]
  | |- obeys _ _ _ (for_each _ _) =>
      apply obeys_for_each; [assumption|intros ?]
  | |- obeys _ _ _ (for_enumerate _ _ _) =>
      apply obeys_for_enumerate; [assumption|intros ? ?]
  | |- obeys _ _ _ (fold_each _ _ _) =>
      apply obeys_fold_each; [assumption|intros ? ?]
  | |- obeys _ _ _ (fold_enumerate _ _ _ _) =>
      apply obeys_fold_enumerate; [assumption|intros ? ? ?]
  | |- obeys _ _ _ (match ?x with _ => _ end) => destruct x
  | |- obeys _ _ _ (let _ := _ in _) => cbv zeta
  | |- obeys _ _ _ (try_next_address _ _) => unfold try_next_address
  | |- obeys _ _ _ (public_ip_of _) => unfold public_ip_of
  | |- obeys _ _ _ (allocation_id_of _) => unfold allocation_id_of
  | |- obeys _ _ _ (subnet_for _ _) => unfold subnet_for
  | |- obeys _ _ _ (create_tagged_volume _ _ _ _ _) =>
      unfold create_tagged_volume
  | |- obeys _ _ _ (generate_certificate _ _) => unfold generate_certificate
  | |- obeys _ _ _ _ =>
      eapply obeys_weaken; [| | |solve [eauto with footprints]];
      [included|auto|included]
  end.

Ltac footprint := repeat footstep.

Section HelperFootprints.
Variable cloud : Cloud.
Variable R : Store -> Store -> Prop.
Hypothesis HR : preorder R.
Hypothesis Hgroups : admits_groups R.

Lemma find_taupage_amis_obeys regions :
  obeys [KDescribeImages] R [XExternal; XNoImage; XIndex]
    (find_taupage_amis cloud regions).
Proof. unfold find_taupage_amis. footprint. Qed.

Lemma get_subnets_obeys prefix_filter regions :
  obeys [KDescribeSubnets] R [XExternal; XKey]
    (get_subnets cloud prefix_filter regions).
Proof. unfold get_subnets. footprint. Qed.

Lemma allocate_one_obeys region tk ip :
  admits_addresses tk R ->
  obeys [KAllocateAddress] R [XExternal] (allocate_one cloud region tk ip).
Proof.
  intros Haddr s h r s' ev. unfold allocate_one. destruct tk.
  - unfold bind at 1. rewrite bind_request.
    destruct (allocate_address cloud h region) as [x|[p a]].
    + intros H. inversion H; subst. split; [repeat constructor; kinds|].
      split; [apply HR|]. intros e He. inversion He; subst.
      destruct x; kinds.
    + unfold ret at 1. simpl. intros H. inversion H; subst.
      split; [repeat constructor; kinds|]. split; [|discriminate].
      apply Haddr. simpl. split; discriminate.
  - rewrite bind_ret. intros H. inversion H; subst.
    split; [constructor|]. split; [|discriminate].
    apply Haddr. simpl. split; reflexivity.
Qed.
Hint Resolve allocate_one_obeys : footprints.

Lemma while_quota_obeys region subnets quota tk fuel :
  admits_addresses tk R ->
  forall i nips,
    obeys allocation_kinds R allocation_exns
      (while_quota cloud region subnets quota (allocate_one cloud region tk)
         fuel i nips).
Proof.
  intros Haddr. unfold allocation_kinds, allocation_exns.
  induction fuel as [|fuel IH]; intros i nips; simpl; footprint.
Qed.
Hint Resolve while_quota_obeys : footprints.

Lemma skip_addresses_obeys n : forall ips subnet,
  obeys [] R [XPoolDepleted] (skip_addresses n ips subnet).
Proof. induction n as [|n IH]; intros ips subnet; simpl; footprint. Qed.
Hint Resolve skip_addresses_obeys : footprints.

Lemma skip_reserved_obeys subnets nips : forall idx,
  obeys [] R [XPoolDepleted; XIndex] (skip_reserved subnets idx nips).
Proof.
  induction nips as [|ips nips IH]; intros idx; cbn [skip_reserved];
    footprint.
Qed.
Hint Resolve skip_reserved_obeys : footprints.

Lemma allocate_in_region_obeys iter_hosts region subnets quota tk :
  admits_addresses tk R ->
  obeys allocation_kinds R allocation_exns
    (allocate_in_region cloud iter_hosts region subnets quota tk).
Proof.
  intros Haddr. unfold allocate_in_region, generate_private_ip_addresses.
  unfold allocation_kinds, allocation_exns. footprint.
Qed.
Hint Resolve allocate_in_region_obeys : footprints.

Lemma allocate_ip_addresses_obeys iter_hosts region_subnets quota tk :
  admits_addresses tk R ->
  obeys allocation_kinds R allocation_exns
    (allocate_ip_addresses cloud iter_hosts region_subnets quota tk).
Proof.
  intros Haddr. unfold allocate_ip_addresses.
  unfold allocation_kinds, allocation_exns. footprint.
Qed.

Lemma exn_kind_no_zone zone :
  exn_kind (Exception_ (no_zone_message ++ zone)) = XNoZone.
Proof. destruct zone; reflexivity. Qed.

Lemma setup_dns_records_obeys name zone :
  obeys dns_kinds R [XExternal; XNoZone] (setup_dns_records cloud name zone).
Proof.
  unfold setup_dns_records, dns_kinds. footstep; [footprint|].
  cbv zeta. footstep; [footprint|].
  apply obeys_raise; [assumption|].
  change ("Failed to find Hosted Zone " ++ zone)%string
    with (no_zone_message ++ zone)%string.
  rewrite exn_kind_no_zone. kinds.
Qed.

Lemma add_odd_ingress_rule_obeys region perms :
  obeys group_kinds R [XExternal; XIndex]
    (add_odd_ingress_rule cloud region perms).
Proof.
  unfold add_odd_ingress_rule, group_kinds.
  apply obeys_try_except with (xs0 := [XExternal; XIndex]);
    [assumption|footprint|].
  intros e He. destruct e; footprint.
Qed.
Hint Resolve add_odd_ingress_rule_obeys : footprints.

Lemma setup_security_groups_obeys use_dmz name :
  obeys group_kinds R [XExternal; XIndex; XKey]
    (setup_security_groups cloud use_dmz name).
Proof. unfold setup_security_groups, group_kinds. footprint. Qed.

Lemma wait_while_pending_obeys region instance_id : forall budget,
  obeys [KDescribeInstanceState; KSleep] R [XExternal]
    (wait_while_pending cloud budget region instance_id).
Proof. induction budget as [|budget IH]; simpl; footprint. Qed.
Hint Resolve wait_while_pending_obeys : footprints.

Lemma launch_instance_obeys poll_budget region ip ami subnet group is_seed
    options :
  obeys (launch_kinds is_seed) R launch_exns
    (launch_instance cloud poll_budget region ip ami subnet group is_seed
       options).
Proof.
  unfold launch_instance, launch_kinds, launch_exns.
  destruct is_seed; footprint.
Qed.
Hint Resolve launch_instance_obeys : footprints.

Lemma launch_seed_nodes_obeys poll_budget options :
  obeys (launch_kinds true) R launch_exns
    (launch_seed_nodes cloud poll_budget options).
Proof. unfold launch_seed_nodes, launch_kinds, launch_exns. footprint. Qed.

Lemma launch_normal_nodes_obeys poll_budget options :
  obeys (launch_kinds false) R launch_exns
    (launch_normal_nodes cloud poll_budget options).
Proof. unfold launch_normal_nodes, launch_kinds, launch_exns. footprint. Qed.

Lemma create_cluster_cleanup_obeys options :
  obeys cleanup_kinds R [XExternal; XKey]
    (create_cluster_cleanup cloud options).
Proof. unfold create_cluster_cleanup, cleanup_kinds. footprint. Qed.

Lemma validate_artifact_version_obeys options :
  obeys preamble_kinds R [XExternal; XUsage; XType; XIndex]
    (validate_artifact_version cloud options).
Proof. unfold validate_artifact_version, preamble_kinds. footprint. Qed.
End HelperFootprints.

(** ** What a computation that returned has done *)

Lemma bind_returned {A B} (m : M A) (f : A -> M B) s h b s' ev :
  bind m f s h = (Return b, s', ev) ->
  exists a s1 e1 e2,
    m s h = (Return a, s1, e1) /\ f a s1 (h ++ e1) = (Return b, s', e2)
    /\ ev = e1 ++ e2.
Proof.
  intros H. apply bind_inv in H.
  destruct H as [(a & s1 & e1 & e2 & H1 & H2 & ->)|[(e & _ & He)|[_ He]]];
    try discriminate.
  now exists a, s1, e1, e2.
Qed.

Lemma fold_each_returned {X Acc} (l : list X) (body : Acc -> X -> M Acc) :
  forall acc s h acc' s' ev,
    fold_each l acc body s h = (Return acc', s', ev) ->
    forall x, In x l ->
      exists acc0 s0 h0 acc1 s1 e1,
        body acc0 x s0 h0 = (Return acc1, s1, e1) /\ incl e1 ev.
Proof.
  induction l as [|x0 l IH]; intros acc s h acc' s' ev H x Hx;
    [contradiction|].
  simpl in H. apply bind_returned in H.
  destruct H as (a & s1 & e1 & e2 & H1 & H2 & ->).
  destruct Hx as [->|Hx].
  - exists acc, s, h, a, s1, e1. split; [assumption|]. now apply incl_appl.
  - eapply IH in H2; [|exact Hx].
    destruct H2 as (acc0 & s0 & h0 & a1 & s2 & e & He & Hi).
    exists acc0, s0, h0, a1, s2, e. split; [assumption|].
    now apply incl_appr.
Qed.

Lemma fold_enumerate_returned {X Acc} (l : list X)
    (body : Acc -> nat -> X -> M Acc) :
  forall i0 acc s h acc' s' ev,
    fold_enumerate i0 l acc body s h = (Return acc', s', ev) ->
    forall x, In x l ->
      exists acc0 i s0 h0 acc1 s1 e1,
        body acc0 i x s0 h0 = (Return acc1, s1, e1) /\ incl e1 ev.
Proof.
  induction l as [|x0 l IH]; intros i0 acc s h acc' s' ev H x Hx;
    [contradiction|].
  simpl in H. apply bind_returned in H.
  destruct H as (a & s1 & e1 & e2 & H1 & H2 & ->).
  destruct Hx as [->|Hx].
  - exists acc, i0, s, h, a, s1, e1. split; [assumption|].
    now apply incl_appl.
  - eapply IH in H2; [|exact Hx].
    destruct H2 as (acc0 & i & s0 & h0 & a1 & s2 & e & He & Hi).
    exists acc0, i, s0, h0, a1, s2, e. split; [assumption|].
    now apply incl_appr.
Qed.

Section Launches.
Variable cloud : Cloud.
Variable poll_budget : nat.

Lemma launch_instance_returned region ip ami subnet group is_seed options
    s h s' ev :
  launch_instance cloud poll_budget region ip ami subnet group is_seed options
    s h = (Return tt, s', ev) ->
  launched (node_type_of is_seed) region ip ev.
Proof.
  unfold launch_instance. cbv zeta. intros H.
  apply bind_returned in H. destruct H as (a & s1 & e1 & e2 & _ & H & ->).
  rewrite bind_request in H.
  destruct (run_instances cloud (h ++ e1) region (PrivateIp ip)
              (SubnetId subnet) group (image_id ami)); [discriminate|].
  destruct (bind _ _ _ _) as [[r2 s2] e3]. inversion H; subst.
  exists (SubnetId subnet), group, (image_id ami).
  apply in_or_app. right. now left.
Qed.

Lemma launch_seed_nodes_complete options s h s' ev :
  launch_seed_nodes cloud poll_budget options s h = (Return tt, s', ev) ->
  all_seeds_launched (seed_nodes options) ev.
Proof.
  unfold launch_seed_nodes. cbv zeta. intros H region ips ip Hregion Hip.
  apply bind_returned in H. destruct H as (n & s1 & e1 & e2 & H & _ & ->).
  eapply fold_each_returned in H; [|exact Hregion].
  destruct H as (acc0 & s0 & h0 & acc1 & s2 & e & Hbody & Hincl).
  simpl in Hbody. rewrite bind_get_store in Hbody.
  apply bind_returned in Hbody.
  destruct Hbody as (sg & s3 & e3 & e4 & _ & Hbody & ->).
  eapply fold_enumerate_returned in Hbody; [|exact Hip].
  destruct Hbody as (acc2 & i & s4 & h4 & acc3 & s5 & e5 & Hone & Hincl5).
  apply bind_returned in Hone.
  destruct Hone as (ami & s6 & e6 & e7 & _ & Hone & ->).
  apply bind_returned in Hone.
  destruct Hone as (subnet & s7 & e8 & e9 & _ & Hone & ->).
  apply bind_returned in Hone.
  destruct Hone as ([] & s8 & e10 & e11 & Hlaunch & _ & ->).
  apply launch_instance_returned in Hlaunch.
  destruct Hlaunch as (sid & gid & img & Hin).
  exists sid, gid, img. apply in_or_app. left. apply Hincl.
  apply in_or_app. right. apply Hincl5.
  apply in_or_app. right. apply in_or_app. right. apply in_or_app. now left.
Qed.
End Launches.

(** ** Computations in two stages *)

Section Stages.
Context {A B : Type}.
Variables ksA ksB : list EventKind.
Variable RA : Store -> Store -> Prop.
Variable xsB : list ExnKind.
Variable Q : Store -> list Event -> Prop.
Hypothesis Q_grows : forall s' e1 evA, Q s' evA -> Q s' (e1 ++ evA).

(** The first stage goes on after [m]. *)
Lemma staged_bind (Rm : Store -> Store -> Prop) xs (m : M A) (f : A -> M B) s :
  (forall s1, Rm s s1 -> RA s s1) ->
  (forall s1 s', Rm s s1 -> RA s1 s' -> RA s s') ->
  obeys ksA Rm xs m ->
  (forall a s1, Rm s s1 -> staged ksA ksB RA xsB Q (f a) s1) ->
  staged ksA ksB RA xsB Q (bind m f) s.
Proof.
  intros Hin Hcomp Hm Hf h r s' ev H. apply bind_inv in H.
  destruct H as [(a & s1 & e1 & e2 & H1 & H2 & ->)
                |[(e & H1 & ->)|[H1 ->]]].
  - destruct (Hm _ _ _ _ _ H1) as (He1 & Hs1 & _).
    destruct (Hf a s1 Hs1 _ _ _ _ H2)
      as [[He2 Hs2]|(evA & evB & -> & HA & HB & HQ' & Hx)].
    + left. split; [now apply Forall_app|]. eapply Hcomp; eauto.
    + right. exists (e1 ++ evA), evB. rewrite app_assoc.
      split; [reflexivity|]. split; [now apply Forall_app|]. auto.
  - destruct (Hm _ _ _ _ _ H1) as (He1 & Hs1 & _). left. auto.
  - destruct (Hm _ _ _ _ _ H1) as (He1 & Hs1 & _). left. auto.
Qed.

(** The second stage begins after [m]. *)
Lemma staged_switch (Rm RB : Store -> Store -> Prop) xs (m : M A)
    (f : A -> M B) s :
  (forall s1, Rm s s1 -> RA s s1) ->
  obeys ksA Rm xs m ->
  (forall a, obeys ksB RB xsB (f a)) ->
  (forall h a s1 e1 s',
      m s h = (Return a, s1, e1) -> RB s1 s' -> Q s' e1) ->
  staged ksA ksB RA xsB Q (bind m f) s.
Proof.
  intros Hin Hm Hf HQ h r s' ev H. apply bind_inv in H.
  destruct H as [(a & s1 & e1 & e2 & H1 & H2 & ->)
                |[(e & H1 & ->)|[H1 ->]]].
  - destruct (Hm _ _ _ _ _ H1) as (He1 & Hs1 & _).
    destruct (Hf a _ _ _ _ _ H2) as (He2 & Hs2 & Hx).
    right. exists e1, e2. repeat split; eauto.
  - destruct (Hm _ _ _ _ _ H1) as (He1 & Hs1 & _). left. auto.
  - destruct (Hm _ _ _ _ _ H1) as (He1 & Hs1 & _). left. auto.
Qed.
End Stages.

Lemma staged_get_store {B} ksA ksB RA xsB Q (f : Store -> M B) s :
  staged ksA ksB RA xsB Q (f s) s ->
  staged ksA ksB RA xsB Q (bind get_store f) s.
Proof. intros Hf h r s' ev H. rewrite bind_get_store in H. eauto. Qed.

Lemma preorder_anyhow : preorder anyhow.
Proof. split; unfold anyhow; auto. Qed.

Lemma preorder_eq : preorder (@eq Store).
Proof. split; [reflexivity|]. intros s1 s2 s3 -> ->. reflexivity. Qed.

Lemma admits_groups_anyhow : admits_groups anyhow.
Proof. intros s region sg. exact I. Qed.

Lemma admits_addresses_anyhow tk : admits_addresses tk anyhow.
Proof. intros s region a _. exact I. Qed.

#[global] Hint Resolve find_taupage_amis_obeys get_subnets_obeys
  allocate_ip_addresses_obeys setup_dns_records_obeys
  setup_security_groups_obeys launch_seed_nodes_obeys
  launch_normal_nodes_obeys create_cluster_cleanup_obeys
  validate_artifact_version_obeys
  preorder_anyhow preorder_eq admits_groups_anyhow admits_addresses_anyhow
  : footprints.

Lemma staged_of_obeys {A} ksA ksB (RA : Store -> Store -> Prop) xsB Q xs
    (m : M A) s :
  obeys ksA RA xs m -> staged ksA ksB RA xsB Q m s.
Proof.
  intros Hm h r s' ev H. destruct (Hm _ _ _ _ _ H) as (He & Hs & _).
  left. auto.
Qed.

Lemma staged_try_except {A} ksA ksB RA xsB0 xsB
    (Q : Store -> list Event -> Prop) (m : M A) handler s :
  (forall e, obeys ksA eq xsB (handler e)) ->
  (forall e, obeys ksB eq xsB (handler e)) ->
  staged ksA ksB RA xsB0 Q m s ->
  staged ksA ksB RA xsB Q (try_except m handler) s.
Proof.
  intros HhA HhB Hm h r s' ev H. unfold try_except in H.
  destruct (m s h) as [[[a|e|] s1] e1] eqn:Hrun.
  - inversion H; subst.
    destruct (Hm _ _ _ _ Hrun) as [?|(evA & evB & -> & HA & HB & HQ & _)];
      [now left|].
    right. exists evA, evB. repeat split; auto. discriminate.
  - destruct (handler e s1 (h ++ e1)) as [[r2 s2] e2] eqn:Hrun2.
    inversion H; subst.
    destruct (Hm _ _ _ _ Hrun) as [[HA HR]|(evA & evB & -> & HA & HB & HQ & _)].
    + destruct (HhA _ _ _ _ _ _ Hrun2) as (He2 & <- & _).
      left. split; [now apply Forall_app|assumption].
    + destruct (HhB _ _ _ _ _ _ Hrun2) as (He2 & <- & Hx).
      right. exists evA, (evB ++ e2). rewrite app_assoc.
      repeat split; auto. now apply Forall_app.
  - inversion H; subst.
    destruct (Hm _ _ _ _ Hrun) as [?|(evA & evB & -> & HA & HB & HQ & _)];
      [now left|].
    right. exists evA, evB. repeat split; auto. discriminate.
Qed.

Lemma all_seeds_launched_grows seed_nodes e1 evA :
  all_seeds_launched seed_nodes evA ->
  all_seeds_launched seed_nodes (e1 ++ evA).
Proof.
  intros H region ips ip Hr Hip.
  destruct (H region ips ip Hr Hip) as (sid & gid & img & Hin).
  exists sid, gid, img. apply in_or_app. now right.
Qed.

Lemma all_seeds_launched_more seed_nodes evA x :
  all_seeds_launched seed_nodes evA ->
  all_seeds_launched seed_nodes (evA ++ x).
Proof.
  intros H region ips ip Hr Hip.
  destruct (H region ips ip Hr Hip) as (sid & gid & img & Hin).
  exists sid, gid, img. apply in_or_app. now left.
Qed.

Section RunInStages.
Variable cloud : Cloud.
Variable iter_hosts : string -> list IpAddress.
Variable poll_budget : nat.
Variable options : Options.

Lemma seeds_done_grows s' e1 evA :
  seeds_done options s' evA -> seeds_done options s' (e1 ++ evA).
Proof. apply all_seeds_launched_grows. Qed.

Ltac stage R :=
  eapply (@staged_bind _ _ _ _ _ _ _ seeds_done_grows R any_exn);
  [unfold anyhow; auto|unfold anyhow; auto| |].

Lemma create_cluster_body_stages s :
  staged before_normal_kinds after_seed_kinds anyhow any_exn
    (seeds_done options)
    (create_cluster_body cloud iter_hosts poll_budget options) s.
Proof.
  pose proof preorder_anyhow as HRany.
  unfold create_cluster_body.
  stage anyhow;
    [unfold before_normal_kinds, any_exn; footstep|intros amis s1 _].
  stage anyhow;
    [unfold before_normal_kinds, any_exn; footstep|intros subnets s2 _].
  stage anyhow; [unfold before_normal_kinds, any_exn; footstep|intros [] s3 _].
  stage anyhow;
    [unfold before_normal_kinds, any_exn; footprint|intros topics s4 _].
  stage anyhow; [unfold before_normal_kinds, any_exn; footprint|intros [] s5 _].
  stage anyhow; [unfold before_normal_kinds, any_exn; footstep|intros [] s6 _].
  cbv zeta. apply staged_get_store.
  clear HRany. pose proof preorder_eq as HReq.
  stage (@eq Store); [unfold before_normal_kinds, any_exn; footprint|].
  intros profile s7 <-.
  eapply staged_switch with (Rm := eq) (RB := eq) (xs := any_exn).
  - unfold anyhow; auto.
  - unfold before_normal_kinds, any_exn. footstep.
  - intros []. unfold after_seed_kinds, any_exn. footstep.
  - intros h a s8 e1 s' Hseeds <-.
    match type of Hseeds with
    | launch_seed_nodes _ _ ?lo _ _ = _ =>
        assert (Hfp : obeys (launch_kinds true) eq launch_exns
                        (launch_seed_nodes cloud poll_budget lo))
          by (apply launch_seed_nodes_obeys; exact preorder_eq)
    end.
    destruct (Hfp _ _ _ _ _ Hseeds) as (_ & <- & _). destruct a.
    apply launch_seed_nodes_complete in Hseeds. exact Hseeds.
Qed.

Lemma any_exn_all e : In (exn_kind e) any_exn.
Proof.
  destruct e; simpl; try tauto.
  destruct (String.eqb msg no_image_message); [tauto|].
  destruct (String.prefix no_zone_message msg); tauto.
Qed.

Lemma cleanup_then_raise_obeys ks e :
  incl cleanup_kinds ks ->
  obeys ks eq any_exn
    (bind (create_cluster_cleanup cloud options) (fun _ => @raise unit e)).
Proof.
  intros Hks. pose proof preorder_eq as HReq.
  apply obeys_bind; [assumption| |intros _].
  - eapply obeys_weaken with (R := eq) (xs := [XExternal; XKey]);
      [exact Hks|auto|unfold any_exn; included|].
    now apply create_cluster_cleanup_obeys.
  - apply obeys_raise; [assumption|apply any_exn_all].
Qed.

Lemma create_cluster_guarded_stages s :
  staged before_normal_kinds after_seed_kinds anyhow any_exn
    (seeds_done options)
    (create_cluster_guarded cloud iter_hosts poll_budget options) s.
Proof.
  unfold create_cluster_guarded.
  eapply staged_try_except; [| |apply create_cluster_body_stages].
  - intros e. apply cleanup_then_raise_obeys.
    unfold cleanup_kinds, before_normal_kinds. included.
  - intros e. apply cleanup_then_raise_obeys.
    unfold cleanup_kinds, after_seed_kinds. included.
Qed.

Lemma create_cluster_stages s :
  staged before_normal_kinds after_seed_kinds anyhow any_exn
    (seeds_done options)
    (create_cluster cloud iter_hosts poll_budget options) s.
Proof.
  pose proof preorder_anyhow as HRany.
  unfold create_cluster.
  stage anyhow; [unfold before_normal_kinds, any_exn; footstep|intros v s1 _].
  stage anyhow;
    [unfold read_environment, before_normal_kinds, any_exn; footprint|].
  intros [] s1' _.
  stage anyhow; [unfold before_normal_kinds, any_exn; footprint|].
  intros [certificate|] s2 _.
  - stage anyhow; [apply obeys_modify; intros; exact I|intros [] s3 _].
    apply create_cluster_guarded_stages.
  - eapply staged_of_obeys with (xs := any_exn).
    unfold any_exn. footprint.
Qed.
End RunInStages.

Lemma split_at_event {X} (evA evB before after : list X) (e : X)
    (P : X -> Prop) :
  evA ++ evB = before ++ e :: after -> Forall P evA -> ~ P e ->
  exists x, before = evA ++ x /\ evB = x ++ e :: after.
Proof.
  intros Heq HA HP. apply app_eq_app in Heq.
  destruct Heq as [l [[-> Hl]|[-> Hl]]].
  - destruct l as [|e' l].
    + exists []. rewrite app_nil_r. simpl in Hl. rewrite app_nil_r. auto.
    + simpl in Hl. inversion Hl; subst e'.
      apply Forall_app in HA. destruct HA as [_ HA].
      inversion HA; subst. contradiction.
  - exists l. auto.
Qed.

(** C2.  In every run, whatever fails and wherever it stops, once a launch
    request for a normal node has been issued no launch request for a seed
    node follows, and every seed node of every region has had its launch
    request issued before. *)
Theorem seed_launches_precede_normal_launches
    (cloud : Cloud) (iter_hosts : string -> list IpAddress)
    (poll_budget : nat) (options : Options)
    (r : Outcome unit) (s' : Store) (ev : list Event) :
  run cloud iter_hosts poll_budget options = (r, s', ev) ->
  forall before e after,
    ev = before ++ e :: after ->
    kind e = KLaunchNormal ->
    Forall (fun e' => kind e' <> KLaunchSeed) after
    /\ all_seeds_launched
         (pick_seed_node_ips (node_ips s') (Z.min (cluster_size options) 3))
         before.
Proof.
  unfold run. intros Hrun before e after Hev He.
  apply create_cluster_stages in Hrun.
  destruct Hrun as [[Hall _]|(evA & evB & -> & HA & HB & HQ & _)].
  - exfalso. subst ev. apply Forall_app in Hall. destruct Hall as [_ Hall].
    inversion Hall as [|? ? Hk _]; subst. cbv beta in Hk. rewrite He in Hk.
    unfold before_normal_kinds in Hk. simpl in Hk.
    repeat (destruct Hk as [Hk|Hk]; [discriminate|]). contradiction.
  - eapply split_at_event in Hev; [|exact HA|].
    2:{ simpl. rewrite He. unfold before_normal_kinds. simpl.
        intros Hk. repeat (destruct Hk as [Hk|Hk]; [discriminate|]).
        contradiction. }
    destruct Hev as (x & -> & ->). split.
    + apply Forall_app in HB. destruct HB as [_ HB].
      inversion HB as [|? ? _ Hafter]; subst.
      eapply Forall_impl; [|exact Hafter]. intros e' Hk Hseed.
      cbv beta in Hk. rewrite Hseed in Hk. unfold after_seed_kinds in Hk.
      simpl in Hk.
      repeat (destruct Hk as [Hk|Hk]; [discriminate|]). contradiction.
    + now apply all_seeds_launched_more.
Qed.

(** ** The compensation *)

Lemma for_each_exact {X} (l : list X) (body : X -> M unit)
    (evs : X -> list Event) s :
  (forall x h, In x l -> body x s h = (Return tt, s, evs x)) ->
  forall h, for_each l body s h = (Return tt, s, flat_map evs l).
Proof.
  induction l as [|x l IH]; intros Hbody h; simpl; [reflexivity|].
  unfold bind. rewrite Hbody by now left.
  rewrite IH by (intros; apply Hbody; now right). reflexivity.
Qed.

Lemma flat_map_single {X Y} (f : X -> Y) (l : list X) :
  flat_map (fun x => [f x]) l = map f l.
Proof. induction l as [|x l IH]; simpl; [reflexivity|now rewrite IH]. Qed.

Lemma in_set_items {V} k (v : V) d k' v' :
  In (k', v') (Dict.set k v d) -> In (k', v') d \/ (k' = k /\ v' = v).
Proof.
  induction d as [|[k0 v0] d IH]; simpl.
  - intros [H|[]]. inversion H; subst. auto.
  - destruct (String.eqb k k0) eqn:E; simpl.
    + apply String.eqb_eq in E. subst k0.
      intros [H|H]; [inversion H; subst; auto|auto].
    + intros [H|H]; [auto|]. destruct (IH H) as [?|?]; auto.
Qed.

Lemma get_list_in_items {X} k (d : Dict.t (list X)) x :
  In x (Dict.get_list k d) -> exists l, In (k, l) d /\ In x l.
Proof.
  unfold Dict.get_list. induction d as [|[k0 l0] d IH]; simpl; [tauto|].
  destruct (String.eqb k k0) eqn:E.
  - apply String.eqb_eq in E. subst k0. intros H. exists l0. auto.
  - intros H. destruct (IH H) as (l & Hl & Hx). exists l. auto.
Qed.

Lemma preorder_keeps_shape tk : preorder (keeps_shape tk).
Proof. split; unfold keeps_shape; auto. Qed.

Lemma admits_groups_keeps_shape tk : admits_groups (keeps_shape tk).
Proof. intros s region sg H. exact H. Qed.

Lemma admits_addresses_keeps_shape tk : admits_addresses tk (keeps_shape tk).
Proof.
  intros s region a Ha Hs region' ips ip Hin Hip. simpl in Hin.
  unfold Dict.items, Dict.append in Hin. apply in_set_items in Hin.
  destruct Hin as [Hin|[-> ->]].
  - eapply Hs; eauto.
  - apply in_app_or in Hip. destruct Hip as [Hip|[<-|[]]]; [|assumption].
    apply get_list_in_items in Hip. destruct Hip as (l & Hl & Hx).
    eapply Hs; eauto.
Qed.

#[global] Hint Resolve preorder_keeps_shape admits_groups_keeps_shape
  admits_addresses_keeps_shape : footprints.

(** ** Sequencing is associative *)

Lemma bind_assoc {A B C} (m : M A) (f : A -> M B) (g : B -> M C) s h :
  bind (bind m f) g s h = bind m (fun a => bind (f a) g) s h.
Proof.
  unfold bind. destruct (m s h) as [[[a|e|] s1] e1]; try reflexivity.
  destruct (f a s1 (h ++ e1)) as [[[b|e|] s2] e2]; try reflexivity.
  rewrite <- app_assoc.
  destruct (g b s2 (h ++ e1 ++ e2)) as [[r3 s3] e3].
  now rewrite app_assoc.
Qed.

(** ** The handler, request by request *)

Lemma bind_ext {A B} (m : M A) (f g : A -> M B) s h :
  (forall a s1 h1, f a s1 h1 = g a s1 h1) -> bind m f s h = bind m g s h.
Proof.
  intros Hfg. unfold bind. destruct (m s h) as [[[a|e|] s1] e1];
    try reflexivity.
  now rewrite Hfg.
Qed.

Lemma bind_ret_r (m : M unit) s h : bind m (fun _ => ret tt) s h = m s h.
Proof.
  unfold bind, ret. destruct (m s h) as [[[[]|e|] s1] e1]; try reflexivity.
  now rewrite app_nil_r.
Qed.

Lemma for_each_ext {X} (f g : X -> M unit) : forall l s h,
  (forall x s1 h1, In x l -> f x s1 h1 = g x s1 h1) ->
  for_each l f s h = for_each l g s h.
Proof.
  induction l as [|x l IH]; intros s h Hfg; simpl; [reflexivity|].
  unfold bind. rewrite Hfg by now left.
  destruct (g x s h) as [[[[]|e|] s1] e1]; try reflexivity.
  rewrite IH; [reflexivity|]. intros y s2 h2 Hy. apply Hfg. now right.
Qed.

Lemma for_each_app {X} (f : X -> M unit) l2 : forall l1 s h,
  bind (for_each l1 f) (fun _ => for_each l2 f) s h
  = for_each (l1 ++ l2) f s h.
Proof.
  induction l1 as [|x l1 IH]; intros s h; cbn [for_each app].
  - now rewrite bind_ret.
  - rewrite bind_assoc. apply bind_ext. intros _ s1 h1. apply IH.
Qed.

Lemma for_each_map {X Y} (g : X -> Y) (f : Y -> M unit) : forall l s h,
  for_each (map g l) f s h = for_each l (fun x => f (g x)) s h.
Proof.
  induction l as [|x l IH]; intros s h; simpl; [reflexivity|].
  apply bind_ext. intros _ s1 h1. apply IH.
Qed.

Lemma for_each_flat_map {X Y} (g : X -> list Y) (f : Y -> M unit) :
  forall l s h,
    for_each (flat_map g l) f s h
    = for_each l (fun x => for_each (g x) f) s h.
Proof.
  induction l as [|x l IH]; intros s h; cbn [flat_map for_each].
  - reflexivity.
  - rewrite <- for_each_app. apply bind_ext. intros _ s1 h1. apply IH.
Qed.

Section Walk.
Variable cloud : Cloud.

(** The compensations in order, up to the first that is refused. *)
Lemma issue_walk : forall cs s h,
  ((forall j, j < List.length cs -> accepted_at cloud h cs j)
   /\ for_each cs (issue cloud) s h = (Return tt, s, cs))
  \/ (exists j x,
         refused_at cloud h cs j x
         /\ (forall i, i < j -> accepted_at cloud h cs i)
         /\ for_each cs (issue cloud) s h
            = (Raise (external_exn x), s, firstn (S j) cs)).
Proof.
  induction cs as [|c cs IH]; intros s h.
  - left. split; [intros j Hj; inversion Hj|reflexivity].
  - assert (Hstep : for_each (c :: cs) (issue cloud) s h
                     = match compensation_answer cloud h c with
                       | inr _ =>
                           match for_each cs (issue cloud) s (h ++ [c]) with
                           | (r', s', e') => (r', s', c :: e')
                           end
                       | inl x => (Raise (external_exn x), s, [c])
                       end).
    { cbn [for_each]. unfold issue at 1. now rewrite bind_request. }
    rewrite !Hstep. clear Hstep.
    destruct (compensation_answer cloud h c) as [x|[]] eqn:Hc.
    + right. exists 0, x. split; [|split].
      * exists c. simpl. now rewrite app_nil_r.
      * intros i Hi. inversion Hi.
      * reflexivity.
    + assert (Hshift : forall j,
        accepted_at cloud (h ++ [c]) cs j ->
        accepted_at cloud h (c :: cs) (S j)).
      { intros j (c' & Hn & Ha). exists c'. split; [exact Hn|].
        cbn [firstn]. now rewrite <- app_assoc in Ha. }
      destruct (IH s (h ++ [c]))
        as [[Hall Hrun]|(j & x & Href & Hbefore & Hrun)].
      * left. split; [|now rewrite Hrun].
        intros [|j] Hj.
        -- exists c. simpl. now rewrite app_nil_r.
        -- apply Hshift, Hall. simpl in Hj. lia.
      * right. exists (S j), x. split; [|split].
        -- destruct Href as (c' & Hn & Ha). exists c'.
           split; [exact Hn|]. cbn [firstn]. now rewrite <- app_assoc in Ha.
        -- intros [|i] Hi.
           ++ exists c. simpl. now rewrite app_nil_r.
           ++ apply Hshift, Hbefore. lia.
        -- now rewrite Hrun.
Qed.

Lemma cleanup_is_walk options s h :
  (use_dmz options = true -> all_shaped true s) ->
  create_cluster_cleanup cloud options s h
  = for_each (compensations options s) (issue cloud) s h.
Proof.
  intros Hshape. unfold create_cluster_cleanup, compensations.
  rewrite bind_get_store, <- for_each_app.
  assert (Hdel : forall s0 h0,
    for_each (deletions s) (issue cloud) s0 h0
    = for_each (Dict.items (security_groups s))
        (fun '(region, sg) =>
           request (DeleteSecurityGroup region (GroupId sg))
             (fun h => delete_security_group cloud h region (GroupId sg)))
        s0 h0).
  { intros s0 h0. unfold deletions. rewrite for_each_map.
    apply for_each_ext. now intros [region sg] s1 h1 _. }
  assert (Hrel : use_dmz options = true -> forall s0 h0,
    for_each (releases s) (issue cloud) s0 h0
    = for_each (Dict.items (node_ips s))
        (fun '(region, ips) =>
           for_each ips (fun ip =>
             _ <- public_ip_of ip ;;
             allocation_id <- allocation_id_of ip ;;
             request (ReleaseAddress region allocation_id)
               (fun h => release_address cloud h region allocation_id)))
        s0 h0).
  { intros Hdmz s0 h0. unfold releases. rewrite for_each_flat_map.
    apply for_each_ext. intros [region ips] s2 h2 Hin.
    rewrite for_each_flat_map. apply for_each_ext. intros ip s3 h3 Hip.
    destruct (Hshape Hdmz region ips ip Hin Hip) as [Hp Ha].
    unfold public_ip_of, allocation_id_of.
    destruct (PublicIp ip); [|contradiction].
    destruct (AllocationId ip); [|contradiction].
    rewrite !bind_ret. cbn [for_each]. apply bind_ret_r. }
  unfold bind. rewrite Hdel.
  destruct (for_each (Dict.items (security_groups s)) _ s h)
    as [[[[]|e|] s1] e1]; try reflexivity.
  destruct (use_dmz options); [|reflexivity].
  now rewrite Hrel.
Qed.
End Walk.

(** When every compensation is accepted as it is issued, all are issued. *)
Lemma issue_all (cloud : Cloud) cs s h :
  (forall j, j < List.length cs -> accepted_at cloud h cs j) ->
  for_each cs (issue cloud) s h = (Return tt, s, cs).
Proof.
  intros Hall.
  destruct (@issue_walk cloud cs s h)
    as [[_ Hrun]|(j & x & (c & Hc & Hx) & _ & _)]; [exact Hrun|].
  assert (Hj : j < List.length cs).
  { apply nth_error_Some. congruence. }
  destruct (Hall j Hj) as (c' & Hc' & Hx'). congruence.
Qed.

Lemma create_cluster_body_keeps_shape cloud iter_hosts poll_budget options :
  obeys all_kinds (keeps_shape (use_dmz options)) any_exn
    (create_cluster_body cloud iter_hosts poll_budget options).
Proof.
  assert (HR : preorder (keeps_shape (use_dmz options)))
    by apply preorder_keeps_shape.
  assert (Hgroups : admits_groups (keeps_shape (use_dmz options)))
    by apply admits_groups_keeps_shape.
  unfold create_cluster_body, all_kinds, any_exn. footprint.
Qed.

(** C3, as amended.  When the try block fails and the provider accepts
    every compensating request of the rollback, each as it is issued, the
    rollback issues, after the requests of the try block, exactly one
    delete per recorded access-control group and, in public-facing mode,
    exactly one release per recorded address (each of which carries an
    allocation), each category in the order of recording, and then raises
    the original error again with the store as it was at the failure. *)
Theorem rollback_issues_every_compensation
    (cloud : Cloud) (iter_hosts : string -> list IpAddress)
    (poll_budget : nat) (options : Options) (h : History)
    (e : Exn) (s1 : Store) (ev_body : list Event) :
  create_cluster_body cloud iter_hosts poll_budget options empty_store h
  = (Raise e, s1, ev_body) ->
  (forall j, j < List.length (compensations options s1) ->
     accepted_at cloud (h ++ ev_body) (compensations options s1) j) ->
  create_cluster_guarded cloud iter_hosts poll_budget options empty_store h
  = (Raise e, s1, ev_body ++ compensations options s1)
  /\ (use_dmz options = true ->
      forall region ips ip,
        In (region, ips) (Dict.items (node_ips s1)) -> In ip ips ->
        AllocationId ip <> None).
Proof.
  intros Hbody Haccepted.
  assert (Hshape : all_shaped (use_dmz options) s1).
  { pose proof Hbody as H. apply create_cluster_body_keeps_shape in H.
    destruct H as (_ & Hkeeps & _). apply Hkeeps.
    intros region ips ip []. }
  split.
  - unfold create_cluster_guarded, try_except. rewrite Hbody.
    unfold bind. rewrite (@cleanup_is_walk cloud options s1).
    + rewrite issue_all by assumption. unfold raise.
      now rewrite app_nil_r.
    + intros Hdmz. now rewrite Hdmz in Hshape.
  - intros Hdmz region ips ip Hin Hip. rewrite Hdmz in Hshape.
    now destruct (Hshape region ips ip Hin Hip).
Qed.

(** ** Runs that fail for a missing resource *)

Lemma preorder_same_groups : preorder same_groups.
Proof.
  split; unfold same_groups; [reflexivity|]. intros s1 s2 s3 H1 H2. congruence.
Qed.

Lemma admits_addresses_same_groups tk : admits_addresses tk same_groups.
Proof. intros s region a _. reflexivity. Qed.

#[global] Hint Resolve preorder_same_groups admits_addresses_same_groups
  : footprints.

Section Cleanup.
Variable cloud : Cloud.
Variable options : Options.

Lemma cleanup_leaves_store s h r s' ev :
  create_cluster_cleanup cloud options s h = (r, s', ev) -> s' = s.
Proof.
  intros H.
  apply (@create_cluster_cleanup_obeys cloud eq preorder_eq) in H.
  destruct H as (_ & <- & _). reflexivity.
Qed.

Lemma cleanup_of_nothing h :
  create_cluster_cleanup cloud options empty_store h
  = (Return tt, empty_store, []).
Proof.
  unfold create_cluster_cleanup. rewrite bind_get_store. simpl.
  rewrite bind_ret. destruct (use_dmz options); reflexivity.
Qed.

Lemma cleanup_without_groups s :
  security_groups s = Dict.empty _ ->
  forall h r s' ev,
    create_cluster_cleanup cloud options s h = (r, s', ev) ->
    Forall (fun x => In (kind x) [KReleaseAddress]) ev.
Proof.
  intros Hsg h r s' ev. unfold create_cluster_cleanup.
  rewrite bind_get_store, Hsg. simpl. rewrite bind_ret. intros H.
  pose proof preorder_anyhow as HRany.
  assert (Hfp : obeys [KReleaseAddress] anyhow [XExternal; XKey]
    (if use_dmz options
     then for_each (Dict.items (node_ips s)) (fun '(region, ips) =>
            for_each ips (fun ip =>
              _ <- public_ip_of ip ;;
              allocation_id <- allocation_id_of ip ;;
              request (ReleaseAddress region allocation_id)
                (fun h => release_address cloud h region allocation_id)))
     else ret tt)) by footprint.
  now apply Hfp in H.
Qed.

End Cleanup.

(** ** The last element that satisfies a test *)

Lemma find_app_last {X} (p : X -> bool) l x :
  find p (l ++ [x])
  = match find p l with
    | Some y => Some y
    | None => if p x then Some x else None
    end.
Proof.
  induction l as [|y l IH]; simpl; [reflexivity|].
  destruct (p y); [reflexivity|exact IH].
Qed.

Lemma last_match_fold {X} (p : X -> bool) l : forall acc,
  fold_left (fun found x => if p x then Some x else found) l acc
  = match find p (rev l) with
    | Some y => Some y
    | None => acc
    end.
Proof.
  induction l as [|x l IH]; intros acc; simpl; [reflexivity|].
  rewrite IH, find_app_last.
  destruct (find p (rev l)); [reflexivity|]. now destruct (p x).
Qed.

(** ** Where a request lies *)

Lemma split_before_event {X} (evA evB before after : list X) (e : X)
    (P : X -> Prop) :
  evA ++ evB = before ++ e :: after -> Forall P evB -> ~ P e ->
  exists x, after = x ++ evB /\ evA = before ++ e :: x.
Proof.
  intros Heq HB HP. apply app_eq_app in Heq.
  destruct Heq as [l [[-> Hl]|[-> Hl]]].
  - destruct l as [|e' l].
    + simpl in Hl. subst evB. inversion HB; subst. contradiction.
    + simpl in Hl. inversion Hl; subst. exists l. auto.
  - rewrite Hl in HB. apply Forall_app in HB. destruct HB as [_ HB].
    inversion HB; subst. contradiction.
Qed.

(** A request of a kind that the first computation never issues is
    issued by the second, after the first has returned. *)
Lemma bind_skips {A B} (m : M A) (f : A -> M B) ks R xs s h r s'
    before x after :
  obeys ks R xs m -> ~ In (kind x) ks ->
  bind m f s h = (r, s', before ++ x :: after) ->
  exists a s1 e1 b,
    m s h = (Return a, s1, e1)
    /\ Forall (fun e => In (kind e) ks) e1
    /\ R s s1
    /\ before = e1 ++ b
    /\ f a s1 (h ++ e1) = (r, s', b ++ x :: after).
Proof.
  intros Hm Hx H. apply bind_inv in H.
  destruct H as [(a & s1 & e1 & e2 & H1 & H2 & Hev)
                |[(e & H1 & _)|[H1 _]]].
  - destruct (Hm _ _ _ _ _ H1) as (Hk & HR & _).
    symmetry in Hev.
    destruct (split_at_event _ _ _ _ Hev Hk Hx) as (b & -> & ->).
    exists a, s1, e1, b. auto.
  - destruct (Hm _ _ _ _ _ H1) as (Hk & _).
    apply Forall_app in Hk. destruct Hk as [_ Hk].
    inversion Hk; subst. contradiction.
  - destruct (Hm _ _ _ _ _ H1) as (Hk & _).
    apply Forall_app in Hk. destruct Hk as [_ Hk].
    inversion Hk; subst. contradiction.
Qed.

(** A request of a kind that the second computation never issues is
    issued by the first. *)
Lemma bind_holds {A B} (m : M A) (f : A -> M B) ks R xs s h r s'
    before x after :
  (forall a, obeys ks R xs (f a)) -> ~ In (kind x) ks ->
  bind m f s h = (r, s', before ++ x :: after) ->
  exists r1 s1 a1,
    m s h = (r1, s1, before ++ x :: a1)
    /\ match r1 with
       | Return a =>
           exists e2,
             f a s1 (h ++ before ++ x :: a1) = (r, s', e2)
             /\ after = a1 ++ e2
       | Raise e => r = Raise e /\ s' = s1 /\ after = a1
       | Hang => r = Hang /\ s' = s1 /\ after = a1
       end.
Proof.
  intros Hf Hx H. apply bind_inv in H.
  destruct H as [(a & s1 & e1 & e2 & H1 & H2 & Hev)
                |[(e & H1 & ->)|[H1 ->]]].
  - destruct (Hf a _ _ _ _ _ H2) as (Hk & _). symmetry in Hev.
    destruct (split_before_event _ _ _ _ Hev Hk Hx) as (a1 & -> & ->).
    exists (Return a), s1, a1. split; [exact H1|]. exists e2. auto.
  - exists (Raise e), s', after. auto.
  - exists Hang, s', after. auto.
Qed.

Section Missing.
Variable cloud : Cloud.
Variable iter_hosts : string -> list IpAddress.
Variable poll_budget : nat.
Variable options : Options.

(** The image lookup ends with the first region that has no image. *)
Lemma find_taupage_amis_missing regions : forall acc s h r s' before region
    after,
  fold_each regions acc (fun result region =>
    images <- request (DescribeImages region)
                (fun h => describe_images cloud h region) ;;
    match images with
    | [] => raise (Exception_ "No Taupage AMI found")
    | _ :: _ =>
        most_recent_image <- index_last (sorted_by_key image_name images) ;;
        ret (Dict.set region most_recent_image result)
    end) s h
  = (r, s', before ++ DescribeImages region :: after) ->
  describe_images cloud (h ++ before) region = inr [] ->
  r = Raise (Exception_ no_image_message) /\ s' = s /\ after = [].
Proof.
  induction regions as [|r0 regions IH];
    intros acc s h r s' before region after H Hanswer.
  - simpl in H. inversion H. now destruct before.
  - cbn [fold_each] in H. rewrite bind_assoc, bind_request in H.
    destruct before as [|b0 before].
    + rewrite app_nil_r in Hanswer.
      destruct (describe_images cloud h r0) as [x|images] eqn:Hr0.
      * inversion H; subst. congruence.
      * destruct (bind _ _ s (h ++ [DescribeImages r0]))
          as [[r1 s1] e1] eqn:Hrest.
        inversion H; subst. rewrite Hr0 in Hanswer.
        inversion Hanswer; subst images.
        rewrite bind_raise in Hrest. inversion Hrest; subst. auto.
    + destruct (describe_images cloud h r0) as [x|images] eqn:Hr0.
      * inversion H. now destruct before.
      * destruct (bind _ _ s (h ++ [DescribeImages r0]))
          as [[r1 s1] e1] eqn:Hrest.
        inversion H; subst. clear H.
        destruct images as [|image images].
        { rewrite bind_raise in Hrest. inversion Hrest.
          now destruct before. }
        rewrite bind_assoc in Hrest. unfold index_last in Hrest.
        destruct (rev _) as [|y ys].
        { rewrite bind_raise in Hrest. inversion Hrest.
          now destruct before. }
        rewrite !bind_ret in Hrest.
        apply IH in Hrest; [exact Hrest|].
        now rewrite <- app_assoc.
Qed.

(** A run either stops in its preamble or comes to the guarded
    statement. *)
Lemma run_inv r s' ev :
  run cloud iter_hosts poll_budget options = (r, s', ev) ->
  Forall (fun x => In (kind x) preamble_kinds) ev
  \/ exists e_pre ev_g,
       Forall (fun x => In (kind x) preamble_kinds) e_pre
       /\ ev = e_pre ++ ev_g
       /\ create_cluster_guarded cloud iter_hosts poll_budget options
            empty_store e_pre = (r, s', ev_g).
Proof.
  unfold run, create_cluster. intros H.
  pose proof preorder_eq as HReq.
  assert (Hv : obeys preamble_kinds eq [XExternal; XUsage; XType; XIndex]
                 (validate_artifact_version cloud options))
    by now apply validate_artifact_version_obeys.
  assert (Hc : obeys preamble_kinds eq [XExternal; XUsage; XType; XIndex]
                 (generate_certificate cloud (cluster_name options)))
    by (unfold preamble_kinds; footprint).
  apply bind_inv in H.
  destruct H as [(v & s1 & e1 & e2 & H1 & H & ->)|[(e' & H1 & _)|[H1 _]]];
    [|left; now apply Hv in H1..].
  apply Hv in H1. destruct H1 as (Hk1 & <- & _).
  unfold read_environment in H.
  destruct (forallb has_equals (environment options)).
  2:{ rewrite bind_raise in H. inversion H; subst. left.
      now rewrite app_nil_r. }
  rewrite bind_ret in H.
  apply bind_inv in H.
  destruct H as [(c & s2 & e3 & e4 & H2 & H & ->)|[(e' & H2 & _)|[H2 _]]];
    [|left; apply Forall_app; split; [exact Hk1|now apply Hc in H2]..].
  apply Hc in H2. destruct H2 as (Hk2 & <- & _).
  destruct c as [c|].
  2:{ inversion H; subst. left. rewrite app_nil_r.
      now apply Forall_app. }
  rewrite bind_modify in H. right.
  exists (e1 ++ e3), e4. rewrite app_assoc. simpl in H.
  split; [now apply Forall_app|]. split; [reflexivity|].
  exact H.
Qed.

(** Where a request that is neither of the preamble nor a compensation
    lies in a run: in the try block, which the handler follows when it
    raised. *)
Lemma run_locates r s' before x after :
  run cloud iter_hosts poll_budget options = (r, s', before ++ x :: after) ->
  ~ In (kind x) preamble_kinds -> ~ In (kind x) cleanup_kinds ->
  exists e_pre b rb a1,
    Forall (fun e => In (kind e) preamble_kinds) e_pre
    /\ before = e_pre ++ b
    /\ create_cluster_body cloud iter_hosts poll_budget options empty_store
         e_pre
       = (rb, s', b ++ x :: a1)
    /\ match rb with
       | Raise e0 =>
           exists r2 e2,
             create_cluster_cleanup cloud options s' (e_pre ++ b ++ x :: a1)
             = (r2, s', e2)
             /\ after = a1 ++ e2
             /\ r = match r2 with
                    | Return _ => Raise e0
                    | other => other
                    end
       | _ => r = rb /\ after = a1
       end.
Proof.
  intros H Hpre Hclean. apply run_inv in H.
  destruct H as [Hk|(e_pre & ev_g & Hk & Hev & Hg)].
  { apply Forall_app in Hk. destruct Hk as [_ Hk].
    inversion Hk; subst. contradiction. }
  symmetry in Hev.
  destruct (split_at_event _ _ _ _ Hev Hk Hpre) as (b & -> & ->).
  exists e_pre, b. unfold create_cluster_guarded, try_except in Hg.
  destruct (create_cluster_body _ _ _ _ _ _) as [[[[]|e0|] s1] e1]
    eqn:Hbody.
  - inversion Hg; subst. exists (Return tt), after. auto.
  - destruct (bind _ _ s1 (e_pre ++ e1)) as [[r2 s2] e2] eqn:Hhandler.
    inversion Hg as [[Hr Hs Hev2]]. subst r2 s2. clear Hg.
    assert (Hk2 : Forall (fun e => In (kind e) cleanup_kinds) e2
                  /\ s' = s1
                  /\ exists r2,
                       create_cluster_cleanup cloud options s1 (e_pre ++ e1)
                       = (r2, s1, e2)
                       /\ r = match r2 with
                              | Return _ => Raise e0
                              | other => other
                              end).
    { apply bind_inv in Hhandler.
      destruct Hhandler as [([] & s3 & e3 & e4 & Hc & Hr & ->)
                           |[(e' & Hc & ->)|[Hc ->]]].
      - inversion Hr; subst. rewrite app_nil_r.
        apply cleanup_leaves_store in Hc as Hs. subst s'.
        apply (@create_cluster_cleanup_obeys cloud eq preorder_eq) in Hc
          as Hobeys.
        destruct Hobeys as (Hk3 & _). split; [exact Hk3|].
        split; [reflexivity|]. exists (Return tt). auto.
      - apply cleanup_leaves_store in Hc as Hs. subst s'.
        apply (@create_cluster_cleanup_obeys cloud eq preorder_eq) in Hc
          as Hobeys.
        destruct Hobeys as (Hk3 & _). split; [exact Hk3|].
        split; [reflexivity|]. exists (Raise e'). auto.
      - apply cleanup_leaves_store in Hc as Hs. subst s'.
        apply (@create_cluster_cleanup_obeys cloud eq preorder_eq) in Hc
          as Hobeys.
        destruct Hobeys as (Hk3 & _). split; [exact Hk3|].
        split; [reflexivity|]. exists Hang. auto. }
    destruct Hk2 as (Hk2 & -> & r2 & Hc & Hr2).
    destruct (split_before_event _ _ _ _ Hev2 Hk2 Hclean) as (a1 & -> & ->).
    exists (Raise e0), a1. split; [exact Hk|]. split; [reflexivity|].
    split; [reflexivity|]. exists r2, e2. auto.
  - inversion Hg; subst. exists Hang, after. auto.
Qed.
End Missing.

(** The kind of a request is in none of the listed kinds. *)
Ltac absent :=
  simpl; intros Habsent;
  repeat (destruct Habsent as [Habsent|Habsent]; [discriminate|]);
  contradiction.

(** The zone lookup fails when no zone of the answer has the name. *)
Lemma setup_dns_records_missing cloud name zone' s h r s' b zone a zones :
  setup_dns_records cloud name zone' s h
  = (r, s', b ++ ListHostedZonesByName zone :: a) ->
  list_hosted_zones_by_name cloud (h ++ b) zone = inr zones ->
  last_zone_named zone zones = None ->
  b = [] /\ a = [] /\ s' = s
  /\ r = Raise (Exception_ (no_zone_message ++ zone)).
Proof.
  intros H Hanswer Hzone. unfold setup_dns_records in H.
  rewrite bind_request in H.
  destruct (list_hosted_zones_by_name cloud h zone') as [x|zs] eqn:Hzs.
  { inversion H as [[Hr Hs Hev]]. destruct b as [|b0 b].
    - inversion Hev; subst. rewrite app_nil_r in Hanswer. congruence.
    - inversion Hev. now destruct b. }
  cbv zeta in H.
  rewrite (last_match_fold (fun z => String.eqb (zone_name z) zone')) in H.
  fold (last_zone_named zone' zs) in H.
  destruct (last_zone_named zone' zs) as [z|] eqn:Hz.
  - destruct (bind _ _ s (h ++ [ListHostedZonesByName zone']))
      as [[r1 s1] e1] eqn:Hrest.
    inversion H as [[Hr Hs Hev]]. destruct b as [|b0 b].
    + inversion Hev; subst. rewrite app_nil_r in Hanswer. congruence.
    + inversion Hev; subst. exfalso.
      pose proof preorder_eq as HReq.
      assert (Hk : obeys [KChangeResourceRecordSets] eq [XExternal]
                (s <- get_store ;;
                 for_each (Dict.items (node_ips s)) (fun '(region, ips) =>
                   let name :=
                     ("_" ++ name ++ "-" ++ region ++ "._tcp." ++ zone')%string
                   in
                   request
                     (ChangeResourceRecordSets (zone_id z) name
                        (make_dns_records region ips))
                     (fun h =>
                        change_resource_record_sets cloud h (zone_id z) name
                          (make_dns_records region ips)))))
        by footprint.
      apply Hk in Hrest. destruct Hrest as (Hrest & _).
      apply Forall_app in Hrest. destruct Hrest as [_ Hrest].
      inversion Hrest as [|? ? Hx]; subst. simpl in Hx.
      destruct Hx as [Hx|[]]. discriminate.
  - unfold raise in H. inversion H as [[Hr Hs Hev]].
    destruct b as [|b0 b].
    + inversion Hev; subst. auto.
    + inversion Hev. now destruct b.
Qed.

(** C9, as amended.  A run in which an image search is answered with no
    image fails with the image error at that request: nothing follows it,
    the store is empty and only the lookups of the preamble and of the
    image search were issued, so no address was allocated, no
    access-control group created and no compensation issued.  A run in
    which the lookup of the configured DNS zone is answered without a zone
    of that name fails there with no access-control group created and no
    delete issued; its addresses were chosen, and in public-facing mode
    allocated, before the zone was looked up, and what follows the lookup
    are the releases of the recorded allocations: all of them, and the
    zone error is raised, when the provider accepts each; otherwise up to
    the first that is refused, and the refusal is raised instead. *)
Theorem missing_resource_failures
    (cloud : Cloud) (iter_hosts : string -> list IpAddress)
    (poll_budget : nat) (options : Options)
    (r : Outcome unit) (s' : Store) (ev : list Event) :
  run cloud iter_hosts poll_budget options = (r, s', ev) ->
  (forall before region after,
      ev = before ++ DescribeImages region :: after ->
      describe_images cloud before region = inr [] ->
      r = Raise (Exception_ no_image_message)
      /\ after = []
      /\ s' = empty_store
      /\ Forall (fun x => In (kind x) image_lookup_kinds) ev)
  /\ (forall before zone zones after,
        ev = before ++ ListHostedZonesByName zone :: after ->
        list_hosted_zones_by_name cloud before zone = inr zones ->
        last_zone_named zone zones = None ->
        security_groups s' = Dict.empty _
        /\ Forall (fun x => In (kind x) before_groups_kinds) ev
        /\ compensations options s'
           = (if use_dmz options then releases s' else [])
        /\ (((forall j, j < List.length (compensations options s') ->
                accepted_at cloud (before ++ [ListHostedZonesByName zone])
                  (compensations options s') j)
             /\ after = compensations options s'
             /\ r = Raise (Exception_ (no_zone_message ++ zone)))
            \/ (exists j x,
                   refused_at cloud (before ++ [ListHostedZonesByName zone])
                     (compensations options s') j x
                   /\ (forall i, i < j ->
                         accepted_at cloud
                           (before ++ [ListHostedZonesByName zone])
                           (compensations options s') i)
                   /\ after = firstn (S j) (compensations options s')
                   /\ r = Raise (external_exn x)))).
Proof.
  intros Hrun. split.
  - intros before region after -> Hanswer.
    apply run_locates in Hrun; [|absent..].
    destruct Hrun as (e_pre & b & rb & a1 & Hpre & -> & Hbody & Hrb).
    unfold create_cluster_body in Hbody.
    apply (@bind_holds _ _ _ _ past_images_kinds anyhow any_exn) in Hbody;
      [| |absent].
    2:{ intros amis. pose proof preorder_anyhow as HRany.
        pose proof admits_groups_anyhow as Hgroups.
        unfold past_images_kinds, any_exn. footprint. }
    destruct Hbody as (r1 & s1 & a2 & Hfind & Hr1).
    pose proof Hfind as Hkinds.
    apply (@find_taupage_amis_obeys cloud eq preorder_eq) in Hkinds.
    destruct Hkinds as (Hkinds & _).
    unfold find_taupage_amis in Hfind.
    apply find_taupage_amis_missing in Hfind; [|exact Hanswer].
    destruct Hfind as (-> & -> & ->).
    destruct Hr1 as (-> & -> & ->).
    destruct Hrb as (r2 & e2 & Hclean & -> & ->).
    rewrite cleanup_of_nothing in Hclean. inversion Hclean; subst.
    repeat split; try reflexivity.
    rewrite <- app_assoc. apply Forall_app. split.
    + eapply Forall_impl; [|exact Hpre]. intros x.
      unfold preamble_kinds, image_lookup_kinds. simpl. tauto.
    + eapply Forall_impl; [|exact Hkinds].
      intros x. unfold image_lookup_kinds. simpl. tauto.
  - intros before zone zones after -> Hanswer Hzone.
    apply run_locates in Hrun; [|absent..].
    destruct Hrun as (e_pre & b & rb & a1 & Hpre & -> & Hbody & Hrb).
    pose proof Hbody as Hshape.
    apply create_cluster_body_keeps_shape in Hshape.
    destruct Hshape as (_ & Hshape & _).
    pose proof preorder_same_groups as HRsame.
    unfold create_cluster_body in Hbody.
    apply (@bind_skips _ _ _ _ before_dns_kinds same_groups any_exn)
      in Hbody; [| |absent].
    2:{ unfold before_dns_kinds, any_exn. footstep. }
    destruct Hbody as (amis & s1 & e1 & b1 & _ & Hk1 & Hs1 & -> & Hbody).
    apply (@bind_skips _ _ _ _ before_dns_kinds same_groups any_exn)
      in Hbody; [| |absent].
    2:{ unfold before_dns_kinds, any_exn. footstep. }
    destruct Hbody as (subnets & s2 & e2 & b2 & _ & Hk2 & Hs2 & -> & Hbody).
    apply (@bind_skips _ _ _ _ before_dns_kinds same_groups any_exn)
      in Hbody; [| |absent].
    2:{ unfold before_dns_kinds, any_exn. footstep. }
    destruct Hbody as ([] & s3 & e3 & b3 & _ & Hk3 & Hs3 & -> & Hbody).
    apply (@bind_skips _ _ _ _ before_dns_kinds same_groups any_exn)
      in Hbody; [| |absent].
    2:{ unfold before_dns_kinds, any_exn. footprint. }
    destruct Hbody as (topics & s4 & e4 & b4 & _ & Hk4 & Hs4 & -> & Hbody).
    apply (@bind_holds _ _ _ _ past_dns_kinds anyhow any_exn) in Hbody;
      [| |absent].
    2:{ intros []. pose proof preorder_anyhow as HRany.
        pose proof admits_groups_anyhow as Hgroups.
        unfold past_dns_kinds, any_exn. footprint. }
    destruct Hbody as (r5 & s5 & a5 & Hdns & Hr5).
    assert (Hh : (((e_pre ++ e1) ++ e2) ++ e3) ++ e4
                 = e_pre ++ e1 ++ e2 ++ e3 ++ e4)
      by now rewrite <- !app_assoc.
    rewrite Hh in Hdns. clear Hh.
    destruct (hosted_zone options) as [z|].
    2:{ inversion Hdns. now destruct b4. }
    destruct (String.eqb z "").
    { inversion Hdns. now destruct b4. }
    apply setup_dns_records_missing with (zones := zones) in Hdns;
      [|now rewrite <- !app_assoc|exact Hzone].
    destruct Hdns as (-> & -> & -> & ->).
    destruct Hr5 as (-> & -> & ->).
    destruct Hrb as (r2 & e5 & Hclean & -> & ->).
    assert (Hsg : security_groups s4 = Dict.empty _).
    { unfold same_groups in *. simpl in Hs1. congruence. }
    assert (Hcomp : compensations options s4
                    = (if use_dmz options then releases s4 else [])).
    { unfold compensations, deletions. now rewrite Hsg. }
    assert (Hk5 : Forall (fun x => In (kind x) [KReleaseAddress]) e5).
    { eapply cleanup_without_groups; [exact Hsg|exact Hclean]. }
    split; [exact Hsg|]. split.
    { rewrite <- !app_assoc. apply Forall_app. split.
      { eapply Forall_impl; [|exact Hpre]. intros x.
        unfold preamble_kinds, before_groups_kinds. simpl. tauto. }
      repeat (apply Forall_app; split;
              [match goal with
               | H : Forall _ ?l |- Forall _ ?l =>
                   eapply Forall_impl; [|exact H]; intros x;
                   unfold before_dns_kinds, before_groups_kinds; simpl; tauto
               end|]).
      simpl. constructor; [simpl; tauto|].
      eapply Forall_impl; [|exact Hk5]. intros x.
      unfold before_groups_kinds. simpl. tauto. }
    split; [exact Hcomp|].
    assert (Hh : e_pre ++ (e1 ++ e2 ++ e3 ++ e4 ++ [])
                   ++ [ListHostedZonesByName zone]
                 = (e_pre ++ e1 ++ e2 ++ e3 ++ e4 ++ [])
                     ++ [ListHostedZonesByName zone])
      by now rewrite <- !app_assoc.
    rewrite Hh in Hclean. clear Hh.
    rewrite (@cleanup_is_walk cloud options s4) in Hclean.
    2:{ intros Hdmz. rewrite Hdmz in Hshape. apply Hshape.
        intros region ips ip []. }
    destruct (@issue_walk cloud (compensations options s4) s4
                ((e_pre ++ e1 ++ e2 ++ e3 ++ e4 ++ [])
                   ++ [ListHostedZonesByName zone]))
      as [[Hall Hwalk]|(j & x & Href & Hbefore & Hwalk)];
      rewrite Hwalk in Hclean; inversion Hclean; subst r2 e5.
    + left. auto.
    + right. exists j, x. auto.
Qed.

(** ** The seed selector *)

(** [pick_seed_node_ips] is used by [create_cluster_body] as a plain
    function between reading the store and launching: determinism is that
    of a function, and what is left to prove is what it computes. *)

Lemma set_fresh {V} k (v : V) d :
  ~ In k (Dict.keys d) -> Dict.set k v d = d ++ [(k, v)].
Proof.
  induction d as [|[k0 v0] d IH]; simpl; [reflexivity|].
  intros Hnot. destruct (String.eqb k k0) eqn:E.
  - apply String.eqb_eq in E. subst k0. exfalso. apply Hnot. now left.
  - f_equal. apply IH. tauto.
Qed.

Lemma pick_from {X} (g : list X -> list X) (l acc : Dict.t (list X)) :
  NoDup (map fst acc ++ map fst l) ->
  fold_left
    (fun seed_nodes '(region, ips) => Dict.set region (g ips) seed_nodes)
    l acc
  = acc ++ map (fun '(region, ips) => (region, g ips)) l.
Proof.
  revert acc. induction l as [|[region ips] l IH]; intros acc Hnd; simpl.
  - now rewrite app_nil_r.
  - assert (Hfresh : ~ In region (Dict.keys acc)).
    { simpl in Hnd. apply NoDup_remove_2 in Hnd. intros Hin. apply Hnd.
      apply in_or_app. now left. }
    rewrite set_fresh by assumption. rewrite IH.
    + rewrite <- app_assoc. reflexivity.
    + rewrite map_app. simpl. rewrite <- app_assoc. exact Hnd.
Qed.

Lemma pick_seed_node_ips_map node_ips seed_count :
  NoDup (Dict.keys node_ips) ->
  pick_seed_node_ips node_ips seed_count
  = map (fun '(region, ips) => (region, slice_to seed_count ips)) node_ips.
Proof.
  intros Hnd. unfold pick_seed_node_ips, Dict.items, Dict.empty.
  now rewrite (@pick_from _ (slice_to seed_count) node_ips []).
Qed.

Lemma slice_to_firstn {X} stop (ips : list X) :
  (0 <= stop)%Z -> slice_to stop ips = firstn (Z.to_nat stop) ips.
Proof.
  intros H. unfold slice_to. destruct (0 <=? stop)%Z eqn:E; [reflexivity|].
  apply Z.leb_gt in E. lia.
Qed.

Lemma slice_to_populated {X} cluster_size (ips : list X) :
  List.length ips = Z.to_nat cluster_size ->
  slice_to (Z.min cluster_size 3) ips
  = firstn (Z.to_nat (Z.min cluster_size 3)) ips.
Proof.
  intros Hlen. destruct (Z.le_gt_cases 0 cluster_size) as [Hpos|Hneg].
  - apply slice_to_firstn. lia.
  - assert (Hnil : ips = []) by (apply length_zero_iff_nil; lia).
    subst ips. unfold slice_to.
    destruct (0 <=? Z.min cluster_size 3)%Z; now rewrite !firstn_nil.
Qed.

(** C8. The seed selector is a total function of the topology and the
    seed count alone: it reads no provider answer, issues no request and
    cannot raise. With [seed_count = min(cluster_size, 3)] and a populated
    topology (every region holds [cluster_size] addresses) it returns,
    region by region and in the order of the topology, the first
    [seed_count] addresses unchanged; every region of the topology is
    present in the result with exactly [min(cluster_size, 3)] seeds; and
    selecting again from the result gives the result back. *)
Theorem seed_selector_takes_the_first_nodes
    (node_ips : Dict.t (list NodeAddress)) (cluster_size : Z) :
  NoDup (Dict.keys node_ips) ->
  (forall region ips,
      In (region, ips) (Dict.items node_ips) ->
      List.length ips = Z.to_nat cluster_size) ->
  let seed_count := Z.min cluster_size 3 in
  let seed_nodes := pick_seed_node_ips node_ips seed_count in
  seed_nodes
  = map (fun '(region, ips) => (region, firstn (Z.to_nat seed_count) ips))
      node_ips
  /\ pick_seed_node_ips seed_nodes seed_count = seed_nodes
  /\ forall region ips,
       In (region, ips) (Dict.items node_ips) ->
       Dict.get region seed_nodes = Some (firstn (Z.to_nat seed_count) ips)
       /\ List.length (firstn (Z.to_nat seed_count) ips)
          = Nat.min (Z.to_nat cluster_size) 3.
Proof.
  intros Hnd Hpopulated seed_count seed_nodes.
  assert (Hmap : seed_nodes
    = map (fun '(region, ips) => (region, firstn (Z.to_nat seed_count) ips))
        node_ips).
  { unfold seed_nodes. rewrite pick_seed_node_ips_map by assumption.
    apply map_ext_in. intros [region ips] Hin.
    unfold seed_count. rewrite slice_to_populated; [reflexivity|].
    eapply Hpopulated; eauto. }
  assert (Hkeys : Dict.keys seed_nodes = Dict.keys node_ips).
  { rewrite Hmap. unfold Dict.keys. rewrite map_map. apply map_ext.
    now intros [region ips]. }
  split; [exact Hmap|]. split.
  - rewrite pick_seed_node_ips_map by now rewrite Hkeys.
    rewrite Hmap at 2. rewrite Hmap, map_map. apply map_ext_in.
    intros [region ips] Hin. f_equal.
    destruct (Z.le_gt_cases 0 cluster_size) as [Hpos|Hneg].
    + rewrite slice_to_firstn by (unfold seed_count; lia).
      rewrite firstn_firstn, Nat.min_id. reflexivity.
    + assert (Hnil : ips = []).
      { apply length_zero_iff_nil. rewrite (Hpopulated _ _ Hin). lia. }
      subst ips. rewrite firstn_nil. unfold slice_to.
      destruct (0 <=? seed_count)%Z; now rewrite firstn_nil.
  - intros region ips Hin. split.
    + apply DictFacts.in_items_get; [now rewrite Hkeys|].
      rewrite Hmap. unfold Dict.items.
      change (region, firstn (Z.to_nat seed_count) ips)
        with ((fun '(region, ips) =>
                 (region, firstn (Z.to_nat seed_count) ips)) (region, ips)).
      now apply in_map.
    + rewrite length_firstn, (Hpopulated _ _ Hin). unfold seed_count. lia.
Qed.

(** ** The program on the small cloud *)

Lemma distinct_sound l : distinct l = true -> NoDup l.
Proof.
  induction l as [|x l IH]; simpl; intros H; constructor.
  - apply andb_prop in H as [H _]. apply negb_true_iff in H.
    intros Hin.
    assert (Hex : existsb (String.eqb x) l = true).
    { apply existsb_exists. exists x. split; [assumption|].
      apply String.eqb_refl. }
    congruence.
  - apply andb_prop in H as [_ H]. auto.
Qed.

Lemma distinct_complete l : NoDup l -> distinct l = true.
Proof.
  induction 1 as [|x l Hnot Hnd IH]; simpl; [reflexivity|].
  rewrite IH, andb_true_r. apply negb_true_iff.
  destruct (existsb (String.eqb x) l) eqn:E; [|reflexivity].
  apply existsb_exists in E as (y & Hy & Heq).
  apply String.eqb_eq in Heq. now subst y.
Qed.

Module Runs.
Import Scenario.

(** *** Allocation *)

Lemma round_robin_over_subnets_witness :
  yielded "eu-west-1" (snd (fst west_allocation))
  = ["10.0.1.12"; "10.0.2.11"; "10.0.1.13"]
  /\ queries (cloud calm) [] (snd west_allocation)
     = [mkQuery "eu-west-1" "10.0.1.11" false;
        mkQuery "eu-west-1" "10.0.1.12" true;
        mkQuery "eu-west-1" "10.0.2.11" true;
        mkQuery "eu-west-1" "10.0.1.13" true]
  /\ In "10.0.2.11" (usable_of iter_hosts west_subnets 1)
  /\ In "10.0.1.13" (usable_of iter_hosts west_subnets 0)
  /\ exists p,
       nth_error (usable_of iter_hosts west_subnets 0) p = Some "10.0.1.11"
       /\ nth_error (usable_of iter_hosts west_subnets 0) (S p)
          = Some "10.0.1.12".
Proof.
  destruct (@round_robin_over_subnets (cloud calm) iter_hosts "eu-west-1"
              west_subnets 3 false empty_store []
              (fst (fst west_allocation)) (snd (fst west_allocation))
              (snd west_allocation))
    as (_ & ys & Hy & (tail & Hacc & Htail) & _ & Hrr & Hsame).
  { vm_compute. reflexivity. }
  split.
  { rewrite Hy. rewrite (Htail eq_refl), app_nil_r in Hacc.
    rewrite <- Hacc. vm_compute. reflexivity. }
  split; [vm_compute; reflexivity|].
  split; [apply (Hrr 1); vm_compute; reflexivity|].
  split; [apply (Hrr 2); vm_compute; reflexivity|].
  apply (Hsame 0 (mkQuery "eu-west-1" "10.0.1.11" false)
           (mkQuery "eu-west-1" "10.0.1.12" true));
    vm_compute; reflexivity.
Defined.

Lemma reserved_head_never_yielded_witness :
  Forall
    (fun y =>
       forall j,
         ~ In y (firstn reserved_count (hosts_of iter_hosts west_subnets j)))
    (yielded "eu-west-1" (snd (fst west_allocation))).
Proof.
  apply Forall_forall.
  destruct (@reserved_head_never_yielded (cloud calm) iter_hosts "eu-west-1"
              west_subnets 3 false empty_store []
              (fst (fst west_allocation)) (snd (fst west_allocation))
              (snd west_allocation)) as (ys & Hys & Hpos).
  - vm_compute. reflexivity.
  - intros y Hin. rewrite Hys in Hin.
    apply In_nth_error in Hin as [i Hi].
    destruct (Hpos i y Hi) as [_ Hhead]. apply Hhead.
    apply distinct_sound. vm_compute. reflexivity.
Defined.




(** *** The seed selector *)

Lemma seed_selector_takes_the_first_nodes_witness :
  pick_seed_node_ips topology (Z.min 4 3)
  = map (fun '(region, ips) => (region, firstn (Z.to_nat (Z.min 4 3)) ips))
      topology
  /\ pick_seed_node_ips (pick_seed_node_ips topology (Z.min 4 3)) (Z.min 4 3)
     = pick_seed_node_ips topology (Z.min 4 3)
  /\ map PrivateIp
       (Dict.get_list "eu-central-1"
          (pick_seed_node_ips topology (Z.min 4 3)))
     = ["10.0.1.11"; "10.0.2.11"; "10.0.1.12"].
Proof.
  assert (Hkeys : NoDup (Dict.keys topology)).
  { apply distinct_sound. reflexivity. }
  assert (Hpopulated : forall region ips,
            In (region, ips) (Dict.items topology) ->
            List.length ips = Z.to_nat 4).
  { intros region ips [H|[H|[]]]; inversion H; reflexivity. }
  pose proof (seed_selector_takes_the_first_nodes topology 4 Hkeys Hpopulated)
    as H.
  cbv zeta in H. destruct H as (Hmap & Hagain & Hget).
  split; [exact Hmap|]. split; [exact Hagain|].
  unfold Dict.get_list.
  rewrite (proj1 (Hget "eu-central-1" _ (or_intror (or_introl eq_refl)))).
  reflexivity.
Defined.

(** *** Launch order *)

Lemma seed_launches_precede_normal_launches_witness :
  Forall (fun e' => kind e' <> KLaunchSeed) (skipn 83 (snd two_regions))
  /\ all_seeds_launched
       (pick_seed_node_ips (node_ips (snd (fst two_regions)))
          (Z.min (cluster_size two_regions_options) 3))
       (firstn 82 (snd two_regions)).
Proof.
  apply (@seed_launches_precede_normal_launches (cloud calm) iter_hosts 3
           two_regions_options (fst (fst two_regions))
           (snd (fst two_regions)) (snd two_regions))
    with (e := nth 82 (snd two_regions) (Sleep 0)).
  - vm_compute. reflexivity.
  - vm_compute. reflexivity.
  - vm_compute. reflexivity.
Defined.

(** C7. On a run over two regions of which the second has no subnet of
    the wanted kind, three seeds are launched and every one of them,
    the last one too, is followed by the 60 seconds delay; the run ends
    normally. *)
Theorem delay_after_last_seed_launch :
  fst (fst lost_region) = Return tt
  /\ pacing (snd lost_region)
     = [SeedLaunch; Delay; SeedLaunch; Delay; SeedLaunch; Delay].
Proof. split; vm_compute; reflexivity. Qed.

(** C10. On the same run the topology has no entry for the second of the
    two regions the operator asked for, and the run ends normally. *)
Theorem region_without_subnets_is_dropped :
  regions lost_region_options = ["eu-west-1"; "ap-south-1"]
  /\ fst (fst lost_region) = Return tt
  /\ Dict.keys (node_ips (snd (fst lost_region))) = ["eu-west-1"]
  /\ Dict.get "ap-south-1" (node_ips (snd (fst lost_region))) = None
  /\ List.length (yielded "ap-south-1" (snd (fst lost_region)))
     <> Z.to_nat (cluster_size lost_region_options).
Proof.
  repeat split; try (vm_compute; reflexivity).
  vm_compute. discriminate.
Qed.

(** *** Failures *)

Lemma rollback_issues_every_compensation_witness :
  picky_rollback
  = (Raise (ClientError "AccessDenied"), snd (fst picky_body),
     snd picky_body
     ++ [DeleteSecurityGroup "eu-west-1" "sg-eu-west-1";
         DeleteSecurityGroup "eu-central-1" "sg-eu-central-1";
         ReleaseAddress "eu-west-1" "eipalloc-1";
         ReleaseAddress "eu-west-1" "eipalloc-2";
         ReleaseAddress "eu-central-1" "eipalloc-3";
         ReleaseAddress "eu-central-1" "eipalloc-4"])
  /\ (forall region ips ip,
        In (region, ips) (Dict.items (node_ips (snd (fst picky_body)))) ->
        In ip ips -> AllocationId ip <> None)
  /\ delete_security_group picky
       [RunInstances "eu-west-1" SEED "10.0.3.11" "ami-2" "subnet-2a"
          "sg-eu-west-1"]
       "eu-west-1" "sg-eu-west-1"
     = inl (ServiceError "DependencyViolation").
Proof.
  destruct (@rollback_issues_every_compensation picky iter_hosts 3
              stuck_options stuck_history (ClientError "AccessDenied")
              (snd (fst picky_body)) (snd picky_body))
    as [Hrun Hshape].
  - vm_compute. reflexivity.
  - intros j Hj.
    do 6 (destruct j as [|j];
          [eexists; split; vm_compute; reflexivity|]).
    vm_compute in Hj. lia.
  - split; [exact Hrun|]. split; [exact (Hshape eq_refl)|reflexivity].
Defined.

(** The second launch is refused, and then the delete of the first
    access-control group, which the instance launched before is using:
    the refusal of the delete is what the caller gets, one of the two
    recorded groups has a delete issued for it and none of the four
    recorded allocations a release. *)
Lemma refused_delete_ends_rollback :
  fst (fst stuck_body) = Raise (ClientError "InsufficientInstanceCapacity")
  /\ stuck_run
     = (Raise (ClientError "DependencyViolation"), snd (fst stuck_body),
        stuck_history ++ snd stuck_body
        ++ [DeleteSecurityGroup "eu-west-1" "sg-eu-west-1"])
  /\ List.length (deletions (snd (fst stuck_body))) = 2
  /\ List.length (releases (snd (fst stuck_body))) = 4.
Proof. repeat split; vm_compute; reflexivity. Qed.

Lemma missing_resource_failures_witness :
  no_image
  = (Raise (Exception_ "No Taupage AMI found"), empty_store,
     [GetArtifactTags "planb-cassandra-3.0"; GenerateCertificate "planb";
      DescribeImages "eu-west-1"])
  /\ (fst (fst no_zone)
      = Raise (Exception_ "Failed to find Hosted Zone db.example.org.")
      /\ security_groups (snd (fst no_zone)) = Dict.empty _
      /\ skipn 8 (snd no_zone)
         = [ListHostedZonesByName "db.example.org.";
            ReleaseAddress "eu-west-1" "eipalloc-1";
            ReleaseAddress "eu-west-1" "eipalloc-2"])
  /\ (fst (fst no_zone_kept) = Raise (ClientError "AuthFailure")
      /\ skipn 8 (snd no_zone_kept)
         = [ListHostedZonesByName "db.example.org.";
            ReleaseAddress "eu-west-1" "eipalloc-1"]).
Proof.
  split; [|split].
  - destruct (@missing_resource_failures (cloud imageless) iter_hosts 3
                zone_options (fst (fst no_image)) (snd (fst no_image))
                (snd no_image)) as [Himage _].
    { vm_compute. reflexivity. }
    destruct (Himage
                [GetArtifactTags "planb-cassandra-3.0";
                 GenerateCertificate "planb"] "eu-west-1" [])
      as (Hr & _ & Hs & _).
    { vm_compute. reflexivity. }
    { reflexivity. }
    rewrite (surjective_pairing no_image).
    rewrite (surjective_pairing (fst no_image)). rewrite Hr, Hs.
    reflexivity.
  - destruct (@missing_resource_failures (cloud zoneless) iter_hosts 3
                zone_options (fst (fst no_zone)) (snd (fst no_zone))
                (snd no_zone)) as [_ Hzone].
    { vm_compute. reflexivity. }
    destruct (Hzone (firstn 8 (snd no_zone)) "db.example.org." []
                (skipn 9 (snd no_zone)))
      as (Hsg & _ & _ & Hroll).
    { vm_compute. reflexivity. }
    { reflexivity. }
    { reflexivity. }
    destruct Hroll as [(_ & Hafter & Hr)|(j & x & (c & Hc & Hx) & _)].
    + split; [exact Hr|]. split; [exact Hsg|].
      change (skipn 8 (snd no_zone))
        with (ListHostedZonesByName "db.example.org."
              :: skipn 9 (snd no_zone)).
      rewrite Hafter. vm_compute. reflexivity.
    + exfalso.
      destruct j as [|[|[|j]]]; vm_compute in Hc; inversion Hc; subst;
        vm_compute in Hx; discriminate Hx.
  - destruct (@missing_resource_failures grudging iter_hosts 3
                zone_options (fst (fst no_zone_kept))
                (snd (fst no_zone_kept)) (snd no_zone_kept)) as [_ Hzone].
    { vm_compute. reflexivity. }
    destruct (Hzone (firstn 8 (snd no_zone_kept)) "db.example.org." []
                (skipn 9 (snd no_zone_kept)))
      as (_ & _ & _ & Hroll).
    { vm_compute. reflexivity. }
    { reflexivity. }
    { reflexivity. }
    destruct Hroll
      as [(Hall & _)|(j & x & (c & Hc & Hx) & Hbefore & Hafter & Hr)].
    + exfalso. destruct (Hall 0) as (c & Hc & Hx); [vm_compute; lia|].
      vm_compute in Hc. inversion Hc; subst. vm_compute in Hx.
      discriminate Hx.
    + destruct j as [|j].
      * vm_compute in Hc. inversion Hc; subst. vm_compute in Hx.
        inversion Hx; subst. split; [exact Hr|].
        change (skipn 8 (snd no_zone_kept))
          with (ListHostedZonesByName "db.example.org."
                :: skipn 9 (snd no_zone_kept)).
        rewrite Hafter. vm_compute. reflexivity.
      * exfalso. destruct (Hbefore 0) as (c0 & Hc0 & Hx0); [lia|].
        vm_compute in Hc0. inversion Hc0; subst. vm_compute in Hx0.
        discriminate Hx0.
Defined.

(** In public-facing mode the zone is looked up after the addresses were
    allocated: the run that fails for the missing zone has allocated two
    routable addresses, recorded two nodes and released both addresses
    again. *)
Lemma missing_zone_after_allocation :
  fst (fst no_zone)
  = Raise (Exception_ "Failed to find Hosted Zone db.example.org.")
  /\ filter is_allocation (snd no_zone)
     = [AllocateAddress "eu-west-1"; AllocateAddress "eu-west-1"]
  /\ yielded "eu-west-1" (snd (fst no_zone)) = ["10.0.3.11"; "10.0.3.12"]
  /\ releases (snd (fst no_zone))
     = [ReleaseAddress "eu-west-1" "eipalloc-1";
        ReleaseAddress "eu-west-1" "eipalloc-2"]
  /\ exists before,
       snd no_zone = before ++ releases (snd (fst no_zone)).
Proof.
  repeat split; try (vm_compute; reflexivity).
  exists (firstn 9 (snd no_zone)). vm_compute. reflexivity.
Qed.

End Runs.

(** * Further properties *)
(** ** Strings of the options *)

Lemma after_last_colon_plain s :
  has_colon s = false -> after_last_colon s = s.
Proof.
  destruct s as [|c s]; simpl; [reflexivity|].
  intros H. now rewrite H.
Qed.

Lemma has_colon_append repo tag :
  has_colon (repo ++ ":" ++ tag) = true.
Proof.
  induction repo as [|c repo IH]; simpl in *; [reflexivity|].
  rewrite IH. apply orb_true_r.
Qed.

Lemma after_last_colon_append repo tag :
  has_colon tag = false -> after_last_colon (repo ++ ":" ++ tag) = tag.
Proof.
  intros Htag. induction repo as [|c repo IH].
  - simpl. now apply after_last_colon_plain.
  - change (after_last_colon (String c (repo ++ ":" ++ tag)) = tag).
    cbn [after_last_colon].
    rewrite has_colon_append, orb_true_r. exact IH.
Qed.

(** X1. With [--docker-image] alone no registry is asked: the image is used
    as it is and its version is what follows its last colon, the tag of
    [repo:tag] and the whole text of an image without colon. *)
Theorem docker_image_gives_its_tag
    (cloud : Cloud) (options : Options) (image : string) (s : Store)
    (h : History) :
  docker_image options = Some image ->
  image <> "" ->
  truthy (artifact_name options) = false ->
  validate_artifact_version cloud options s h
  = (Return (image, after_last_colon image), s, [])
  /\ (forall repo tag,
        image = (repo ++ ":" ++ tag)%string -> has_colon tag = false ->
        after_last_colon image = tag)
  /\ (has_colon image = false -> after_last_colon image = image).
Proof.
  intros Himage Hne Hartifact. split; [|split].
  - unfold validate_artifact_version, truthy.
    rewrite Himage. unfold truthy in Hartifact. rewrite Hartifact.
    destruct (String.eqb image "") eqn:E; [|reflexivity].
    apply String.eqb_eq in E. contradiction.
  - intros repo tag -> Htag. now apply after_last_colon_append.
  - apply after_last_colon_plain.
Qed.

Lemma dots_to_dashes_length s :
  String.length (dots_to_dashes s) = String.length s.
Proof. induction s as [|c s IH]; simpl; congruence. Qed.

Lemma dots_to_dashes_injective a b :
  has_dash a = false -> has_dash b = false ->
  dots_to_dashes a = dots_to_dashes b -> a = b.
Proof.
  revert b. induction a as [|c a IH]; intros [|d b]; simpl; try discriminate;
    [reflexivity|].
  intros Ha Hb H. apply orb_false_elim in Ha as [Hc Ha].
  apply orb_false_elim in Hb as [Hd Hb].
  inversion H as [[Hhead Htail]]. f_equal; [|now apply IH].
  destruct (Ascii.eqb c ".") eqn:Ec, (Ascii.eqb d ".") eqn:Ed.
  - apply Ascii.eqb_eq in Ec, Ed. congruence.
  - subst d. discriminate.
  - subst c. discriminate.
  - exact Hhead.
Qed.

Lemma append_same_length a b x y :
  String.length a = String.length b ->
  (a ++ x = b ++ y)%string -> a = b.
Proof.
  revert b. induction a as [|c a IH]; intros [|d b]; simpl; try discriminate;
    [reflexivity|].
  intros Hlen H. inversion H. f_equal. apply IH; [lia|assumption].
Qed.

Lemma string_length_append a b :
  String.length (a ++ b) = (String.length a + String.length b)%nat.
Proof. induction a as [|c a IH]; simpl; congruence. Qed.

Lemma append_cancel_l p a b : (p ++ a = p ++ b)%string -> a = b.
Proof.
  induction p as [|c p IH]; simpl; [auto|].
  intros H. inversion H. auto.
Qed.

Lemma hostname_from_private_ip_injective region a b :
  has_dash a = false -> has_dash b = false ->
  hostname_from_private_ip region a = hostname_from_private_ip region b ->
  a = b.
Proof.
  intros Ha Hb H. unfold hostname_from_private_ip in H.
  apply append_cancel_l in H. rename H into Hrest.
  apply dots_to_dashes_injective; [assumption|assumption|].
  eapply append_same_length; [|exact Hrest].
  apply (f_equal String.length) in Hrest.
  rewrite !string_length_append in Hrest. lia.
Qed.

(** X2. Nodes with different private addresses get different SRV records:
    the host name keeps the address apart from the dots, which an address
    written without dashes can be read back from. *)
Theorem make_dns_records_distinct (region : Region)
    (ips : list NodeAddress) :
  NoDup (map PrivateIp ips) ->
  (forall ip, In ip ips -> has_dash (PrivateIp ip) = false) ->
  NoDup (make_dns_records region ips)
  /\ List.length (make_dns_records region ips) = List.length ips.
Proof.
  intros Hnd Hdash. split.
  2:{ unfold make_dns_records. now rewrite !length_map. }
  unfold make_dns_records. rewrite map_map.
  induction ips as [|ip ips IH]; simpl; [constructor|].
  inversion Hnd as [|x l Hnot Hnd']; subst. constructor.
  - intros Hin. apply in_map_iff in Hin as (ip' & Heq & Hin').
    apply Hnot. apply in_map_iff. exists ip'. split; [|assumption].
    apply (@append_cancel_l "1 1 9042 ") in Heq.
    apply hostname_from_private_ip_injective in Heq; auto.
    + apply Hdash. now right.
    + apply Hdash. now left.
  - apply IH; [assumption|]. intros ip' Hin. apply Hdash. now right.
Qed.

Lemma split_once_entry k v :
  has_equals k = false -> split_once (k ++ "=" ++ v) = Some (k, v).
Proof.
  induction k as [|c k IH]; intros H; simpl in *; [reflexivity|].
  apply orb_false_elim in H as [Hc Hk].
  rewrite Hc, (IH Hk). reflexivity.
Qed.

Lemma split_once_has_equals s :
  has_equals s = match split_once s with Some _ => true | None => false end.
Proof.
  induction s as [|c s IH]; simpl; [reflexivity|].
  destruct (Ascii.eqb c "="); [reflexivity|]. simpl. rewrite IH.
  now destruct (split_once s) as [[k v]|].
Qed.

Lemma environment_dict_none entries :
  fold_left
    (fun acc x =>
       match acc, split_once x with
       | Some d, Some (k, v) => Some (Dict.set k v d)
       | _, _ => None
       end)
    entries None = None.
Proof. induction entries as [|x l IH]; simpl; auto. Qed.

Lemma environment_dict_checked entries : forall acc,
  fold_left
    (fun acc x =>
       match acc, split_once x with
       | Some d, Some (k, v) => Some (Dict.set k v d)
       | _, _ => None
       end)
    entries (Some acc) <> None
  <-> forallb has_equals entries = true.
Proof.
  induction entries as [|x l IH]; intros acc; simpl.
  - split; [reflexivity|discriminate].
  - rewrite split_once_has_equals.
    destruct (split_once x) as [[k v]|]; simpl.
    + apply IH.
    + rewrite environment_dict_none. split; [congruence|discriminate].
Qed.

Lemma environment_dict_entries (d : Dict.t string) : forall acc,
  NoDup (Dict.keys acc ++ Dict.keys d) ->
  (forall k, In k (Dict.keys d) -> has_equals k = false) ->
  fold_left
    (fun acc x =>
       match acc, split_once x with
       | Some d, Some (k, v) => Some (Dict.set k v d)
       | _, _ => None
       end)
    (map environment_entry d) (Some acc) = Some (acc ++ d).
Proof.
  induction d as [|[k v] d IH]; intros acc Hnd Hkeys; cbn [map fold_left].
  - now rewrite app_nil_r.
  - change (environment_entry (k, v)) with (k ++ "=" ++ v)%string.
    rewrite split_once_entry by (apply Hkeys; now left).
    rewrite set_fresh.
    + rewrite IH.
      * now rewrite <- app_assoc.
      * unfold Dict.keys in *. rewrite map_app. simpl.
        rewrite <- app_assoc. exact Hnd.
      * intros k' Hk'. apply Hkeys. now right.
    + simpl in Hnd. apply NoDup_remove_2 in Hnd. intros Hin. apply Hnd.
      apply in_or_app. now left.
Qed.

(** X3. The [--environment] entries are read back as they were written: from
    the entries [key=value] of a dictionary whose keys hold no "=",
    [read_environment] succeeds and builds that dictionary, values with "="
    included. *)
Theorem environment_round_trip (options : Options) (d : Dict.t string)
    (s : Store) (h : History) :
  environment options = map environment_entry d ->
  NoDup (Dict.keys d) ->
  (forall k, In k (Dict.keys d) -> has_equals k = false) ->
  environment_dict (environment options) = Some d
  /\ read_environment options s h = (Return tt, s, []).
Proof.
  intros Henv Hnd Hkeys.
  assert (Hdict : environment_dict (environment options) = Some d).
  { rewrite Henv. unfold environment_dict.
    now rewrite environment_dict_entries. }
  split; [exact Hdict|].
  unfold read_environment.
  destruct (forallb has_equals (environment options)) eqn:E; [reflexivity|].
  exfalso. assert (Hsome : environment_dict (environment options) <> None)
    by congruence.
  unfold environment_dict in Hsome.
  apply environment_dict_checked in Hsome. congruence.
Qed.

(** [read_environment] fails exactly where [dict] would. *)
Lemma read_environment_value_error (options : Options) (s : Store)
    (h : History) :
  read_environment options s h
  = match environment_dict (environment options) with
    | Some _ => (Return tt, s, [])
    | None => (Raise ValueError, s, [])
    end.
Proof.
  unfold read_environment.
  destruct (environment_dict (environment options)) as [d|] eqn:E.
  - assert (H : environment_dict (environment options) <> None) by congruence.
    unfold environment_dict in H. apply environment_dict_checked in H.
    now rewrite H.
  - destruct (forallb has_equals (environment options)) eqn:F; [|reflexivity].
    apply (environment_dict_checked _ (Dict.empty string)) in F.
    unfold environment_dict in E. contradiction.
Qed.

(** ** The order of strings and [sorted] *)

Lemma string_compare_le_trans a : forall b c,
  String.compare a b <> Gt -> String.compare b c <> Gt ->
  String.compare a c <> Gt.
Proof.
  induction a as [|x a IH]; intros [|y b] [|z c]; simpl; try congruence.
  unfold Ascii.compare.
  destruct (N.compare_spec (N_of_ascii x) (N_of_ascii y)) as [Hxy|Hxy|Hxy];
    destruct (N.compare_spec (N_of_ascii y) (N_of_ascii z)) as [Hyz|Hyz|Hyz];
    destruct (N.compare_spec (N_of_ascii x) (N_of_ascii z)) as [Hxz|Hxz|Hxz];
    intros H1 H2; try congruence; try lia.
  eapply IH; eassumption.
Qed.

Lemma string_leb_trans a b c :
  String.leb a b = true -> String.leb b c = true -> String.leb a c = true.
Proof.
  unfold String.leb. intros H1 H2.
  assert (H : String.compare a c <> Gt).
  { apply string_compare_le_trans with b.
    - destruct (String.compare a b); congruence.
    - destruct (String.compare b c); congruence. }
  destruct (String.compare a c); congruence.
Qed.

Lemma string_leb_refl a : String.leb a a = true.
Proof. destruct (String.leb_total a a); assumption. Qed.

Section SortedFacts.
Variable X : Type.
Variable key : X -> string.

Lemma insert_by_key_in x y l :
  In y (insert_by_key key x l) <-> y = x \/ In y l.
Proof.
  induction l as [|z l IH]; simpl.
  - intuition.
  - destruct (String.leb (key x) (key z)); simpl; [intuition|].
    rewrite IH. intuition.
Qed.

Lemma sorted_by_key_in y l : In y (sorted_by_key key l) <-> In y l.
Proof.
  induction l as [|x l IH]; simpl; [tauto|].
  rewrite insert_by_key_in, IH. intuition.
Qed.

Lemma insert_by_key_length x l :
  List.length (insert_by_key key x l) = S (List.length l).
Proof.
  induction l as [|z l IH]; simpl; [reflexivity|].
  destruct (String.leb (key x) (key z)); simpl; congruence.
Qed.

Lemma sorted_by_key_length l :
  List.length (sorted_by_key key l) = List.length l.
Proof.
  induction l as [|x l IH]; simpl; [reflexivity|].
  now rewrite insert_by_key_length, IH.
Qed.

Lemma insert_by_key_ascending x l :
  ascending (key_le key) l -> ascending (key_le key) (insert_by_key key x l).
Proof.
  induction l as [|z l IH]; simpl.
  - intros _. split; [constructor|exact I].
  - intros [Hz Hl]. destruct (String.leb (key x) (key z)) eqn:E; simpl.
    + split; [|now split]. constructor; [exact E|].
      eapply Forall_impl; [|exact Hz]. intros w Hw.
      unfold key_le in *. now apply string_leb_trans with (key z).
    + split; [|now apply IH].
      apply Forall_forall. intros w Hw.
      apply insert_by_key_in in Hw as [->|Hw].
      * unfold key_le.
        destruct (String.leb_total (key x) (key z)); congruence.
      * rewrite Forall_forall in Hz. now apply Hz.
Qed.

Lemma sorted_by_key_ascending l :
  ascending (key_le key) (sorted_by_key key l).
Proof.
  induction l as [|x l IH]; simpl; [exact I|].
  now apply insert_by_key_ascending.
Qed.

Lemma ascending_last_greatest l x rest :
  ascending (key_le key) l -> rev l = x :: rest ->
  forall y, In y l -> key_le key y x.
Proof.
  intros Hs Hrev.
  assert (Hl : l = rev rest ++ [x]).
  { rewrite <- (rev_involutive l), Hrev. reflexivity. }
  subst l. clear Hrev. induction (rev rest) as [|z l IH]; simpl in *.
  - intros y [->|[]]. apply string_leb_refl.
  - destruct Hs as [Hz Hs].
    intros y [->|Hy]; [|now apply IH].
    rewrite Forall_forall in Hz. apply Hz. apply in_or_app. right. now left.
Qed.
End SortedFacts.
(** ** The image lookup *)

Section Images.
Variable cloud : Cloud.
Variable images : Region -> list Image.

Lemma latest_image_some imgs :
  imgs <> [] -> exists image rest,
    rev (sorted_by_key image_name imgs) = image :: rest.
Proof.
  intros Hne. destruct (rev (sorted_by_key image_name imgs)) as [|x l] eqn:E.
  - apply (f_equal (@List.length _)) in E.
    rewrite length_rev, sorted_by_key_length in E.
    destruct imgs; [congruence|discriminate].
  - now exists x, l.
Qed.

Lemma latest_image_greatest imgs image :
  latest_image imgs = Some image ->
  In image imgs /\ forall other, In other imgs -> key_le image_name other image.
Proof.
  unfold latest_image. intros H.
  destruct (rev (sorted_by_key image_name imgs)) as [|x l] eqn:E;
    [discriminate|].
  inversion H; subst x. split.
  - apply (sorted_by_key_in image_name). apply in_rev. rewrite E. now left.
  - intros other Hin.
    eapply ascending_last_greatest;
      [apply sorted_by_key_ascending|exact E|].
    now apply sorted_by_key_in.
Qed.

(** One turn of the loop over the regions, for a region with images and
    for a region without. *)
Lemma find_taupage_amis_turn region rest acc s h :
  describe_images cloud h region = inr (images region) ->
  fold_each (region :: rest) acc
    (fun result region =>
       imgs <- request (DescribeImages region)
                 (fun h => describe_images cloud h region) ;;
       match imgs with
       | [] => raise (Exception_ "No Taupage AMI found")
       | _ :: _ =>
           most_recent_image <-
             index_last (sorted_by_key image_name imgs) ;;
           ret (Dict.set region most_recent_image result)
       end) s h
  = match latest_image (images region) with
    | None =>
        (Raise (Exception_ "No Taupage AMI found"), s,
         [DescribeImages region])
    | Some image =>
        match
          fold_each rest (Dict.set region image acc)
            (fun result region =>
               imgs <- request (DescribeImages region)
                         (fun h => describe_images cloud h region) ;;
               match imgs with
               | [] => raise (Exception_ "No Taupage AMI found")
               | _ :: _ =>
                   most_recent_image <-
                     index_last (sorted_by_key image_name imgs) ;;
                   ret (Dict.set region most_recent_image result)
               end) s (h ++ [DescribeImages region])
        with
        | (r, s', ev) => (r, s', DescribeImages region :: ev)
        end
    end.
Proof.
  intros Hsteady. cbn [fold_each].
  rewrite bind_assoc, bind_request, Hsteady.
  destruct (images region) as [|x l] eqn:E.
  - reflexivity.
  - destruct (@latest_image_some (x :: l)) as (image & others & Hrev);
      [discriminate|].
    unfold latest_image. rewrite Hrev. cbn [hd_error].
    rewrite bind_assoc. unfold index_last. rewrite Hrev.
    rewrite bind_ret, bind_ret. reflexivity.
Qed.

Lemma latest_image_none imgs : latest_image imgs = None <-> imgs = [].
Proof.
  split.
  - intros H. destruct imgs as [|x l]; [reflexivity|].
    destruct (@latest_image_some (x :: l)) as (image & others & Hrev);
      [discriminate|].
    unfold latest_image in H. now rewrite Hrev in H.
  - intros ->. reflexivity.
Qed.

Lemma find_taupage_amis_all regions :
  (forall region h, In region regions ->
     describe_images cloud h region = inr (images region)) ->
  (forall region, In region regions -> images region <> []) ->
  forall acc s h,
  exists amis,
    fold_each regions acc
      (fun result region =>
         imgs <- request (DescribeImages region)
                   (fun h => describe_images cloud h region) ;;
         match imgs with
         | [] => raise (Exception_ "No Taupage AMI found")
         | _ :: _ =>
             most_recent_image <-
               index_last (sorted_by_key image_name imgs) ;;
             ret (Dict.set region most_recent_image result)
         end) s h
    = (Return amis, s, map DescribeImages regions)
    /\ (forall region, In region regions ->
          Dict.get region amis = latest_image (images region))
    /\ (forall region, ~ In region regions ->
          Dict.get region amis = Dict.get region acc).
Proof.
  intros Hsteady Hsome.
  induction regions as [|region rest IH]; intros acc s h.
  - exists acc. split; [reflexivity|]. split; [intros ? []|auto].
  - rewrite find_taupage_amis_turn by (apply Hsteady; now left).
    destruct (latest_image (images region)) as [image|] eqn:Hlatest.
    2:{ apply latest_image_none in Hlatest.
        exfalso. apply (Hsome region); [now left|assumption]. }
    destruct (IH (fun r h' Hr => Hsteady r h' (or_intror Hr))
                 (fun r Hr => Hsome r (or_intror Hr))
                 (Dict.set region image acc) s (h ++ [DescribeImages region]))
      as (amis & Hrun & Hin & Hout).
    exists amis. rewrite Hrun. split; [reflexivity|]. split.
    + intros r Hr. destruct (in_dec string_dec r rest) as [Hrest|Hrest].
      * now apply Hin.
      * destruct Hr as [->|Hr]; [|contradiction].
        rewrite Hout by assumption.
        rewrite DictFacts.get_set_same. now symmetry.
    + intros r Hr. rewrite Hout by (intros Hx; apply Hr; now right).
      apply DictFacts.get_set_other. intros ->. apply Hr. now left.
Qed.
End Images.

(** X4. With images in every region, [find_taupage_amis] asks each region
    once, in order, and returns for every region an image of that region
    whose name is the greatest: the most recent Taupage image. *)
Theorem find_taupage_amis_latest
    (cloud : Cloud) (images : Region -> list Image) (regions : list Region)
    (s : Store) (h : History) :
  (forall region h, In region regions ->
     describe_images cloud h region = inr (images region)) ->
  (forall region, In region regions -> images region <> []) ->
  exists amis,
    find_taupage_amis cloud regions s h
    = (Return amis, s, map DescribeImages regions)
    /\ forall region, In region regions ->
         exists image,
           Dict.get region amis = Some image
           /\ In image (images region)
           /\ forall other, In other (images region) ->
                String.leb (image_name other) (image_name image) = true.
Proof.
  intros Hsteady Hsome.
  destruct (@find_taupage_amis_all cloud images regions Hsteady Hsome
              (Dict.empty Image) s h) as (amis & Hrun & Hin & _).
  exists amis. split; [exact Hrun|].
  intros region Hregion. rewrite (Hin region Hregion).
  destruct (latest_image (images region)) as [image|] eqn:Hlatest.
  - exists image. split; [reflexivity|].
    now apply latest_image_greatest.
  - apply latest_image_none in Hlatest. now apply Hsome in Hlatest.
Qed.

(** X5. The lookup stops at the first region without an image: the regions
    before it are asked, it is asked, no later region is, and the run fails
    with 'No Taupage AMI found'. *)
Theorem find_taupage_amis_stops
    (cloud : Cloud) (images : Region -> list Image)
    (before : list Region) (region : Region) (after : list Region)
    (s : Store) (h : History) :
  (forall r h, In r (before ++ [region]) ->
     describe_images cloud h r = inr (images r)) ->
  (forall r, In r before -> images r <> []) ->
  images region = [] ->
  find_taupage_amis cloud (before ++ region :: after) s h
  = (Raise (Exception_ no_image_message), s,
     map DescribeImages (before ++ [region])).
Proof.
  intros Hsteady Hsome Hnone. unfold find_taupage_amis.
  generalize (Dict.empty Image) as acc. revert s h.
  induction before as [|r before IH]; intros s h acc; cbn [app].
  - rewrite (@find_taupage_amis_turn cloud images)
      by (apply Hsteady; now left).
    assert (Hlatest : latest_image (images region) = None)
      by now apply latest_image_none.
    rewrite Hlatest. reflexivity.
  - rewrite (@find_taupage_amis_turn cloud images)
      by (apply Hsteady; now left).
    destruct (latest_image (images r)) as [image|] eqn:Hlatest.
    2:{ apply latest_image_none in Hlatest.
        exfalso. apply (Hsome r); [now left|assumption]. }
    rewrite IH.
    + reflexivity.
    + intros r' h' Hr'. apply Hsteady. now right.
    + intros r' Hr'. apply Hsome. now right.
Qed.
(** ** The subnet lookup *)

Lemma fold_left_repeat_commute {D X} (f : D -> X -> D) x n : forall d,
  fold_left f (repeat x n) (f d x) = f (fold_left f (repeat x n) d) x.
Proof. induction n as [|n IH]; intros d; simpl; [reflexivity|apply IH]. Qed.

Lemma appends_repeat region (subnet : Subnet) n d :
  fold_right (fun _ d => Dict.append region subnet d) d (repeat tt n)
  = fold_left (fun d x => Dict.append region x d) (repeat subnet n) d.
Proof.
  induction n as [|n IH]; simpl; [reflexivity|].
  rewrite IH. symmetry.
  apply (fold_left_repeat_commute (fun d x => Dict.append region x d)).
Qed.

Lemma existsb_sorted_by_key {X} key (p : X -> bool) l :
  existsb p (sorted_by_key key l) = existsb p l.
Proof.
  apply eq_true_iff_eq. rewrite !existsb_exists.
  split; intros (x & Hin & Hp); exists x; split; auto;
    now apply (sorted_by_key_in key).
Qed.

Section Kept.
Variable X : Type.
Variable le : X -> X -> Prop.
Hypothesis le_refl : forall x, le x x.

Lemma ascending_app l1 l2 :
  ascending le l1 -> ascending le l2 ->
  (forall x y, In x l1 -> In y l2 -> le x y) ->
  ascending le (l1 ++ l2).
Proof.
  induction l1 as [|x l1 IH]; simpl; [auto|].
  intros [Hx H1] H2 Hcross. split.
  - apply Forall_app. split; [assumption|].
    apply Forall_forall. intros y Hy. apply Hcross; auto.
  - apply IH; auto.
Qed.

Lemma ascending_repeat x n : ascending le (repeat x n).
Proof.
  induction n as [|n IH]; simpl; [exact I|]. split; [|assumption].
  apply Forall_forall. intros y Hy. apply repeat_spec in Hy. now subst y.
Qed.

Lemma ascending_copies (copies : X -> nat) l :
  ascending le l ->
  ascending le (flat_map (fun x => repeat x (copies x)) l).
Proof.
  induction l as [|x l IH]; simpl; [auto|].
  intros [Hx Hl]. apply ascending_app.
  - apply ascending_repeat.
  - now apply IH.
  - intros a b Ha Hb. apply repeat_spec in Ha. subst a.
    apply in_flat_map in Hb as (z & Hz & Hb).
    apply repeat_spec in Hb. subst b.
    rewrite Forall_forall in Hx. now apply Hx.
Qed.
End Kept.

Lemma selected_copies prefix_filter subnets :
  selected prefix_filter subnets
  = flat_map (fun subnet => repeat subnet (copies_kept prefix_filter subnet))
      (sorted_by_key AvailabilityZone subnets).
Proof.
  unfold selected, copies_kept. apply flat_map_ext. intros subnet.
  now destruct (Tags subnet).
Qed.

Lemma selected_ascending prefix_filter subnets :
  ascending (key_le AvailabilityZone) (selected prefix_filter subnets).
Proof.
  rewrite selected_copies. apply ascending_copies.
  - intros x. apply string_leb_refl.
  - apply sorted_by_key_ascending.
Qed.

Lemma selected_in prefix_filter subnets subnet :
  In subnet (selected prefix_filter subnets) <->
  In subnet subnets
  /\ exists tags, Tags subnet = Some tags
       /\ matching_tags prefix_filter tags <> 0.
Proof.
  unfold selected. rewrite in_flat_map. split.
  - intros (x & Hx & Hin). apply sorted_by_key_in in Hx.
    destruct (Tags x) as [tags|] eqn:E; [|contradiction].
    apply repeat_spec in Hin as Heq. subst x. split; [assumption|].
    exists tags. split; [assumption|]. intros H0. now rewrite H0 in Hin.
  - intros (Hin & tags & Htags & Hn). exists subnet.
    split; [now apply sorted_by_key_in|]. rewrite Htags.
    destruct (matching_tags prefix_filter tags); [congruence|now left].
Qed.

Section Subnets.
Variable cloud : Cloud.
Variable prefix_filter : string.
Variable answer : Region -> list Subnet.

(** The inner loop, over the sorted subnets of one region. *)
Lemma get_subnets_region region l : forall d s h,
  fold_each l d
    (fun subnets subnet =>
       match Tags subnet with
       | None => raise (KeyError "Tags")
       | Some tags =>
           ret (fold_right (fun _ d => Dict.append region subnet d) subnets
                  (repeat tt (matching_tags prefix_filter tags)))
       end) s h
  = if existsb untagged l
    then (Raise (KeyError "Tags"), s, [])
    else
      (Return
         (fold_left (fun d x => Dict.append region x d)
            (flat_map
               (fun subnet => repeat subnet (copies_kept prefix_filter subnet))
               l) d), s, []).
Proof.
  induction l as [|subnet l IH]; intros d s h; cbn [fold_each existsb flat_map].
  - reflexivity.
  - unfold untagged at 1, copies_kept at 1.
    destruct (Tags subnet) as [tags|].
    + rewrite bind_ret, IH. cbn [orb].
      destruct (existsb untagged l); [reflexivity|].
      now rewrite fold_left_app, appends_repeat.
    + reflexivity.
Qed.

Lemma all_tagged_existsb region :
  all_tagged answer region -> existsb untagged (answer region) = false.
Proof.
  intros H. destruct (existsb untagged (answer region)) eqn:E; [|reflexivity].
  apply existsb_exists in E as (subnet & Hin & Hun).
  unfold untagged in Hun. specialize (H subnet Hin).
  destruct (Tags subnet); [discriminate|congruence].
Qed.

Lemma get_subnets_turn region rest d s h :
  describe_subnets cloud h region = inr (answer region) ->
  fold_each (region :: rest) d
    (fun subnets region =>
       resp <- request (DescribeSubnets region)
                 (fun h => describe_subnets cloud h region) ;;
       let sorted_subnets := sorted_by_key AvailabilityZone resp in
       fold_each sorted_subnets subnets (fun subnets subnet =>
         match Tags subnet with
         | None => raise (KeyError "Tags")
         | Some tags =>
             ret (fold_right (fun _ d => Dict.append region subnet d) subnets
                    (repeat tt (matching_tags prefix_filter tags)))
         end)) s h
  = if existsb untagged (answer region)
    then (Raise (KeyError "Tags"), s, [DescribeSubnets region])
    else
      match
        fold_each rest (gathered prefix_filter answer [region] d)
          (fun subnets region =>
             resp <- request (DescribeSubnets region)
                       (fun h => describe_subnets cloud h region) ;;
             let sorted_subnets := sorted_by_key AvailabilityZone resp in
             fold_each sorted_subnets subnets (fun subnets subnet =>
               match Tags subnet with
               | None => raise (KeyError "Tags")
               | Some tags =>
                   ret (fold_right (fun _ d => Dict.append region subnet d)
                          subnets
                          (repeat tt (matching_tags prefix_filter tags)))
               end)) s (h ++ [DescribeSubnets region])
      with
      | (r, s', ev) => (r, s', DescribeSubnets region :: ev)
      end.
Proof.
  intros Hsteady. cbn [fold_each].
  rewrite bind_assoc, bind_request, Hsteady. cbv zeta.
  unfold bind at 1. rewrite get_subnets_region.
  rewrite existsb_sorted_by_key.
  destruct (existsb untagged (answer region)); [reflexivity|].
  rewrite app_nil_r. unfold gathered. cbn [fold_left].
  rewrite selected_copies. cbn [app].
  destruct (fold_each rest _ _ s (h ++ [DescribeSubnets region]))
    as [[r s'] ev].
  reflexivity.
Qed.
End Subnets.

(** *** What the gathered dictionary holds *)

Section Gathered.
Variable prefix_filter : string.
Variable answer : Region -> list Subnet.

Lemma gathered_cons region rest d :
  gathered prefix_filter answer (region :: rest) d
  = gathered prefix_filter answer rest
      (gathered prefix_filter answer [region] d).
Proof. reflexivity. Qed.

Lemma gathered_get_list regions : forall d region,
  Dict.get_list region (gathered prefix_filter answer regions d)
  = Dict.get_list region d
    ++ flat_map
         (fun r =>
            if String.eqb r region
            then selected prefix_filter (answer r) else [])
         regions.
Proof.
  induction regions as [|r rest IH]; intros d region.
  - simpl. now rewrite app_nil_r.
  - rewrite gathered_cons, IH. cbn [flat_map]. rewrite app_assoc. f_equal.
    unfold gathered. cbn [fold_left].
    destruct (String.eqb r region) eqn:E.
    + apply String.eqb_eq in E. subst r. apply get_list_appends_same.
    + apply String.eqb_neq in E. rewrite app_nil_r.
      now apply get_list_appends_other.
Qed.

Lemma filled_append region x d :
  filled d -> filled (Dict.append region x d).
Proof.
  intros [Hnd Hkeys]. unfold Dict.append.
  destruct (in_dec string_dec region (Dict.keys d)) as [Hin|Hout].
  - split.
    + now rewrite DictFacts.keys_set_present.
    + intros k. rewrite DictFacts.keys_set_present by assumption.
      destruct (string_dec region k) as [->|Hne].
      * unfold Dict.get_list at 1. rewrite DictFacts.get_set_same.
        split; [intros _|auto]. now destruct (Dict.get_list k d).
      * unfold Dict.get_list at 1.
        rewrite DictFacts.get_set_other by assumption. apply Hkeys.
  - split.
    + rewrite DictFacts.keys_set_absent by assumption.
      apply NoDup_app; [assumption|repeat constructor; auto|].
      intros k Hk [<-|[]]. contradiction.
    + intros k. rewrite DictFacts.keys_set_absent by assumption.
      rewrite in_app_iff.
      destruct (string_dec region k) as [->|Hne].
      * unfold Dict.get_list at 1. rewrite DictFacts.get_set_same.
        split; [intros _|intros _; right; now left].
        now destruct (Dict.get_list k d).
      * unfold Dict.get_list at 1.
        rewrite DictFacts.get_set_other by assumption.
        rewrite <- (Hkeys k). simpl. intuition.
Qed.

Lemma filled_appends region xs : forall d,
  filled d -> filled (fold_left (fun d x => Dict.append region x d) xs d).
Proof.
  induction xs as [|x xs IH]; intros d Hd; simpl; [assumption|].
  apply IH. now apply filled_append.
Qed.

Lemma gathered_filled regions : forall d,
  filled d -> filled (gathered prefix_filter answer regions d).
Proof.
  induction regions as [|r rest IH]; intros d Hd; [assumption|].
  rewrite gathered_cons. apply IH. unfold gathered. cbn [fold_left].
  now apply filled_appends.
Qed.

Lemma flat_map_single_region regions region :
  NoDup regions -> In region regions ->
  flat_map
    (fun r =>
       if String.eqb r region then selected prefix_filter (answer r) else [])
    regions
  = selected prefix_filter (answer region).
Proof.
  induction regions as [|r rest IH]; intros Hnd Hin; [contradiction|].
  inversion Hnd as [|? ? Hnot Hnd']; subst. cbn [flat_map].
  destruct (String.eqb r region) eqn:E.
  - apply String.eqb_eq in E. subst r.
    rewrite <- (app_nil_r (selected prefix_filter (answer region))) at 2.
    f_equal. clear IH Hin Hnd Hnd'.
    induction rest as [|r rest IH]; [reflexivity|]. cbn [flat_map].
    destruct (String.eqb r region) eqn:E.
    + apply String.eqb_eq in E. subst r. exfalso. apply Hnot. now left.
    + apply IH. intros H. apply Hnot. now right.
  - apply String.eqb_neq in E. destruct Hin as [->|Hin]; [congruence|].
    now apply IH.
Qed.
End Gathered.

Section SubnetRuns.
Variable cloud : Cloud.
Variable prefix_filter : string.
Variable answer : Region -> list Subnet.

Lemma get_subnets_all regions :
  (forall region h, In region regions ->
     describe_subnets cloud h region = inr (answer region)) ->
  (forall region, In region regions -> all_tagged answer region) ->
  forall d s h,
    fold_each regions d
      (fun subnets region =>
         resp <- request (DescribeSubnets region)
                   (fun h => describe_subnets cloud h region) ;;
         let sorted_subnets := sorted_by_key AvailabilityZone resp in
         fold_each sorted_subnets subnets (fun subnets subnet =>
           match Tags subnet with
           | None => raise (KeyError "Tags")
           | Some tags =>
               ret (fold_right (fun _ d => Dict.append region subnet d)
                      subnets
                      (repeat tt (matching_tags prefix_filter tags)))
           end)) s h
    = (Return (gathered prefix_filter answer regions d), s,
       map DescribeSubnets regions).
Proof.
  intros Hsteady Htagged.
  induction regions as [|region rest IH]; intros d s h; [reflexivity|].
  rewrite (@get_subnets_turn cloud prefix_filter answer)
    by (apply Hsteady; now left).
  rewrite all_tagged_existsb by (apply Htagged; now left).
  rewrite IH.
  - reflexivity.
  - intros r h' Hr. apply Hsteady. now right.
  - intros r Hr. apply Htagged. now right.
Qed.
End SubnetRuns.

(** X6. With every subnet tagged, [get_subnets] asks each region once and
    returns a dictionary without repeated keys that holds, for a region, the
    subnets whose 'Name' tag starts with the prefix, by availability zone. A
    region is a key exactly when it has such a subnet: a region without one
    is left out. *)
Theorem get_subnets_selects
    (cloud : Cloud) (prefix_filter : string)
    (answer : Region -> list Subnet) (regions : list Region)
    (s : Store) (h : History) :
  (forall region h, In region regions ->
     describe_subnets cloud h region = inr (answer region)) ->
  (forall region, In region regions -> all_tagged answer region) ->
  NoDup regions ->
  exists subnets,
    get_subnets cloud prefix_filter regions s h
    = (Return subnets, s, map DescribeSubnets regions)
    /\ NoDup (Dict.keys subnets)
    /\ (forall region, In region regions ->
          Dict.get_list region subnets
          = selected prefix_filter (answer region))
    /\ (forall region,
          In region (Dict.keys subnets) <->
          In region regions
          /\ selected prefix_filter (answer region) <> [])
    /\ (forall region,
          ascending (key_le AvailabilityZone)
            (Dict.get_list region subnets)).
Proof.
  intros Hsteady Htagged Hnd.
  exists (gathered prefix_filter answer regions (Dict.empty _)).
  assert (Hfilled : filled
            (gathered prefix_filter answer regions (Dict.empty _))).
  { apply gathered_filled. split; [constructor|].
    intros k. simpl. tauto. }
  assert (Hlist : forall region, In region regions ->
            Dict.get_list region
              (gathered prefix_filter answer regions (Dict.empty _))
            = selected prefix_filter (answer region)).
  { intros region Hin. rewrite gathered_get_list. simpl.
    now apply flat_map_single_region. }
  assert (Hother : forall region, ~ In region regions ->
            Dict.get_list region
              (gathered prefix_filter answer regions (Dict.empty _)) = []).
  { intros region Hout. rewrite gathered_get_list. simpl.
    clear - Hout. induction regions as [|r rest IH]; [reflexivity|].
    cbn [flat_map]. destruct (String.eqb r region) eqn:E.
    - apply String.eqb_eq in E. subst r. exfalso. apply Hout. now left.
    - apply IH. intros H. apply Hout. now right. }
  split; [now apply get_subnets_all|]. split; [apply Hfilled|].
  split; [exact Hlist|]. split.
  - intros region. destruct Hfilled as [_ Hkeys]. rewrite Hkeys.
    destruct (in_dec string_dec region regions) as [Hin|Hout].
    + rewrite Hlist by assumption. tauto.
    + rewrite Hother by assumption. tauto.
  - intros region.
    destruct (in_dec string_dec region regions) as [Hin|Hout].
    + rewrite Hlist by assumption. apply selected_ascending.
    + rewrite Hother by assumption. exact I.
Qed.

(** X7. A subnet without tags stops [get_subnets]: the regions before are
    asked, the region of the subnet is asked, and the lookup of the tags
    raises KeyError. *)
Theorem get_subnets_untagged
    (cloud : Cloud) (prefix_filter : string)
    (answer : Region -> list Subnet)
    (before : list Region) (region : Region) (after : list Region)
    (subnet : Subnet) (s : Store) (h : History) :
  (forall r h, In r (before ++ [region]) ->
     describe_subnets cloud h r = inr (answer r)) ->
  (forall r, In r before -> all_tagged answer r) ->
  In subnet (answer region) -> Tags subnet = None ->
  get_subnets cloud prefix_filter (before ++ region :: after) s h
  = (Raise (KeyError "Tags"), s, map DescribeSubnets (before ++ [region])).
Proof.
  intros Hsteady Htagged Hin Hnone. unfold get_subnets.
  generalize (Dict.empty (list Subnet)) as d. revert s h.
  assert (Hun : existsb untagged (answer region) = true).
  { apply existsb_exists. exists subnet. split; [assumption|].
    unfold untagged. now rewrite Hnone. }
  induction before as [|r before IH]; intros s h d; cbn [app].
  - rewrite (@get_subnets_turn cloud prefix_filter answer)
      by (apply Hsteady; now left).
    now rewrite Hun.
  - rewrite (@get_subnets_turn cloud prefix_filter answer)
      by (apply Hsteady; now left).
    rewrite all_tagged_existsb by (apply Htagged; now left).
    rewrite IH.
    + reflexivity.
    + intros r' h' Hr'. apply Hsteady. now right.
    + intros r' Hr'. apply Htagged. now right.
Qed.
(** ** DNS records *)

(** X8. [setup_dns_records] takes the last zone of the answer that has
    exactly the name asked for and, with every change accepted, upserts one
    set of SRV records per region, in the order of the topology; when no
    zone of the answer has that name it fails after the lookup, with no
    change requested. *)
Theorem setup_dns_records_upserts
    (cloud : Cloud) (cluster_name hosted_zone : string)
    (zones : list HostedZone) (s : Store) (h : History) :
  list_hosted_zones_by_name cloud h hosted_zone = inr zones ->
  (forall h zone name records,
     change_resource_record_sets cloud h zone name records = inr tt) ->
  setup_dns_records cloud cluster_name hosted_zone s h
  = match last_zone_named hosted_zone zones with
    | Some zone =>
        (Return tt, s,
         ListHostedZonesByName hosted_zone
           :: dns_changes cluster_name hosted_zone zone (node_ips s))
    | None =>
        (Raise (Exception_ (no_zone_message ++ hosted_zone)), s,
         [ListHostedZonesByName hosted_zone])
    end.
Proof.
  intros Hzones Haccepted. unfold setup_dns_records.
  rewrite bind_request, Hzones. cbv zeta.
  rewrite (last_match_fold (fun z => String.eqb (zone_name z) hosted_zone)).
  fold (last_zone_named hosted_zone zones).
  destruct (last_zone_named hosted_zone zones) as [zone|]; [|reflexivity].
  rewrite bind_get_store.
  rewrite (@for_each_exact _ _ _
             (fun x =>
                [ChangeResourceRecordSets (zone_id zone)
                   ("_" ++ cluster_name ++ "-" ++ fst x ++ "._tcp."
                    ++ hosted_zone)
                   (make_dns_records (fst x) (snd x))])).
  - rewrite flat_map_single. unfold dns_changes. f_equal. f_equal.
    apply map_ext. now intros [region ips].
  - intros [region ips] h' _. unfold request. now rewrite Haccepted.
Qed.
(** ** The allocator at the edges of its input *)

Lemma allocate_in_region_without_quota cloud iter_hosts region subnets quota
    take_elastic_ips s h :
  (quota <= 0)%Z ->
  allocate_in_region cloud iter_hosts region subnets quota
    take_elastic_ips s h
  = match short_subnet iter_hosts subnets with
    | Some subnet =>
        (Raise (IpAddressPoolDepletedException (CidrBlock subnet)), s, [])
    | None => (Return tt, s, [])
    end.
Proof.
  intros Hquota. unfold allocate_in_region, generate_private_ip_addresses.
  cbv zeta. unfold bind at 1.
  rewrite (@skip_reserved_spec iter_hosts subnets s h subnets 0 eq_refl).
  unfold short_subnet.
  destruct (find (is_short iter_hosts) subnets); [reflexivity|].
  cbn [while_quota].
  destruct (Z.of_nat 0 <? quota)%Z eqn:E; [apply Z.ltb_lt in E; lia|].
  reflexivity.
Qed.

(** X9. With a quota of zero or less the allocator asks nothing and records
    nothing; it still skips the reserved head of every subnet, so a subnet
    with fewer than 10 hosts raises the exception all the same. With a
    positive quota and no subnet it fails on the modulus. *)
Theorem allocator_edge_inputs
    (cloud : Cloud) (iter_hosts : string -> list IpAddress)
    (region : Region) (subnets : list Subnet) (quota : Z)
    (take_elastic_ips : bool) (s : Store) (h : History) :
  ((quota <= 0)%Z ->
   allocate_in_region cloud iter_hosts region subnets quota
     take_elastic_ips s h
   = match short_subnet iter_hosts subnets with
     | Some subnet =>
         (Raise (IpAddressPoolDepletedException (CidrBlock subnet)), s, [])
     | None => (Return tt, s, [])
     end)
  /\ ((0 < quota)%Z ->
      allocate_in_region cloud iter_hosts region [] quota
        take_elastic_ips s h
      = (Raise ZeroDivisionError, s, [])).
Proof.
  split.
  - apply allocate_in_region_without_quota.
  - intros Hquota. unfold allocate_in_region, generate_private_ip_addresses.
    cbv zeta. cbn [map skip_reserved]. rewrite bind_ret.
    cbn [remaining fold_right while_quota].
    destruct (Z.of_nat 0 <? quota)%Z eqn:E; [|apply Z.ltb_ge in E; lia].
    reflexivity.
Qed.

(** ** Footprints of the allocator, for any consumer of the addresses *)

Section AnyConsumer.
Variable cloud : Cloud.
Variable ks : list EventKind.
Variable R : Store -> Store -> Prop.
Variable xs : list ExnKind.
Hypothesis HR : preorder R.
Hypothesis Hquery : In KDescribeInstancesByPrivateIp ks.
Hypothesis Hdepleted : In XPoolDepleted xs.
Hypothesis Hexternal : In XExternal xs.
Hypothesis Hzero : In XZeroDivision xs.
Hypothesis Hindex : In XIndex xs.
Variable region : Region.
Variable yield_ : IpAddress -> M unit.
Hypothesis Hyield : forall ip, obeys ks R xs (yield_ ip).

Lemma while_quota_obeys_any subnets quota fuel : forall i nips,
  obeys ks R xs (while_quota cloud region subnets quota yield_ fuel i nips).
Proof.
  induction fuel as [|fuel IH]; intros i nips; simpl.
  - now apply obeys_hang.
  - destruct (Z.of_nat i <? quota)%Z; [|now apply obeys_ret].
    apply obeys_bind; [assumption|now apply obeys_py_mod|intros idx].
    apply obeys_bind; [assumption|now apply obeys_index|intros ips].
    apply obeys_bind; [assumption|now apply obeys_index|intros subnet].
    apply obeys_bind; [assumption| |intros [ip rest]].
    { unfold try_next_address. destruct ips.
      - now apply obeys_raise.
      - now apply obeys_ret. }
    apply obeys_bind; [assumption|now apply obeys_request|intros resv].
    destruct resv; [|apply IH].
    apply obeys_bind; [assumption|apply Hyield|intros _; apply IH].
Qed.

Lemma generate_obeys_any iter_hosts subnets quota :
  obeys ks R xs
    (generate_private_ip_addresses cloud iter_hosts region subnets quota
       yield_).
Proof.
  unfold generate_private_ip_addresses. cbv zeta.
  apply obeys_bind; [assumption| |intros nips; apply while_quota_obeys_any].
  eapply obeys_weaken with (ks := []) (R := R)
    (xs := [XPoolDepleted; XIndex]).
  - intros k [].
  - auto.
  - intros x [<-|[<-|[]]]; assumption.
  - now apply skip_reserved_obeys.
Qed.
End AnyConsumer.

(** ** What the allocator records *)

Lemma keeps_preorder I : preorder (keeps I).
Proof. split; unfold keeps; auto. Qed.

Lemma in_get_list_append {X} region region' (a a' : X) d :
  In a' (Dict.get_list region' (Dict.append region a d)) ->
  In a' (Dict.get_list region' d) \/ (region' = region /\ a' = a).
Proof.
  destruct (string_dec region region') as [<-|Hne].
  - rewrite DictFacts.get_list_append_same. intros H.
    apply in_app_or in H as [H|[<-|[]]]; auto.
  - rewrite DictFacts.get_list_append_other by assumption. auto.
Qed.

Lemma allocate_one_well_addressed cloud region tk ip :
  obeys [KAllocateAddress] (keeps (all_recorded (well_addressed tk)))
    [XExternal] (allocate_one cloud region tk ip).
Proof.
  intros s h r s' ev. unfold allocate_one. destruct tk.
  - unfold bind at 1. rewrite bind_request.
    destruct (allocate_address cloud h region) as [x|[p a]].
    + intros H. inversion H; subst. split; [repeat constructor; kinds|].
      split; [apply keeps_preorder|]. intros e He. inversion He; subst.
      destruct x; kinds.
    + unfold ret at 1. simpl. intros H. inversion H; subst.
      split; [repeat constructor; kinds|]. split; [|discriminate].
      intros Hall region' a' Hin. simpl in Hin.
      apply in_get_list_append in Hin as [Hin|[_ ->]]; [eauto|].
      simpl. split; [reflexivity|discriminate].
  - rewrite bind_ret. intros H. inversion H; subst.
    split; [constructor|]. split; [|discriminate].
    intros Hall region' a' Hin. simpl in Hin.
    apply in_get_list_append in Hin as [Hin|[_ ->]]; [eauto|].
    simpl. auto.
Qed.

(** X10. Whatever the provider answers and however the allocation ends,
    every address it has recorded is well formed for its mode: in
    public-facing mode the default address is the routable address and its
    allocation is recorded; otherwise the default address is the private
    address and no routable address or allocation is recorded. *)
Theorem recorded_addresses_well_addressed
    (cloud : Cloud) (iter_hosts : string -> list IpAddress)
    (region_subnets : Dict.t (list Subnet)) (quota : Z)
    (take_elastic_ips : bool) (h : History)
    (r : Outcome unit) (s' : Store) (ev : list Event) :
  allocate_ip_addresses cloud iter_hosts region_subnets quota
    take_elastic_ips empty_store h = (r, s', ev) ->
  forall region a,
    In a (Dict.get_list region (node_ips s')) ->
    well_addressed take_elastic_ips a.
Proof.
  intros Hrun.
  assert (Hfp : obeys allocation_kinds
                  (keeps (all_recorded (well_addressed take_elastic_ips)))
                  allocation_exns
                  (allocate_ip_addresses cloud iter_hosts region_subnets
                     quota take_elastic_ips)).
  { unfold allocate_ip_addresses.
    apply obeys_for_each; [apply keeps_preorder|]. intros [region subnets].
    unfold allocate_in_region, allocation_kinds, allocation_exns.
    apply generate_obeys_any; try (apply keeps_preorder); try kinds.
    intros ip. eapply obeys_weaken; [| | |apply allocate_one_well_addressed];
      [included|auto|included]. }
  destruct (Hfp _ _ _ _ _ Hrun) as (_ & Hkeeps & _).
  apply Hkeeps. intros region a [].
Qed.
(** ** Requests that are answered for in the store *)

Section Accounts.
Variable G : History -> Event -> Store -> Prop.
Variable R : Store -> Store -> Prop.
Hypothesis HR : preorder R.
Hypothesis G_stays : forall h e s s', R s s' -> G h e s -> G h e s'.

Lemma answered_for_nil h s : answered_for G h [] s.
Proof. intros before e after H. now destruct before. Qed.

Lemma answered_for_one h e s : G h e s -> answered_for G h [e] s.
Proof.
  intros Hg before e' after H. destruct before as [|x before].
  - inversion H; subst. now rewrite app_nil_r.
  - inversion H. now destruct before.
Qed.

Lemma answered_for_app h e1 e2 s1 s' :
  answered_for G h e1 s1 -> R s1 s' -> answered_for G (h ++ e1) e2 s' ->
  answered_for G h (e1 ++ e2) s'.
Proof.
  intros H1 Hs H2 before e after Heq.
  apply app_eq_app in Heq. destruct Heq as [l [[-> Hl]|[-> Hl]]].
  - destruct l as [|x l].
    + rewrite app_nil_r in *. simpl in Hl. subst e2.
      specialize (H2 [] e after eq_refl). now rewrite app_nil_r in H2.
    + inversion Hl; subst. eapply G_stays; [exact Hs|].
      exact (H1 before x l eq_refl).
  - rewrite app_assoc. now apply (H2 l e after).
Qed.

Lemma accounts_ret {A} (a : A) : accounts G R (ret a).
Proof.
  intros s h r s' ev H. inversion H; subst.
  split; [apply HR|apply answered_for_nil].
Qed.

Lemma accounts_raise {A} e : accounts G R (@raise A e).
Proof.
  intros s h r s' ev H. inversion H; subst.
  split; [apply HR|apply answered_for_nil].
Qed.

Lemma accounts_bind {A B} (m : M A) (f : A -> M B) :
  accounts G R m -> (forall a, accounts G R (f a)) ->
  accounts G R (bind m f).
Proof.
  intros Hm Hf s h r s' ev H. apply bind_inv in H.
  destruct H as [(a & s1 & e1 & e2 & H1 & H2 & ->)
                |[(e & H1 & ->)|[H1 ->]]].
  - destruct (Hm _ _ _ _ _ H1) as (Hs1 & Ha1).
    destruct (Hf _ _ _ _ _ _ H2) as (Hs2 & Ha2).
    split; [destruct HR as [_ Ht]; exact (Ht _ _ _ Hs1 Hs2)|].
    now apply answered_for_app with s1.
  - now apply Hm in H1.
  - now apply Hm in H1.
Qed.

Lemma accounts_for_each {X} (l : list X) body :
  (forall x, accounts G R (body x)) -> accounts G R (for_each l body).
Proof.
  intros Hb. induction l as [|x l IH]; simpl.
  - apply accounts_ret.
  - apply accounts_bind; auto.
Qed.

Lemma accounts_try_except {A} (m : M A) handler :
  accounts G R m -> (forall e, accounts G R (handler e)) ->
  accounts G R (try_except m handler).
Proof.
  intros Hm Hh s h r s' ev H. unfold try_except in H.
  destruct (m s h) as [[[a|e|] s1] e1] eqn:Hrun.
  - inversion H; subst. now apply Hm in Hrun.
  - destruct (handler e s1 (h ++ e1)) as [[r2 s2] e2] eqn:Hrun2.
    inversion H; subst.
    destruct (Hm _ _ _ _ _ Hrun) as (Hs1 & Ha1).
    destruct (Hh _ _ _ _ _ _ Hrun2) as (Hs2 & Ha2).
    split; [destruct HR as [_ Ht]; exact (Ht _ _ _ Hs1 Hs2)|].
    now apply answered_for_app with s1.
  - inversion H; subst. now apply Hm in Hrun.
Qed.

(** A computation that issues none of the requests [G] speaks of. *)
Lemma accounts_of_obeys {A} ks xs (m : M A) :
  obeys ks R xs m ->
  (forall e, In (kind e) ks -> forall h s, G h e s) ->
  accounts G R m.
Proof.
  intros Hm Hfree s h r s' ev H.
  destruct (Hm _ _ _ _ _ H) as (Hk & Hs & _). split; [assumption|].
  intros before e after ->. apply Hfree.
  rewrite Forall_forall in Hk. apply Hk. apply in_or_app. right. now left.
Qed.
End Accounts.

(** *** The routable addresses *)

Lemma grows_preorder : preorder grows.
Proof. split; unfold grows; auto. Qed.

Lemma admits_groups_grows : admits_groups grows.
Proof. intros s region sg region' a Hin. exact Hin. Qed.

Lemma admits_addresses_grows tk : admits_addresses tk grows.
Proof.
  intros s region a _ region' a' Hin. simpl.
  destruct (string_dec region region') as [<-|Hne].
  - rewrite DictFacts.get_list_append_same. apply in_or_app. now left.
  - now rewrite DictFacts.get_list_append_other.
Qed.

#[global] Hint Resolve grows_preorder admits_groups_grows
  admits_addresses_grows : footprints.

Lemma grant_recorded_stays cloud h e s s' :
  grows s s' -> grant_recorded cloud h e s -> grant_recorded cloud h e s'.
Proof.
  intros Hgrows. destruct e; simpl; auto.
  intros H p a Hgrant. destruct (H p a Hgrant) as (x & Hin & Hp & Ha).
  exists x. auto.
Qed.

Section Grants.
Variable cloud : Cloud.

Lemma allocate_one_accounts region tk ip :
  accounts (grant_recorded cloud) grows (allocate_one cloud region tk ip).
Proof.
  intros s h r s' ev. unfold allocate_one. destruct tk.
  - unfold bind at 1. rewrite bind_request.
    destruct (allocate_address cloud h region) as [x|[p a]] eqn:Hans.
    + intros H. inversion H; subst. split; [apply grows_preorder|].
      apply answered_for_one. simpl. intros p a Hgrant. congruence.
    + unfold ret at 1. simpl. intros H. inversion H; subst.
      split; [now apply admits_addresses_grows with (tk := true)|].
      apply answered_for_one. simpl. intros p' a' Hgrant.
      rewrite Hans in Hgrant. inversion Hgrant; subst.
      eexists. rewrite DictFacts.get_list_append_same.
      split; [apply in_or_app; right; now left|]. split; reflexivity.
  - rewrite bind_ret. intros H. inversion H; subst.
    split; [now apply admits_addresses_grows with (tk := false)|].
    apply answered_for_nil.
Qed.

Lemma quiet_accounts {A} ks xs (m : M A) :
  obeys ks grows xs m -> ~ In KAllocateAddress ks ->
  accounts (grant_recorded cloud) grows m.
Proof.
  intros Hm Hks. eapply accounts_of_obeys; [exact Hm|].
  intros e He h s. destruct e; simpl; auto. simpl in He. contradiction.
Qed.

Lemma while_quota_accounts region subnets quota tk fuel : forall i nips,
  accounts (grant_recorded cloud) grows
    (while_quota cloud region subnets quota (allocate_one cloud region tk)
       fuel i nips).
Proof.
  pose proof grows_preorder as HR.
  pose proof (@grant_recorded_stays cloud) as Hstays.
  induction fuel as [|fuel IH]; intros i nips; simpl.
  - apply quiet_accounts with (ks := []) (xs := []); [|auto].
    now apply obeys_hang.
  - destruct (Z.of_nat i <? quota)%Z; [|now apply accounts_ret].
    apply accounts_bind; auto; [|intros idx].
    { apply quiet_accounts with (ks := []) (xs := [XZeroDivision]); [|auto].
      apply obeys_py_mod; [assumption|kinds]. }
    apply accounts_bind; auto; [|intros ips].
    { apply quiet_accounts with (ks := []) (xs := [XIndex]); [|auto].
      apply obeys_index; [assumption|kinds]. }
    apply accounts_bind; auto; [|intros subnet].
    { apply quiet_accounts with (ks := []) (xs := [XIndex]); [|auto].
      apply obeys_index; [assumption|kinds]. }
    apply accounts_bind; auto; [|intros [ip rest]].
    { apply quiet_accounts with (ks := []) (xs := [XPoolDepleted]); [|auto].
      footprint. }
    apply accounts_bind; auto; [|intros resv].
    { apply quiet_accounts with (ks := [KDescribeInstancesByPrivateIp])
        (xs := [XExternal]).
      - footprint.
      - simpl. intuition discriminate. }
    destruct resv; [|apply IH].
    apply accounts_bind; auto. apply allocate_one_accounts.
Qed.

Lemma allocate_ip_addresses_accounts iter_hosts region_subnets quota tk :
  accounts (grant_recorded cloud) grows
    (allocate_ip_addresses cloud iter_hosts region_subnets quota tk).
Proof.
  pose proof grows_preorder as HR.
  pose proof (@grant_recorded_stays cloud) as Hstays.
  unfold allocate_ip_addresses. apply accounts_for_each; auto.
  intros [region subnets].
  unfold allocate_in_region, generate_private_ip_addresses. cbv zeta.
  apply accounts_bind; auto; [|intros nips; apply while_quota_accounts].
  apply quiet_accounts with (ks := []) (xs := [XPoolDepleted; XIndex]);
    [|auto].
  now apply skip_reserved_obeys.
Qed.
End Grants.
Ltac track cloud :=
  lazymatch goal with
  | |- accounts _ _ (bind _ _) =>
      apply accounts_bind;
      [apply grows_preorder|apply grant_recorded_stays| |intros ?]
  | |- accounts _ _ (let _ := _ in _) => cbv zeta
  | |- accounts _ _ (raise _) => apply accounts_raise; apply grows_preorder
  | |- accounts _ _ (allocate_ip_addresses _ _ _ _ _) =>
      apply allocate_ip_addresses_accounts
  | |- accounts _ _ _ =>
      apply (@quiet_accounts cloud _ quiet_kinds any_exn);
      [unfold quiet_kinds, any_exn; footprint
      |unfold quiet_kinds; simpl; intuition discriminate]
  end.

Lemma create_cluster_guarded_accounts cloud iter_hosts poll_budget options :
  accounts (grant_recorded cloud) grows
    (create_cluster_guarded cloud iter_hosts poll_budget options).
Proof.
  pose proof grows_preorder as HR.
  pose proof admits_groups_grows as Hgroups.
  unfold create_cluster_guarded.
  apply accounts_try_except;
    [apply grows_preorder|apply grant_recorded_stays| |intros e].
  - unfold create_cluster_body. repeat (track cloud).
  - repeat (track cloud).
Qed.

(** X11. However a run of the try statement ends, rolled back or not, no
    routable address is forgotten: every address the provider granted is
    recorded, with its allocation, for a node of the region it was asked
    for. *)
Theorem granted_addresses_stay_recorded
    (cloud : Cloud) (iter_hosts : string -> list IpAddress)
    (poll_budget : nat) (options : Options) (s : Store) (h : History)
    (r : Outcome unit) (s' : Store) (ev : list Event) :
  create_cluster_guarded cloud iter_hosts poll_budget options s h
  = (r, s', ev) ->
  forall before region after public_ip allocation_id,
    ev = before ++ AllocateAddress region :: after ->
    allocate_address cloud (h ++ before) region
    = inr (public_ip, allocation_id) ->
    exists a,
      In a (Dict.get_list region (node_ips s'))
      /\ PublicIp a = Some public_ip
      /\ AllocationId a = Some allocation_id.
Proof.
  intros Hrun before region after public_ip allocation_id Hev Hgrant.
  apply create_cluster_guarded_accounts in Hrun. destruct Hrun as [_ Hall].
  exact (Hall before (AllocateAddress region) after Hev _ _ Hgrant).
Qed.
(** ** Access-control groups *)

Lemma split_cons {X} (x : X) l before e after :
  x :: l = before ++ e :: after ->
  (before = [] /\ e = x /\ after = l)
  \/ exists before', before = x :: before' /\ l = before' ++ e :: after.
Proof.
  destruct before as [|b before]; simpl; intros H; inversion H; subst.
  - left. auto.
  - right. now exists before.
Qed.

Lemma in_concat_values {X} region (d : Dict.t (list X)) x :
  In x (Dict.get_list region d) -> In x (List.concat (Dict.values d)).
Proof.
  intros H. apply get_list_in_items in H as (l & Hl & Hx).
  apply in_concat. exists l. split; [|assumption].
  unfold Dict.values. change l with (snd (region, l)). now apply in_map.
Qed.

Section SecurityGroups.
Variable cloud : Cloud.

(** The rules for the routable addresses. *)
Lemma cidr_rules_spec (l : list NodeAddress) : forall acc s h r s' ev,
  fold_each l acc
    (fun perms ip =>
       public_ip <- public_ip_of ip ;;
       ret (perms ++ [TcpFromCidr 7001 (public_ip ++ "/32")%string]))
    s h = (r, s', ev) ->
  s' = s /\ ev = []
  /\ forall perms, r = Return perms ->
       (forall x, In x acc -> In x perms)
       /\ (forall a public_ip, In a l -> PublicIp a = Some public_ip ->
             In (TcpFromCidr 7001 (public_ip ++ "/32")) perms)
       /\ (forall g, In (AllFromGroup g) perms -> In (AllFromGroup g) acc)
       /\ (forall rule, In rule perms ->
             In rule acc
             \/ exists a public_ip,
                  In a l /\ PublicIp a = Some public_ip
                  /\ rule = TcpFromCidr 7001 (public_ip ++ "/32")).
Proof.
  induction l as [|a l IH]; intros acc s h r s' ev; cbn [fold_each].
  - intros H. inversion H; subst. split; [reflexivity|].
    split; [reflexivity|]. intros perms Hp. inversion Hp; subst.
    split; [auto|]. split; [intros ? ? []|auto].
  - rewrite bind_assoc. unfold public_ip_of at 1.
    destruct (PublicIp a) as [p|] eqn:Hpub.
    + rewrite bind_ret, bind_ret. intros H. apply IH in H.
      destruct H as (-> & -> & Hperms). split; [reflexivity|].
      split; [reflexivity|]. intros perms Hp.
      destruct (Hperms perms Hp) as (Hacc & Hrules & Hall & Honly).
      split; [|split; [|split]].
      * intros x Hx. apply Hacc. apply in_or_app. now left.
      * intros a' p' [<-|Hin] Hp'; [|eauto].
        apply Hacc. apply in_or_app. right. left. congruence.
      * intros g Hg. apply Hall in Hg.
        apply in_app_or in Hg as [Hg|[Hg|[]]]; [assumption|discriminate].
      * intros rule Hrule. destruct (Honly rule Hrule) as [Hin|Hin].
        -- apply in_app_or in Hin as [Hin|[<-|[]]]; [now left|].
           right. exists a, p. split; [now left|auto].
        -- right. destruct Hin as (a' & p' & Ha' & Hp' & ->).
           exists a', p'. split; [now right|auto].
    + rewrite bind_raise. intros H. inversion H; subst.
      split; [reflexivity|]. split; [reflexivity|]. discriminate.
Qed.

Lemma add_odd_ingress_rule_spec region perms s h r s' ev :
  add_odd_ingress_rule cloud region perms s h = (r, s', ev) ->
  s' = s
  /\ ev = [DescribeSecurityGroups region odd_group_name]
  /\ forall perms', r = Return perms' ->
       perms' = perms \/ exists g, perms' = perms ++ [TcpFromGroup 22 g].
Proof.
  unfold add_odd_ingress_rule, try_except. rewrite bind_request.
  destruct (describe_security_groups cloud h region odd_group_name)
    as [x|groups].
  - destruct x as [code|what]; simpl; intros H; inversion H; subst;
      (split; [reflexivity|]); (split; [reflexivity|]).
    + intros p Hp. inversion Hp; subst. now left.
    + discriminate.
  - destruct groups as [|sg groups]; unfold index; simpl;
      intros H; inversion H; subst;
      (split; [reflexivity|]); (split; [reflexivity|]).
    + discriminate.
    + intros p Hp. inversion Hp; subst. right. now exists (GroupId sg).
Qed.

Lemma request_inv {A} e (answer : History -> ExternalError + A) s h
    (r : Outcome A) s' ev :
  request e answer s h = (r, s', ev) ->
  s' = s /\ ev = [e]
  /\ match r with
     | Return a => answer h = inr a
     | Raise x => exists y, answer h = inl y /\ x = external_exn y
     | Hang => False
     end.
Proof.
  unfold request. destruct (answer h) as [y|a]; intros H; inversion H; subst;
    (split; [reflexivity|]); (split; [reflexivity|]); eauto.
Qed.

(** What follows the creation of the group of [region]. *)
Lemma group_rules_spec (use_dmz : bool) cluster_name region sg s h r s' ev :
  (request (CreateTags region (GroupId sg) [mkTag "Name" cluster_name])
     (fun h => create_tags cloud h region (GroupId sg)
                 [mkTag "Name" cluster_name]) ;;
   ip_permissions <-
     (if use_dmz then
        s <- get_store ;;
        fold_each (List.concat (Dict.values (node_ips s))) []
          (fun perms ip =>
             public_ip <- public_ip_of ip ;;
             ret (perms ++ [TcpFromCidr 7001 (public_ip ++ "/32")%string]))
      else ret []) ;;
   let ip_permissions := ip_permissions ++ [AllFromGroup (GroupId sg)] in
   ip_permissions <- add_odd_ingress_rule cloud region ip_permissions ;;
   request (AuthorizeSecurityGroupIngress region (GroupId sg) ip_permissions)
     (fun h => authorize_security_group_ingress cloud h region (GroupId sg)
                 ip_permissions)) s h = (r, s', ev) ->
  s' = s /\ Forall (after_creation (node_ips s) use_dmz) ev.
Proof.
  assert (Hplain : forall e (l : list Event),
            kind e <> KCreateSecurityGroup ->
            kind e <> KAuthorizeSecurityGroupIngress ->
            Forall (after_creation (node_ips s) use_dmz) l ->
            Forall (after_creation (node_ips s) use_dmz) (e :: l)).
  { intros e l Hk Ha Hl. constructor; [|assumption].
    split; [assumption|]. destruct e; try exact I. now elim Ha. }
  intros H. apply bind_inv in H.
  destruct H as [([] & s1 & e1 & e2 & H1 & H2 & ->)
                |[(e & H1 & ->)|[H1 ->]]];
    apply request_inv in H1; destruct H1 as (-> & -> & H1);
    try contradiction.
  2:{ split; [reflexivity|]. apply Hplain; [discriminate..|constructor]. }
  cbn [app]. apply bind_inv in H2.
  destruct H2 as [(perms & s2 & e3 & e4 & H2 & H3 & ->)
                 |[(e & H2 & ->)|[H2 ->]]].
  - assert (Hperms : s2 = s /\ e3 = []
              /\ (use_dmz = true ->
                  forall region' a public_ip,
                    In a (Dict.get_list region' (node_ips s)) ->
                    PublicIp a = Some public_ip ->
                    In (TcpFromCidr 7001 (public_ip ++ "/32")) perms)
              /\ (use_dmz = false -> perms = [])
              /\ (forall g, ~ In (AllFromGroup g) perms)
              /\ (forall rule, In rule perms ->
                    use_dmz = true
                    /\ exists a public_ip,
                         In a (List.concat (Dict.values (node_ips s)))
                         /\ PublicIp a = Some public_ip
                         /\ rule
                            = TcpFromCidr 7001 (public_ip ++ "/32"))).
    { destruct use_dmz.
      - rewrite bind_get_store in H2. apply cidr_rules_spec in H2.
        destruct H2 as (-> & -> & Hp).
        destruct (Hp perms eq_refl) as (_ & Hrules & Hall & Honly).
        split; [reflexivity|]. split; [reflexivity|].
        split; [|split; [|split]].
        + intros _ region' a p Hin Hpub. apply (Hrules a p); [|assumption].
          now apply in_concat_values with region'.
        + discriminate.
        + intros g Hg. now apply Hall in Hg.
        + intros rule Hrule. split; [reflexivity|].
          destruct (Honly rule Hrule) as [[]|Hin]. exact Hin.
      - inversion H2; subst. split; [reflexivity|]. split; [reflexivity|].
        split; [discriminate|]. split; [reflexivity|].
        split; [intros g []|intros rule []]. }
    destruct Hperms as (-> & -> & Hcover & Hnone & _ & Honly).
    cbv zeta in H3. cbn [app]. apply bind_inv in H3.
    destruct H3 as [(perms' & s3 & e5 & e6 & H3 & H4 & ->)
                   |[(e & H3 & ->)|[H3 ->]]];
      apply add_odd_ingress_rule_spec in H3;
      destruct H3 as (-> & -> & Hodd).
    + apply request_inv in H4. destruct H4 as (-> & -> & _).
      split; [reflexivity|]. apply Hplain; [discriminate..|].
      apply Hplain; [discriminate..|]. constructor; [|constructor].
      split; [discriminate|]. cbn. unfold rules_ok.
      destruct (Hodd perms' eq_refl) as [->|(g & ->)].
      * split; [apply in_or_app; right; now left|]. split; [|split].
        -- intros Hdmz region' a p Hin Hpub. apply in_or_app. left. eauto.
        -- intros Hdmz port cidr Hin. rewrite (Hnone Hdmz) in Hin.
           destruct Hin as [Hin|[]]. discriminate.
        -- intros rule Hrule.
           apply in_app_or in Hrule as [Hrule|[<-|[]]]; [|now left].
           right. right. now apply Honly.
      * split; [apply in_or_app; left; apply in_or_app; right; now left|].
        split; [|split].
        -- intros Hdmz region' a p Hin Hpub.
           apply in_or_app. left. apply in_or_app. left. eauto.
        -- intros Hdmz port cidr Hin. rewrite (Hnone Hdmz) in Hin.
           destruct Hin as [Hin|[Hin|[]]]; discriminate.
        -- intros rule Hrule.
           apply in_app_or in Hrule as [Hrule|[<-|[]]];
             [|right; left; now exists g].
           apply in_app_or in Hrule as [Hrule|[<-|[]]]; [|now left].
           right. right. now apply Honly.
    + split; [reflexivity|]. apply Hplain; [discriminate..|].
      apply Hplain; [discriminate..|constructor].
    + split; [reflexivity|]. apply Hplain; [discriminate..|].
      apply Hplain; [discriminate..|constructor].
  - assert (Hfail : s' = s /\ e2 = []).
    { destruct use_dmz.
      - rewrite bind_get_store in H2. apply cidr_rules_spec in H2. tauto.
      - inversion H2. }
    destruct Hfail as [-> ->]. split; [reflexivity|].
    apply Hplain; [discriminate..|constructor].
  - assert (Hfail : s' = s /\ e2 = []).
    { destruct use_dmz.
      - rewrite bind_get_store in H2. apply cidr_rules_spec in H2. tauto.
      - inversion H2. }
    destruct Hfail as [-> ->]. split; [reflexivity|].
    apply Hplain; [discriminate..|constructor].
Qed.
End SecurityGroups.

Section GroupLoop.
Variable cloud : Cloud.
Variable use_dmz : bool.
Variable cluster_name : string.

(** The body of the loop of [setup_security_groups]. *)
Local Abbreviation group_body :=
  (fun '(region, _) =>
     vpcs <- request (DescribeVpcs region)
               (fun h => describe_vpcs cloud h region) ;;
     vpc <- index vpcs 0 ;;
     let sg_name := cluster_name in
     sg <- request (CreateSecurityGroup region sg_name vpc)
             (fun h => create_security_group cloud h region sg_name vpc) ;;
     modify (fun s =>
       mkStore (node_ips s) (Dict.set region sg (security_groups s))) ;;
     request (CreateTags region (GroupId sg) [mkTag "Name" sg_name])
       (fun h => create_tags cloud h region (GroupId sg)
                   [mkTag "Name" sg_name]) ;;
     ip_permissions <-
       (if use_dmz then
          s <- get_store ;;
          fold_each (List.concat (Dict.values (node_ips s))) []
            (fun perms ip =>
               public_ip <- public_ip_of ip ;;
               ret (perms ++ [TcpFromCidr 7001 (public_ip ++ "/32")%string]))
        else ret []) ;;
     let ip_permissions := ip_permissions ++ [AllFromGroup (GroupId sg)] in
     ip_permissions <- add_odd_ingress_rule cloud region ip_permissions ;;
     request
       (AuthorizeSecurityGroupIngress region (GroupId sg) ip_permissions)
       (fun h => authorize_security_group_ingress cloud h region (GroupId sg)
                   ip_permissions)).

(** One turn of the loop: it stops before the group is created, or with
    the creation refused, or it creates and records the group and goes
    on with requests that are all as they should be. *)
Lemma group_turn region (ips : list NodeAddress) s h r s' ev :
  group_body (region, ips) s h = (r, s', ev) ->
  (s' = s /\ ev = [DescribeVpcs region] /\ r <> Return tt)
  \/ (exists vpc,
        s' = s
        /\ ev = [DescribeVpcs region;
                 CreateSecurityGroup region cluster_name vpc]
        /\ r <> Return tt
        /\ forall sg,
             create_security_group cloud (h ++ [DescribeVpcs region]) region
               cluster_name vpc <> inr sg)
  \/ (exists vpc sg rest,
        create_security_group cloud (h ++ [DescribeVpcs region]) region
          cluster_name vpc = inr sg
        /\ s' = mkStore (node_ips s)
                  (Dict.set region sg (security_groups s))
        /\ ev = DescribeVpcs region
                  :: CreateSecurityGroup region cluster_name vpc :: rest
        /\ Forall (after_creation (node_ips s) use_dmz) rest).
Proof.
  cbv beta iota zeta. rewrite bind_request.
  destruct (describe_vpcs cloud h region) as [x|vpcs].
  { intros H. inversion H; subst. left. repeat split. discriminate. }
  destruct vpcs as [|vpc vpcs]; unfold index; cbn [nth_error].
  { rewrite bind_raise. intros H. inversion H; subst. left.
    repeat split. discriminate. }
  rewrite bind_ret, bind_request.
  destruct (create_security_group cloud (h ++ [DescribeVpcs region]) region
              cluster_name vpc) as [x|sg] eqn:Hcreate.
  { intros H. inversion H; subst. right. left. exists vpc.
    split; [reflexivity|]. split; [reflexivity|]. split; [discriminate|].
    intros sg. rewrite Hcreate. discriminate. }
  rewrite bind_modify.
  match goal with
  | |- (let (_, _) := (let (_, _) := ?m ?s2 ?h2 in _) in _) = _ -> _ =>
      destruct (m s2 h2) as [[r2 s3] e2] eqn:Hrest
  end.
  intros H. inversion H; subst. right. right. exists vpc, sg, e2.
  apply group_rules_spec in Hrest. destruct Hrest as [-> Hrest].
  repeat split; auto.
Qed.

Lemma groups_stay_preorder : preorder groups_stay.
Proof.
  split.
  - intros s. split; auto.
  - intros s1 s2 s3 [Hn1 Hg1] [Hn2 Hg2]. split; [congruence|auto].
Qed.

Lemma group_recorded_stays h e s s' :
  groups_stay s s' ->
  group_recorded cloud use_dmz h e s -> group_recorded cloud use_dmz h e s'.
Proof.
  intros [Hn Hg]. destruct e; simpl; auto. now rewrite Hn.
Qed.

Lemma after_creation_answered h l s :
  Forall (after_creation (node_ips s) use_dmz) l ->
  answered_for (group_recorded cloud use_dmz) h l s.
Proof.
  intros Hl before e after ->. rewrite Forall_forall in Hl.
  destruct (Hl e) as [Hk He]; [apply in_or_app; right; now left|].
  destruct e; simpl; auto. now elim Hk.
Qed.

Lemma group_turn_recorded region (ips : list NodeAddress) s h r s' ev :
  Dict.get region (security_groups s) = None ->
  group_body (region, ips) s h = (r, s', ev) ->
  groups_stay s s'
  /\ answered_for (group_recorded cloud use_dmz) h ev s'
  /\ (forall k, k <> region ->
        Dict.get k (security_groups s') = Dict.get k (security_groups s))
  /\ (r = Return tt ->
      Dict.keys (security_groups s')
      = Dict.keys (security_groups s) ++ [region]).
Proof.
  intros Hfresh H. apply (@group_turn region ips) in H.
  destruct H as [(-> & -> & Hr)
                |[(vpc & -> & -> & Hr & Hrefused)
                 |(vpc & sg & rest & Hcreate & -> & -> & Hrest)]].
  - split; [apply groups_stay_preorder|]. split; [|split; [auto|tauto]].
    apply answered_for_one. exact I.
  - split; [apply groups_stay_preorder|]. split; [|split; [auto|tauto]].
    change [DescribeVpcs region; CreateSecurityGroup region cluster_name vpc]
      with ([DescribeVpcs region]
            ++ [CreateSecurityGroup region cluster_name vpc]).
    eapply answered_for_app with (R := groups_stay) (s1 := s).
    + apply group_recorded_stays.
    + apply answered_for_one. exact I.
    + apply groups_stay_preorder.
    + apply answered_for_one. simpl. intros sg Hsg. now apply Hrefused in Hsg.
  - assert (Hstay : groups_stay s
              (mkStore (node_ips s) (Dict.set region sg (security_groups s)))).
    { split; [reflexivity|]. simpl. intros k sg0 Hk.
      rewrite DictFacts.get_set_other; [assumption|]. intros <-. congruence. }
    split; [exact Hstay|]. split; [|split].
    + change (DescribeVpcs region
                :: CreateSecurityGroup region cluster_name vpc :: rest)
        with ([DescribeVpcs region]
              ++ ([CreateSecurityGroup region cluster_name vpc] ++ rest)).
      eapply answered_for_app with (R := groups_stay) (s1 := s).
      * apply group_recorded_stays.
      * apply answered_for_one. exact I.
      * exact Hstay.
      * eapply answered_for_app with (R := groups_stay)
          (s1 := mkStore (node_ips s)
                   (Dict.set region sg (security_groups s))).
        -- apply group_recorded_stays.
        -- apply answered_for_one. simpl. intros sg0 Hsg0.
           rewrite Hcreate in Hsg0. inversion Hsg0; subst.
           apply DictFacts.get_set_same.
        -- apply groups_stay_preorder.
        -- now apply after_creation_answered.
    + intros k Hk. simpl. apply DictFacts.get_set_other. congruence.
    + intros _. simpl. apply DictFacts.keys_set_absent.
      now apply DictFacts.get_none_not_in_keys.
Qed.

Lemma group_loop (l : list (string * list NodeAddress)) :
  NoDup (map fst l) ->
  forall s h r s' ev,
    (forall k, In k (map fst l) ->
       Dict.get k (security_groups s) = None) ->
    for_each l group_body s h = (r, s', ev) ->
    groups_stay s s'
    /\ answered_for (group_recorded cloud use_dmz) h ev s'
    /\ (forall k, ~ In k (map fst l) ->
          Dict.get k (security_groups s') = Dict.get k (security_groups s))
    /\ (r = Return tt ->
        Dict.keys (security_groups s')
        = Dict.keys (security_groups s) ++ map fst l).
Proof.
  induction l as [|[region ips] l IH]; intros Hnd s h r s' ev Hfresh H.
  - inversion H; subst. split; [apply groups_stay_preorder|].
    split; [apply answered_for_nil|]. split; [auto|].
    intros _. simpl. now rewrite app_nil_r.
  - inversion Hnd as [|? ? Hnot Hnd']; subst.
    cbn [for_each] in H. apply bind_inv in H.
    destruct H as [([] & s1 & e1 & e2 & H1 & H2 & ->)
                  |[(e & H1 & ->)|[H1 ->]]].
    + apply (@group_turn_recorded region ips) in H1;
        [|apply Hfresh; now left].
      destruct H1 as (Hstay1 & Hans1 & Hother1 & Hkeys1).
      apply IH in H2; [|assumption|].
      2:{ intros k Hk. rewrite Hother1.
          - apply Hfresh. now right.
          - intros ->. contradiction. }
      destruct H2 as (Hstay2 & Hans2 & Hother2 & Hkeys2).
      split; [|split; [|split]].
      * destruct groups_stay_preorder as [_ Ht]. exact (Ht _ _ _ Hstay1 Hstay2).
      * eapply answered_for_app with (R := groups_stay) (s1 := s1); auto.
        apply group_recorded_stays.
      * intros k Hk. rewrite Hother2, Hother1; auto.
        -- intros ->. apply Hk. now left.
        -- intros Hin. apply Hk. now right.
      * intros Hr. rewrite (Hkeys2 Hr), (Hkeys1 eq_refl), <- app_assoc.
        reflexivity.
    + apply (@group_turn_recorded region ips) in H1;
        [|apply Hfresh; now left].
      destruct H1 as (Hstay1 & Hans1 & Hother1 & _).
      split; [assumption|]. split; [assumption|]. split; [|discriminate].
      intros k Hk. apply Hother1. intros ->. apply Hk. now left.
    + apply (@group_turn_recorded region ips) in H1;
        [|apply Hfresh; now left].
      destruct H1 as (Hstay1 & Hans1 & Hother1 & _).
      split; [assumption|]. split; [assumption|]. split; [|discriminate].
      intros k Hk. apply Hother1. intros ->. apply Hk. now left.
Qed.

(** The rules alone need no fresh dictionary of groups. *)
Lemma group_loop_rules (l : list (string * list NodeAddress)) :
  forall s h r s' ev,
    for_each l group_body s h = (r, s', ev) ->
    node_ips s' = node_ips s
    /\ forall region group_id perms,
         In (AuthorizeSecurityGroupIngress region group_id perms) ev ->
         rules_ok (node_ips s) use_dmz group_id perms.
Proof.
  assert (Hturn : forall region (ips : list NodeAddress) s h r s' ev,
            group_body (region, ips) s h = (r, s', ev) ->
            node_ips s' = node_ips s
            /\ forall region' group_id perms,
                 In (AuthorizeSecurityGroupIngress region' group_id perms)
                   ev ->
                 rules_ok (node_ips s) use_dmz group_id perms).
  { intros region ips s h r s' ev H. apply (@group_turn region ips) in H.
    destruct H as [(-> & -> & Hr)
                  |[(vpc & -> & -> & Hr & Hrefused)
                   |(vpc & sg & rest & Hcreate & -> & -> & Hrest)]].
    - split; [reflexivity|]. intros ? ? ? [H|[]]. discriminate.
    - split; [reflexivity|]. intros ? ? ? [H|[H|[]]]; discriminate.
    - split; [reflexivity|]. intros ? ? ? [H|[H|H]]; try discriminate.
      rewrite Forall_forall in Hrest. now destruct (Hrest _ H). }
  induction l as [|[region ips] l IH]; intros s h r s' ev H.
  - inversion H; subst. split; [reflexivity|]. intros ? ? ? [].
  - cbn [for_each] in H. apply bind_inv in H.
    destruct H as [([] & s1 & e1 & e2 & H1 & H2 & ->)
                  |[(e & H1 & ->)|[H1 ->]]].
    + apply (Hturn region ips) in H1. destruct H1 as [Hn1 Hr1].
      apply IH in H2. destruct H2 as [Hn2 Hr2].
      split; [congruence|]. intros region' gid perms Hin.
      apply in_app_or in Hin as [Hin|Hin]; [eauto|].
      rewrite <- Hn1. eauto.
    + now apply (Hturn region ips) in H1.
    + now apply (Hturn region ips) in H1.
Qed.
End GroupLoop.

(** X12. From a topology and no group yet, [setup_security_groups] loses no
    group, however it ends: every group the provider created is recorded for
    its region, the topology is left as it is, and when it returns the
    groups are those of the regions of the topology, in its order. *)
Theorem created_groups_are_recorded
    (cloud : Cloud) (use_dmz : bool) (cluster_name : string)
    (s : Store) (h : History)
    (r : Outcome unit) (s' : Store) (ev : list Event) :
  NoDup (Dict.keys (node_ips s)) ->
  security_groups s = Dict.empty SecurityGroup ->
  setup_security_groups cloud use_dmz cluster_name s h = (r, s', ev) ->
  node_ips s' = node_ips s
  /\ (forall before region group_name vpc_id after sg,
        ev = before
             ++ CreateSecurityGroup region group_name vpc_id :: after ->
        create_security_group cloud (h ++ before) region group_name vpc_id
        = inr sg ->
        Dict.get region (security_groups s') = Some sg)
  /\ (r = Return tt ->
      Dict.keys (security_groups s') = Dict.keys (node_ips s)).
Proof.
  intros Hnd Hempty H. unfold setup_security_groups in H.
  rewrite bind_get_store in H. apply group_loop in H.
  - destruct H as ([Hn _] & Hans & _ & Hkeys).
    split; [exact Hn|]. split.
    + intros before region name vpc after sg Hev Hsg.
      exact (Hans before _ after Hev sg Hsg).
    + intros Hr. rewrite (Hkeys Hr), Hempty. reflexivity.
  - exact Hnd.
  - intros k _. now rewrite Hempty.
Qed.

(** X13. The rules that [setup_security_groups] authorizes for a group
    always let the group itself in; in public-facing mode they let port 7001
    in from the routable address of every node of every region, and
    otherwise they hold no rule for an address. They let nothing else in but
    port 22 from one other group, the bastion group when the region has one. *)
Theorem ingress_rules_cover_the_cluster
    (cloud : Cloud) (use_dmz : bool) (cluster_name : string)
    (s : Store) (h : History)
    (r : Outcome unit) (s' : Store) (ev : list Event) :
  setup_security_groups cloud use_dmz cluster_name s h = (r, s', ev) ->
  forall region group_id perms,
    In (AuthorizeSecurityGroupIngress region group_id perms) ev ->
    In (AllFromGroup group_id) perms
    /\ (use_dmz = true ->
        forall region' a public_ip,
          In a (Dict.get_list region' (node_ips s)) ->
          PublicIp a = Some public_ip ->
          In (TcpFromCidr 7001 (public_ip ++ "/32")) perms)
    /\ (use_dmz = false ->
        forall port cidr_ip, ~ In (TcpFromCidr port cidr_ip) perms)
    /\ (forall rule, In rule perms ->
          rule = AllFromGroup group_id
          \/ (exists g, rule = TcpFromGroup 22 g)
          \/ (use_dmz = true
              /\ exists a public_ip,
                   In a (List.concat (Dict.values (node_ips s)))
                   /\ PublicIp a = Some public_ip
                   /\ rule = TcpFromCidr 7001 (public_ip ++ "/32"))).
Proof.
  intros H region group_id perms Hin. unfold setup_security_groups in H.
  rewrite bind_get_store in H. apply group_loop_rules in H.
  destruct H as [_ Hrules]. exact (Hrules region group_id perms Hin).
Qed.
(** ** Launches *)

(** X14. The wait for an instance polls its state and changes nothing.
    Each of its first [k] polls is answered 'pending' and followed by 5
    seconds of sleep.  The wait returns with one more poll, answered with
    a state other than 'pending'; it raises with one more poll, the one
    the provider failed, and raises that failure; it goes on for ever only
    when every poll is answered 'pending'. *)
Theorem wait_while_pending_polls
    (cloud : Cloud) (region : Region) (instance_id : string)
    (budget : nat) (s : Store) (h : History)
    (r : Outcome unit) (s' : Store) (ev : list Event) :
  wait_while_pending cloud budget region instance_id s h = (r, s', ev) ->
  s' = s
  /\ exists k,
       k <= budget
       /\ ev = pending_polls region instance_id k
               ++ match r with
                  | Hang => []
                  | _ => [DescribeInstanceState region instance_id]
                  end
       /\ (forall j, j < k ->
             describe_instance_state cloud
               (h ++ pending_polls region instance_id j) region instance_id
             = inr "pending")
       /\ match r with
          | Return _ =>
              exists state,
                describe_instance_state cloud
                  (h ++ pending_polls region instance_id k) region
                  instance_id
                = inr state
                /\ state <> "pending"
          | Raise e =>
              exists x,
                describe_instance_state cloud
                  (h ++ pending_polls region instance_id k) region
                  instance_id
                = inl x
                /\ e = external_exn x
          | Hang => k = budget
          end.
Proof.
  revert h ev. induction budget as [|budget IH]; intros h ev; simpl.
  - intros H. inversion H; subst. split; [reflexivity|]. exists 0.
    repeat split; auto. intros j Hj. lia.
  - rewrite bind_request.
    destruct (describe_instance_state cloud h region instance_id)
      as [x|state] eqn:Hpoll.
    + intros H. inversion H; subst. split; [reflexivity|]. exists 0.
      split; [lia|]. split; [reflexivity|]. split; [intros j Hj; lia|].
      exists x. simpl. rewrite app_nil_r. auto.
    + destruct (String.eqb state "pending") eqn:Hstate.
      * apply String.eqb_eq in Hstate. subst state. rewrite bind_sleep.
        destruct (wait_while_pending cloud budget region instance_id s _)
          as [[r1 s1] e1] eqn:Hrest.
        intros H. inversion H; subst r1 s1 ev. clear H.
        apply IH in Hrest.
        destruct Hrest as (-> & k & Hk & -> & Hpend & Hlast).
        assert (Hh : forall j,
          h ++ pending_polls region instance_id (S j)
          = ((h ++ [DescribeInstanceState region instance_id])
               ++ [Sleep 5]) ++ pending_polls region instance_id j).
        { intros j. unfold pending_polls. simpl.
          now rewrite <- !app_assoc. }
        split; [reflexivity|]. exists (S k).
        split; [lia|]. split; [reflexivity|]. split.
        -- intros [|j] Hj.
           ++ simpl. now rewrite app_nil_r.
           ++ rewrite Hh. apply Hpend. lia.
        -- rewrite Hh. destruct r; [exact Hlast|exact Hlast|now f_equal].
      * apply String.eqb_neq in Hstate.
        intros H. inversion H; subst. split; [reflexivity|]. exists 0.
        split; [lia|]. split; [reflexivity|]. split; [intros j Hj; lia|].
        exists state. simpl. rewrite app_nil_r. auto.
Qed.

(** *** Pacing *)

Lemma pacing_app e1 e2 : pacing (e1 ++ e2) = pacing e1 ++ pacing e2.
Proof. unfold pacing. apply flat_map_app. Qed.

Lemma unpaced_bind {A B} (m : M A) (f : A -> M B) :
  unpaced m -> (forall a, unpaced (f a)) -> unpaced (bind m f).
Proof.
  intros Hm Hf s h r s' ev H. apply bind_inv in H.
  destruct H as [(a & s1 & e1 & e2 & H1 & H2 & ->)
                |[(e & H1 & ->)|[H1 ->]]].
  - apply Hm in H1 as [-> Hp1]. apply Hf in H2 as [-> Hp2].
    split; [reflexivity|]. now rewrite pacing_app, Hp1, Hp2.
  - now apply Hm in H1.
  - now apply Hm in H1.
Qed.

Lemma unpaced_of_obeys {A} xs (m : M A) :
  obeys escort_kinds eq xs m -> unpaced m.
Proof.
  intros Hm s h r s' ev H. destruct (Hm _ _ _ _ _ H) as (Hk & -> & _).
  split; [reflexivity|]. clear H. induction ev as [|e ev IH]; [reflexivity|].
  inversion Hk as [|? ? He Hev]; subst. unfold pacing in *. cbn [flat_map].
  rewrite (IH Hev), app_nil_r.
  destruct e; try reflexivity;
    try match goal with nt : NodeType |- _ => destruct nt end;
    simpl in He; intuition discriminate.
Qed.

Lemma wait_while_pending_unpaced cloud region instance_id : forall budget,
  unpaced (wait_while_pending cloud budget region instance_id).
Proof.
  induction budget as [|budget IH]; simpl.
  - intros s h r s' ev H. inversion H; subst. auto.
  - intros s h r s' ev. rewrite bind_request.
    destruct (describe_instance_state cloud h region instance_id)
      as [x|state].
    + intros H. inversion H; subst. auto.
    + destruct (String.eqb state "pending").
      * rewrite bind_sleep.
        destruct (wait_while_pending cloud budget region instance_id s _)
          as [[r1 s1] e1] eqn:Hrest.
        intros H. inversion H; subst r1 s1 ev. clear H.
        apply IH in Hrest. destruct Hrest as [-> Hp]. split; [reflexivity|].
        unfold pacing in *. cbn [flat_map pace_of]. exact Hp.
      * intros H. inversion H; subst. auto.
Qed.

Lemma launch_instance_pacing cloud poll_budget region ip ami subnet group
    is_seed options s h r s' ev :
  launch_instance cloud poll_budget region ip ami subnet group is_seed
    options s h = (r, s', ev) ->
  s' = s
  /\ (pacing ev = [] \/ pacing ev = [launch_pace is_seed])
  /\ (r = Return tt -> pacing ev = [launch_pace is_seed]).
Proof.
  pose proof preorder_eq as HR.
  unfold launch_instance. cbv zeta. intros H. apply bind_inv in H.
  destruct H as [([] & s1 & e1 & e2 & H1 & H2 & ->)
                |[(e & H1 & ->)|[H1 ->]]];
    (apply (@unpaced_of_obeys _ [XExternal]) in H1;
     [|unfold escort_kinds; footprint]);
    destruct H1 as [-> Hp1].
  2:{ split; [reflexivity|]. split; [now left|discriminate]. }
  2:{ split; [reflexivity|]. split; [now left|discriminate]. }
  rewrite bind_request in H2.
  destruct (run_instances cloud (h ++ e1) region (PrivateIp ip)
              (SubnetId subnet) group (image_id ami)) as [x|instances].
  { inversion H2; subst. split; [reflexivity|].
    rewrite pacing_app, Hp1. split; [|discriminate]. right.
    now destruct is_seed. }
  match type of H2 with
  | (let (_, _) := ?m ?s2 ?h2 in _) = _ =>
      destruct (m s2 h2) as [[r2 s3] e3] eqn:Hrest
  end.
  inversion H2; subst r2 s3 e2. clear H2.
  assert (Hun : s' = s /\ pacing e3 = []).
  { revert Hrest. 
    match goal with
    | |- ?m _ _ = _ -> _ => assert (Hm : unpaced m)
    end.
    { apply unpaced_bind; [|intros instance_id].
      { apply (@unpaced_of_obeys _ [XIndex]). footprint. }
      apply unpaced_bind; [|intros _].
      { apply (@unpaced_of_obeys _ [XExternal]).
        unfold escort_kinds. footprint. }
      apply unpaced_bind; [apply wait_while_pending_unpaced|intros _].
      apply unpaced_bind; [|intros _].
      { apply (@unpaced_of_obeys _ [XExternal; XKey]).
        unfold escort_kinds. footprint. }
      apply unpaced_bind; [|intros topic].
      { apply (@unpaced_of_obeys _ [XKey]). footprint. }
      apply (@unpaced_of_obeys _ [XExternal]).
      unfold escort_kinds. footprint. }
    apply Hm. }
  destruct Hun as [-> Hp3]. split; [reflexivity|].
  rewrite pacing_app, Hp1. cbn [app].
  change (RunInstances region (node_type_of is_seed) (PrivateIp ip)
            (SubnetId subnet) group (image_id ami) :: e3)
    with ([RunInstances region (node_type_of is_seed) (PrivateIp ip)
             (SubnetId subnet) group (image_id ami)] ++ e3).
  rewrite pacing_app, Hp3, app_nil_r.
  destruct is_seed; simpl; auto.
Qed.

Lemma normal_pacing_add a b :
  normal_pacing (a + b) = normal_pacing a ++ normal_pacing b.
Proof.
  unfold normal_pacing. rewrite repeat_app. apply concat_app.
Qed.

Lemma normal_paced_bind {A B} n1 n2 (m : M A) (f : A -> M B) :
  normal_paced n1 m -> (forall a, normal_paced n2 (f a)) ->
  normal_paced (n1 + n2) (bind m f).
Proof.
  intros Hm Hf s h r s' ev H. apply bind_inv in H.
  destruct H as [(a & s1 & e1 & e2 & H1 & H2 & ->)
                |[(e & H1 & ->)|[H1 ->]]].
  - apply Hm in H1. destruct H1 as (-> & k1 & t1 & Hp1 & _ & _ & Hr1).
    destruct (Hr1 a eq_refl) as [-> ->]. rewrite app_nil_r in Hp1.
    apply Hf in H2. destruct H2 as (-> & k2 & t2 & Hp2 & Hk2 & Ht2 & Hr2).
    split; [reflexivity|]. exists (n1 + k2), t2.
    rewrite pacing_app, Hp1, Hp2, normal_pacing_add, app_assoc.
    split; [reflexivity|]. split; [lia|]. split; [assumption|].
    intros b Hb. destruct (Hr2 b Hb) as [-> ->]. auto.
  - apply Hm in H1. destruct H1 as (-> & k1 & t1 & Hp1 & Hk1 & Ht1 & _).
    split; [reflexivity|]. exists k1, t1.
    split; [assumption|]. split; [lia|]. split; [assumption|discriminate].
  - apply Hm in H1. destruct H1 as (-> & k1 & t1 & Hp1 & Hk1 & Ht1 & _).
    split; [reflexivity|]. exists k1, t1.
    split; [assumption|]. split; [lia|]. split; [assumption|discriminate].
Qed.

Lemma normal_paced_unpaced {A} (m : M A) : unpaced m -> normal_paced 0 m.
Proof.
  intros Hm s h r s' ev H. apply Hm in H. destruct H as [-> Hp].
  split; [reflexivity|]. exists 0, []. rewrite Hp. auto.
Qed.

Lemma unpaced_silent {A} xs (m : M A) : obeys [] eq xs m -> unpaced m.
Proof.
  intros Hm. apply (@unpaced_of_obeys _ xs).
  eapply obeys_weaken; [| | |exact Hm]; [intros k []|auto|apply incl_refl].
Qed.

Section NormalNodes.
Variable cloud : Cloud.
Variable poll_budget : nat.
Variable options : LaunchOptions.

Lemma normal_launch_paced region ip subnets group i :
  normal_paced 1
    (sleep pacing_delay ;;
     ami <- lookup (taupage_amis options) region ;;
     subnet <- subnet_for subnets i ;;
     launch_instance cloud poll_budget region ip ami subnet group false
       options).
Proof.
  pose proof preorder_eq as HR.
  intros s h r s' ev. rewrite bind_sleep.
  match goal with
  | |- (let (_, _) := ?m ?s2 ?h2 in _) = _ -> _ =>
      destruct (m s2 h2) as [[r2 s3] e3] eqn:Hrest
  end.
  intros H. inversion H; subst r2 s3 ev. clear H.
  change (Sleep pacing_delay :: e3) with ([Sleep pacing_delay] ++ e3).
  rewrite pacing_app. change (pacing [Sleep pacing_delay]) with [Delay].
  apply bind_inv in Hrest.
  destruct Hrest as [(ami & s1 & e1 & e2 & H1 & H2 & ->)
                    |[(e & H1 & ->)|[H1 ->]]];
    (apply (@unpaced_silent _ [XKey]) in H1; [|footprint]);
    destruct H1 as [-> Hp1].
  2:{ split; [reflexivity|]. exists 0, [Delay]. rewrite Hp1.
      repeat split; auto; discriminate. }
  2:{ split; [reflexivity|]. exists 0, [Delay]. rewrite Hp1.
      repeat split; auto; discriminate. }
  apply bind_inv in H2.
  destruct H2 as [(subnet & s1 & e3 & e4 & H2 & H3 & ->)
                 |[(e & H2 & ->)|[H2 ->]]];
    (apply (@unpaced_silent _ [XZeroDivision; XIndex]) in H2; [|footprint]);
    destruct H2 as [-> Hp2].
  2:{ split; [reflexivity|]. exists 0, [Delay]. rewrite pacing_app, Hp1, Hp2.
      repeat split; auto; discriminate. }
  2:{ split; [reflexivity|]. exists 0, [Delay]. rewrite pacing_app, Hp1, Hp2.
      repeat split; auto; discriminate. }
  apply launch_instance_pacing in H3. destruct H3 as (-> & Hp3 & Hr3).
  split; [reflexivity|]. rewrite !pacing_app, Hp1, Hp2. cbn [app].
  destruct Hp3 as [Hp3|Hp3].
  - exists 0, [Delay]. rewrite Hp3.
    split; [reflexivity|]. split; [lia|]. split; [now right|].
    intros [] Hr. rewrite (Hr3 Hr) in Hp3. discriminate.
  - exists 1, []. rewrite Hp3.
    split; [reflexivity|]. split; [lia|]. split; [now left|]. auto.
Qed.

Lemma normal_loop_paced region subnets group (ips : list NodeAddress) :
  forall i0,
    normal_paced (List.length ips - (Z.to_nat (seed_count options) - i0))
      (for_enumerate i0 ips (fun i ip =>
         if (seed_count options <=? Z.of_nat i)%Z then
           sleep pacing_delay ;;
           ami <- lookup (taupage_amis options) region ;;
           subnet <- subnet_for subnets i ;;
           launch_instance cloud poll_budget region ip ami subnet group
             false options
         else ret tt)).
Proof.
  induction ips as [|ip ips IH]; intros i0; cbn [for_enumerate].
  - apply normal_paced_unpaced. intros s h r s' ev H.
    inversion H; subst. auto.
  - destruct (seed_count options <=? Z.of_nat i0)%Z eqn:E.
    + apply Z.leb_le in E.
      replace (List.length (ip :: ips)
               - (Z.to_nat (seed_count options) - i0))
        with (1 + (List.length ips
                   - (Z.to_nat (seed_count options) - S i0)))
        by (cbn [List.length]; lia).
      apply normal_paced_bind; [apply normal_launch_paced|intros _; apply IH].
    + apply Z.leb_gt in E.
      replace (List.length (ip :: ips)
               - (Z.to_nat (seed_count options) - i0))
        with (0 + (List.length ips
                   - (Z.to_nat (seed_count options) - S i0)))
        by (cbn [List.length]; lia).
      apply normal_paced_bind; [|intros _; apply IH].
      apply normal_paced_unpaced. intros s h r s' ev H.
      inversion H; subst. auto.
Qed.
End NormalNodes.

(** X15. The normal nodes are launched one at a time, each right after a
    delay of 60 seconds, the first one too: the pacing of
    [launch_normal_nodes] is a run of (delay, launch) pairs, with one more
    delay when the launch after it did not come; when it returns there is
    one pair for every node of the topology behind the seeds of its region. *)
Theorem launch_normal_nodes_pacing
    (cloud : Cloud) (poll_budget : nat) (options : LaunchOptions)
    (s : Store) (h : History)
    (r : Outcome unit) (s' : Store) (ev : list Event) :
  launch_normal_nodes cloud poll_budget options s h = (r, s', ev) ->
  s' = s
  /\ exists k tail,
       pacing ev = normal_pacing k ++ tail
       /\ k <= normal_total (seed_count options) (node_ips s)
       /\ (tail = [] \/ tail = [Delay])
       /\ (r = Return tt ->
           k = normal_total (seed_count options) (node_ips s)
           /\ tail = []).
Proof.
  pose proof preorder_eq as HR.
  unfold launch_normal_nodes. rewrite bind_get_store.
  unfold normal_total, Dict.values, Dict.items.
  generalize (node_ips s) as topology. intros topology H.
  assert (Hloop : normal_paced
            (list_sum (map (normal_count (seed_count options))
                         (map snd topology)))
            (for_each topology (fun '(region, ips) =>
               let subnets :=
                 Dict.get_list region (subnets_by_region options) in
               s <- get_store ;;
               sg <- lookup (security_groups s) region ;;
               let security_group_id := GroupId sg in
               for_enumerate 0 ips (fun i ip =>
                 if (seed_count options <=? Z.of_nat i)%Z then
                   sleep pacing_delay ;;
                   ami <- lookup (taupage_amis options) region ;;
                   subnet <- subnet_for subnets i ;;
                   launch_instance cloud poll_budget region ip ami subnet
                     security_group_id false options
                 else ret tt)))).
  { clear H. induction topology as [|[region ips] topology IH];
      cbn [for_each map list_sum snd].
    - apply normal_paced_unpaced. intros s0 h0 r0 s0' ev0 H.
      inversion H; subst. auto.
    - apply normal_paced_bind; [|intros _; exact IH].
      cbv zeta.
      change (normal_count (seed_count options) ips)
        with (0 + (0 + normal_count (seed_count options) ips)).
      apply normal_paced_bind; [|intros s1].
      { apply normal_paced_unpaced. apply (@unpaced_silent _ []). footprint. }
      apply normal_paced_bind; [|intros sg].
      { apply normal_paced_unpaced. apply (@unpaced_silent _ [XKey]).
        footprint. }
      unfold normal_count.
      replace (List.length ips - Z.to_nat (seed_count options))
        with (List.length ips - (Z.to_nat (seed_count options) - 0)) by lia.
      apply normal_loop_paced. }
  apply Hloop in H. destruct H as (-> & k & tail & Hp & Hk & Ht & Hr).
  split; [reflexivity|]. exists k, tail.
  split; [assumption|]. split; [assumption|]. split; [assumption|].
  intros Hret. exact (Hr tt Hret).
Qed.

Lemma seed_pacing_add total c a b :
  seed_pacing total c (a + b)
  = seed_pacing total c a ++ seed_pacing total (c + a) b.
Proof.
  unfold seed_pacing. rewrite seq_app, flat_map_app.
  now replace (S c + a) with (S (c + a)) by lia.
Qed.

Lemma seed_pacing_last total n :
  last (seed_pacing total 0 (S n)) SeedLaunch
  = if (Z.of_nat (S n) <? total)%Z then Delay else SeedLaunch.
Proof.
  replace (S n) with (n + 1) at 1 by lia.
  rewrite seed_pacing_add. unfold seed_pacing at 2. cbn [seq flat_map].
  rewrite app_nil_r. replace (S (0 + n)) with (S n) by lia.
  destruct (Z.of_nat (S n) <? total)%Z.
  - change (SeedLaunch :: [Delay]) with ([SeedLaunch] ++ [Delay]).
    rewrite app_assoc. apply last_last.
  - apply last_last.
Qed.

Section SeedNodes.
Variable cloud : Cloud.
Variable poll_budget : nat.
Variable options : LaunchOptions.

Local Abbreviation total_seed_count :=
  (seed_count options
   * Z.of_nat (List.length (regions (lo_options options))))%Z.

Lemma silent_returned {A} xs (m : M A) s h a s' ev :
  obeys [] eq xs m -> m s h = (Return a, s', ev) -> s' = s /\ ev = [].
Proof.
  intros Hm H. destruct (Hm _ _ _ _ _ H) as (Hk & -> & _).
  split; [reflexivity|]. destruct ev as [|e ev]; [reflexivity|].
  inversion Hk as [|? ? He _]. destruct He.
Qed.

Lemma seed_turn_paced region subnets group c i ip s h c' s' ev :
  (ami <- lookup (taupage_amis options) region ;;
   subnet <- subnet_for subnets i ;;
   launch_instance cloud poll_budget region ip ami subnet group true
     options ;;
   let seeds_launched := S c in
   (if (Z.of_nat seeds_launched <? total_seed_count)%Z
    then sleep pacing_delay else ret tt) ;;
   ret seeds_launched) s h = (Return c', s', ev) ->
  s' = s /\ c' = S c /\ pacing ev = seed_pacing total_seed_count c 1.
Proof.
  pose proof preorder_eq as HR. intros H.
  apply bind_returned in H. destruct H as (ami & s1 & e1 & e2 & H1 & H & ->).
  apply (@silent_returned _ [XKey]) in H1; [|footprint].
  destruct H1 as [-> ->].
  apply bind_returned in H.
  destruct H as (subnet & s1 & e1 & e3 & H1 & H & ->).
  apply (@silent_returned _ [XZeroDivision; XIndex]) in H1; [|footprint].
  destruct H1 as [-> ->].
  apply bind_returned in H. destruct H as ([] & s1 & e1 & e4 & H1 & H & ->).
  apply launch_instance_pacing in H1. destruct H1 as (-> & _ & Hp1).
  specialize (Hp1 eq_refl). cbv zeta in H.
  apply bind_returned in H. destruct H as ([] & s1 & e5 & e6 & H2 & H & ->).
  inversion H; subst. cbn [app]. rewrite app_nil_r.
  unfold seed_pacing. cbn [seq flat_map]. rewrite app_nil_r.
  rewrite pacing_app, Hp1.
  destruct (Z.of_nat (S c) <? total_seed_count)%Z;
    inversion H2; subst; auto.
Qed.

Lemma seed_loop_paced region subnets group (ips : list NodeAddress) :
  forall i0 c s h c' s' ev,
    fold_enumerate i0 ips c (fun seeds_launched i ip =>
      ami <- lookup (taupage_amis options) region ;;
      subnet <- subnet_for subnets i ;;
      launch_instance cloud poll_budget region ip ami subnet group true
        options ;;
      let seeds_launched := S seeds_launched in
      (if (Z.of_nat seeds_launched <? total_seed_count)%Z
       then sleep pacing_delay else ret tt) ;;
      ret seeds_launched) s h = (Return c', s', ev) ->
    s' = s /\ c' = c + List.length ips
    /\ pacing ev = seed_pacing total_seed_count c (List.length ips).
Proof.
  induction ips as [|ip ips IH]; intros i0 c s h c' s' ev H;
    cbn [fold_enumerate] in H.
  - inversion H; subst. repeat split; auto.
  - apply bind_returned in H. destruct H as (c1 & s1 & e1 & e2 & H1 & H2 & ->).
    apply seed_turn_paced in H1. destruct H1 as (-> & -> & Hp1).
    apply IH in H2. destruct H2 as (-> & -> & Hp2).
    split; [reflexivity|]. split; [cbn [List.length]; lia|].
    change (List.length (ip :: ips)) with (1 + List.length ips).
    rewrite pacing_app, seed_pacing_add, Hp1, Hp2.
    now replace (c + 1) with (S c) by lia.
Qed.
End SeedNodes.

(** X16. When [launch_seed_nodes] returns, every seed of the selection has
    been launched, and the [j]-th launch is followed by the delay of 60
    seconds exactly when [j] is less than [seed_count] times the number of
    regions in the options. A delay follows the last seed, then, when fewer
    seeds are launched than that product. *)
Theorem launch_seed_nodes_pacing
    (cloud : Cloud) (poll_budget : nat) (options : LaunchOptions)
    (s : Store) (h : History) (s' : Store) (ev : list Event) :
  launch_seed_nodes cloud poll_budget options s h = (Return tt, s', ev) ->
  let total :=
    (seed_count options
     * Z.of_nat (List.length (regions (lo_options options))))%Z in
  let launched := seed_total (seed_nodes options) in
  s' = s
  /\ pacing ev = seed_pacing total 0 launched
  /\ (0 < launched ->
      (last (pacing ev) SeedLaunch = Delay <-> (Z.of_nat launched < total)%Z)).
Proof.
  pose proof preorder_eq as HR.
  unfold launch_seed_nodes. cbv zeta. intros H.
  apply bind_returned in H. destruct H as (c' & s1 & e1 & e2 & H & Hret & ->).
  inversion Hret; subst. rewrite app_nil_r. clear Hret.
  assert (Hloop : forall items c s h c' s' ev,
    fold_each items c
      (fun seeds_launched '(region, ips) =>
         s <- get_store ;;
         sg <- lookup (security_groups s) region ;;
         let security_group_id := GroupId sg in
         let subnets := Dict.get_list region (subnets_by_region options) in
         fold_enumerate 0 ips seeds_launched (fun seeds_launched i ip =>
           ami <- lookup (taupage_amis options) region ;;
           subnet <- subnet_for subnets i ;;
           launch_instance cloud poll_budget region ip ami subnet
             security_group_id true options ;;
           let seeds_launched := S seeds_launched in
           (if (Z.of_nat seeds_launched
                <? seed_count options
                   * Z.of_nat (List.length (regions (lo_options options))))%Z
            then sleep pacing_delay else ret tt) ;;
           ret seeds_launched)) s h = (Return c', s', ev) ->
    s' = s /\ c' = c + List.length (List.concat (map snd items))
    /\ pacing ev
       = seed_pacing
           (seed_count options
            * Z.of_nat (List.length (regions (lo_options options))))
           c (List.length (List.concat (map snd items)))).
  { clear. pose proof preorder_eq as HR.
    induction items as [|[region ips] items IH];
      intros c s h c' s' ev H; cbn [fold_each] in H.
    - inversion H; subst. repeat split; auto.
    - apply bind_returned in H.
      destruct H as (c1 & s1 & e1 & e2 & H1 & H2 & ->).
      rewrite bind_get_store in H1. apply bind_returned in H1.
      destruct H1 as (sg & s2 & e3 & e4 & Hsg & H1 & ->).
      apply (@silent_returned _ [XKey]) in Hsg; [|footprint].
      destruct Hsg as [-> ->]. cbv zeta in H1.
      apply seed_loop_paced in H1. destruct H1 as (-> & -> & Hp1).
      apply IH in H2. destruct H2 as (-> & -> & Hp2).
      cbn [map snd List.concat]. rewrite length_app.
      split; [reflexivity|]. split; [lia|].
      cbn [app]. now rewrite pacing_app, seed_pacing_add, Hp1, Hp2. }
  apply Hloop in H. destruct H as (-> & _ & Hp).
  split; [reflexivity|]. split; [exact Hp|].
  unfold seed_total, Dict.values, Dict.items in *. rewrite Hp.
  destruct (List.length (List.concat (map snd (seed_nodes options))))
    as [|n]; [lia|].
  intros _. rewrite seed_pacing_last.
  destruct (Z.of_nat (S n)
            <? seed_count options
               * Z.of_nat (List.length (regions (lo_options options))))%Z
    eqn:E.
  - apply Z.ltb_lt in E. tauto.
  - apply Z.ltb_ge in E. split; [discriminate|lia].
Qed.
(** *** Where the instances are launched *)

Lemma unpaced_no_launch ev e :
  pacing ev = [] -> In e ev -> is_launch_request e = false.
Proof.
  intros Hp Hin. apply in_split in Hin as (l1 & l2 & ->).
  rewrite pacing_app in Hp. apply app_eq_nil in Hp as [_ Hp].
  change (e :: l2) with ([e] ++ l2) in Hp. rewrite pacing_app in Hp.
  apply app_eq_nil in Hp as [Hp _]. unfold pacing in Hp. simpl in Hp.
  rewrite app_nil_r in Hp. destruct e; try reflexivity.
  now destruct node_type.
Qed.

Lemma lookup_inv {V} (d : Dict.t V) k s h r s' ev :
  lookup d k s h = (r, s', ev) ->
  s' = s /\ ev = [] /\ forall v, r = Return v -> Dict.get k d = Some v.
Proof.
  unfold lookup. destruct (Dict.get k d); intros H; inversion H; subst;
    repeat split; try discriminate. intros v' Hv. now inversion Hv.
Qed.

Lemma subnet_for_inv subnets i s h r s' ev :
  subnet_for subnets i s h = (r, s', ev) ->
  s' = s /\ ev = []
  /\ forall subnet, r = Return subnet ->
       nth_error subnets (i mod List.length subnets) = Some subnet.
Proof.
  unfold subnet_for. destruct (List.length subnets) as [|n] eqn:E.
  - unfold py_mod. rewrite bind_raise. intros H. inversion H; subst.
    repeat split; discriminate.
  - unfold py_mod. rewrite bind_ret. unfold index.
    destruct (nth_error subnets (i mod S n)) as [subnet|] eqn:Hn;
      intros H; inversion H; subst; repeat split; try discriminate.
    intros subnet' Hs. now inversion Hs.
Qed.

Section Placement.
Variable cloud : Cloud.
Variable poll_budget : nat.
Variable options : LaunchOptions.

(** A launch issues its launch request at most once, and no other. *)
Lemma launch_instance_requests region ip ami subnet group is_seed
    s h r s' ev :
  launch_instance cloud poll_budget region ip ami subnet group is_seed
    options s h = (r, s', ev) ->
  s' = s
  /\ forall e, In e ev -> is_launch_request e = true ->
       e = RunInstances region (node_type_of is_seed) (PrivateIp ip)
             (SubnetId subnet) group (image_id ami).
Proof.
  pose proof preorder_eq as HR.
  unfold launch_instance. cbv zeta. intros H. apply bind_inv in H.
  destruct H as [([] & s1 & e1 & e2 & H1 & H2 & ->)
                |[(e & H1 & ->)|[H1 ->]]];
    (apply (@unpaced_of_obeys _ [XExternal]) in H1;
     [|unfold escort_kinds; footprint]);
    destruct H1 as [-> Hp1].
  2:{ split; [reflexivity|]. intros e0 Hin Hl.
      rewrite (@unpaced_no_launch _ _ Hp1 Hin) in Hl. discriminate. }
  2:{ split; [reflexivity|]. intros e0 Hin Hl.
      rewrite (@unpaced_no_launch _ _ Hp1 Hin) in Hl. discriminate. }
  rewrite bind_request in H2.
  destruct (run_instances cloud (h ++ e1) region (PrivateIp ip)
              (SubnetId subnet) group (image_id ami)) as [x|instances].
  { inversion H2; subst. split; [reflexivity|]. intros e0 Hin Hl.
    apply in_app_or in Hin as [Hin|[<-|[]]]; [|reflexivity].
    rewrite (@unpaced_no_launch _ _ Hp1 Hin) in Hl. discriminate. }
  match type of H2 with
  | (let (_, _) := ?m ?s2 ?h2 in _) = _ =>
      destruct (m s2 h2) as [[r2 s3] e3] eqn:Hrest
  end.
  inversion H2; subst r2 s3 e2. clear H2.
  assert (Hun : s' = s /\ pacing e3 = []).
  { revert Hrest.
    match goal with
    | |- ?m _ _ = _ -> _ => assert (Hm : unpaced m)
    end.
    { apply unpaced_bind; [|intros instance_id].
      { apply (@unpaced_of_obeys _ [XIndex]). footprint. }
      apply unpaced_bind; [|intros _].
      { apply (@unpaced_of_obeys _ [XExternal]).
        unfold escort_kinds. footprint. }
      apply unpaced_bind; [apply wait_while_pending_unpaced|intros _].
      apply unpaced_bind; [|intros _].
      { apply (@unpaced_of_obeys _ [XExternal; XKey]).
        unfold escort_kinds. footprint. }
      apply unpaced_bind; [|intros topic].
      { apply (@unpaced_of_obeys _ [XKey]). footprint. }
      apply (@unpaced_of_obeys _ [XExternal]).
      unfold escort_kinds. footprint. }
    apply Hm. }
  destruct Hun as [-> Hp3]. split; [reflexivity|]. intros e0 Hin Hl.
  apply in_app_or in Hin as [Hin|[<-|Hin]]; [|reflexivity|].
  - rewrite (@unpaced_no_launch _ _ Hp1 Hin) in Hl. discriminate.
  - rewrite (@unpaced_no_launch _ _ Hp3 Hin) in Hl. discriminate.
Qed.

(** The body of either launch loop for the node at index [i]. *)
Lemma launch_turn_placed region subnets group is_seed i ip sg s h r s' ev :
  subnets = Dict.get_list region (subnets_by_region options) ->
  Dict.get region (security_groups s) = Some sg ->
  group = GroupId sg ->
  (ami <- lookup (taupage_amis options) region ;;
   subnet <- subnet_for subnets i ;;
   launch_instance cloud poll_budget region ip ami subnet group is_seed
     options) s h = (r, s', ev) ->
  s' = s
  /\ forall e, In e ev -> is_launch_request e = true ->
       placed options s (node_type_of is_seed) region i ip e.
Proof.
  intros -> Hsg -> H. apply bind_inv in H.
  destruct H as [(ami & s1 & e1 & e2 & H1 & H2 & ->)
                |[(e & H1 & ->)|[H1 ->]]];
    apply lookup_inv in H1; destruct H1 as (-> & -> & Hami).
  2:{ split; [reflexivity|]. intros ? []. }
  2:{ split; [reflexivity|]. intros ? []. }
  apply bind_inv in H2.
  destruct H2 as [(subnet & s1 & e3 & e4 & H2 & H3 & ->)
                 |[(e & H2 & ->)|[H2 ->]]];
    apply subnet_for_inv in H2; destruct H2 as (-> & -> & Hsubnet).
  2:{ split; [reflexivity|]. intros ? []. }
  2:{ split; [reflexivity|]. intros ? []. }
  apply launch_instance_requests in H3. destruct H3 as [-> Hrun].
  split; [reflexivity|]. cbn [app]. intros e Hin Hl.
  exists ami, subnet, sg. rewrite (Hrun e Hin Hl). auto.
Qed.
End Placement.

Section Emits.
Variable Q : Store -> Event -> Prop.
Variable pre : Store -> Prop.

Lemma emits_bind {A B} (m : M A) (f : A -> M B) :
  emits Q pre m -> (forall a, emits Q pre (f a)) -> emits Q pre (bind m f).
Proof.
  intros Hm Hf s h r s' ev Hpre H. apply bind_inv in H.
  destruct H as [(a & s1 & e1 & e2 & H1 & H2 & ->)
                |[(e & H1 & ->)|[H1 ->]]].
  - apply Hm in H1 as [-> Hq1]; [|exact Hpre].
    apply Hf in H2 as [-> Hq2]; [|exact Hpre]. split; [reflexivity|].
    intros e Hin. apply in_app_or in Hin as [Hin|Hin]; auto.
  - now apply Hm in H1.
  - now apply Hm in H1.
Qed.

Lemma emits_unpaced {A} (m : M A) : unpaced m -> emits Q pre m.
Proof.
  intros Hm s h r s' ev _ H. apply Hm in H as [-> Hp].
  split; [reflexivity|]. intros e Hin Hl.
  rewrite (@unpaced_no_launch _ _ Hp Hin) in Hl. discriminate.
Qed.

Lemma emits_ret {A} (a : A) : emits Q pre (ret a).
Proof.
  intros s h r s' ev _ H. inversion H; subst. split; [reflexivity|].
  intros e [].
Qed.

Lemma emits_sleep n : emits Q pre (sleep n).
Proof.
  intros s h r s' ev _ H. inversion H; subst. split; [reflexivity|].
  intros e [<-|[]]. discriminate.
Qed.
End Emits.

Lemma emits_weaken {A} (Q Q' : Store -> Event -> Prop) pre (m : M A) :
  (forall s e, pre s -> Q s e -> Q' s e) -> emits Q pre m -> emits Q' pre m.
Proof.
  intros Hq Hm s h r s' ev Hpre H. apply Hm in H as [-> Hev]; [|exact Hpre].
  split; [reflexivity|]. intros e Hin Hl. apply Hq; auto.
Qed.

Lemma emits_for_each {X} (Q : X -> Store -> Event -> Prop) pre
    (body : X -> M unit) : forall l,
  (forall x, In x l -> emits (Q x) pre (body x)) ->
  emits (fun s e => exists x, In x l /\ Q x s e) pre (for_each l body).
Proof.
  induction l as [|x l IH]; intros Hbody; simpl; [apply emits_ret|].
  apply emits_bind; [|intros _].
  - eapply emits_weaken; [|apply (Hbody x); now left].
    intros s e _ Hq. exists x. split; [now left|exact Hq].
  - eapply emits_weaken; [|apply IH; intros y Hy; apply Hbody; now right].
    intros s e _ (y & Hy & Hq). exists y. split; [now right|exact Hq].
Qed.

Lemma emits_for_enumerate {X} (Q : nat -> X -> Store -> Event -> Prop) pre
    (body : nat -> X -> M unit) : forall l i0,
  (forall j x, nth_error l j = Some x ->
     emits (Q (i0 + j) x) pre (body (i0 + j) x)) ->
  emits (fun s e => exists j x, nth_error l j = Some x /\ Q (i0 + j) x s e)
    pre (for_enumerate i0 l body).
Proof.
  induction l as [|x l IH]; intros i0 Hbody; simpl; [apply emits_ret|].
  apply emits_bind; [|intros _].
  - pose proof (Hbody 0 x eq_refl) as H0. rewrite Nat.add_0_r in H0.
    eapply emits_weaken; [|exact H0].
    intros s e _ Hq. exists 0, x. rewrite Nat.add_0_r.
    split; [reflexivity|exact Hq].
  - eapply emits_weaken; [|apply (IH (S i0))].
    + intros s e _ (j & y & Hy & Hq). exists (S j), y.
      split; [exact Hy|]. now rewrite <- Nat.add_succ_comm.
    + intros j y Hy. rewrite Nat.add_succ_comm. now apply Hbody.
Qed.

Lemma emits_fold_each {X Acc} (Q : X -> Store -> Event -> Prop) pre
    (body : Acc -> X -> M Acc) : forall l acc,
  (forall acc x, In x l -> emits (Q x) pre (body acc x)) ->
  emits (fun s e => exists x, In x l /\ Q x s e) pre (fold_each l acc body).
Proof.
  induction l as [|x l IH]; intros acc Hbody; simpl; [apply emits_ret|].
  apply emits_bind; [|intros acc'].
  - eapply emits_weaken; [|apply (Hbody acc x); now left].
    intros s e _ Hq. exists x. split; [now left|exact Hq].
  - eapply emits_weaken;
      [|apply IH; intros a y Hy; apply Hbody; now right].
    intros s e _ (y & Hy & Hq). exists y. split; [now right|exact Hq].
Qed.

Lemma emits_fold_enumerate {X Acc}
    (Q : nat -> X -> Store -> Event -> Prop) pre
    (body : Acc -> nat -> X -> M Acc) : forall l i0 acc,
  (forall acc j x, nth_error l j = Some x ->
     emits (Q (i0 + j) x) pre (body acc (i0 + j) x)) ->
  emits (fun s e => exists j x, nth_error l j = Some x /\ Q (i0 + j) x s e)
    pre (fold_enumerate i0 l acc body).
Proof.
  induction l as [|x l IH]; intros i0 acc Hbody; simpl; [apply emits_ret|].
  apply emits_bind; [|intros acc'].
  - pose proof (Hbody acc 0 x eq_refl) as H0. rewrite Nat.add_0_r in H0.
    eapply emits_weaken; [|exact H0].
    intros s e _ Hq. exists 0, x. rewrite Nat.add_0_r.
    split; [reflexivity|exact Hq].
  - eapply emits_weaken; [|apply (IH (S i0))].
    + intros s e _ (j & y & Hy & Hq). exists (S j), y.
      split; [exact Hy|]. now rewrite <- Nat.add_succ_comm.
    + intros a j y Hy. rewrite Nat.add_succ_comm. now apply Hbody.
Qed.

Section PlacementLoops.
Variable cloud : Cloud.
Variable poll_budget : nat.
Variable options : LaunchOptions.

Lemma launch_turn_emits region is_seed i ip sg :
  emits (fun s e => placed options s (node_type_of is_seed) region i ip e)
    (fun s => Dict.get region (security_groups s) = Some sg)
    (ami <- lookup (taupage_amis options) region ;;
     subnet <- subnet_for
                 (Dict.get_list region (subnets_by_region options)) i ;;
     launch_instance cloud poll_budget region ip ami subnet (GroupId sg)
       is_seed options).
Proof.
  intros s h r s' ev Hsg H.
  eapply launch_turn_placed; [reflexivity|exact Hsg|reflexivity|exact H].
Qed.

Lemma launch_turn_then_emits {B} region is_seed i ip sg (k : M B) :
  emits (fun s e => placed options s (node_type_of is_seed) region i ip e)
    (fun s => Dict.get region (security_groups s) = Some sg) k ->
  emits (fun s e => placed options s (node_type_of is_seed) region i ip e)
    (fun s => Dict.get region (security_groups s) = Some sg)
    (ami <- lookup (taupage_amis options) region ;;
     subnet <- subnet_for
                 (Dict.get_list region (subnets_by_region options)) i ;;
     launch_instance cloud poll_budget region ip ami subnet (GroupId sg)
       is_seed options ;;
     k).
Proof.
  intros Hk s h r s' ev Hsg H. apply bind_inv in H.
  destruct H as [(ami & s1 & e1 & e2 & H1 & H2 & ->)
                |[(e & H1 & ->)|[H1 ->]]];
    apply lookup_inv in H1; destruct H1 as (-> & -> & Hami).
  2:{ split; [reflexivity|]. intros ? []. }
  2:{ split; [reflexivity|]. intros ? []. }
  apply bind_inv in H2.
  destruct H2 as [(subnet & s1 & e3 & e4 & H2 & H3 & ->)
                 |[(e & H2 & ->)|[H2 ->]]];
    apply subnet_for_inv in H2; destruct H2 as (-> & -> & Hsubnet).
  2:{ split; [reflexivity|]. intros ? []. }
  2:{ split; [reflexivity|]. intros ? []. }
  cbn [app]. revert H3. generalize ((h ++ []) ++ []). intros h' H3.
  revert s h' r s' e4 Hsg H3.
  change (emits
    (fun s e => placed options s (node_type_of is_seed) region i ip e)
    (fun s => Dict.get region (security_groups s) = Some sg)
    (launch_instance cloud poll_budget region ip ami subnet (GroupId sg)
       is_seed options ;; k)).
  apply emits_bind; [|intros _; exact Hk].
  clear h. intros s h r s' ev Hsg H.
  apply launch_instance_requests in H. destruct H as [-> Hrun].
  split; [reflexivity|]. intros e Hin Hl.
  exists ami, subnet, sg. rewrite (Hrun e Hin Hl). auto.
Qed.

(** The launch requests of a region: with the store's access-control
    group looked up first. *)
Lemma with_group_emits {A} (Q : Store -> Event -> Prop) region
    (f : SecurityGroup -> M A) :
  (forall sg,
     emits Q (fun s => Dict.get region (security_groups s) = Some sg)
       (f sg)) ->
  emits Q (fun _ => True)
    (s <- get_store ;; sg <- lookup (security_groups s) region ;; f sg).
Proof.
  intros Hf s h r s' ev _ H. rewrite bind_get_store in H.
  apply bind_inv in H.
  destruct H as [(sg & s1 & e1 & e2 & H1 & H2 & ->)
                |[(e & H1 & ->)|[H1 ->]]];
    apply lookup_inv in H1; destruct H1 as (-> & -> & Hsg).
  2:{ split; [reflexivity|]. intros ? []. }
  2:{ split; [reflexivity|]. intros ? []. }
  apply (Hf sg) in H2; [|now apply Hsg]. exact H2.
Qed.

Lemma launch_normal_nodes_places s h r s' ev :
  launch_normal_nodes cloud poll_budget options s h = (r, s', ev) ->
  s' = s
  /\ forall e, In e ev -> is_launch_request e = true ->
       exists region ips i ip,
         In (region, ips) (Dict.items (node_ips s))
         /\ nth_error ips i = Some ip
         /\ placed options s NORMAL region i ip e.
Proof.
  unfold launch_normal_nodes. rewrite bind_get_store. intros H.
  assert (Hm : emits
    (fun s0 e => exists x, In x (Dict.items (node_ips s))
       /\ (fun '(region, ips) s0 e => exists i ip,
             nth_error ips i = Some ip
             /\ placed options s0 NORMAL region (0 + i) ip e) x s0 e)
    (fun _ => True)
    (for_each (Dict.items (node_ips s)) (fun '(region, ips) =>
       let subnets := Dict.get_list region (subnets_by_region options) in
       s <- get_store ;;
       sg <- lookup (security_groups s) region ;;
       let security_group_id := GroupId sg in
       for_enumerate 0 ips (fun i ip =>
         if (seed_count options <=? Z.of_nat i)%Z then
           sleep pacing_delay ;;
           ami <- lookup (taupage_amis options) region ;;
           subnet <- subnet_for subnets i ;;
           launch_instance cloud poll_budget region ip ami subnet
             security_group_id false options
         else ret tt)))).
  { apply emits_for_each. intros [region ips] _. cbv zeta.
    apply with_group_emits. intros sg.
    apply (@emits_for_enumerate _
             (fun i ip s0 e => placed options s0 NORMAL region i ip e)).
    intros j ip _. destruct (seed_count options <=? Z.of_nat (0 + j))%Z.
    - apply emits_bind; [apply emits_sleep|intros _].
      apply (@launch_turn_emits region false). 
    - apply emits_ret. }
  apply Hm in H; [|exact I]. destruct H as [-> Hev].
  split; [reflexivity|]. intros e Hin Hl.
  destruct (Hev e Hin Hl) as ([region ips] & Hx & i & ip & Hn & Hp).
  now exists region, ips, i, ip.
Qed.

Lemma launch_seed_nodes_places s h r s' ev :
  launch_seed_nodes cloud poll_budget options s h = (r, s', ev) ->
  s' = s
  /\ forall e, In e ev -> is_launch_request e = true ->
       exists region ips i ip,
         In (region, ips) (Dict.items (seed_nodes options))
         /\ nth_error ips i = Some ip
         /\ placed options s SEED region i ip e.
Proof.
  unfold launch_seed_nodes. cbv zeta. intros H.
  apply bind_inv in H.
  assert (Hm : forall acc, emits
    (fun s0 e => exists x, In x (Dict.items (seed_nodes options))
       /\ (fun '(region, ips) s0 e => exists i ip,
             nth_error ips i = Some ip
             /\ placed options s0 SEED region (0 + i) ip e) x s0 e)
    (fun _ => True)
    (fold_each (Dict.items (seed_nodes options)) acc
      (fun seeds_launched '(region, ips) =>
       s <- get_store ;;
       sg <- lookup (security_groups s) region ;;
       fold_enumerate 0 ips seeds_launched (fun seeds_launched i ip =>
         ami <- lookup (taupage_amis options) region ;;
         subnet <- subnet_for
                     (Dict.get_list region (subnets_by_region options)) i ;;
         launch_instance cloud poll_budget region ip ami subnet
           (GroupId sg) true options ;;
         (if (Z.of_nat (S seeds_launched)
              <? seed_count options
                 * Z.of_nat (List.length (regions (lo_options options))))%Z
          then sleep pacing_delay else ret tt) ;;
         ret (S seeds_launched))))).
  { intros acc. apply emits_fold_each. intros acc' [region ips] _.
    apply with_group_emits. intros sg.
    apply (@emits_fold_enumerate _ _
             (fun i ip s0 e => placed options s0 SEED region i ip e)).
    intros a j ip _.
    apply launch_turn_then_emits. apply emits_bind; [|intros _].
    - destruct (_ <? _)%Z; [apply emits_sleep|apply emits_ret].
    - apply emits_ret. }
  destruct H as [(a & s1 & e1 & e2 & H1 & H2 & ->)
                |[(e & H1 & ->)|[H1 ->]]];
    apply Hm in H1; try exact I; destruct H1 as [-> Hev].
  1:{ inversion H2; subst. rewrite app_nil_r. split; [reflexivity|].
      intros e Hin Hl.
      destruct (Hev e Hin Hl) as ([region ips] & Hx & i & ip & Hn & Hp).
      now exists region, ips, i, ip. }
  all: split; [reflexivity|]; intros e0 Hin Hl;
    destruct (Hev e0 Hin Hl) as ([region ips] & Hx & i & ip & Hn & Hp);
    now exists region, ips, i, ip.
Qed.
End PlacementLoops.

(** *** Requests that are no launches *)

Lemma no_launch_of_obeys {A} ks R xs (m : M A) s h r s' ev :
  obeys ks R xs m ->
  ~ In KLaunchSeed ks -> ~ In KLaunchNormal ks ->
  m s h = (r, s', ev) -> no_launch ev.
Proof.
  intros Hm Hs Hn H. destruct (Hm _ _ _ _ _ H) as (Hk & _).
  intros e Hin. rewrite Forall_forall in Hk. specialize (Hk e Hin).
  destruct e; try reflexivity. destruct node_type; simpl in Hk; tauto.
Qed.

Lemma no_launch_app e1 e2 :
  no_launch e1 -> no_launch e2 -> no_launch (e1 ++ e2).
Proof.
  intros H1 H2 e Hin. apply in_app_or in Hin as [Hin|Hin]; auto.
Qed.

Lemma no_launch_nil : no_launch [].
Proof. intros e []. Qed.

(** *** The subnets come from the provider *)

Lemma offered_later cloud h e1 e2 region subnet :
  offered cloud (h ++ e1) e2 region subnet ->
  offered cloud h (e1 ++ e2) region subnet.
Proof.
  intros (before & after & answer & -> & Ha & Hin).
  exists (e1 ++ before), after, answer. rewrite <- app_assoc in Ha.
  split; [now rewrite <- app_assoc|auto].
Qed.

Lemma offered_earlier cloud h e1 e2 region subnet :
  offered cloud h e1 region subnet ->
  offered cloud h (e1 ++ e2) region subnet.
Proof.
  intros (before & after & answer & -> & Ha & Hin).
  exists before, (after ++ e2), answer.
  split; [now rewrite <- app_assoc|auto].
Qed.

Section Sourced.
Variable cloud : Cloud.
Variable prefix_filter : string.

Lemma in_appends {X} region region' (x : X) xs : forall d,
  In x (Dict.get_list region'
          (fold_left (fun d a => Dict.append region a d) xs d)) ->
  In x (Dict.get_list region' d) \/ (region' = region /\ In x xs).
Proof.
  intros d. destruct (string_dec region region') as [<-|Hne].
  - rewrite get_list_appends_same. intros H.
    apply in_app_or in H as [H|H]; auto.
  - rewrite get_list_appends_other by assumption. auto.
Qed.

Lemma get_subnets_sourced regions : forall d0 s h d s' ev,
  fold_each regions d0
    (fun subnets region =>
       resp <- request (DescribeSubnets region)
                 (fun h => describe_subnets cloud h region) ;;
       let sorted_subnets := sorted_by_key AvailabilityZone resp in
       fold_each sorted_subnets subnets (fun subnets subnet =>
         match Tags subnet with
         | None => raise (KeyError "Tags")
         | Some tags =>
             ret (fold_right (fun _ d => Dict.append region subnet d) subnets
                    (repeat tt (matching_tags prefix_filter tags)))
         end)) s h = (Return d, s', ev) ->
  filled d0 ->
  s' = s /\ filled d
  /\ forall region subnet,
       In subnet (Dict.get_list region d) ->
       In subnet (Dict.get_list region d0)
       \/ offered cloud h ev region subnet.
Proof.
  induction regions as [|region rest IH]; intros d0 s h d s' ev H Hd0.
  - inversion H; subst. auto.
  - cbn [fold_each] in H. rewrite bind_assoc, bind_request in H.
    destruct (describe_subnets cloud h region) as [x|answer] eqn:Hanswer;
      [discriminate|].
    cbv zeta in H. unfold bind at 1 in H.
    rewrite get_subnets_region in H.
    destruct (existsb untagged (sorted_by_key AvailabilityZone answer));
      [discriminate|].
    rewrite app_nil_r in H.
    match type of H with
    | (let (_, _) := (let (_, _) := ?m ?d1 ?b ?s1 ?h1 in _) in _) = _ =>
        destruct (m d1 b s1 h1) as [[r2 s2] e2] eqn:Hrest
    end.
    destruct r2 as [d2| |]; inversion H; subst d2 s2 ev. clear H.
    apply IH in Hrest; [|now apply filled_appends].
    destruct Hrest as (-> & Hd & Hsrc). split; [reflexivity|].
    split; [exact Hd|]. intros region' subnet Hin.
    destruct (Hsrc _ _ Hin) as [Hold|Hnew].
    + apply in_appends in Hold as [Hold|[-> Hold]]; [now left|]. right.
      exists [], e2, answer. rewrite app_nil_r.
      split; [reflexivity|]. split; [exact Hanswer|].
      apply in_flat_map in Hold as (x & Hx & Hrep).
      apply repeat_spec in Hrep. subst x.
      now apply sorted_by_key_in in Hx.
    + right. now apply (@offered_later cloud h [DescribeSubnets region]).
Qed.
End Sourced.

(** *** Round robin over the whole allocation *)

Lemma keys_append_nodup {X} region (x : X) d :
  NoDup (Dict.keys d) -> NoDup (Dict.keys (Dict.append region x d)).
Proof.
  intros Hnd. unfold Dict.append.
  destruct (in_dec string_dec region (Dict.keys d)) as [Hin|Hout].
  - now rewrite DictFacts.keys_set_present.
  - rewrite DictFacts.keys_set_absent by assumption.
    apply NoDup_app; [assumption|repeat constructor; auto|].
    intros k Hk [<-|[]]. contradiction.
Qed.

Section RoundRobin.
Variable cloud : Cloud.
Variable iter_hosts : string -> list IpAddress.
Variable quota : Z.
Variable tk : bool.

Lemma allocate_positions : forall items s h r s' ev,
  for_each items (fun '(region, subnets) =>
    allocate_in_region cloud iter_hosts region subnets quota tk) s h
  = (r, s', ev) ->
  NoDup (map fst items) ->
  (forall region, In region (map fst items) ->
     Dict.get_list region (node_ips s) = []) ->
  forall region,
    (~ In region (map fst items) ->
       Dict.get_list region (node_ips s')
       = Dict.get_list region (node_ips s))
    /\ forall subnets i a,
         In (region, subnets) items ->
         nth_error (Dict.get_list region (node_ips s')) i = Some a ->
         In (PrivateIp a)
           (usable_of iter_hosts subnets (i mod List.length subnets)).
Proof.
  induction items as [|[reg subs] rest IH];
    intros s h r s' ev H Hnd Hfresh region.
  - inversion H; subst. split; [reflexivity|]. intros ? ? ? [].
  - cbn [for_each] in H. cbn [map fst] in Hnd, Hfresh.
    inversion Hnd as [|? ? Hout Hnd']; subst.
    assert (Hhead : forall s1 h1 r1 s1' ev1,
      allocate_in_region cloud iter_hosts reg subs quota tk s1 h1
      = (r1, s1', ev1) ->
      Dict.get_list reg (node_ips s1) = [] ->
      (forall k, k <> reg ->
         Dict.get_list k (node_ips s1') = Dict.get_list k (node_ips s1))
      /\ forall i a,
           nth_error (Dict.get_list reg (node_ips s1')) i = Some a ->
           In (PrivateIp a)
             (usable_of iter_hosts subs (i mod List.length subs))).
    { intros s1 h1 r1 s1' ev1 H1 Hempty.
      apply allocate_in_region_positions in H1.
      destruct H1 as (ys & -> & Hys). cbn [node_ips]. split.
      - intros k Hk. apply get_list_appends_other. congruence.
      - intros i a. rewrite get_list_appends_same, Hempty. apply Hys. }
    apply bind_inv in H.
    destruct H as [([] & s1 & e1 & e2 & H1 & H2 & ->)
                  |[(e & H1 & ->)|[H1 ->]]];
      apply Hhead in H1; try (apply Hfresh; now left);
      destruct H1 as [Hother Hhere].
    + apply (IH _ _ _ _ _ H2) with (region := region) in Hnd'.
      2:{ intros k Hk. rewrite Hother; [apply Hfresh; now right|].
          intros ->. contradiction. }
      destruct Hnd' as [Hout' Hin']. split.
      * intros Hk. cbn [map fst In] in Hk.
        rewrite Hout' by tauto. apply Hother. intros ->. tauto.
      * intros subnets i a [Heq|Hin]; [|now apply Hin'].
        inversion Heq; subst reg subs. rewrite Hout' by assumption.
        apply Hhere.
    + split.
      * intros Hk. apply Hother. intros ->. apply Hk. now left.
      * intros subnets i a [Heq|Hin].
        -- inversion Heq; subst reg subs. apply Hhere.
        -- assert (Hne : region <> reg).
           { intros ->. apply Hout.
             change reg with (fst (reg, subnets)). now apply in_map. }
           rewrite (Hother _ Hne), Hfresh.
           ++ now destruct i.
           ++ right. change region with (fst (region, subnets)).
              now apply in_map.
    + split.
      * intros Hk. apply Hother. intros ->. apply Hk. now left.
      * intros subnets i a [Heq|Hin].
        -- inversion Heq; subst reg subs. apply Hhere.
        -- assert (Hne : region <> reg).
           { intros ->. apply Hout.
             change reg with (fst (reg, subnets)). now apply in_map. }
           rewrite (Hother _ Hne), Hfresh.
           ++ now destruct i.
           ++ right. change region with (fst (region, subnets)).
              now apply in_map.
Qed.

Lemma allocate_ip_addresses_round_robin region_subnets h r s' ev :
  allocate_ip_addresses cloud iter_hosts region_subnets quota tk
    empty_store h = (r, s', ev) ->
  NoDup (Dict.keys region_subnets) ->
  round_robin iter_hosts region_subnets s'
  /\ NoDup (Dict.keys (node_ips s'))
  /\ security_groups s' = Dict.empty SecurityGroup.
Proof.
  intros H Hnd. split; [|split].
  - unfold allocate_ip_addresses in H.
    pose proof (allocate_positions _ _ _ H Hnd (fun _ _ => eq_refl))
      as Hpos.
    intros region i a Hi. destruct (Hpos region) as [Hout Hin].
    destruct (in_dec string_dec region (Dict.keys region_subnets))
      as [Hk|Hk].
    + apply in_map_iff in Hk as ([k subnets] & Hfst & Hitem).
      simpl in Hfst. subst k.
      specialize (Hin _ _ _ Hitem Hi).
      unfold Dict.get_list.
      rewrite (DictFacts.in_items_get _ _ _ Hnd Hitem).
      unfold usable_of, hosts_of in Hin.
      destruct (nth_error subnets (i mod List.length subnets))
        as [subnet|].
      * exists subnet. split; [reflexivity|].
        eapply in_skipn. exact Hin.
      * rewrite skipn_nil in Hin. destruct Hin.
    + rewrite (Hout Hk) in Hi. now destruct i.
  - assert (Hm : obeys allocation_kinds
                   (keeps (fun s => NoDup (Dict.keys (node_ips s))))
                   allocation_exns
                   (allocate_ip_addresses cloud iter_hosts region_subnets
                      quota tk)).
    { apply allocate_ip_addresses_obeys; [apply keeps_preorder|].
      intros s region a _ Hs. cbn [node_ips].
      now apply keys_append_nodup. }
    destruct (Hm _ _ _ _ _ H) as (_ & Hkeep & _). apply Hkeep. constructor.
  - assert (Hm : obeys allocation_kinds
                   (fun s s' => security_groups s' = security_groups s)
                   allocation_exns
                   (allocate_ip_addresses cloud iter_hosts region_subnets
                      quota tk)).
    { apply allocate_ip_addresses_obeys; [split; congruence|].
      intros s region a _. reflexivity. }
    destruct (Hm _ _ _ _ _ H) as (_ & Hkeep & _). exact Hkeep.
Qed.
End RoundRobin.

(** *** From the allocation to the launches *)

Lemma launches_quiet Q ev : no_launch ev -> launches Q ev.
Proof. intros Hno e Hin Hl. rewrite (Hno e Hin) in Hl. discriminate. Qed.

Lemma launches_app Q e1 e2 :
  launches Q e1 -> launches Q e2 -> launches Q (e1 ++ e2).
Proof.
  intros H1 H2 e Hin. apply in_app_or in Hin as [Hin|Hin]; auto.
Qed.

Lemma launches_weaken (Q Q' : Event -> Prop) ev :
  (forall e, Q e -> Q' e) -> launches Q ev -> launches Q' ev.
Proof. intros Hq H e Hin Hl. apply Hq. now apply H. Qed.

Lemma sited_later cloud iter_hosts h e1 e2 :
  launches (sited cloud iter_hosts (h ++ e1) e2) e2 ->
  no_launch e1 ->
  launches (sited cloud iter_hosts h (e1 ++ e2)) (e1 ++ e2).
Proof.
  intros H Hno. apply launches_app; [now apply launches_quiet|].
  eapply launches_weaken; [|exact H].
  intros e (region & nt & ip & subnet & gid & img & -> & Hoff & Hip).
  exists region, nt, ip, subnet, gid, img.
  split; [reflexivity|]. split; [now apply offered_later|exact Hip].
Qed.

Lemma sited_earlier cloud iter_hosts h e1 e2 :
  launches (sited cloud iter_hosts h e1) e1 ->
  no_launch e2 ->
  launches (sited cloud iter_hosts h (e1 ++ e2)) (e1 ++ e2).
Proof.
  intros H Hno. apply launches_app; [|now apply launches_quiet].
  eapply launches_weaken; [|exact H].
  intros e (region & nt & ip & subnet & gid & img & -> & Hoff & Hip).
  exists region, nt, ip, subnet, gid, img.
  split; [reflexivity|]. split; [now apply offered_earlier|exact Hip].
Qed.

Lemma quiet_bind {A B} ks R xs (m : M A) (f : A -> M B) s h r s' ev :
  obeys ks R xs m ->
  ~ In KLaunchSeed ks -> ~ In KLaunchNormal ks ->
  bind m f s h = (r, s', ev) ->
  no_launch ev
  \/ exists a s1 e1 e2,
       R s s1 /\ no_launch e1 /\ f a s1 (h ++ e1) = (r, s', e2)
       /\ ev = e1 ++ e2.
Proof.
  intros Hm Hs Hn H. apply bind_inv in H.
  destruct H as [(a & s1 & e1 & e2 & H1 & H2 & ->)
                |[(e & H1 & ->)|[H1 ->]]].
  - right. exists a, s1, e1, e2.
    destruct (Hm _ _ _ _ _ H1) as (_ & HR & _).
    split; [exact HR|]. split; [|auto].
    eapply no_launch_of_obeys; eauto.
  - left. eapply no_launch_of_obeys; eauto.
  - left. eapply no_launch_of_obeys; eauto.
Qed.

Lemma nth_error_firstn_some {X} (l : list X) : forall k i x,
  nth_error (firstn k l) i = Some x -> nth_error l i = Some x.
Proof.
  induction l as [|y l IH]; intros [|k] [|i] x H; simpl in *;
    try discriminate; auto.
  eapply IH; eauto.
Qed.

Lemma nth_error_slice_to {X} stop (l : list X) i x :
  nth_error (slice_to stop l) i = Some x -> nth_error l i = Some x.
Proof.
  unfold slice_to. destruct (0 <=? stop)%Z; apply nth_error_firstn_some.
Qed.

Section LaunchPhase.
Variable cloud : Cloud.
Variable iter_hosts : string -> list IpAddress.
Variable poll_budget : nat.
Variable options : LaunchOptions.
Variable s : Store.
Hypothesis Hrobin : round_robin iter_hosts (subnets_by_region options) s.
Hypothesis Hkeys : NoDup (Dict.keys (node_ips s)).
Hypothesis Hseeds :
  seed_nodes options = pick_seed_node_ips (node_ips s) (seed_count options).

Lemma placed_sited node_type region i ip e :
  nth_error (Dict.get_list region (node_ips s)) i = Some ip ->
  placed options s node_type region i ip e ->
  sited_in iter_hosts (subnets_by_region options) e.
Proof.
  intros Hi (ami & subnet & sg & _ & Hsubnet & _ & ->).
  destruct (Hrobin _ _ Hi) as (subnet' & Hsubnet' & Hip).
  rewrite Hsubnet in Hsubnet'. inversion Hsubnet'; subst subnet'.
  exists region, node_type, (PrivateIp ip), subnet, (GroupId sg),
    (image_id ami).
  split; [reflexivity|]. split; [|exact Hip].
  eapply nth_error_In. exact Hsubnet.
Qed.

Lemma recorded_list region ips :
  In (region, ips) (Dict.items (node_ips s)) ->
  Dict.get_list region (node_ips s) = ips.
Proof.
  intros Hin. unfold Dict.get_list.
  now rewrite (DictFacts.in_items_get _ _ _ Hkeys Hin).
Qed.

Lemma launch_phase_sited h r s' ev :
  (launch_seed_nodes cloud poll_budget options ;;
   launch_normal_nodes cloud poll_budget options) s h = (r, s', ev) ->
  launches (sited_in iter_hosts (subnets_by_region options)) ev.
Proof.
  intros H.
  assert (Hseed : forall h1 r1 s1 e1,
    launch_seed_nodes cloud poll_budget options s h1 = (r1, s1, e1) ->
    s1 = s
    /\ launches (sited_in iter_hosts (subnets_by_region options)) e1).
  { intros h1 r1 s1 e1 H1. apply launch_seed_nodes_places in H1.
    destruct H1 as [-> Hev]. split; [reflexivity|]. intros e Hin Hl.
    destruct (Hev e Hin Hl) as (region & ips & i & ip & Hitem & Hi & Hp).
    rewrite Hseeds, pick_seed_node_ips_map in Hitem by assumption.
    unfold Dict.items in Hitem.
    apply in_map_iff in Hitem as ([region0 ips0] & Heq & Hitem).
    inversion Heq; subst region0 ips. apply nth_error_slice_to in Hi.
    apply (@placed_sited SEED region i ip e); [|exact Hp].
    now rewrite (recorded_list _ _ Hitem). }
  assert (Hnormal : forall h1 r1 s1 e1,
    launch_normal_nodes cloud poll_budget options s h1 = (r1, s1, e1) ->
    launches (sited_in iter_hosts (subnets_by_region options)) e1).
  { intros h1 r1 s1 e1 H1. apply launch_normal_nodes_places in H1.
    destruct H1 as [-> Hev]. intros e Hin Hl.
    destruct (Hev e Hin Hl) as (region & ips & i & ip & Hitem & Hi & Hp).
    apply (@placed_sited NORMAL region i ip e); [|exact Hp].
    now rewrite (recorded_list _ _ Hitem). }
  apply bind_inv in H.
  destruct H as [([] & s1 & e1 & e2 & H1 & H2 & ->)
                |[(e & H1 & ->)|[H1 ->]]];
    apply Hseed in H1; destruct H1 as [-> Hs1]; [|exact Hs1|exact Hs1].
  apply launches_app; [exact Hs1|]. eapply Hnormal. exact H2.
Qed.
End LaunchPhase.

Section WholeRun.
Variable cloud : Cloud.
Variable iter_hosts : string -> list IpAddress.
Variable poll_budget : nat.
Variable options : Options.

Lemma filled_empty : filled (Dict.empty (list Subnet)).
Proof.
  split; [constructor|]. intros k. split; [intros []|].
  intros H. now contradiction H.
Qed.

Lemma create_cluster_body_sited h r s' ev :
  create_cluster_body cloud iter_hosts poll_budget options empty_store h
  = (r, s', ev) ->
  launches (sited cloud iter_hosts h ev) ev.
Proof.
  pose proof preorder_eq as HR.
  unfold create_cluster_body. intros H.
  eapply quiet_bind in H;
    [|apply (@find_taupage_amis_obeys cloud eq HR)
     |simpl; intuition discriminate..].
  destruct H as [Hno|(amis & s1 & e1 & ev1 & <- & Hno1 & H & ->)];
    [now apply launches_quiet|].
  apply (@sited_later cloud iter_hosts); [|exact Hno1]. revert H.
  generalize (h ++ e1).
  clear h e1 Hno1. intros h H.
  apply bind_inv in H.
  destruct H as [(d & s2 & e2 & ev2 & H2 & H & ->)
                |[(e & H2 & ->)|[H2 ->]]].
  2:{ apply launches_quiet.
      eapply no_launch_of_obeys;
        [apply (@get_subnets_obeys cloud eq HR)| | |exact H2];
        simpl; intuition discriminate. }
  2:{ apply launches_quiet.
      eapply no_launch_of_obeys;
        [apply (@get_subnets_obeys cloud eq HR)| | |exact H2];
        simpl; intuition discriminate. }
  assert (Hno2 : no_launch e2).
  { eapply no_launch_of_obeys;
      [apply (@get_subnets_obeys cloud eq HR)| | |exact H2];
      simpl; intuition discriminate. }
  unfold get_subnets in H2.
  apply get_subnets_sourced in H2; [|apply filled_empty].
  destruct H2 as (-> & [Hnd _] & Hsrc).
  assert (Hin : launches (sited_in iter_hosts d) ev2).
  2:{ apply launches_app; [now apply launches_quiet|].
      eapply launches_weaken; [|exact Hin].
      intros e (region & nt & ip & subnet & gid & img & -> & Hd & Hip).
      exists region, nt, ip, subnet, gid, img.
      split; [reflexivity|]. split; [|exact Hip].
      apply offered_earlier.
      destruct (Hsrc _ _ Hd) as [[]|Hoff]. exact Hoff. }
  clear Hsrc Hno2. revert H. generalize (h ++ e2). clear h e2. intros h H.
  apply bind_inv in H.
  destruct H as [([] & s3 & e3 & ev3 & H3 & H & ->)
                |[(e & H3 & ->)|[H3 ->]]].
  2:{ apply launches_quiet.
      eapply no_launch_of_obeys;
        [apply (@allocate_ip_addresses_obeys cloud anyhow)| | |exact H3];
        try (simpl; intuition discriminate);
        [split; constructor|intros ? ? ? ?; constructor]. }
  2:{ apply launches_quiet.
      eapply no_launch_of_obeys;
        [apply (@allocate_ip_addresses_obeys cloud anyhow)| | |exact H3];
        try (simpl; intuition discriminate);
        [split; constructor|intros ? ? ? ?; constructor]. }
  assert (Hno3 : no_launch e3).
  { eapply no_launch_of_obeys;
      [apply (@allocate_ip_addresses_obeys cloud anyhow)| | |exact H3];
      try (simpl; intuition discriminate);
      [split; constructor|intros ? ? ? ?; constructor]. }
  apply allocate_ip_addresses_round_robin in H3; [|exact Hnd].
  destruct H3 as (Hrobin & Hkeys & _).
  apply launches_app; [now apply launches_quiet|]. clear Hno3.
  revert H. generalize (h ++ e3). clear h e3. intros h H.
  eapply (@quiet_bind _ _ [KSetupSnsTopics] eq [XExternal]) in H;
    [|destruct (_ || _); footprint|simpl; intuition discriminate..].
  destruct H as [Hno|(topics & s4 & e4 & ev4 & <- & Hno4 & H & ->)];
    [now apply launches_quiet|].
  apply launches_app; [now apply launches_quiet|]. clear Hno4.
  revert H. generalize (h ++ e4). clear h e4. intros h H.
  eapply (@quiet_bind _ _ dns_kinds eq [XExternal; XNoZone]) in H;
    [| |simpl; intuition discriminate..].
  2:{ destruct (hosted_zone options) as [zone|]; [|footprint].
      destruct (String.eqb zone ""); [footprint|].
      now apply setup_dns_records_obeys. }
  destruct H as [Hno|([] & s5 & e5 & ev5 & <- & Hno5 & H & ->)];
    [now apply launches_quiet|].
  apply launches_app; [now apply launches_quiet|]. clear Hno5.
  revert H. generalize (h ++ e5). clear h e5. intros h H.
  eapply (@quiet_bind _ _ group_kinds
            (fun s s' => node_ips s' = node_ips s)
            [XExternal; XIndex; XKey]) in H;
    [| |simpl; intuition discriminate..].
  2:{ apply setup_security_groups_obeys; [split; congruence|].
      intros ? ? ?. reflexivity. }
  destruct H as [Hno|([] & s6 & e6 & ev6 & Hsame & Hno6 & H & ->)];
    [now apply launches_quiet|].
  apply launches_app; [now apply launches_quiet|]. clear Hno6.
  revert H. generalize (h ++ e6). clear h e6. intros h H.
  cbv zeta in H. rewrite bind_get_store in H.
  eapply (@quiet_bind _ _ [KEnsureInstanceProfile] eq [XExternal]) in H;
    [|footprint|simpl; intuition discriminate..].
  destruct H as [Hno|(profile & s7 & e7 & ev7 & <- & Hno7 & H & ->)];
    [now apply launches_quiet|].
  apply launches_app; [now apply launches_quiet|].
  refine (@launch_phase_sited cloud iter_hosts poll_budget _ s6 _ _ _
            _ _ _ _ H).
  - intros region i a. cbn [subnets_by_region]. rewrite Hsame.
    apply Hrobin.
  - now rewrite Hsame.
  - reflexivity.
Qed.
End WholeRun.

(** X17. Every instance is launched in a subnet that holds its address.
    Whatever the provider answers and however the run ends, every launch
    request of [create_cluster] names a subnet the provider has offered for
    the region of the launch in answer to a subnet query of this run, and
    the private address of the launch is one of the hosts of that subnet:
    the launch loops index the subnets of a region as the allocator did. *)
Theorem launched_in_the_subnet_of_the_address
    (cloud : Cloud) (iter_hosts : string -> list IpAddress)
    (poll_budget : nat) (options : Options) (s : Store) (h : History)
    (r : Outcome unit) (s' : Store) (ev : list Event) :
  create_cluster cloud iter_hosts poll_budget options s h = (r, s', ev) ->
  forall region node_type ip subnet_id group_id image,
    In (RunInstances region node_type ip subnet_id group_id image) ev ->
    exists subnet,
      offered cloud h ev region subnet
      /\ SubnetId subnet = subnet_id
      /\ In ip (iter_hosts (CidrBlock subnet)).
Proof.
  intros H.
  assert (Hall : launches (sited cloud iter_hosts h ev) ev).
  2:{ intros region nt ip sid gid img Hin.
      destruct (Hall _ Hin eq_refl)
        as (region' & nt' & ip' & subnet & gid' & img' & Heq & Hoff & Hip).
      inversion Heq; subst. now exists subnet. }
  pose proof preorder_eq as HR.
  unfold create_cluster in H.
  eapply quiet_bind in H;
    [|apply (@validate_artifact_version_obeys cloud eq HR)
     |simpl; intuition discriminate..].
  destruct H as [Hno|(version & s1 & e1 & ev1 & <- & Hno1 & H & ->)];
    [now apply launches_quiet|].
  apply (@sited_later cloud iter_hosts); [|exact Hno1]. revert H.
  generalize (h ++ e1). clear h e1 Hno1. intros h H.
  eapply (@quiet_bind _ _ [] eq [XValue]) in H;
    [|unfold read_environment; destruct (forallb _ _); footprint
     |simpl; intuition discriminate..].
  destruct H as [Hno|([] & s2 & e2 & ev2 & <- & Hno2 & H & ->)];
    [now apply launches_quiet|].
  apply (@sited_later cloud iter_hosts); [|exact Hno2]. revert H.
  generalize (h ++ e2). clear h e2 Hno2. intros h H.
  eapply (@quiet_bind _ _ [KGenerateCertificate] eq [XExternal]) in H;
    [|unfold generate_certificate; footprint
     |simpl; intuition discriminate..].
  destruct H as [Hno|(certificate & s3 & e3 & ev3 & <- & Hno3 & H & ->)];
    [now apply launches_quiet|].
  apply (@sited_later cloud iter_hosts); [|exact Hno3]. revert H.
  generalize (h ++ e3). clear h e3 Hno3. intros h H.
  destruct certificate as [certificate|].
  2:{ inversion H; subst. apply launches_quiet, no_launch_nil. }
  rewrite bind_modify in H.
  unfold create_cluster_guarded, try_except in H.
  destruct (create_cluster_body _ _ _ _ _ _) as [[[[]|e|] s4] e4]
    eqn:Hbody.
  - inversion H; subst. eapply create_cluster_body_sited. exact Hbody.
  - destruct (bind _ _ s4 (h ++ e4)) as [[r5 s5] e5] eqn:Hcleanup.
    inversion H; subst. apply sited_earlier.
    + eapply create_cluster_body_sited. exact Hbody.
    + eapply (@quiet_bind _ _ cleanup_kinds eq [XExternal; XKey])
        in Hcleanup;
        [|now apply create_cluster_cleanup_obeys
         |simpl; intuition discriminate..].
      destruct Hcleanup as [Hno|([] & s6 & e6 & e7 & _ & Hno6 & H6 & ->)];
        [exact Hno|].
      inversion H6; subst. apply no_launch_app; [exact Hno6|].
      apply no_launch_nil.
  - inversion H; subst. eapply create_cluster_body_sited. exact Hbody.
Qed.

(** ** The rollback, request by request *)

(** X18. The rollback stops at the first refusal. When the try block of
    [create_cluster] fails, the handler issues the compensations of the
    store, deletes before releases, each in the order of recording: either
    the provider accepts them all and the original error is raised again, or
    the first refusal ends the rollback, the compensations after it are
    never issued (the resources they stand for are left behind) and the
    refusal replaces the original error. The store is as it was at the
    failure either way. *)
Theorem rollback_stops_at_the_first_refusal
    (cloud : Cloud) (iter_hosts : string -> list IpAddress)
    (poll_budget : nat) (options : Options) (h : History)
    (e : Exn) (s1 : Store) (ev_body : list Event) :
  create_cluster_body cloud iter_hosts poll_budget options empty_store h
  = (Raise e, s1, ev_body) ->
  ((forall j, j < List.length (compensations options s1) ->
      accepted_at cloud (h ++ ev_body) (compensations options s1) j)
   /\ create_cluster_guarded cloud iter_hosts poll_budget options
        empty_store h
      = (Raise e, s1, ev_body ++ compensations options s1))
  \/ (exists j x,
         refused_at cloud (h ++ ev_body) (compensations options s1) j x
         /\ (forall i, i < j ->
               accepted_at cloud (h ++ ev_body) (compensations options s1) i)
         /\ create_cluster_guarded cloud iter_hosts poll_budget options
              empty_store h
            = (Raise (external_exn x), s1,
               ev_body ++ firstn (S j) (compensations options s1))).
Proof.
  intros Hbody.
  assert (Hshape : use_dmz options = true -> all_shaped true s1).
  { intros Hdmz. pose proof Hbody as H.
    apply create_cluster_body_keeps_shape in H.
    destruct H as (_ & Hkeeps & _). rewrite Hdmz in Hkeeps.
    apply Hkeeps. intros region ips ip []. }
  unfold create_cluster_guarded, try_except. rewrite Hbody.
  unfold bind. rewrite (@cleanup_is_walk cloud options s1 _ Hshape).
  destruct (@issue_walk cloud (compensations options s1) s1 (h ++ ev_body))
    as [[Hall Hrun]|(j & x & Href & Hbefore & Hrun)]; rewrite Hrun.
  - left. split; [exact Hall|]. unfold raise. now rewrite app_nil_r.
  - right. exists j, x. auto.
Qed.

(** ** What a run never asks for *)

Lemma create_cluster_body_forward cloud iter_hosts poll_budget options :
  obeys forward_kinds anyhow any_exn
    (create_cluster_body cloud iter_hosts poll_budget options).
Proof.
  pose proof preorder_anyhow as HR.
  pose proof admits_groups_anyhow as Hgroups.
  unfold create_cluster_body, forward_kinds, any_exn. footprint.
Qed.

Section Halts.
Lemma halts_bind {A B} (m : M A) (f : A -> M B) :
  halts m -> (forall a, halts (f a)) -> halts (bind m f).
Proof.
  intros Hm Hf s h s' ev H. apply bind_inv in H.
  destruct H as [(a & s1 & e1 & e2 & H1 & H2 & ->)
                |[(e & H1 & He)|[H1 _]]].
  - now apply Hf in H2.
  - discriminate.
  - now apply Hm in H1.
Qed.

Lemma halts_for_each {X} (body : X -> M unit) : forall l,
  (forall x, halts (body x)) -> halts (for_each l body).
Proof.
  induction l as [|x l IH]; intros Hbody; simpl.
  - intros s h s' ev H. discriminate.
  - apply halts_bind; [apply Hbody|intros _; now apply IH].
Qed.

Lemma halts_request {R} c (answer : History -> ExternalError + R) :
  halts (request c answer).
Proof.
  intros s h s' ev. unfold request. destruct (answer h); discriminate.
Qed.

(** The handler has no loop that waits: it always ends. *)
Lemma create_cluster_cleanup_halts cloud options :
  halts (create_cluster_cleanup cloud options).
Proof.
  unfold create_cluster_cleanup. intros s h s' ev.
  rewrite bind_get_store. revert h s' ev.
  apply halts_bind; [|intros _].
  - apply halts_for_each. intros [region sg]. apply halts_request.
  - destruct (use_dmz options); [|intros ? ? ? ? H; discriminate].
    apply halts_for_each. intros [region ips].
    apply halts_for_each. intros ip.
    apply halts_bind; [|intros _; apply halts_bind; [|intros a]].
    + unfold public_ip_of. destruct (PublicIp ip);
        intros ? ? ? ? H; discriminate.
    + unfold allocation_id_of. destruct (AllocationId ip);
        intros ? ? ? ? H; discriminate.
    + apply halts_request.
Qed.
End Halts.

(** X19. Compensation comes last, and only after a failure. The requests of
    any run of [create_cluster] split in two: first the requests that build
    the cluster, none of which deletes a group or releases an address, then
    the deletes and releases of the rollback and nothing else. The second
    part is empty unless the run ends in an error: a run that returns, or
    that waits for ever, has undone nothing. *)
Theorem compensation_comes_last
    (cloud : Cloud) (iter_hosts : string -> list IpAddress)
    (poll_budget : nat) (options : Options) (s : Store) (h : History)
    (r : Outcome unit) (s' : Store) (ev : list Event) :
  create_cluster cloud iter_hosts poll_budget options s h = (r, s', ev) ->
  exists built undone,
    ev = built ++ undone
    /\ Forall (fun e => ~ In (kind e) cleanup_kinds) built
    /\ Forall (fun e => In (kind e) cleanup_kinds) undone
    /\ (undone <> [] -> exists x, r = Raise x).
Proof.
  pose proof preorder_anyhow as HR.
  assert (Hclean : forall ks l,
    (forall k, In k ks -> ~ In k cleanup_kinds) ->
    Forall (fun e => In (kind e) ks) l ->
    Forall (fun e => ~ In (kind e) cleanup_kinds) l).
  { intros ks l Hks Hl. eapply Forall_impl; [|exact Hl].
    intros e He. now apply Hks. }
  assert (Hpre : forall k, In k preamble_kinds -> ~ In k cleanup_kinds).
  { intros k Hk Hc. simpl in Hk, Hc.
    intuition (subst; discriminate). }
  assert (Hfwd : forall k, In k forward_kinds -> ~ In k cleanup_kinds).
  { intros k Hk Hc. simpl in Hk, Hc.
    intuition (subst; discriminate). }
  unfold create_cluster. intros H.
  assert (Hquiet : forall (r0 : Outcome unit) l,
    Forall (fun e => In (kind e) preamble_kinds) l ->
    exists built undone,
      l = built ++ undone
      /\ Forall (fun e => ~ In (kind e) cleanup_kinds) built
      /\ Forall (fun e => In (kind e) cleanup_kinds) undone
      /\ (undone <> [] -> exists x, r0 = Raise x)).
  { intros r0 l Hl. exists l, []. rewrite app_nil_r.
    split; [reflexivity|]. split; [now apply (Hclean preamble_kinds)|].
    split; [constructor|]. intros Hne. now contradiction Hne. }
  apply bind_inv in H.
  destruct H as [(version & s1 & e1 & ev1 & H1 & H & ->)
                |[(e & H1 & ->)|[H1 ->]]];
    apply (@validate_artifact_version_obeys cloud anyhow HR) in H1;
    destruct H1 as (Hk1 & _); [|now apply Hquiet..].
  apply bind_inv in H.
  destruct H as [([] & s2 & e2 & ev2 & H2 & H & ->)
                |[(e & H2 & ->)|[H2 ->]]].
  2,3: assert (He2 : ev1 = []) by
    (unfold read_environment in H2; destruct (forallb _ _);
     now inversion H2).
  2,3: subst ev1; rewrite app_nil_r; now apply Hquiet.
  assert (He2 : e2 = []) by
    (unfold read_environment in H2; destruct (forallb _ _);
     now inversion H2).
  subst e2. rewrite app_nil_r in H. cbn [app].
  unfold generate_certificate in H. rewrite bind_request in H.
  destruct (keytool cloud (h ++ e1) (cluster_name options))
    as [x|[certificate|]].
  { inversion H; subst. apply Hquiet. apply Forall_app.
    split; [exact Hk1|]. constructor; [simpl; tauto|constructor]. }
  2:{ inversion H; subst. apply Hquiet. apply Forall_app.
      split; [exact Hk1|]. constructor; [simpl; tauto|constructor]. }
  rewrite bind_modify in H.
  match type of H with
  | (let (_, _) := ?m ?s0 ?h0 in _) = _ =>
      destruct (m s0 h0) as [[r3 s3] e3] eqn:Hguarded
  end.
  inversion H; subst r3 s3 ev2. clear H.
  assert (Hhead : Forall (fun e => ~ In (kind e) cleanup_kinds)
                    (e1 ++ [GenerateCertificate (cluster_name options)])).
  { apply Forall_app. split; [now apply (Hclean preamble_kinds)|].
    constructor; [simpl; intuition discriminate|constructor]. }
  change (e1 ++ GenerateCertificate (cluster_name options) :: e3)
    with (e1 ++ [GenerateCertificate (cluster_name options)] ++ e3).
  rewrite app_assoc.
  revert Hguarded Hhead.
  generalize (e1 ++ [GenerateCertificate (cluster_name options)]).
  generalize ((h ++ e1) ++ [GenerateCertificate (cluster_name options)]).
  clear Hk1. intros h' p Hguarded Hhead.
  unfold create_cluster_guarded, try_except in Hguarded.
  destruct (create_cluster_body _ _ _ _ _ _) as [[rb sb] eb] eqn:Hbody.
  apply create_cluster_body_forward in Hbody. destruct Hbody as (Hkb & _).
  apply (Hclean forward_kinds) in Hkb; [|exact Hfwd].
  destruct rb as [[]|e|].
  - inversion Hguarded; subst. exists (p ++ e3), [].
    rewrite app_nil_r. split; [reflexivity|].
    split; [apply Forall_app; auto|]. split; [constructor|].
    intros Hne. now contradiction Hne.
  - destruct (bind _ _ sb (h' ++ eb)) as [[rc sc] ec] eqn:Hcleanup.
    inversion Hguarded; subst rc sc e3. clear Hguarded.
    exists (p ++ eb), ec. rewrite app_assoc.
    split; [reflexivity|]. split; [apply Forall_app; auto|].
    apply bind_inv in Hcleanup.
    destruct Hcleanup as [([] & s4 & e4 & e5 & H4 & H5 & ->)
                         |[(x & H4 & ->)|[H4 ->]]];
      pose proof H4 as H4';
      apply (@create_cluster_cleanup_obeys cloud anyhow HR) in H4;
      destruct H4 as (Hk4 & _ & Hx4).
    + inversion H5; subst. rewrite app_nil_r. split; [exact Hk4|].
      intros _. now exists e.
    + split; [exact Hk4|]. intros _. now exists x.
    + now apply create_cluster_cleanup_halts in H4'.
  - inversion Hguarded; subst. exists (p ++ e3), [].
    rewrite app_nil_r. split; [reflexivity|].
    split; [apply Forall_app; auto|]. split; [constructor|].
    intros Hne. now contradiction Hne.
Qed.

(** *** Internal mode *)

Section Internal.
Variable cloud : Cloud.
Lemma internal_preorder : preorder (keeps all_internal).
Proof. apply keeps_preorder. Qed.

Lemma internal_groups : admits_groups (keeps all_internal).
Proof. intros s region sg Hs. exact Hs. Qed.

Lemma allocate_one_internal region ip :
  obeys internal_kinds (keeps all_internal) any_exn
    (allocate_one cloud region false ip).
Proof.
  unfold allocate_one. intros s h r s' ev. rewrite bind_ret.
  intros H. inversion H; subst. split; [constructor|].
  split; [|discriminate]. intros Hs region' a. cbn [node_ips].
  intros Hin. apply in_get_list_append in Hin as [Hin|[_ ->]].
  - exact (Hs _ _ Hin).
  - split; reflexivity.
Qed.

Lemma allocate_ip_addresses_internal iter_hosts region_subnets quota :
  obeys internal_kinds (keeps all_internal) any_exn
    (allocate_ip_addresses cloud iter_hosts region_subnets quota false).
Proof.
  unfold allocate_ip_addresses.
  apply obeys_for_each; [apply internal_preorder|intros [region subnets]].
  unfold allocate_in_region.
  apply generate_obeys_any; try (simpl; tauto);
    [apply internal_preorder|apply allocate_one_internal].
Qed.

Lemma launch_instance_internal poll_budget region ip ami subnet group
    is_seed options :
  use_dmz (lo_options options) = false ->
  obeys internal_kinds (keeps all_internal) any_exn
    (launch_instance cloud poll_budget region ip ami subnet group is_seed
       options).
Proof.
  pose proof internal_preorder as HR.
  pose proof internal_groups as Hgroups.
  intros Hdmz. unfold launch_instance. cbv zeta. rewrite Hdmz.
  unfold internal_kinds, any_exn.
  destruct is_seed;
    repeat (footprint;
            try (eapply obeys_weaken;
                 [| | |apply (@wait_while_pending_obeys cloud _ HR)];
                 [included|auto|included])).
Qed.

Lemma launch_seed_nodes_internal poll_budget options :
  use_dmz (lo_options options) = false ->
  obeys internal_kinds (keeps all_internal) any_exn
    (launch_seed_nodes cloud poll_budget options).
Proof.
  pose proof internal_preorder as HR.
  pose proof internal_groups as Hgroups.
  intros Hdmz. unfold launch_seed_nodes. cbv zeta.
  apply obeys_bind; [assumption| |intros ?; now apply obeys_ret].
  apply obeys_fold_each; [assumption|intros acc [region ips]].
  apply obeys_bind; [assumption|now apply obeys_get_store|intros s].
  apply obeys_bind; [assumption| |intros sg].
  { apply obeys_lookup; [assumption|simpl; tauto]. }
  apply obeys_fold_enumerate; [assumption|intros acc' i ip].
  apply obeys_bind; [assumption| |intros ami].
  { apply obeys_lookup; [assumption|simpl; tauto]. }
  apply obeys_bind; [assumption| |intros subnet].
  { unfold internal_kinds, any_exn. footprint. }
  apply obeys_bind; [assumption| |intros _].
  { now apply launch_instance_internal. }
  unfold internal_kinds, any_exn. footprint.
Qed.

Lemma launch_normal_nodes_internal poll_budget options :
  use_dmz (lo_options options) = false ->
  obeys internal_kinds (keeps all_internal) any_exn
    (launch_normal_nodes cloud poll_budget options).
Proof.
  pose proof internal_preorder as HR.
  pose proof internal_groups as Hgroups.
  intros Hdmz. unfold launch_normal_nodes.
  apply obeys_bind; [assumption|now apply obeys_get_store|intros s0].
  apply obeys_for_each; [assumption|intros [region ips]]. cbv zeta.
  apply obeys_bind; [assumption|now apply obeys_get_store|intros s].
  apply obeys_bind; [assumption| |intros sg].
  { apply obeys_lookup; [assumption|simpl; tauto]. }
  apply obeys_for_enumerate; [assumption|intros i ip].
  destruct (seed_count options <=? Z.of_nat i)%Z;
    [|now apply obeys_ret].
  apply obeys_bind; [assumption| |intros _].
  { apply obeys_sleep; [assumption|simpl; tauto]. }
  apply obeys_bind; [assumption| |intros ami].
  { apply obeys_lookup; [assumption|simpl; tauto]. }
  apply obeys_bind; [assumption| |intros subnet].
  { unfold internal_kinds, any_exn. footprint. }
  now apply launch_instance_internal.
Qed.

Lemma create_cluster_body_internal iter_hosts poll_budget options :
  use_dmz options = false ->
  obeys internal_kinds (keeps all_internal) any_exn
    (create_cluster_body cloud iter_hosts poll_budget options).
Proof.
  pose proof internal_preorder as HR.
  pose proof internal_groups as Hgroups.
  intros Hdmz. unfold create_cluster_body. rewrite Hdmz.
  apply obeys_bind; [assumption| |intros amis].
  { unfold internal_kinds, any_exn. footprint. }
  apply obeys_bind; [assumption| |intros subnets].
  { unfold internal_kinds, any_exn. footprint. }
  apply obeys_bind; [assumption| |intros _].
  { apply allocate_ip_addresses_internal. }
  apply obeys_bind; [assumption| |intros topics].
  { unfold internal_kinds, any_exn. footprint. }
  apply obeys_bind; [assumption| |intros _].
  { unfold internal_kinds, any_exn. footprint. }
  apply obeys_bind; [assumption| |intros _].
  { unfold internal_kinds, any_exn. footprint. }
  cbv zeta.
  apply obeys_bind; [assumption|now apply obeys_get_store|intros s].
  apply obeys_bind; [assumption| |intros profile].
  { unfold internal_kinds, any_exn. footprint. }
  apply obeys_bind; [assumption| |intros _].
  - now apply launch_seed_nodes_internal.
  - now apply launch_normal_nodes_internal.
Qed.

Lemma create_cluster_cleanup_internal options :
  use_dmz options = false ->
  obeys internal_kinds (keeps all_internal) any_exn
    (create_cluster_cleanup cloud options).
Proof.
  pose proof internal_preorder as HR.
  pose proof internal_groups as Hgroups.
  intros Hdmz. unfold create_cluster_cleanup. rewrite Hdmz.
  unfold internal_kinds, any_exn. footprint.
Qed.

Lemma create_cluster_guarded_internal iter_hosts poll_budget options :
  use_dmz options = false ->
  obeys internal_kinds (keeps all_internal) any_exn
    (create_cluster_guarded cloud iter_hosts poll_budget options).
Proof.
  pose proof internal_preorder as HR.
  intros Hdmz. unfold create_cluster_guarded.
  apply obeys_try_except with (xs0 := any_exn); [assumption| |intros e He].
  - now apply create_cluster_body_internal.
  - apply obeys_bind; [assumption| |intros _].
    + now apply create_cluster_cleanup_internal.
    + now apply obeys_raise.
Qed.
End Internal.

(** X20. Internal mode never touches a routable address. Without [use_dmz],
    however the cloud answers and however the run ends, the try statement of
    [create_cluster] asks for no routable address, attaches none to an
    instance and releases none, and no node has a routable address or an
    allocation recorded for it. *)
Theorem internal_mode_takes_no_routable_address
    (cloud : Cloud) (iter_hosts : string -> list IpAddress)
    (poll_budget : nat) (options : Options) (h : History)
    (r : Outcome unit) (s' : Store) (ev : list Event) :
  use_dmz options = false ->
  create_cluster_guarded cloud iter_hosts poll_budget options empty_store h
  = (r, s', ev) ->
  Forall (fun e => ~ In (kind e) routable_kinds) ev
  /\ all_internal s'.
Proof.
  intros Hdmz H.
  apply (@create_cluster_guarded_internal cloud iter_hosts poll_budget
           options Hdmz) in H.
  destruct H as (Hk & Hs & _). split.
  - eapply Forall_impl; [|exact Hk]. intros e He Hr.
    simpl in He, Hr. intuition congruence.
  - apply Hs. intros region a [].
Qed.

(** ** Options that are refused *)

(** X21. Options that are refused create nothing. With both [--docker-image]
    and [--artifact-name], or with an [--environment] entry without "=",
    [create_cluster] ends in an error with the store untouched, no
    certificate generated and nothing asked of the cloud provider; at most
    the registry was asked for the tags of the artifact. The conflict is
    reported first, as a usage error, before any request at all. *)
Theorem refused_options_create_nothing
    (cloud : Cloud) (iter_hosts : string -> list IpAddress)
    (poll_budget : nat) (options : Options) (s : Store) (h : History)
    (r : Outcome unit) (s' : Store) (ev : list Event) :
  truthy (docker_image options) && truthy (artifact_name options) = true
  \/ forallb has_equals (environment options) = false ->
  create_cluster cloud iter_hosts poll_budget options s h = (r, s', ev) ->
  s' = s
  /\ (exists e, r = Raise e)
  /\ Forall (fun e => kind e = KGetArtifactTags) ev
  /\ (truthy (docker_image options) && truthy (artifact_name options)
      = true ->
      r = Raise (UsageError conflict_options_msg) /\ ev = []).
Proof.
  intros Hbad H. unfold create_cluster in H.
  destruct (truthy (docker_image options) && truthy (artifact_name options))
    eqn:Hconflict.
  - apply andb_prop in Hconflict as [Hd Ha].
    unfold validate_artifact_version in H. rewrite Hd, Ha in H.
    rewrite bind_raise in H. inversion H; subst.
    split; [reflexivity|]. split; [eauto|]. split; [constructor|auto].
  - destruct Hbad as [Hbad|Henv]; [discriminate|].
    assert (Hversion : forall r1 s1 e1,
      validate_artifact_version cloud options s h = (r1, s1, e1) ->
      s1 = s /\ Forall (fun e => kind e = KGetArtifactTags) e1
      /\ r1 <> Hang).
    { intros r1 s1 e1. unfold validate_artifact_version.
      destruct (truthy (docker_image options)).
      - destruct (truthy (artifact_name options)).
        + intros H1. inversion H1; subst.
          split; [reflexivity|]. split; [constructor|discriminate].
        + destruct (docker_image options); intros H1; inversion H1; subst;
            (split; [reflexivity|]); (split; [constructor|discriminate]).
      - cbv zeta. rewrite bind_request.
        match goal with
        | |- context [get_artifact_tags cloud h ?a] =>
            destruct (get_artifact_tags cloud h a) as [x|tags]
        end.
        + intros H1. inversion H1; subst. split; [reflexivity|].
          split; [repeat constructor|discriminate].
        + unfold index_last. destruct (rev tags);
            [rewrite bind_raise|rewrite bind_ret];
            intros H1; inversion H1; subst;
            (split; [reflexivity|]);
            (split; [repeat constructor|discriminate]). }
    apply bind_inv in H.
    destruct H as [(version & s1 & e1 & e2 & H1 & H2 & ->)
                  |[(e & H1 & ->)|[H1 ->]]];
      apply Hversion in H1; destruct H1 as (-> & Hk & Hr).
    + unfold read_environment in H2. rewrite Henv in H2.
      rewrite bind_raise in H2. inversion H2; subst. rewrite app_nil_r.
      split; [reflexivity|]. split; [eauto|]. split; [exact Hk|].
      discriminate.
    + split; [reflexivity|]. split; [eauto|]. split; [exact Hk|].
      discriminate.
    + now contradiction Hr.
Qed.

(** ** Attaching the routable address *)

Lemma split_unique (l1 : list Event) x l2 : forall before y after,
  l1 ++ x :: l2 = before ++ y :: after ->
  Forall (fun e => is_associate e = false) l1 ->
  Forall (fun e => is_associate e = false) l2 ->
  is_associate y = true ->
  before = l1 /\ y = x /\ after = l2.
Proof.
  induction l1 as [|a l1 IH]; intros before y after Heq H1 H2 Hy.
  - destruct before as [|b before]; simpl in Heq; inversion Heq; subst.
    + auto.
    + rewrite Forall_forall in H2.
      rewrite H2 in Hy by (apply in_or_app; right; now left). discriminate.
  - inversion H1 as [|? ? Ha H1']; subst.
    destruct before as [|b before]; simpl in Heq; inversion Heq; subst.
    + congruence.
    + destruct (IH _ _ _ H3 H1' H2 Hy) as (-> & -> & ->). auto.
Qed.

Lemma no_split (l : list Event) before y after :
  Forall (fun e => is_associate e = false) l ->
  l = before ++ y :: after -> is_associate y = true -> False.
Proof.
  intros Hl -> Hy. rewrite Forall_forall in Hl.
  rewrite Hl in Hy by (apply in_or_app; right; now left). discriminate.
Qed.

Lemma quiet_of_kinds ks (l : list Event) :
  Forall (fun e => In (kind e) ks) l -> ~ In KAssociateAddress ks ->
  Forall (fun e => is_associate e = false) l.
Proof.
  intros Hl Hk. eapply Forall_impl; [|exact Hl].
  intros e He. destruct e; try reflexivity. now contradiction Hk.
Qed.

Section Attach.
Variable cloud : Cloud.

(** The wait ends with a poll that does not find the instance pending. *)
Lemma wait_while_pending_running region instance_id : forall budget s h s' ev,
  wait_while_pending cloud budget region instance_id s h
  = (Return tt, s', ev) ->
  s' = s
  /\ Forall (fun e => is_associate e = false) ev
  /\ found_running cloud h ev region instance_id.
Proof.
  induction budget as [|budget IH]; intros s h s' ev; simpl.
  - discriminate.
  - rewrite bind_request.
    destruct (describe_instance_state cloud h region instance_id)
      as [x|state] eqn:Hstate; [discriminate|].
    destruct (String.eqb state "pending") eqn:Hpending.
    + rewrite bind_sleep.
      destruct (wait_while_pending cloud budget region instance_id s _)
        as [[r1 s1] e1] eqn:Hrest.
      intros H. inversion H; subst r1 s1 ev. clear H.
      apply IH in Hrest.
      destruct Hrest as (-> & Hq & earlier & st & -> & Hst & Hne).
      split; [reflexivity|]. split; [repeat constructor; exact Hq|].
      exists (DescribeInstanceState region instance_id :: Sleep 5 :: earlier),
        st.
      split; [reflexivity|]. split; [|exact Hne].
      rewrite <- Hst. f_equal. rewrite <- !app_assoc. reflexivity.
    + intros H. inversion H; subst. split; [reflexivity|].
      split; [repeat constructor|]. exists [], state.
      split; [reflexivity|]. rewrite app_nil_r.
      split; [exact Hstate|]. intros ->. discriminate.
Qed.
End Attach.

Ltac quiet_list :=
  repeat first
    [ assumption
    | apply Forall_nil
    | apply Forall_cons; [reflexivity|]
    | apply Forall_app; split ].

(** X22. The routable address is attached once the instance is running.
    Whatever the provider answers and however [launch_instance] ends, it
    asks to attach an address only in public-facing mode, only the
    allocation recorded for the node it launches, only to the first instance
    the provider returned for the launch of that node, and only right after
    a poll that found this instance in a state other than 'pending'. *)
Theorem address_attached_once_running
    (cloud : Cloud) (poll_budget : nat) (region : Region)
    (ip : NodeAddress) (ami : Image) (subnet : Subnet) (group : string)
    (is_seed : bool) (options : LaunchOptions) (s : Store) (h : History)
    (r : Outcome unit) (s' : Store) (ev : list Event) :
  launch_instance cloud poll_budget region ip ami subnet group is_seed
    options s h = (r, s', ev) ->
  forall before region' instance_id allocation_id after,
    ev = before
         ++ AssociateAddress region' instance_id allocation_id :: after ->
    region' = region
    /\ use_dmz (lo_options options) = true
    /\ AllocationId ip = Some allocation_id
    /\ found_running cloud h before region instance_id
    /\ launched_as cloud h before
         (RunInstances region (node_type_of is_seed) (PrivateIp ip)
            (SubnetId subnet) group (image_id ami))
         instance_id
    /\ Forall (fun e => is_associate e = false) (before ++ after).
Proof.
  pose proof preorder_eq as HR.
  intros H before region' instance_id allocation_id after Hev.
  assert (Hquiet : forall {A} ks xs (m : M A) s0 h0 r0 s0' ev0,
    obeys ks eq xs m -> ~ In KAssociateAddress ks ->
    m s0 h0 = (r0, s0', ev0) ->
    s0' = s0 /\ Forall (fun e => is_associate e = false) ev0).
  { intros A ks xs m s0 h0 r0 s0' ev0 Hm Hk Hrun.
    destruct (Hm _ _ _ _ _ Hrun) as (Hks & <- & _).
    split; [reflexivity|]. now apply quiet_of_kinds with ks. }
  assert (Hstop : forall l,
    Forall (fun e => is_associate e = false) l -> ev = l -> False).
  { intros l Hl ->. exact (@no_split _ _ _ _ Hl Hev eq_refl). }
  unfold launch_instance in H. cbv zeta in H.
  apply bind_inv in H.
  destruct H as [([] & s1 & e1 & e2 & H1 & H & ->)
                |[(e & H1 & ->)|[H1 ->]]];
    (eapply (Hquiet _ [KCreateVolume; KCreateTags] [XExternal]) in H1;
     [|unfold create_tagged_volume; footprint
      |simpl; intuition discriminate]);
    destruct H1 as [-> Hq1];
    try (exfalso; now apply (Hstop _ Hq1)).
  rewrite bind_request in H.
  destruct (run_instances cloud (h ++ e1) region (PrivateIp ip)
              (SubnetId subnet) group (image_id ami))
    as [x|instances] eqn:Hrun.
  { inversion H; subst. exfalso. eapply Hstop; [|reflexivity].
    quiet_list. }
  match type of H with
  | (let (_, _) := ?m ?s0 ?h0 in _) = _ =>
      destruct (m s0 h0) as [[r3 s3] e3] eqn:H3
  end.
  inversion H; subst r3 s3 e2. clear H.
  unfold index in H3.
  destruct instances as [|iid others]; cbn [nth_error] in H3.
  { rewrite bind_raise in H3. inversion H3; subst. exfalso.
    eapply Hstop; [|reflexivity]. quiet_list. }
  rewrite bind_ret, bind_request in H3.
  destruct (create_tags cloud _ region iid _) as [x|[]].
  { inversion H3; subst. exfalso.
    eapply Hstop; [|reflexivity]. quiet_list. }
  match type of H3 with
  | (let (_, _) := ?m ?s0 ?h0 in _) = _ =>
      destruct (m s0 h0) as [[r4 s4] e4] eqn:H4
  end.
  inversion H3; subst r4 s4 e3. clear H3.
  apply bind_inv in H4.
  destruct H4 as [([] & s5 & e5 & e6 & H5 & H6 & ->)
                 |[(e & H5 & ->)|[H5 ->]]].
  2,3: eapply (Hquiet _ [KDescribeInstanceState; KSleep] [XExternal])
         in H5;
       [|now apply wait_while_pending_obeys|simpl; intuition discriminate];
       destruct H5 as [_ Hq5]; exfalso;
       eapply Hstop; [|reflexivity]; quiet_list.
  apply wait_while_pending_running in H5.
  destruct H5 as (-> & Hq5 & Hfound).
  assert (Halarm : forall iid0 s0 h0 r0 s0' ev0,
    (alarm_sns_topic_arn <-
       (match alarm_topics options with
        | [] => ret None
        | _ :: _ =>
            arn <- lookup (alarm_topics options) region ;; ret (Some arn)
        end) ;;
     request
       (CreateAutoRecoveryAlarm region (cluster_name (lo_options options))
          iid0 alarm_sns_topic_arn)
       (fun h => create_auto_recovery_alarm cloud h region
                   (cluster_name (lo_options options)) iid0
                   alarm_sns_topic_arn)) s0 h0 = (r0, s0', ev0) ->
    Forall (fun e => is_associate e = false) ev0).
  { intros iid0 s0 h0 r0 s0' ev0 Hrun0.
    eapply (Hquiet _ [KCreateAutoRecoveryAlarm] [XExternal; XKey])
      in Hrun0; [tauto|footprint|simpl; intuition discriminate]. }
  destruct (use_dmz (lo_options options)) eqn:Hdmz.
  2:{ rewrite bind_ret in H6. apply Halarm in H6. exfalso.
      eapply Hstop; [|reflexivity]. quiet_list. }
  unfold allocation_id_of in H6. rewrite bind_assoc in H6.
  destruct (AllocationId ip) as [a|] eqn:Halloc.
  2:{ rewrite bind_raise in H6. inversion H6; subst. exfalso.
      eapply Hstop; [|reflexivity]. quiet_list. }
  rewrite bind_ret in H6.
  assert (Hshape : exists tail,
    e6 = AssociateAddress region iid a :: tail
    /\ Forall (fun e => is_associate e = false) tail).
  { unfold bind at 1 in H6. unfold request at 1 in H6.
    destruct (associate_address cloud _ region iid a) as [x|[]].
    - inversion H6; subst. exists []. split; [reflexivity|constructor].
    - match type of H6 with
      | (let (_, _) := ?m ?s0 ?h0 in _) = _ =>
          destruct (m s0 h0) as [[r7 s7] e7] eqn:H7
      end.
      inversion H6; subst. exists e7. split; [reflexivity|].
      eapply Halarm. exact H7. }
  destruct Hshape as (tail & -> & Hq7).
  assert (Hsplit : before
                   = e1 ++ [RunInstances region (node_type_of is_seed)
                              (PrivateIp ip) (SubnetId subnet) group
                              (image_id ami);
                            CreateTags region iid
                              [mkTag "Name"
                                 (cluster_name (lo_options options))]]
                     ++ e5
                   /\ AssociateAddress region' instance_id allocation_id
                      = AssociateAddress region iid a
                   /\ after = tail).
  { apply split_unique; [|quiet_list..|reflexivity].
    rewrite <- Hev. rewrite <- !app_assoc. reflexivity. }
  destruct Hsplit as (-> & Heq & ->). inversion Heq; subst.
  split; [reflexivity|]. split; [reflexivity|]. split; [reflexivity|].
  split; [|split].
  - destruct Hfound as (earlier & state & -> & Hstate & Hne).
    exists (e1 ++ [RunInstances region (node_type_of is_seed)
                     (PrivateIp ip) (SubnetId subnet) group (image_id ami);
                   CreateTags region iid
                     [mkTag "Name" (cluster_name (lo_options options))]]
            ++ earlier), state.
    split; [now rewrite <- !app_assoc|]. split; [|exact Hne].
    rewrite <- Hstate. f_equal. rewrite <- !app_assoc. reflexivity.
  - exists e1,
      (CreateTags region iid
         [mkTag "Name" (cluster_name (lo_options options))] :: e5),
      others.
    split; [reflexivity|exact Hrun].
  - quiet_list.
Qed.

(** ** The nodes a run launches *)

Lemma launched_nodes_app e1 e2 :
  launched_nodes (e1 ++ e2) = launched_nodes e1 ++ launched_nodes e2.
Proof. unfold launched_nodes. apply flat_map_app. Qed.

Lemma unpaced_launched_nodes ev : pacing ev = [] -> launched_nodes ev = [].
Proof.
  induction ev as [|e ev IH]; [reflexivity|].
  change (e :: ev) with ([e] ++ ev).
  rewrite pacing_app, launched_nodes_app. intros H.
  apply app_eq_nil in H as [He Hev]. rewrite (IH Hev), app_nil_r.
  unfold pacing in He. simpl in He. rewrite app_nil_r in He.
  destruct e; try reflexivity. now destruct node_type.
Qed.

Lemma no_launch_launched_nodes ev : no_launch ev -> launched_nodes ev = [].
Proof.
  induction ev as [|e ev IH]; intros Hno; [reflexivity|].
  change (e :: ev) with ([e] ++ ev). rewrite launched_nodes_app.
  rewrite IH by (intros x Hx; apply Hno; now right).
  rewrite app_nil_r. specialize (Hno e (or_introl eq_refl)).
  now destruct e.
Qed.

Lemma single_launch ev is_seed region ip sid gid img :
  (forall e, In e ev -> is_launch_request e = true ->
     e = RunInstances region (node_type_of is_seed) ip sid gid img) ->
  pacing ev = [launch_pace is_seed] ->
  launched_nodes ev = [(region, node_type_of is_seed, ip)].
Proof.
  induction ev as [|e ev IH]; intros Hall Hp; [discriminate|].
  change (e :: ev) with ([e] ++ ev) in *.
  rewrite pacing_app in Hp. rewrite launched_nodes_app.
  destruct (is_launch_request e) eqn:He.
  - rewrite (Hall e (or_introl eq_refl) He) in *.
    assert (Hrest : pacing ev = []).
    { unfold pacing at 1 in Hp. simpl in Hp. rewrite app_nil_r in Hp.
      destruct is_seed; simpl in Hp; now inversion Hp. }
    rewrite (@unpaced_launched_nodes _ Hrest). reflexivity.
  - assert (Hnone : pacing [e] = [] /\ launched_nodes [e] = []
                    \/ exists rest, pacing [e] = Delay :: rest).
    { destruct e; try discriminate; try (left; split; reflexivity).
      unfold pacing. simpl. destruct (seconds =? pacing_delay)%Z.
      - right. now exists [].
      - left. split; reflexivity. }
    destruct Hnone as [[Hp0 Hl0]|(rest & Hd)].
    + rewrite Hl0. rewrite Hp0 in Hp. apply IH; [|exact Hp].
      intros x Hx. apply Hall. now right.
    + rewrite Hd in Hp. destruct is_seed; discriminate.
Qed.

Section Yields.
Lemma yields_bind {A B} L1 L2 (m : M A) (f : A -> M B) :
  yields L1 m -> (forall a, yields L2 (f a)) -> yields (L1 ++ L2) (bind m f).
Proof.
  intros Hm Hf s h b s' ev H. apply bind_returned in H.
  destruct H as (a & s1 & e1 & e2 & H1 & H2 & ->).
  apply Hm in H1 as [-> <-]. apply Hf in H2 as [-> <-].
  split; [reflexivity|apply launched_nodes_app].
Qed.

Lemma yields_unpaced {A} (m : M A) : unpaced m -> yields [] m.
Proof.
  intros Hm s h a s' ev H. apply Hm in H as [-> Hp].
  split; [reflexivity|now apply unpaced_launched_nodes].
Qed.

Lemma yields_ret {A} (a : A) : yields [] (ret a).
Proof. intros s h b s' ev H. inversion H; subst. auto. Qed.

Lemma yields_sleep n : yields [] (sleep n).
Proof. intros s h b s' ev H. inversion H; subst. auto. Qed.

Lemma yields_get_store {B} L (f : Store -> M B) :
  (forall s0, yields L (f s0)) -> yields L (bind get_store f).
Proof.
  intros Hf s h b s' ev H. rewrite bind_get_store in H. now apply Hf in H.
Qed.

Lemma yields_lookup {V} (d : Dict.t V) k : yields [] (lookup d k).
Proof.
  intros s h b s' ev H. apply lookup_inv in H. destruct H as (-> & -> & _).
  auto.
Qed.

Lemma yields_subnet_for subnets i : yields [] (subnet_for subnets i).
Proof.
  intros s h b s' ev H. apply subnet_for_inv in H.
  destruct H as (-> & -> & _). auto.
Qed.

Lemma yields_eq {A} L L' (m : M A) : yields L m -> L = L' -> yields L' m.
Proof. intros Hm <-. exact Hm. Qed.

Lemma yields_for_each {X} K (body : X -> M unit) : forall l,
  (forall x, yields (K x) (body x)) ->
  yields (flat_map K l) (for_each l body).
Proof.
  induction l as [|x l IH]; intros Hbody; simpl; [apply yields_ret|].
  apply yields_bind; [apply Hbody|intros _; now apply IH].
Qed.

Lemma yields_for_enumerate {X} K (body : nat -> X -> M unit) : forall l i0,
  (forall i x, yields (K i x) (body i x)) ->
  yields (enumerated K i0 l) (for_enumerate i0 l body).
Proof.
  induction l as [|x l IH]; intros i0 Hbody; simpl; [apply yields_ret|].
  apply yields_bind; [apply Hbody|intros _; now apply IH].
Qed.

Lemma yields_fold_each {X Acc} K (body : Acc -> X -> M Acc) : forall l acc,
  (forall acc x, yields (K x) (body acc x)) ->
  yields (flat_map K l) (fold_each l acc body).
Proof.
  induction l as [|x l IH]; intros acc Hbody; simpl; [apply yields_ret|].
  apply yields_bind; [apply Hbody|intros acc'; now apply IH].
Qed.

Lemma yields_fold_enumerate {X Acc} K (body : Acc -> nat -> X -> M Acc) :
  forall l i0 acc,
    (forall acc i x, yields (K i x) (body acc i x)) ->
    yields (enumerated K i0 l) (fold_enumerate i0 l acc body).
Proof.
  induction l as [|x l IH]; intros i0 acc Hbody; simpl; [apply yields_ret|].
  apply yields_bind; [apply Hbody|intros acc'; now apply IH].
Qed.
End Yields.

Lemma enumerated_all {X Y} (f : X -> Y) (l : list X) : forall i0,
  enumerated (fun _ x => [f x]) i0 l = map f l.
Proof.
  induction l as [|x l IH]; intros i0; simpl; [reflexivity|].
  now rewrite IH.
Qed.

Lemma enumerated_behind {X Y} (f : X -> Y) (stop : Z) (l : list X) :
  forall i0,
    enumerated
      (fun i x => if (stop <=? Z.of_nat i)%Z then [f x] else []) i0 l
    = map f (skipn (Z.to_nat stop - i0) l).
Proof.
  induction l as [|x l IH]; intros i0; cbn [enumerated].
  - now rewrite skipn_nil.
  - rewrite IH. destruct (stop <=? Z.of_nat i0)%Z eqn:E.
    + apply Z.leb_le in E.
      replace (Z.to_nat stop - i0) with 0 by lia.
      replace (Z.to_nat stop - S i0) with 0 by lia. reflexivity.
    + apply Z.leb_gt in E.
      replace (Z.to_nat stop - i0) with (S (Z.to_nat stop - S i0)) by lia.
      reflexivity.
Qed.

Section LaunchedNodes.
Variable cloud : Cloud.
Variable poll_budget : nat.
Variable options : LaunchOptions.

Lemma launch_instance_yields region ip ami subnet group is_seed :
  yields [(region, node_type_of is_seed, PrivateIp ip)]
    (launch_instance cloud poll_budget region ip ami subnet group is_seed
       options).
Proof.
  intros s h [] s' ev H.
  pose proof H as H'. apply launch_instance_pacing in H'.
  destruct H' as (Hs & _ & Hp).
  apply launch_instance_requests in H. destruct H as (_ & Hall).
  split; [exact Hs|]. eapply single_launch; [exact Hall|exact (Hp eq_refl)].
Qed.

Lemma launch_seed_nodes_yields :
  yields (nodes_of SEED (fun ips => ips) (seed_nodes options))
    (launch_seed_nodes cloud poll_budget options).
Proof.
  unfold launch_seed_nodes. cbv zeta.
  eapply yields_eq;
    [apply yields_bind; [|intros ?; apply yields_ret]|apply app_nil_r].
  unfold nodes_of.
  apply yields_fold_each. intros acc [region ips].
  apply yields_get_store. intros s0.
  eapply yields_eq;
    [apply yields_bind; [apply yields_lookup|intros sg]|reflexivity].
  eapply yields_eq;
    [|apply (enumerated_all (fun a => (region, SEED, PrivateIp a)) ips 0)].
  apply yields_fold_enumerate. intros acc' i ip.
  eapply yields_eq;
    [apply yields_bind; [apply yields_lookup|intros ami]|reflexivity].
  eapply yields_eq;
    [apply yields_bind; [apply yields_subnet_for|intros subnet]
    |reflexivity].
  eapply yields_eq;
    [apply yields_bind;
       [apply (launch_instance_yields region ip ami subnet _ true)
       |intros _]
    |reflexivity].
  apply (@yields_bind _ _ [] []); [|intros _; apply yields_ret].
  destruct (_ <? _)%Z; [apply yields_sleep|apply yields_ret].
Qed.

Lemma launch_normal_nodes_yields s0 :
  forall h a s' ev,
    launch_normal_nodes cloud poll_budget options s0 h
    = (Return a, s', ev) ->
    s' = s0
    /\ launched_nodes ev
       = nodes_of NORMAL (skipn (Z.to_nat (seed_count options)))
           (node_ips s0).
Proof.
  intros h a s' ev H. unfold launch_normal_nodes in H.
  rewrite bind_get_store in H. revert H.
  match goal with
  | |- ?m _ _ = _ -> _ =>
      assert (Hm : yields
        (nodes_of NORMAL (skipn (Z.to_nat (seed_count options)))
           (node_ips s0)) m)
  end.
  2:{ apply Hm. }
  unfold nodes_of. apply yields_for_each. intros [region ips]. cbv zeta.
  apply yields_get_store. intros s1.
  eapply yields_eq;
    [apply yields_bind; [apply yields_lookup|intros sg]|reflexivity].
  eapply yields_eq;
    [|rewrite <- (Nat.sub_0_r (Z.to_nat (seed_count options)));
      apply (enumerated_behind (fun a => (region, NORMAL, PrivateIp a))
               (seed_count options) ips 0)].
  apply yields_for_enumerate. intros i ip.
  destruct (seed_count options <=? Z.of_nat i)%Z; [|apply yields_ret].
  eapply yields_eq;
    [apply yields_bind; [apply yields_sleep|intros _]|reflexivity].
  eapply yields_eq;
    [apply yields_bind; [apply yields_lookup|intros ami]|reflexivity].
  eapply yields_eq;
    [apply yields_bind; [apply yields_subnet_for|intros subnet]
    |reflexivity].
  apply (launch_instance_yields region ip ami subnet _ false).
Qed.
End LaunchedNodes.

Lemma allocate_nothing cloud iter_hosts quota tk : forall items s h r s' ev,
  (quota <= 0)%Z ->
  for_each items (fun '(region, subnets) =>
    allocate_in_region cloud iter_hosts region subnets quota tk) s h
  = (r, s', ev) ->
  s' = s.
Proof.
  induction items as [|[region subnets] items IH]; intros s h r s' ev Hq H.
  - now inversion H.
  - cbn [for_each] in H. unfold bind in H.
    rewrite allocate_in_region_without_quota in H by assumption.
    destruct (short_subnet iter_hosts subnets); [now inversion H|].
    destruct (for_each items _ s (h ++ [])) as [[r1 s1] e1] eqn:Hrest.
    inversion H; subst. eapply IH; eauto.
Qed.

Lemma returned_quiet {A} ks R xs (m : M A) s h a s' ev :
  obeys ks R xs m ->
  ~ In KLaunchSeed ks -> ~ In KLaunchNormal ks ->
  m s h = (Return a, s', ev) ->
  R s s' /\ launched_nodes ev = [].
Proof.
  intros Hm Hs Hn H. split.
  - now destruct (Hm _ _ _ _ _ H) as (_ & HR & _).
  - apply no_launch_launched_nodes. eapply no_launch_of_obeys; eauto.
Qed.

Lemma nodes_of_selection node_type sc topology :
  NoDup (Dict.keys topology) ->
  nodes_of node_type (fun ips => ips) (pick_seed_node_ips topology sc)
  = nodes_of node_type (slice_to sc) topology.
Proof.
  intros Hnd. rewrite pick_seed_node_ips_map by assumption.
  unfold nodes_of, Dict.items.
  induction topology as [|[region ips] topology IH]; [reflexivity|].
  cbn [map flat_map]. rewrite IH; [reflexivity|].
  now inversion Hnd.
Qed.

(** X23. Every node is launched exactly once. When [create_cluster] returns,
    its launch requests are, in this order: for every region of the topology
    it leaves, in the order of the topology, the first [min(cluster_size,
    3)] nodes of the region as seeds; then, region by region again, the
    remaining nodes as normal nodes. So every recorded node has exactly one
    launch request, for its own private address. *)
Theorem every_node_is_launched_once
    (cloud : Cloud) (iter_hosts : string -> list IpAddress)
    (poll_budget : nat) (options : Options) (s : Store) (h : History)
    (s' : Store) (ev : list Event) :
  create_cluster cloud iter_hosts poll_budget options s h
  = (Return tt, s', ev) ->
  let k := Z.to_nat (Z.min (cluster_size options) 3) in
  launched_nodes ev
  = nodes_of SEED (firstn k) (node_ips s')
    ++ nodes_of NORMAL (skipn k) (node_ips s').
Proof.
  pose proof preorder_eq as HR.
  intros H k. unfold create_cluster in H.
  apply bind_returned in H.
  destruct H as (version & s1 & e1 & e2 & H1 & H & ->).
  eapply returned_quiet in H1;
    [|apply (@validate_artifact_version_obeys cloud eq HR)
     |simpl; intuition discriminate..].
  destruct H1 as [<- Hl1]. rewrite launched_nodes_app, Hl1. cbn [app].
  apply bind_returned in H.
  destruct H as ([] & s2 & e3 & e4 & H2 & H & ->).
  eapply (@returned_quiet _ [] eq [XValue]) in H2;
    [|unfold read_environment; destruct (forallb _ _); footprint
     |simpl; intuition discriminate..].
  destruct H2 as [<- Hl2]. rewrite launched_nodes_app, Hl2. cbn [app].
  apply bind_returned in H.
  destruct H as (certificate & s3 & e5 & e6 & H3 & H & ->).
  eapply (@returned_quiet _ [KGenerateCertificate] eq [XExternal]) in H3;
    [|unfold generate_certificate; footprint
     |simpl; intuition discriminate..].
  destruct H3 as [<- Hl3]. rewrite launched_nodes_app, Hl3. cbn [app].
  destruct certificate as [certificate|]; [|discriminate].
  rewrite bind_modify in H.
  unfold create_cluster_guarded, try_except in H.
  destruct (create_cluster_body _ _ _ _ _ _) as [[[[]|e|] sb] eb]
    eqn:Hbody.
  2:{ destruct (bind _ _ sb _) as [[rc sc] ec] eqn:Hc.
      inversion H; subst. apply bind_inv in Hc.
      destruct Hc as [(a & s4 & e7 & e8 & _ & Hr & _)
                     |[(x & _ & Hx)|[_ Hx]]]; discriminate. }
  2:{ discriminate. }
  inversion H; subst sb eb. clear H.
  unfold create_cluster_body in Hbody.
  apply bind_returned in Hbody.
  destruct Hbody as (amis & s4 & e7 & e8 & H4 & H & ->).
  eapply returned_quiet in H4;
    [|apply (@find_taupage_amis_obeys cloud eq HR)
     |simpl; intuition discriminate..].
  destruct H4 as [<- Hl4]. rewrite launched_nodes_app, Hl4. cbn [app].
  apply bind_returned in H.
  destruct H as (d & s5 & e9 & e10 & H5 & H & ->).
  pose proof H5 as H5'.
  eapply returned_quiet in H5';
    [|apply (@get_subnets_obeys cloud eq HR)
     |simpl; intuition discriminate..].
  destruct H5' as [<- Hl5]. rewrite launched_nodes_app, Hl5. cbn [app].
  unfold get_subnets in H5.
  apply get_subnets_sourced in H5; [|apply filled_empty].
  destruct H5 as (_ & [Hnd _] & _).
  apply bind_returned in H.
  destruct H as ([] & s6 & e11 & e12 & H6 & H & ->).
  pose proof H6 as H6'.
  eapply returned_quiet in H6';
    [|apply (@allocate_ip_addresses_obeys cloud anyhow)
     |simpl; intuition discriminate..];
    [|split; constructor|intros ? ? ? ?; constructor].
  destruct H6' as [_ Hl6]. rewrite launched_nodes_app, Hl6. cbn [app].
  assert (Hempty : (cluster_size options < 0)%Z -> node_ips s6 = []).
  { intros Hneg. unfold allocate_ip_addresses in H6.
    apply allocate_nothing in H6; [now subst s6|lia]. }
  apply allocate_ip_addresses_round_robin in H6; [|exact Hnd].
  destruct H6 as (_ & Hkeys & _).
  apply bind_returned in H.
  destruct H as (topics & s7 & e13 & e14 & H7 & H & ->).
  eapply (@returned_quiet _ [KSetupSnsTopics] eq [XExternal]) in H7;
    [|destruct (_ || _); footprint|simpl; intuition discriminate..].
  destruct H7 as [<- Hl7]. rewrite launched_nodes_app, Hl7. cbn [app].
  apply bind_returned in H.
  destruct H as ([] & s8 & e15 & e16 & H8 & H & ->).
  eapply (@returned_quiet _ dns_kinds eq [XExternal; XNoZone]) in H8;
    [| |simpl; intuition discriminate..].
  2:{ destruct (hosted_zone options) as [zone|]; [|footprint].
      destruct (String.eqb zone ""); [footprint|].
      now apply setup_dns_records_obeys. }
  destruct H8 as [<- Hl8]. rewrite launched_nodes_app, Hl8. cbn [app].
  apply bind_returned in H.
  destruct H as ([] & s9 & e17 & e18 & H9 & H & ->).
  eapply (@returned_quiet _ group_kinds
            (fun s s' => node_ips s' = node_ips s)
            [XExternal; XIndex; XKey]) in H9;
    [| |simpl; intuition discriminate..].
  2:{ apply setup_security_groups_obeys; [split; congruence|].
      intros ? ? ?. reflexivity. }
  destruct H9 as [Hsame Hl9]. rewrite launched_nodes_app, Hl9. cbn [app].
  cbv zeta in H. rewrite bind_get_store in H.
  apply bind_returned in H.
  destruct H as (profile & s10 & e19 & e20 & H10 & H & ->).
  eapply (@returned_quiet _ [KEnsureInstanceProfile] eq [XExternal]) in H10;
    [|footprint|simpl; intuition discriminate..].
  destruct H10 as [<- Hl10]. rewrite launched_nodes_app, Hl10. cbn [app].
  apply bind_returned in H.
  destruct H as ([] & s11 & e21 & e22 & H11 & H12 & ->).
  apply launch_seed_nodes_yields in H11. destruct H11 as [-> Hseeds].
  apply launch_normal_nodes_yields in H12. destruct H12 as [-> Hnormal].
  rewrite launched_nodes_app, Hseeds, Hnormal.
  cbn [seed_nodes seed_count].
  rewrite nodes_of_selection by (now rewrite Hsame).
  fold k. f_equal.
  destruct (Z.ltb_spec (cluster_size options) 0) as [Hneg|Hpos].
  - assert (Hnone : node_ips s9 = []) by (rewrite Hsame; now apply Hempty).
    rewrite Hnone. reflexivity.
  - unfold nodes_of. apply flat_map_ext. intros [region ips].
    unfold k. now rewrite slice_to_firstn by lia.
Qed.

(** ** The further properties on the small cloud *)

Module Checks.
Import Scenario Cases.

(** *** Options *)

Lemma docker_image_gives_its_tag_witness :
  validate_artifact_version (cloud calm) docker_options empty_store []
  = (Return ("registry.example.org/planb/cassandra:3.7", "3.7"),
     empty_store, []).
Proof.
  destruct (@docker_image_gives_its_tag (cloud calm) docker_options
              "registry.example.org/planb/cassandra:3.7" empty_store [])
    as (Hrun & _ & _).
  - reflexivity.
  - discriminate.
  - reflexivity.
  - exact Hrun.
Defined.

Lemma refused_options_create_nothing_witness :
  (snd (fst careless_run) = empty_store
   /\ (exists e, fst (fst careless_run) = Raise e)
   /\ Forall (fun e => kind e = KGetArtifactTags) (snd careless_run))
  /\ (conflicting_run
      = (Raise (UsageError conflict_options_msg), empty_store, [])
      /\ String.get 40 conflict_options_msg = Some "010"%char
      /\ String.length conflict_options_msg = 92).
Proof.
  split.
  - destruct (@refused_options_create_nothing (cloud calm) iter_hosts 3
                careless_options empty_store [] (fst (fst careless_run))
                (snd (fst careless_run)) (snd careless_run))
      as (Hstore & Hraise & Hkinds & _).
    + right. reflexivity.
    + vm_compute. reflexivity.
    + auto.
  - destruct (@refused_options_create_nothing (cloud calm) iter_hosts 3
                conflicting_options empty_store []
                (fst (fst conflicting_run)) (snd (fst conflicting_run))
                (snd conflicting_run))
      as (Hstore & _ & _ & Hconflict).
    + left. reflexivity.
    + vm_compute. reflexivity.
    + destruct (Hconflict eq_refl) as [Hr Hev].
      split; [|split; reflexivity].
      rewrite (surjective_pairing conflicting_run).
      rewrite (surjective_pairing (fst conflicting_run)).
      now rewrite Hr, Hstore, Hev.
Defined.

Lemma environment_round_trip_witness :
  environment_dict (environment docker_options) = Some docker_environment
  /\ read_environment docker_options empty_store []
     = (Return tt, empty_store, []).
Proof.
  apply (@environment_round_trip docker_options docker_environment
           empty_store []).
  - reflexivity.
  - apply distinct_sound. reflexivity.
  - intros k [<-|[<-|[]]]; reflexivity.
Defined.

(** *** Lookups *)

Lemma find_taupage_amis_latest_witness :
  exists amis,
    find_taupage_amis (cloud calm) three_regions empty_store []
    = (Return amis, empty_store, map DescribeImages three_regions)
    /\ forall region, In region three_regions ->
         exists image,
           Dict.get region amis = Some image
           /\ In image the_images
           /\ forall other, In other the_images ->
                String.leb (image_name other) (image_name image) = true.
Proof.
  apply (@find_taupage_amis_latest (cloud calm) (fun _ => the_images)
           three_regions empty_store []).
  - intros region h _. reflexivity.
  - intros region _. discriminate.
Defined.

Lemma find_taupage_amis_stops_witness :
  find_taupage_amis patchy three_regions empty_store []
  = (Raise (Exception_ no_image_message), empty_store,
     map DescribeImages three_regions).
Proof.
  apply (@find_taupage_amis_stops patchy images_in
           ["eu-west-1"; "ap-south-1"] "eu-central-1" [] empty_store []).
  - intros r h _. reflexivity.
  - intros r [<-|[<-|[]]]; discriminate.
  - reflexivity.
Defined.

Lemma get_subnets_selects_witness :
  exists subnets,
    get_subnets (cloud calm) "internal-" three_regions empty_store []
    = (Return subnets, empty_store, map DescribeSubnets three_regions)
    /\ NoDup (Dict.keys subnets)
    /\ (forall region, In region three_regions ->
          Dict.get_list region subnets
          = selected "internal-" (subnets_in region))
    /\ (forall region,
          In region (Dict.keys subnets) <->
          In region three_regions
          /\ selected "internal-" (subnets_in region) <> [])
    /\ (forall region,
          ascending (key_le AvailabilityZone)
            (Dict.get_list region subnets)).
Proof.
  apply (@get_subnets_selects (cloud calm) "internal-" subnets_in
           three_regions empty_store []).
  - intros region h _. reflexivity.
  - intros region Hr subnet Hs.
    destruct Hr as [<-|[<-|[<-|[]]]]; simpl in Hs;
      repeat (destruct Hs as [<-|Hs]; [discriminate|]); destruct Hs.
  - apply distinct_sound. reflexivity.
Defined.

Lemma get_subnets_untagged_witness :
  get_subnets patchy "internal-" three_regions empty_store []
  = (Raise (KeyError "Tags"), empty_store,
     map DescribeSubnets three_regions).
Proof.
  apply (@get_subnets_untagged patchy "internal-" patchy_subnets
           ["eu-west-1"; "ap-south-1"] "eu-central-1" [] bare
           empty_store []).
  - intros r h _. reflexivity.
  - intros r Hr subnet Hs.
    destruct Hr as [<-|[<-|[]]]; simpl in Hs;
      repeat (destruct Hs as [<-|Hs]; [discriminate|]); destruct Hs.
  - right. now left.
  - reflexivity.
Defined.

(** *** Allocation *)

Lemma allocator_edge_inputs_witness :
  allocate_in_region (cloud calm) iter_hosts "eu-west-1" [tiny] 0 false
    empty_store []
  = (Raise (IpAddressPoolDepletedException "10.0.4.0/29"), empty_store, [])
  /\ allocate_in_region (cloud calm) iter_hosts "eu-west-1" [] 3 false
       empty_store []
     = (Raise ZeroDivisionError, empty_store, []).
Proof.
  split.
  - apply (proj1 (@allocator_edge_inputs (cloud calm) iter_hosts
                    "eu-west-1" [tiny] 0 false empty_store [])).
    lia.
  - apply (proj2 (@allocator_edge_inputs (cloud calm) iter_hosts
                    "eu-west-1" [crowded] 3 false empty_store [])).
    lia.
Defined.

Lemma recorded_addresses_well_addressed_witness :
  Forall (well_addressed true)
    (Dict.get_list "eu-central-1"
       (node_ips (snd (fst routable_allocation)))).
Proof.
  apply Forall_forall. intros a Ha.
  apply (@recorded_addresses_well_addressed (cloud calm) iter_hosts
           twin_subnets 2 true [] (fst (fst routable_allocation))
           (snd (fst routable_allocation)) (snd routable_allocation))
    with (region := "eu-central-1").
  - vm_compute. reflexivity.
  - exact Ha.
Defined.

Lemma make_dns_records_distinct_witness :
  NoDup
    (make_dns_records "eu-west-1" (Dict.get_list "eu-west-1" topology))
  /\ List.length
       (make_dns_records "eu-west-1" (Dict.get_list "eu-west-1" topology))
     = 4.
Proof.
  apply (@make_dns_records_distinct "eu-west-1"
           (Dict.get_list "eu-west-1" topology)).
  - apply distinct_sound. reflexivity.
  - intros ip Hip. vm_compute in Hip.
    repeat (destruct Hip as [<-|Hip]; [reflexivity|]). destruct Hip.
Defined.

(** *** Provisioning *)

Lemma setup_dns_records_upserts_witness :
  dns_setup
  = (Return tt, snd (fst routable_allocation),
     ListHostedZonesByName "db.example.org."
       :: dns_changes "planb" "db.example.org." the_zone
            (node_ips (snd (fst routable_allocation)))).
Proof.
  apply (@setup_dns_records_upserts (cloud calm) "planb" "db.example.org."
           [the_zone] (snd (fst routable_allocation)) []).
  - reflexivity.
  - intros h zone name records. reflexivity.
Defined.

Lemma created_groups_are_recorded_witness :
  node_ips (snd (fst group_setup))
  = node_ips (snd (fst routable_allocation))
  /\ Dict.get "eu-central-1" (security_groups (snd (fst group_setup)))
     = Some (mkSecurityGroup "sg-eu-central-1")
  /\ Dict.keys (security_groups (snd (fst group_setup)))
     = ["eu-west-1"; "eu-central-1"].
Proof.
  destruct (@created_groups_are_recorded (cloud calm) true "planb"
              (snd (fst routable_allocation)) (snd routable_allocation)
              (fst (fst group_setup)) (snd (fst group_setup))
              (snd group_setup))
    as (Htopology & Hcreated & Hkeys).
  - apply distinct_sound. reflexivity.
  - reflexivity.
  - vm_compute. reflexivity.
  - split; [exact Htopology|]. split.
    + apply (Hcreated (firstn 6 (snd group_setup)) "eu-central-1" "planb"
               "vpc-eu-central-1" (skipn 7 (snd group_setup))).
      * vm_compute. reflexivity.
      * reflexivity.
    + exact (Hkeys eq_refl).
Defined.

Lemma ingress_rules_cover_the_cluster_witness :
  In (AllFromGroup "sg-eu-central-1") central_rules
  /\ forall region a public_ip,
       In a (Dict.get_list region
               (node_ips (snd (fst routable_allocation)))) ->
       PublicIp a = Some public_ip ->
       In (TcpFromCidr 7001 (public_ip ++ "/32")) central_rules.
Proof.
  destruct (@ingress_rules_cover_the_cluster (cloud calm) true "planb"
              (snd (fst routable_allocation)) (snd routable_allocation)
              (fst (fst group_setup)) (snd (fst group_setup))
              (snd group_setup) eq_refl
              "eu-central-1" "sg-eu-central-1" central_rules)
    as (Hgroup & Hpublic & _).
  - vm_compute. tauto.
  - split; [exact Hgroup|exact (Hpublic eq_refl)].
Defined.

(** *** Launches *)

Lemma wait_while_pending_polls_witness :
  polls
  = (Return tt, empty_store,
     [DescribeInstanceState "eu-west-1" "i-1"; Sleep 5;
      DescribeInstanceState "eu-west-1" "i-1"])
  /\ describe_instance_state (cloud calm) [] "eu-west-1" "i-1"
     = inr "pending"
  /\ exists state,
       describe_instance_state (cloud calm)
         [DescribeInstanceState "eu-west-1" "i-1"; Sleep 5] "eu-west-1"
         "i-1"
       = inr state
       /\ state <> "pending".
Proof.
  destruct (@wait_while_pending_polls (cloud calm) "eu-west-1" "i-1" 3
              empty_store [] (Return tt) (snd (fst polls)) (snd polls))
    as (Hs & k & Hk & Hev & Hpend & Hlast).
  { vm_compute. reflexivity. }
  assert (Hone : k = 1).
  { destruct k as [|[|[|[|k]]]]; try reflexivity; try discriminate Hev;
      lia. }
  subst k. split; [|split].
  - rewrite (surjective_pairing polls).
    rewrite (surjective_pairing (fst polls)). rewrite Hs, Hev.
    reflexivity.
  - exact (Hpend 0 (Nat.lt_0_1)).
  - exact Hlast.
Defined.

Lemma launch_normal_nodes_pacing_witness :
  snd (fst normal_launches) = launch_store
  /\ exists k tail,
       pacing (snd normal_launches) = normal_pacing k ++ tail
       /\ k <= normal_total 3 (node_ips launch_store)
       /\ (tail = [] \/ tail = [Delay])
       /\ (Return tt = Return tt ->
           k = normal_total 3 (node_ips launch_store) /\ tail = []).
Proof.
  apply (@launch_normal_nodes_pacing (cloud calm) 3 launch_options
           launch_store [] (Return tt) (snd (fst normal_launches))
           (snd normal_launches)).
  vm_compute. reflexivity.
Defined.

Lemma launch_seed_nodes_pacing_witness :
  snd (fst seed_launches) = launch_store
  /\ pacing (snd seed_launches) = seed_pacing 6 0 6
  /\ last (pacing (snd seed_launches)) SeedLaunch <> Delay.
Proof.
  pose proof (@launch_seed_nodes_pacing (cloud calm) 3 launch_options
                launch_store [] (snd (fst seed_launches))
                (snd seed_launches)) as H.
  cbv zeta in H. destruct H as (Hstore & Hpacing & Hlast).
  - vm_compute. reflexivity.
  - split; [exact Hstore|]. split; [exact Hpacing|].
    intros Hdelay.
    assert (Hpos : 0 < seed_total (seed_nodes launch_options))
      by (vm_compute; lia).
    apply (Hlast Hpos) in Hdelay. vm_compute in Hdelay. discriminate.
Defined.

Lemma address_attached_once_running_witness :
  AllocationId routable_node = Some "eipalloc-1"
  /\ found_running (cloud calm) [] (firstn 7 (snd routable_launch))
       "eu-west-1" "i-1"
  /\ launched_as (cloud calm) [] (firstn 7 (snd routable_launch))
       (RunInstances "eu-west-1" SEED "10.0.3.11" "subnet-2a"
          "sg-eu-west-1" "ami-2")
       "i-1".
Proof.
  destruct (@address_attached_once_running (cloud calm) 3 "eu-west-1"
              routable_node (mkImage "Taupage-AMI-20160201" "ami-2") dmz_a
              "sg-eu-west-1" true routable_launch_options empty_store []
              (fst (fst routable_launch)) (snd (fst routable_launch))
              (snd routable_launch) eq_refl
              (firstn 7 (snd routable_launch)) "eu-west-1" "i-1"
              "eipalloc-1" (skipn 8 (snd routable_launch)))
    as (_ & _ & Halloc & Hfound & Hlaunched & _).
  - vm_compute. reflexivity.
  - auto.
Defined.

(** *** Whole runs *)

Lemma granted_addresses_stay_recorded_witness :
  exists a,
    In a (Dict.get_list "eu-central-1" (node_ips (snd (fst stuck_rollback))))
    /\ PublicIp a = Some "52.0.0.3"
    /\ AllocationId a = Some "eipalloc-3".
Proof.
  apply (@granted_addresses_stay_recorded (cloud stuck_faults) iter_hosts 3
           stuck_options empty_store stuck_history
           (fst (fst stuck_rollback)) (snd (fst stuck_rollback))
           (snd stuck_rollback) eq_refl
           (firstn 9 (snd stuck_rollback)) "eu-central-1"
           (skipn 10 (snd stuck_rollback))).
  - vm_compute. reflexivity.
  - vm_compute. reflexivity.
Defined.

Lemma launched_in_the_subnet_of_the_address_witness :
  exists subnet,
    offered (cloud calm) [] (snd two_regions) "eu-central-1" subnet
    /\ SubnetId subnet = "subnet-1b"
    /\ In "10.0.2.12" (iter_hosts (CidrBlock subnet)).
Proof.
  apply (@launched_in_the_subnet_of_the_address (cloud calm) iter_hosts 3
           two_regions_options empty_store [] (fst (fst two_regions))
           (snd (fst two_regions)) (snd two_regions))
    with (node_type := NORMAL) (group_id := "sg-eu-central-1")
         (image := "ami-2").
  - vm_compute. reflexivity.
  - vm_compute. tauto.
Defined.

Lemma every_node_is_launched_once_witness :
  launched_nodes (snd two_regions)
  = nodes_of SEED (firstn 3) topology ++ nodes_of NORMAL (skipn 3) topology.
Proof.
  apply (@every_node_is_launched_once (cloud calm) iter_hosts 3
           two_regions_options empty_store [] (snd (fst two_regions))
           (snd two_regions)).
  vm_compute. reflexivity.
Defined.

Lemma rollback_stops_at_the_first_refusal_witness :
  ((forall j,
      j < List.length (compensations stuck_options (snd (fst stuck_body))) ->
      accepted_at (cloud stuck_faults) (stuck_history ++ snd stuck_body)
        (compensations stuck_options (snd (fst stuck_body))) j)
   /\ stuck_rollback
      = (Raise (ClientError "InsufficientInstanceCapacity"),
         snd (fst stuck_body),
         snd stuck_body ++ compensations stuck_options (snd (fst stuck_body))))
  \/ (exists j x,
         refused_at (cloud stuck_faults) (stuck_history ++ snd stuck_body)
           (compensations stuck_options (snd (fst stuck_body))) j x
         /\ (forall i, i < j ->
               accepted_at (cloud stuck_faults)
                 (stuck_history ++ snd stuck_body)
                 (compensations stuck_options (snd (fst stuck_body))) i)
         /\ stuck_rollback
            = (Raise (external_exn x), snd (fst stuck_body),
               snd stuck_body
               ++ firstn (S j)
                    (compensations stuck_options (snd (fst stuck_body))))).
Proof.
  apply (@rollback_stops_at_the_first_refusal (cloud stuck_faults)
           iter_hosts 3 stuck_options stuck_history
           (ClientError "InsufficientInstanceCapacity")
           (snd (fst stuck_body)) (snd stuck_body)).
  vm_compute. reflexivity.
Defined.

Lemma compensation_comes_last_witness :
  exists built undone,
    snd stuck_run = built ++ undone
    /\ Forall (fun e => ~ In (kind e) cleanup_kinds) built
    /\ Forall (fun e => In (kind e) cleanup_kinds) undone
    /\ (undone <> [] -> exists x, fst (fst stuck_run) = Raise x).
Proof.
  apply (@compensation_comes_last (cloud stuck_faults) iter_hosts 3
           stuck_options empty_store [] (fst (fst stuck_run))
           (snd (fst stuck_run)) (snd stuck_run)).
  vm_compute. reflexivity.
Defined.

Lemma internal_mode_takes_no_routable_address_witness :
  Forall (fun e => ~ In (kind e) routable_kinds) (snd internal_guarded)
  /\ all_internal (snd (fst internal_guarded)).
Proof.
  apply (@internal_mode_takes_no_routable_address (cloud calm) iter_hosts 3
           two_regions_options stuck_history (fst (fst internal_guarded))
           (snd (fst internal_guarded)) (snd internal_guarded)).
  - reflexivity.
  - vm_compute. reflexivity.
Defined.

End Checks.
